(** * Quadrant algebra and tree algorithms of p4est (p4est_algorithms.c)

    A shallow embedding of the quadrant algebra, the tree predicates and the
    tree-level algorithms of [src/p4est_algorithms.c], followed by the
    properties established about them. *)

From Stdlib Require Import ZArith List Lia Bool Permutation Sorted.
Import ListNotations.

Local Open Scope Z_scope.
Local Open Scope bool_scope.

(* ================================================================= *)
(** ** Machine integers *)

(** Conversion of an integer to [uint32_t] and [uint64_t]. *)
Definition uint32 (z : Z) : Z := z mod 2 ^ 32.
Definition uint64 (z : Z) : Z := z mod 2 ^ 64.

(** Conversion of an integer to [int32_t] (two's complement wrap-around). *)
Definition int32 (z : Z) : Z := (z + 2 ^ 31) mod 2 ^ 32 - 2 ^ 31.

(** Conversion of an integer to [int8_t]. *)
Definition int8 (z : Z) : Z := (z + 2 ^ 7) mod 2 ^ 8 - 2 ^ 7.

(* ================================================================= *)
(** ** Constants and macros of the headers *)

(** Modelled from the spec: the macro [P4EST_MAXLEVEL] of p4est.h, which is
    not part of the sources at hand; the specification fixes [Lmax = 29]. *)
Definition P4EST_MAXLEVEL : Z := 29.

(** Modelled from the spec: [P4EST_ROOT_LEN], the root side [R = 1 << Lmax]. *)
Definition P4EST_ROOT_LEN : Z := Z.shiftl 1 P4EST_MAXLEVEL.

(** Modelled from the spec: [P4EST_QUADRANT_LEN (l)], the side
    [h(l) = 1 << (Lmax - l)] of a quadrant of level [l]. *)
Definition P4EST_QUADRANT_LEN (l : Z) : Z := Z.shiftl 1 (P4EST_MAXLEVEL - l).

(** Modelled from the spec: [P4EST_LAST_OFFSET (l)], the last offset
    [R - h(l)] of level [l]. *)
Definition P4EST_LAST_OFFSET (l : Z) : Z :=
  P4EST_ROOT_LEN - P4EST_QUADRANT_LEN l.

Definition SC_MIN (a b : Z) : Z := if a <? b then a else b.
Definition SC_MAX (a b : Z) : Z := if a >? b then a else b.

(** [sc_log2_lookup_table] of sc.c. *)
Definition sc_log2_lookup_table : list Z :=
  [-1; 0; 1; 1; 2; 2; 2; 2; 3; 3; 3; 3; 3; 3; 3; 3]
  ++ repeat 4 16 ++ repeat 5 32 ++ repeat 6 64 ++ repeat 7 128.

(** Modelled from the spec: the macros [SC_LOG2_8], [SC_LOG2_16] and
    [SC_LOG2_32] of sc.h index the table of sc.c bytewise; they realise
    [floor (log2 x)] on unsigned arguments, with [-1] at zero. *)
Definition SC_LOG2_8 (a : Z) : Z := nth (Z.to_nat a) sc_log2_lookup_table (-1).
Definition SC_LOG2_16 (a : Z) : Z :=
  if a >? 255 then SC_LOG2_8 (Z.shiftr a 8) + 8 else SC_LOG2_8 a.
Definition SC_LOG2_32 (a : Z) : Z :=
  if a >? 65535 then SC_LOG2_16 (Z.shiftr a 16) + 16 else SC_LOG2_16 a.

(* ================================================================= *)
(** ** Quadrants *)

(** The payload slot of a quadrant: the union [p] holds either the user data
    pointer or the piggy tree index. *)
Inductive payload_t : Type :=
| user_data (ptr : Z)
| piggy (which_tree : Z).

(** The null pointer. *)
Definition NULL : Z := 0.

Record p4est_quadrant_t : Type := mkquad {
  x : Z;          (* int32_t *)
  y : Z;          (* int32_t *)
  level : Z;      (* int8_t *)
  p : payload_t
}.

(** Reading the two members of the union. *)
Definition piggy_which_tree (q : p4est_quadrant_t) : Z :=
  match p q with piggy t => t | user_data a => int32 a end.
Definition p_user_data (q : p4est_quadrant_t) : Z :=
  match p q with user_data a => a | piggy t => uint32 t end.

Definition set_xyl (q : p4est_quadrant_t) (a b l : Z) : p4est_quadrant_t :=
  mkquad a b l (p q).
Definition set_user_data (q : p4est_quadrant_t) (a : Z) : p4est_quadrant_t :=
  mkquad (x q) (y q) (level q) (user_data a).
Definition set_which_tree (q : p4est_quadrant_t) (t : Z) : p4est_quadrant_t :=
  mkquad (x q) (y q) (level q) (piggy t).

(** A C truth value [0]/[1] from a Boolean. *)
Definition sign3 (diff : Z) : Z :=
  if diff =? 0 then 0 else if diff <? 0 then -1 else 1.

Definition p4est_quadrant_compare (q1 q2 : p4est_quadrant_t) : Z :=
  let exclorx := uint32 (Z.lxor (x q1) (x q2)) in
  let exclory := uint32 (Z.lxor (y q1) (y q2)) in
  if (exclory =? 0) && (exclorx =? 0) then
    level q1 - level q2
  else if SC_LOG2_32 exclory >=? SC_LOG2_32 exclorx then
    let p1 := y q1 + (if y q1 >=? 0 then 0 else Z.shiftl 1 (P4EST_MAXLEVEL + 2)) in
    let p2 := y q2 + (if y q2 >=? 0 then 0 else Z.shiftl 1 (P4EST_MAXLEVEL + 2)) in
    sign3 (p1 - p2)
  else
    let p1 := x q1 + (if x q1 >=? 0 then 0 else Z.shiftl 1 (P4EST_MAXLEVEL + 2)) in
    let p2 := x q2 + (if x q2 >=? 0 then 0 else Z.shiftl 1 (P4EST_MAXLEVEL + 2)) in
    sign3 (p1 - p2).

Definition p4est_quadrant_compare_piggy (q1 q2 : p4est_quadrant_t) : Z :=
  let diff := int32 (piggy_which_tree q1 - piggy_which_tree q2) in
  if diff =? 0 then p4est_quadrant_compare q1 q2
  else if diff <? 0 then -1 else 1.

Definition p4est_quadrant_is_equal (q1 q2 : p4est_quadrant_t) : bool :=
  (level q1 =? level q2) && (x q1 =? x q2) && (y q1 =? y q2).

Definition p4est_quadrant_child_id (q : p4est_quadrant_t) : Z :=
  if level q =? 0 then 0
  else
    let id := 0 in
    let id := Z.lor id
      (if Z.land (x q) (P4EST_QUADRANT_LEN (level q)) =? 0 then 0 else 1) in
    let id := Z.lor id
      (if Z.land (y q) (P4EST_QUADRANT_LEN (level q)) =? 0 then 0 else 2) in
    id.

Definition p4est_quadrant_is_inside (q : p4est_quadrant_t) : bool :=
  ((x q >=? 0) && (x q <? P4EST_ROOT_LEN)) &&
  ((y q >=? 0) && (y q <? P4EST_ROOT_LEN)).

Definition p4est_quadrant_is_valid (q : p4est_quadrant_t) : bool :=
  ((level q >=? 0) && (level q <=? P4EST_MAXLEVEL)) &&
  ((x q >=? 0) && (x q <? P4EST_ROOT_LEN)) &&
  ((y q >=? 0) && (y q <? P4EST_ROOT_LEN)) &&
  (Z.land (x q) (P4EST_QUADRANT_LEN (level q) - 1) =? 0) &&
  (Z.land (y q) (P4EST_QUADRANT_LEN (level q) - 1) =? 0).

Definition p4est_quadrant_is_extended (q : p4est_quadrant_t) : bool :=
  ((level q >=? 0) && (level q <=? P4EST_MAXLEVEL)) &&
  (Z.land (x q) (P4EST_QUADRANT_LEN (level q) - 1) =? 0) &&
  (Z.land (y q) (P4EST_QUADRANT_LEN (level q) - 1) =? 0).

Definition p4est_quadrant_is_family (q0 q1 q2 q3 : p4est_quadrant_t) : bool :=
  if (level q0 =? 0) || negb (level q0 =? level q1) ||
     negb (level q0 =? level q2) || negb (level q0 =? level q3)
  then false
  else
    let inc := P4EST_QUADRANT_LEN (level q0) in
    ((int32 (x q0 + inc) =? x q1) && (y q0 =? y q1)) &&
    ((x q0 =? x q2) && (int32 (y q0 + inc) =? y q2)) &&
    ((x q1 =? x q3) && (y q2 =? y q3)).

Definition p4est_quadrant_is_ancestor (q r : p4est_quadrant_t) : bool :=
  if level q >=? level r then false
  else
    let exclorx := Z.shiftr (Z.lxor (x q) (x r)) (P4EST_MAXLEVEL - level q) in
    let exclory := Z.shiftr (Z.lxor (y q) (y r)) (P4EST_MAXLEVEL - level q) in
    (exclorx =? 0) && (exclory =? 0).

(** [p4est_quadrant_parent]: the result keeps the payload of the target [r]. *)
Definition p4est_quadrant_parent (q r : p4est_quadrant_t) : p4est_quadrant_t :=
  set_xyl r
    (Z.land (x q) (Z.lnot (P4EST_QUADRANT_LEN (level q))))
    (Z.land (y q) (Z.lnot (P4EST_QUADRANT_LEN (level q))))
    (int8 (level q - 1)).

Definition p4est_quadrant_sibling (q r : p4est_quadrant_t) (sibling_id : Z)
  : p4est_quadrant_t :=
  let addx := Z.land sibling_id 1 in
  let addy := Z.shiftr (Z.land sibling_id 2) 1 in
  let shift := P4EST_QUADRANT_LEN (level q) in
  set_xyl r
    (if addx =? 0 then Z.land (x q) (Z.lnot shift) else Z.lor (x q) shift)
    (if addy =? 0 then Z.land (y q) (Z.lnot shift) else Z.lor (y q) shift)
    (level q).

(** [p4est_quadrant_children]: the four targets [c0 .. c3] are updated. *)
Definition p4est_quadrant_children (q c0 c1 c2 c3 : p4est_quadrant_t)
  : p4est_quadrant_t * p4est_quadrant_t * p4est_quadrant_t * p4est_quadrant_t :=
  let c0' := set_xyl c0 (x q) (y q) (int8 (level q + 1)) in
  let c1' := set_xyl c1 (Z.lor (x c0') (P4EST_QUADRANT_LEN (level c0')))
                     (y c0') (level c0') in
  let c2' := set_xyl c2 (x c0')
                     (Z.lor (y c0') (P4EST_QUADRANT_LEN (level c0')))
                     (level c0') in
  let c3' := set_xyl c3 (x c1') (y c2') (level c0') in
  (c0', c1', c2', c3').

Definition p4est_quadrant_first_descendent (q fd : p4est_quadrant_t) (l : Z)
  : p4est_quadrant_t :=
  set_xyl fd (x q) (y q) (int8 l).

Definition p4est_quadrant_last_descendent (q ld : p4est_quadrant_t) (l : Z)
  : p4est_quadrant_t :=
  let shift := int32 (P4EST_QUADRANT_LEN (level q) - P4EST_QUADRANT_LEN l) in
  set_xyl ld (int32 (x q + shift)) (int32 (y q + shift)) (int8 l).

(** [p4est_nearest_common_ancestor]: closed form through the exclusive or. *)
Definition p4est_nearest_common_ancestor (q1 q2 r : p4est_quadrant_t)
  : p4est_quadrant_t :=
  let exclorx := uint32 (Z.lxor (x q1) (x q2)) in
  let exclory := uint32 (Z.lxor (y q1) (y q2)) in
  let maxclor := Z.lor exclorx exclory in
  let maxlevel := SC_LOG2_32 maxclor + 1 in
  let mask := Z.lnot (int32 (int32 (Z.shiftl 1 maxlevel) - 1)) in
  set_xyl r (Z.land (x q1) mask) (Z.land (y q1) mask)
    (int8 (SC_MIN (P4EST_MAXLEVEL - maxlevel) (SC_MIN (level q1) (level q2)))).

(** The loops of [p4est_nearest_common_ancestor_D].  [fuel] bounds the number
    of iterations; [None] stands for a loop that has not finished. *)
Fixpoint nca_promote (fuel : nat) (s : p4est_quadrant_t) (l : Z)
  : option p4est_quadrant_t :=
  if level s >? l then
    match fuel with
    | O => None
    | S f => nca_promote f (p4est_quadrant_parent s s) l
    end
  else Some s.

Fixpoint nca_climb (fuel : nat) (s1 s2 : p4est_quadrant_t)
  : option (p4est_quadrant_t * p4est_quadrant_t) :=
  if negb (p4est_quadrant_is_equal s1 s2) then
    match fuel with
    | O => None
    | S f => nca_climb f (p4est_quadrant_parent s1 s1) (p4est_quadrant_parent s2 s2)
    end
  else Some (s1, s2).

Definition p4est_nearest_common_ancestor_D (fuel : nat)
  (q1 q2 r : p4est_quadrant_t) : option p4est_quadrant_t :=
  let s1 := q1 in
  let s2 := q2 in
  (* first stage: promote the deepest one to the same level *)
  match nca_promote fuel s1 (level s2) with
  | None => None
  | Some s1 =>
    match nca_promote fuel s2 (level s1) with
    | None => None
    | Some s2 =>
      (* second stage: simultaneously go through their parents *)
      match nca_climb fuel s1 s2 with
      | None => None
      | Some (s1, _) => Some (set_xyl r (x s1) (y s1) (level s1))
      end
    end
  end.

(** The loop of [p4est_quadrant_linear_id], [n] iterations from index [i]. *)
Fixpoint linear_id_loop (n : nat) (i : Z) (a b id : Z) : Z :=
  match n with
  | O => id
  | S n' =>
    let id := Z.lor id (uint64 (Z.shiftl (Z.land a (uint64 (Z.shiftl 1 i))) i)) in
    let id := Z.lor id
                (uint64 (Z.shiftl (Z.land b (uint64 (Z.shiftl 1 i))) (i + 1))) in
    linear_id_loop n' (i + 1) a b id
  end.

Definition p4est_quadrant_linear_id (quadrant : p4est_quadrant_t) (l : Z) : Z :=
  (* this preserves the high bits from negative numbers *)
  let a := uint64 (Z.shiftr (x quadrant) (P4EST_MAXLEVEL - l)) in
  let b := uint64 (Z.shiftr (y quadrant) (P4EST_MAXLEVEL - l)) in
  linear_id_loop (Z.to_nat (l + (32 - P4EST_MAXLEVEL))) 0 a b 0.

(** The loop of [p4est_quadrant_set_morton] on the two coordinates. *)
Fixpoint set_morton_loop (n : nat) (i : Z) (id : Z) (a b : Z) : Z * Z :=
  match n with
  | O => (a, b)
  | S n' =>
    let a := Z.lor a
      (int32 (Z.shiftr (Z.land id (uint64 (Z.shiftl 1 (2 * i)))) i)) in
    let b := Z.lor b
      (int32 (Z.shiftr (Z.land id (uint64 (Z.shiftl 1 (2 * i + 1)))) (i + 1))) in
    set_morton_loop n' (i + 1) id a b
  end.

Definition p4est_quadrant_set_morton (quadrant : p4est_quadrant_t) (l : Z)
  (id : Z) : p4est_quadrant_t :=
  (* this may set the sign bit to create negative numbers *)
  let '(a, b) :=
    set_morton_loop (Z.to_nat (l + (32 - P4EST_MAXLEVEL))) 0 id 0 0 in
  set_xyl quadrant
    (int32 (Z.shiftl a (P4EST_MAXLEVEL - l)))
    (int32 (Z.shiftl b (P4EST_MAXLEVEL - l)))
    (int8 l).

Definition p4est_quadrant_is_next (q r : p4est_quadrant_t) : bool :=
  let mask := P4EST_QUADRANT_LEN (level r) - P4EST_QUADRANT_LEN (level q) in
  if (level q >? level r) &&
     (negb (Z.land (x q) mask =? mask) || negb (Z.land (y q) mask =? mask))
  then false
  else
    let minlevel := if level q >? level r then level r else level q in
    let i1 := p4est_quadrant_linear_id q minlevel in
    let i2 := p4est_quadrant_linear_id r minlevel in
    uint64 (i1 + 1) =? i2.

(* ================================================================= *)
(** ** Auxiliary predicates used to state properties *)

(** The representable range of a coordinate ([int32_t]). *)
Definition int32_range (z : Z) : Prop := - 2 ^ 31 <= z < 2 ^ 31.

(** Coordinates at most one root length outside of the root, the range the
    specification gives to extended quadrants. *)
Definition coord_in_band (c : Z) : bool :=
  (- P4EST_ROOT_LEN <=? c) && (c <? 2 * P4EST_ROOT_LEN).
Definition quadrant_in_band (q : p4est_quadrant_t) : bool :=
  coord_in_band (x q) && coord_in_band (y q).

(** The branch of [p4est_quadrant_compare] that decides on the y axis. *)
Definition compare_axis_y (q1 q2 : p4est_quadrant_t) : bool :=
  SC_LOG2_32 (uint32 (Z.lxor (y q1) (y q2))) >=?
  SC_LOG2_32 (uint32 (Z.lxor (x q1) (x q2))).

(** The assertion [maxlevel <= P4EST_MAXLEVEL] of
    [p4est_nearest_common_ancestor]: both quadrants lie in one tree. *)
Definition same_tree (q1 q2 : p4est_quadrant_t) : bool :=
  SC_LOG2_32 (Z.lor (uint32 (Z.lxor (x q1) (x q2)))
                    (uint32 (Z.lxor (y q1) (y q2)))) + 1 <=? P4EST_MAXLEVEL.

(** Coordinates and level agree (the payload slot is not compared). *)
Definition same_xyl (q r : p4est_quadrant_t) : Prop :=
  x q = x r /\ y q = y r /\ level q = level r.

(** A coordinate with its [m] low bits cleared. *)
Definition clear_low (c m : Z) : Z := Z.shiftl (Z.shiftr c m) m.

(** The ancestor of [q] at level [l <= level q]: the coordinates lose the
    bits below the side length of level [l]; the payload slot is kept. *)
Definition ancestor_at (q : p4est_quadrant_t) (l : Z) : p4est_quadrant_t :=
  set_xyl q (clear_low (x q) (P4EST_MAXLEVEL - l))
            (clear_low (y q) (P4EST_MAXLEVEL - l)) l.

(** The Morton index of a quadrant at the finest level: the interleaved bits
    of the two coordinates, taken as unsigned 32-bit patterns. *)
Definition morton_key (q : p4est_quadrant_t) : Z :=
  p4est_quadrant_linear_id q P4EST_MAXLEVEL.

(** The order that [p4est_quadrant_compare] realises on quadrants in the
    band: Morton index first, then level. *)
Definition quadrant_lt (q1 q2 : p4est_quadrant_t) : Prop :=
  morton_key q1 < morton_key q2 \/
  (morton_key q1 = morton_key q2 /\ level q1 < level q2).

Definition quadrant_le (q1 q2 : p4est_quadrant_t) : Prop :=
  morton_key q1 < morton_key q2 \/
  (morton_key q1 = morton_key q2 /\ level q1 <= level q2).

(* ================================================================= *)
(** ** Arrays of quadrants and the tree container *)

(** The value a freshly initialised quadrant is given in the model; it is
    also what an out-of-range array access yields (the C code never makes
    one under its assertions). *)
Definition quadrant_zero : p4est_quadrant_t := mkquad 0 0 0 (user_data NULL).

(** An [sc_array_t] of quadrants is the list of its elements;
    [elem_count] is its length. *)
Definition sc_array_index (array : list p4est_quadrant_t) (i : Z)
  : p4est_quadrant_t :=
  nth (Z.to_nat i) array quadrant_zero.

Definition elem_count (array : list p4est_quadrant_t) : Z :=
  Z.of_nat (length array).

(** [sc_array_resize]: cut, or extend by uninitialised elements. *)
Definition sc_array_resize (array : list p4est_quadrant_t) (n : Z)
  : list p4est_quadrant_t :=
  firstn (Z.to_nat n) array
  ++ repeat quadrant_zero (Z.to_nat n - length array).

(** Assignment to the element of index [i] of an array. *)
Fixpoint list_set {A : Type} (array : list A) (i : nat) (v : A) : list A :=
  match array, i with
  | [], _ => []
  | _ :: t, O => v :: t
  | h :: t, S j => h :: list_set t j v
  end.
Definition sc_array_set (array : list p4est_quadrant_t) (i : Z)
  (q : p4est_quadrant_t) : list p4est_quadrant_t :=
  if i <? 0 then array else list_set array (Z.to_nat i) q.

Record p4est_tree_t : Type := mktree {
  quadrants : list p4est_quadrant_t;
  quadrants_per_level : list Z;     (* P4EST_MAXLEVEL + 1 counters *)
  maxlevel : Z
}.

(** Reading and adding to a level counter. *)
Definition per_level_get (per_level : list Z) (l : Z) : Z :=
  nth (Z.to_nat l) per_level 0.
Definition per_level_add (per_level : list Z) (l : Z) (d : Z) : list Z :=
  if l <? 0 then per_level
  else list_set per_level (Z.to_nat l) (per_level_get per_level l + d).

(** Modelled from the spec: [sc_mempool_t] of sc_containers.c, which is not
    part of the sources at hand: a pool hands out handles of fixed-size
    blocks and counts the live ones in [elem_count]. *)
Record sc_mempool_t : Type := mkpool {
  mempool_elem_count : Z;
  mempool_next : Z
}.
Definition sc_mempool_alloc (pool : sc_mempool_t) : Z * sc_mempool_t :=
  (mempool_next pool,
   mkpool (mempool_elem_count pool + 1) (mempool_next pool + 1)).
Definition sc_mempool_free (pool : sc_mempool_t) (ptr : Z) : sc_mempool_t :=
  mkpool (mempool_elem_count pool - 1) (mempool_next pool).

(** The members of [p4est_t] the tree algorithms use. *)
Record p4est_t : Type := mkp4est {
  data_size : Z;
  user_data_pool : option sc_mempool_t;   (* may be NULL *)
  quadrant_pool : sc_mempool_t
}.

(** [p4est_quadrant_init_data].  The callback [init_fn] fills the user data
    block of the quadrant, which the model does not hold; the quadrant
    record itself is left as it is. *)
Definition p4est_quadrant_init_data (p4est : p4est_t) (quad : p4est_quadrant_t)
  : p4est_t * p4est_quadrant_t :=
  if data_size p4est >? 0 then
    match user_data_pool p4est with
    | Some pool =>
      let '(ptr, pool') := sc_mempool_alloc pool in
      (mkp4est (data_size p4est) (Some pool') (quadrant_pool p4est),
       set_user_data quad ptr)
    | None => (p4est, set_user_data quad NULL)
    end
  else (p4est, set_user_data quad NULL).

Definition p4est_quadrant_free_data (p4est : p4est_t) (quad : p4est_quadrant_t)
  : p4est_t * p4est_quadrant_t :=
  let p4est' :=
    if data_size p4est >? 0 then
      match user_data_pool p4est with
      | Some pool =>
        mkp4est (data_size p4est)
                (Some (sc_mempool_free pool (p_user_data quad)))
                (quadrant_pool p4est)
      | None => p4est
      end
    else p4est in
  (p4est', set_user_data quad NULL).

(** The loop shared by the tree predicates: [q1] is the previous element. *)
Fixpoint tree_is_sorted_loop (q1 : p4est_quadrant_t)
  (rest : list p4est_quadrant_t) : bool :=
  match rest with
  | [] => true
  | q2 :: rest' =>
    if p4est_quadrant_compare q1 q2 >=? 0 then false
    else tree_is_sorted_loop q2 rest'
  end.

Definition p4est_tree_is_sorted (tree : p4est_tree_t) : bool :=
  match quadrants tree with
  | [] => true
  | q1 :: rest => tree_is_sorted_loop q1 rest
  end.

Fixpoint tree_is_linear_loop (q1 : p4est_quadrant_t)
  (rest : list p4est_quadrant_t) : bool :=
  match rest with
  | [] => true
  | q2 :: rest' =>
    if p4est_quadrant_compare q1 q2 >=? 0 then false
    else if p4est_quadrant_is_ancestor q1 q2 then false
    else tree_is_linear_loop q2 rest'
  end.

Definition p4est_tree_is_linear (tree : p4est_tree_t) : bool :=
  match quadrants tree with
  | [] => true
  | q1 :: rest => tree_is_linear_loop q1 rest
  end.

Definition face_contact (q : p4est_quadrant_t) : Z :=
  let fc := 0 in
  let fc := Z.lor fc (if y q <? 0 then 1 else 0) in
  let fc := Z.lor fc (if x q >=? P4EST_ROOT_LEN then 2 else 0) in
  let fc := Z.lor fc (if y q >=? P4EST_ROOT_LEN then 4 else 0) in
  let fc := Z.lor fc (if x q <? 0 then 8 else 0) in
  fc.

Fixpoint tree_is_almost_sorted_loop (check_linearity : bool)
  (q1 : p4est_quadrant_t) (face_contact1 : Z)
  (rest : list p4est_quadrant_t) : bool :=
  match rest with
  | [] => true
  | q2 :: rest' =>
    let face_contact2 := face_contact q2 in
    if negb (Z.land face_contact1 5 =? 0) && negb (Z.land face_contact1 10 =? 0)
       && (face_contact1 =? face_contact2)
    then
      (* both quadrants are outside the same corner and may overlap *)
      tree_is_almost_sorted_loop check_linearity q2 face_contact2 rest'
    else if p4est_quadrant_compare q1 q2 >=? 0 then false
    else if check_linearity && p4est_quadrant_is_ancestor q1 q2 then false
    else tree_is_almost_sorted_loop check_linearity q2 face_contact2 rest'
  end.

Definition p4est_tree_is_almost_sorted (tree : p4est_tree_t)
  (check_linearity : bool) : bool :=
  match quadrants tree with
  | [] => true
  | q1 :: rest =>
    tree_is_almost_sorted_loop check_linearity q1 (face_contact q1) rest
  end.

Fixpoint tree_is_complete_loop (q1 : p4est_quadrant_t)
  (rest : list p4est_quadrant_t) : bool :=
  match rest with
  | [] => true
  | q2 :: rest' =>
    if negb (p4est_quadrant_is_next q1 q2) then false
    else tree_is_complete_loop q2 rest'
  end.

Definition p4est_tree_is_complete (tree : p4est_tree_t) : bool :=
  match quadrants tree with
  | [] => true
  | q1 :: rest => tree_is_complete_loop q1 rest
  end.

(* ================================================================= *)
(** ** Binary searches *)

(** The loop of [p4est_find_lower_bound]; [fuel] bounds the iterations and
    [None] stands for a loop that has not finished. *)
Fixpoint find_lower_bound_loop (fuel : nat) (array : list p4est_quadrant_t)
  (q : p4est_quadrant_t) (quad_low quad_high guess : Z) : option Z :=
  match fuel with
  | O => None
  | S fuel' =>
    (* compare two quadrants *)
    let cur := sc_array_index array guess in
    let comp := p4est_quadrant_compare q cur in
    (* check if guess is higher or equal q and there's room below it *)
    if (comp <=? 0) &&
       ((guess >? 0) &&
        (p4est_quadrant_compare q (sc_array_index array (guess - 1)) <=? 0))
    then
      let quad_high := guess - 1 in
      let guess := Z.quot (quad_low + quad_high + 1) 2 in
      find_lower_bound_loop fuel' array q quad_low quad_high guess
    (* check if guess is lower than q *)
    else if comp >? 0 then
      let quad_low := guess + 1 in
      if quad_low >? quad_high then Some (-1)
      else
        let guess := Z.quot (quad_low + quad_high) 2 in
        find_lower_bound_loop fuel' array q quad_low quad_high guess
    (* otherwise guess is the correct quadrant *)
    else Some guess
  end.

Definition p4est_find_lower_bound (fuel : nat) (array : list p4est_quadrant_t)
  (q : p4est_quadrant_t) (guess : Z) : option Z :=
  let count := elem_count array in
  find_lower_bound_loop fuel array q 0 (count - 1) guess.

(** The loop of [p4est_find_higher_bound]. *)
Fixpoint find_higher_bound_loop (fuel : nat) (array : list p4est_quadrant_t)
  (q : p4est_quadrant_t) (count quad_low quad_high guess : Z) : option Z :=
  match fuel with
  | O => None
  | S fuel' =>
    (* compare two quadrants *)
    let cur := sc_array_index array guess in
    let comp := p4est_quadrant_compare cur q in
    (* check if guess is lower or equal q and there's room above it *)
    if (comp <=? 0) &&
       ((guess <? count - 1) &&
        (p4est_quadrant_compare (sc_array_index array (guess + 1)) q <=? 0))
    then
      let quad_low := guess + 1 in
      let guess := Z.quot (quad_low + quad_high) 2 in
      find_higher_bound_loop fuel' array q count quad_low quad_high guess
    (* check if guess is higher than q *)
    else if comp >? 0 then
      let quad_high := guess - 1 in
      if quad_high <? quad_low then Some (-1)
      else
        let guess := Z.quot (quad_low + quad_high + 1) 2 in
        find_higher_bound_loop fuel' array q count quad_low quad_high guess
    (* otherwise guess is the correct quadrant *)
    else Some guess
  end.

Definition p4est_find_higher_bound (fuel : nat) (array : list p4est_quadrant_t)
  (q : p4est_quadrant_t) (guess : Z) : option Z :=
  let count := elem_count array in
  find_higher_bound_loop fuel array q count 0 (count - 1) guess.

(** All elements of an array lie in the band. *)
Definition array_in_band (array : list p4est_quadrant_t) : bool :=
  forallb quadrant_in_band array.

(** What the two searches are to return on [array] and [q]. *)
Definition lower_bound_result (array : list p4est_quadrant_t)
  (q : p4est_quadrant_t) (r : Z) : Prop :=
  (r = -1 /\
   forall i, 0 <= i < elem_count array ->
             p4est_quadrant_compare (sc_array_index array i) q < 0) \/
  (0 <= r < elem_count array /\
   p4est_quadrant_compare (sc_array_index array r) q >= 0 /\
   forall i, 0 <= i < r ->
             p4est_quadrant_compare (sc_array_index array i) q < 0).

Definition higher_bound_result (array : list p4est_quadrant_t)
  (q : p4est_quadrant_t) (r : Z) : Prop :=
  (r = -1 /\
   forall i, 0 <= i < elem_count array ->
             p4est_quadrant_compare (sc_array_index array i) q > 0) \/
  (0 <= r < elem_count array /\
   p4est_quadrant_compare (sc_array_index array r) q <= 0 /\
   forall i, r < i < elem_count array ->
             p4est_quadrant_compare (sc_array_index array i) q > 0).

(* ================================================================= *)
(** ** Sorting and searching arrays *)

(** Modelled from the spec: [sc_array_sort] of sc_containers.c, which is not
    part of the sources at hand; it sorts the array in place by the given
    comparison function (a [qsort]).  Elements that compare equal come out
    in the order an insertion sort leaves them in. *)
Fixpoint sort_insert (compar : p4est_quadrant_t -> p4est_quadrant_t -> Z)
  (a : p4est_quadrant_t) (l : list p4est_quadrant_t) : list p4est_quadrant_t :=
  match l with
  | [] => [a]
  | b :: t => if compar a b <=? 0 then a :: l else b :: sort_insert compar a t
  end.

Definition sc_array_sort (array : list p4est_quadrant_t)
  (compar : p4est_quadrant_t -> p4est_quadrant_t -> Z)
  : list p4est_quadrant_t :=
  fold_right (sort_insert compar) [] array.

(** Modelled from the spec: [sc_array_bsearch] of sc_containers.c, a binary
    search ([bsearch]) for [key] in an array sorted by [compar]; the result
    is the index of an element that compares equal, or [-1]. *)
Fixpoint bsearch_loop (fuel : nat) (array : list p4est_quadrant_t)
  (key : p4est_quadrant_t)
  (compar : p4est_quadrant_t -> p4est_quadrant_t -> Z) (l u : Z) : Z :=
  match fuel with
  | O => -1
  | S fuel' =>
    if l <? u then
      let idx := (l + u) / 2 in
      let c := compar key (sc_array_index array idx) in
      if c <? 0 then bsearch_loop fuel' array key compar l idx
      else if c >? 0 then bsearch_loop fuel' array key compar (idx + 1) u
      else idx
    else -1
  end.

Definition sc_array_bsearch (array : list p4est_quadrant_t)
  (key : p4est_quadrant_t)
  (compar : p4est_quadrant_t -> p4est_quadrant_t -> Z) : Z :=
  bsearch_loop (S (length array)) array key compar 0 (elem_count array).

(* ================================================================= *)
(** ** Overlap: sorting and filtering the out array *)

(** The loop of [p4est_tree_uniqify_overlap]: [i] is the read counter, [j]
    the write counter, [n] the number of elements still to read. *)
Fixpoint uniqify_overlap_loop (n : nat) (not out : list p4est_quadrant_t)
  (outcount i j : Z) : list p4est_quadrant_t * Z :=
  match n with
  | O => (out, j)
  | S n' =>
    let inq := sc_array_index out i in
    if (i <? outcount - 1) &&
       p4est_quadrant_is_equal inq (sc_array_index out (i + 1))
    then uniqify_overlap_loop n' not out outcount (i + 1) j
    else if negb (sc_array_bsearch not inq p4est_quadrant_compare_piggy =? -1)
    then uniqify_overlap_loop n' not out outcount (i + 1) j
    else
      let out := if i >? j then sc_array_set out j inq else out in
      uniqify_overlap_loop n' not out outcount (i + 1) (j + 1)
  end.

Definition p4est_tree_uniqify_overlap (not out : list p4est_quadrant_t)
  : list p4est_quadrant_t :=
  let outcount := elem_count out in
  if outcount =? 0 then out
  else
    (* sort array and remove duplicates *)
    let out := sc_array_sort out p4est_quadrant_compare in
    let '(out, j) := uniqify_overlap_loop (length out) not out outcount 0 0 in
    sc_array_resize out j.

(* ================================================================= *)
(** ** Linearization *)

(** The loop of [p4est_linearize_subtree] that removes ancestors; [n] is the
    number of elements still to read, [q1] is the element of index
    [current] and [q2] the one of index [rest]. *)
Fixpoint linearize_loop (n : nat) (p4est : p4est_t)
  (tquadrants : list p4est_quadrant_t) (per_level : list Z)
  (current rest removed : Z)
  : p4est_t * list p4est_quadrant_t * list Z * Z * Z :=
  match n with
  | O => (p4est, tquadrants, per_level, current, removed)
  | S n' =>
    let q1 := sc_array_index tquadrants current in
    let q2 := sc_array_index tquadrants rest in
    if p4est_quadrant_is_equal q1 q2 || p4est_quadrant_is_ancestor q1 q2 then
      let per_level := per_level_add per_level (level q1) (-1) in
      let '(p4est, _) := p4est_quadrant_free_data p4est q1 in
      let tquadrants := sc_array_set tquadrants current q2 in
      linearize_loop n' p4est tquadrants per_level current (rest + 1) (removed + 1)
    else
      let current := current + 1 in
      let tquadrants :=
        if current <? rest then sc_array_set tquadrants current q2
        else tquadrants in
      linearize_loop n' p4est tquadrants per_level current (rest + 1) removed
  end.

(** The loop that rebuilds [maxlevel] from the level counters. *)
Fixpoint level_counters_loop (n : nat) (i : Z) (per_level : list Z)
  (maxl num_quadrants : Z) : Z * Z :=
  match n with
  | O => (maxl, num_quadrants)
  | S n' =>
    let num_quadrants := num_quadrants + per_level_get per_level i in
    let maxl := if per_level_get per_level i >? 0 then i else maxl in
    level_counters_loop n' (i + 1) per_level maxl num_quadrants
  end.

Definition p4est_linearize_subtree (p4est : p4est_t) (tree : p4est_tree_t)
  : p4est_t * p4est_tree_t :=
  let tquadrants := quadrants tree in
  let incount := elem_count tquadrants in
  if incount <=? 1 then (p4est, tree)
  else
    (* run through the array and remove ancestors *)
    let '(p4est, tquadrants, per_level, current, removed) :=
      linearize_loop (Z.to_nat (incount - 1)) p4est tquadrants
                     (quadrants_per_level tree) 0 1 0 in
    (* resize array *)
    let tquadrants := sc_array_resize tquadrants (current + 1) in
    (* update level counters *)
    let '(maxl, _) :=
      level_counters_loop (Z.to_nat (P4EST_MAXLEVEL + 1)) 0 per_level 0 0 in
    (p4est, mktree tquadrants per_level (int8 maxl)).

(** Neighbours in non-decreasing order: what sorting an array leaves. *)
Fixpoint tree_is_ordered_loop (q1 : p4est_quadrant_t)
  (rest : list p4est_quadrant_t) : bool :=
  match rest with
  | [] => true
  | q2 :: rest' =>
    (p4est_quadrant_compare q1 q2 <=? 0) && tree_is_ordered_loop q2 rest'
  end.
Definition tree_is_ordered (tree : p4est_tree_t) : bool :=
  match quadrants tree with
  | [] => true
  | q1 :: rest => tree_is_ordered_loop q1 rest
  end.

(** All elements of an array are extended quadrants. *)
Definition array_is_extended (array : list p4est_quadrant_t) : bool :=
  forallb p4est_quadrant_is_extended array.

(** The removal of ancestors, stated on lists: an element goes when it equals
    or is an ancestor of its successor. *)
Fixpoint linearized (l : list p4est_quadrant_t) : list p4est_quadrant_t :=
  match l with
  | [] => []
  | a :: t =>
    match t with
    | [] => [a]
    | b :: _ =>
      if p4est_quadrant_is_equal a b || p4est_quadrant_is_ancestor a b
      then linearized t
      else a :: linearized t
    end
  end.

(** The elements that the removal of ancestors drops, in order. *)
Fixpoint linearize_dropped (l : list p4est_quadrant_t) : list p4est_quadrant_t :=
  match l with
  | [] => []
  | a :: t =>
    match t with
    | [] => []
    | b :: _ =>
      if p4est_quadrant_is_equal a b || p4est_quadrant_is_ancestor a b
      then a :: linearize_dropped t
      else linearize_dropped t
    end
  end.

(** The level counters and the pool after the drop of some quadrants. *)
Definition per_level_drop (per_level : list Z) (dropped : list p4est_quadrant_t)
  : list Z :=
  fold_left (fun pl q => per_level_add pl (level q) (-1)) dropped per_level.
Definition free_data_all (p4est : p4est_t) (dropped : list p4est_quadrant_t)
  : p4est_t :=
  fold_left (fun p q => fst (p4est_quadrant_free_data p q)) dropped p4est.

(** The highest level with a positive counter among the first [n] levels,
    or [0] when there is none. *)
Definition highest_populated (per_level : list Z) (m : Z) : Prop :=
  (forall i, 0 <= i <= P4EST_MAXLEVEL -> per_level_get per_level i > 0 -> i <= m) /\
  ((m = 0 /\ forall i, 0 <= i <= P4EST_MAXLEVEL -> per_level_get per_level i <= 0) \/
   (0 <= m <= P4EST_MAXLEVEL /\ per_level_get per_level m > 0)).

(* ================================================================= *)
(** ** Completion and balance of a tree *)

(** The offsets of the 3 indirect neighbors in units of h.
    Indexing [cid][neighbor][xy] where cid is the child id. *)
Definition indirect_neighbors : list (list (Z * Z)) :=
  [ [(-1, -1); ( 1, -1); (-1, 1)];
    [( 0, -1); ( 2, -1); ( 1, 0)];
    [(-1,  0); (-2,  1); ( 0, 1)];
    [( 1, -1); (-1,  1); ( 1, 1)] ].

Definition indirect_neighbor (cid k : Z) : Z * Z :=
  nth (Z.to_nat k) (nth (Z.to_nat cid) indirect_neighbors []) (0, 0).

(** Indicate which neighbor to omit if edges are balanced, not corners. *)
Definition corners_omitted : list Z := [0; 1; 1; 2].

(** The two marks stored in the payload slot of the temporary quadrants:
    the addresses of two distinct local variables of the function. *)
Definition key : Z := 1.
Definition parent_key : Z := 2.

(** Modelled from the spec: [sc_hash_t] of sc_containers.c, which is not
    part of the sources at hand; a hash table of quadrants under
    [p4est_quadrant_is_equal] is the list of the quadrants inserted. *)
Definition sc_hash_lookup (hash : list p4est_quadrant_t) (v : p4est_quadrant_t)
  : option p4est_quadrant_t :=
  find (fun e => p4est_quadrant_is_equal v e) hash.
Definition sc_hash_insert_unique (hash : list p4est_quadrant_t)
  (v : p4est_quadrant_t) : list p4est_quadrant_t :=
  match sc_hash_lookup hash v with
  | Some _ => hash
  | None => hash ++ [v]
  end.

(** The variables that the passes of [p4est_complete_or_balance] update. *)
Record balance_state : Type := mkbalance {
  bs_p4est : p4est_t;
  bs_hash : list (list p4est_quadrant_t);      (* hash[l] *)
  bs_outlist : list (list p4est_quadrant_t);   (* outlist[l] *)
  bs_qalloc : p4est_quadrant_t;
  bs_parent : p4est_quadrant_t;
  bs_ph : Z;
  bs_pid : Z;
  count_outside_root : Z;
  count_outside_tree : Z;
  count_already_inlist : Z;
  count_already_outlist : Z
}.

Definition level_list (ll : list (list p4est_quadrant_t)) (l : Z)
  : list p4est_quadrant_t :=
  nth (Z.to_nat l) ll [].
Definition level_list_set (ll : list (list p4est_quadrant_t)) (l : Z)
  (v : list p4est_quadrant_t) : list (list p4est_quadrant_t) :=
  if l <? 0 then ll else list_set ll (Z.to_nat l) v.

(** Allocation and release of a temporary quadrant in the quadrant pool. *)
Definition qpool_alloc (p4est : p4est_t) : p4est_t :=
  mkp4est (data_size p4est) (user_data_pool p4est)
          (snd (sc_mempool_alloc (quadrant_pool p4est))).
Definition qpool_free (p4est : p4est_t) : p4est_t :=
  mkp4est (data_size p4est) (user_data_pool p4est)
          (sc_mempool_free (quadrant_pool p4est) 0).

(** What is fixed while one quadrant [q] is treated. *)
Record balance_ctx : Type := mkctx {
  cx_balance : Z;
  cx_bbound : Z;
  cx_inlist : list p4est_quadrant_t;
  cx_inmaxl : Z;
  cx_tree_first : p4est_quadrant_t;
  cx_tree_last : p4est_quadrant_t;
  cx_q : p4est_quadrant_t;
  cx_isfamily : bool;
  cx_isoutroot : bool;
  cx_qid : Z
}.

(** Stage 2 of the loop over [sid]: include [qalloc] if necessary.  The
    Boolean of the result tells whether the loop over [sid] is left. *)
Definition balance_stage2 (cx : balance_ctx) (sid : Z) (st : balance_state)
  : balance_state * bool :=
  let qalloc := bs_qalloc st in
  let ld := p4est_quadrant_last_descendent qalloc quadrant_zero (cx_inmaxl cx) in
  if p4est_quadrant_is_inside qalloc &&
     (((p4est_quadrant_compare (cx_tree_first cx) qalloc >? 0) &&
       (negb (x qalloc =? x (cx_tree_first cx)) ||
        negb (y qalloc =? y (cx_tree_first cx)))) ||
      (p4est_quadrant_compare ld (cx_tree_last cx) >? 0))
  then
    (* qalloc is outside the tree *)
    (mkbalance (bs_p4est st) (bs_hash st) (bs_outlist st) (bs_qalloc st)
       (bs_parent st) (bs_ph st) (bs_pid st) (count_outside_root st)
       (count_outside_tree st + 1) (count_already_inlist st)
       (count_already_outlist st), false)
  else
    match sc_hash_lookup (level_list (bs_hash st) (level qalloc)) qalloc with
    | Some qlookup =>
      (* qalloc is already included in output list, this catches most *)
      let st' :=
        mkbalance (bs_p4est st) (bs_hash st) (bs_outlist st) (bs_qalloc st)
          (bs_parent st) (bs_ph st) (bs_pid st) (count_outside_root st)
          (count_outside_tree st) (count_already_inlist st)
          (count_already_outlist st + 1) in
      if (sid =? 4) && (p_user_data qlookup =? parent_key)
      then (st', true)     (* this parent has been triggered before *)
      else (st', false)
    | None =>
      if negb (sc_array_bsearch (cx_inlist cx) qalloc p4est_quadrant_compare =? -1)
      then
        (* qalloc is included in inlist, this is more expensive to test *)
        (mkbalance (bs_p4est st) (bs_hash st) (bs_outlist st) (bs_qalloc st)
           (bs_parent st) (bs_ph st) (bs_pid st) (count_outside_root st)
           (count_outside_tree st) (count_already_inlist st + 1)
           (count_already_outlist st), false)
      else
        (* insert qalloc into the output list as well *)
        let qalloc := if sid =? 4 then set_user_data qalloc parent_key
                      else qalloc in
        let hash' :=
          level_list_set (bs_hash st) (level qalloc)
            (sc_hash_insert_unique (level_list (bs_hash st) (level qalloc))
                                   qalloc) in
        let outlist' :=
          level_list_set (bs_outlist st) (level qalloc)
            (level_list (bs_outlist st) (level qalloc) ++ [qalloc]) in
        (* we need a new quadrant now, the old one is stored away *)
        (mkbalance (qpool_alloc (bs_p4est st)) hash' outlist'
           (set_user_data quadrant_zero key)
           (bs_parent st) (bs_ph st) (bs_pid st) (count_outside_root st)
           (count_outside_tree st) (count_already_inlist st)
           (count_already_outlist st), false)
    end.

Definition with_qalloc (st : balance_state) (qalloc : p4est_quadrant_t)
  : balance_state :=
  mkbalance (bs_p4est st) (bs_hash st) (bs_outlist st) qalloc
    (bs_parent st) (bs_ph st) (bs_pid st) (count_outside_root st)
    (count_outside_tree st) (count_already_inlist st)
    (count_already_outlist st).

(** One turn of the loop over [sid]: stage 1 determines the candidate
    [qalloc], stage 2 includes it.  [sid = 0..3] are the siblings including
    [q], [4] is the parent of [q], [5..7] are the relevant indirect
    neighbors of the parent. *)
Definition balance_sid_body (cx : balance_ctx) (sid : Z) (st : balance_state)
  : balance_state * bool :=
  let q := cx_q cx in
  if sid <? 4 then
    if (cx_qid cx =? sid) || cx_isfamily cx then (st, false)
    else if cx_isoutroot cx then (st, false)
    else
      balance_stage2 cx sid
        (with_qalloc st (p4est_quadrant_sibling q (bs_qalloc st) sid))
  else if sid =? 4 then
    (* compute the parent *)
    let qalloc := p4est_quadrant_parent q (bs_qalloc st) in
    let st1 :=
      if cx_bbound cx >? 5 then
        mkbalance (bs_p4est st) (bs_hash st) (bs_outlist st) qalloc
          qalloc (P4EST_QUADRANT_LEN (level qalloc))
          (p4est_quadrant_child_id qalloc) (count_outside_root st)
          (count_outside_tree st) (count_already_inlist st)
          (count_already_outlist st)
      else with_qalloc st qalloc in
    balance_stage2 cx sid st1
  else
    (* determine the 3 parent's relevant indirect neighbors *)
    if (cx_balance cx <? 2) &&
       (sid - 5 =? nth (Z.to_nat (bs_pid st)) corners_omitted 0)
    then (st, false)
    else
      let parent := bs_parent st in
      let nb := indirect_neighbor (bs_pid st) (sid - 5) in
      let qalloc :=
        set_xyl (bs_qalloc st)
          (int32 (x parent + int32 (fst nb * bs_ph st)))
          (int32 (y parent + int32 (snd nb * bs_ph st)))
          (level parent) in
      let outface0 := y qalloc <? 0 in
      let outface1 := x qalloc >=? P4EST_ROOT_LEN in
      let outface2 := y qalloc >=? P4EST_ROOT_LEN in
      let outface3 := x qalloc <? 0 in
      let st1 := with_qalloc st qalloc in
      let dropped :=
        mkbalance (bs_p4est st1) (bs_hash st1) (bs_outlist st1) (bs_qalloc st1)
          (bs_parent st1) (bs_ph st1) (bs_pid st1) (count_outside_root st1 + 1)
          (count_outside_tree st1) (count_already_inlist st1)
          (count_already_outlist st1) in
      if negb (cx_isoutroot cx) then
        if outface0 || outface1 || outface2 || outface3
        then (dropped, false)  (* q is inside and this quadrant is outside the root *)
        else balance_stage2 cx sid st1
      else
        if (outface0 || outface2) && (outface1 || outface3)
        then (dropped, false)  (* quadrant is outside and across the corner *)
        else balance_stage2 cx sid st1.

Fixpoint balance_sid_loop (n : nat) (cx : balance_ctx) (sid : Z)
  (st : balance_state) : balance_state :=
  match n with
  | O => st
  | S n' =>
    let '(st', brk) := balance_sid_body cx sid st in
    if brk then st' else balance_sid_loop n' cx (sid + 1) st'
  end.

(** One turn of the loop over [i] in the pass of level [l]: the result is
    the index of the last quadrant treated and the new state. *)
Definition balance_i_body (balance : Z) (inlist : list p4est_quadrant_t)
  (inmaxl : Z) (tree_first tree_last : p4est_quadrant_t)
  (l : Z) (i : Z) (st : balance_state) : Z * balance_state :=
  let bbound := if balance =? 0 then 5 else 8 in
  let incount := elem_count inlist in
  let treat (i : Z) (q : p4est_quadrant_t) (isfamily : bool) :=
    let cx := mkctx balance bbound inlist inmaxl tree_first tree_last
                    q isfamily (negb (p4est_quadrant_is_inside q))
                    (p4est_quadrant_child_id q) in
    (i, balance_sid_loop (Z.to_nat bbound) cx 0 st) in
  if i <? incount then
    let q := sc_array_index inlist i in
    if negb (level q =? l) then (i, st)
    else
      (* this is an optimization to catch adjacent siblings *)
      if (i + 4 <=? incount) &&
         p4est_quadrant_is_family q (sc_array_index inlist (i + 1))
           (sc_array_index inlist (i + 2)) (sc_array_index inlist (i + 3))
      then treat (i + 3) q true      (* skip siblings *)
      else treat i q false
  else
    let q := sc_array_index (level_list (bs_outlist st) l) (i - incount) in
    treat i q false.

Fixpoint balance_i_loop (n : nat) (balance : Z)
  (inlist : list p4est_quadrant_t) (inmaxl : Z)
  (tree_first tree_last : p4est_quadrant_t) (l ocount : Z) (i : Z)
  (st : balance_state) : balance_state :=
  match n with
  | O => st
  | S n' =>
    if i <? elem_count inlist + ocount then
      let '(i', st') :=
        balance_i_body balance inlist inmaxl tree_first tree_last l i st in
      balance_i_loop n' balance inlist inmaxl tree_first tree_last l ocount
                     (i' + 1) st'
    else st
  end.

(** The pass of level [l]; [ocount] is fixed at its start. *)
Definition balance_pass (balance : Z) (inlist : list p4est_quadrant_t)
  (inmaxl : Z) (tree_first tree_last : p4est_quadrant_t) (l : Z)
  (st : balance_state) : balance_state :=
  let ocount := elem_count (level_list (bs_outlist st) l) in
  balance_i_loop (Z.to_nat (elem_count inlist + ocount)) balance inlist inmaxl
                 tree_first tree_last l ocount 0 st.

(** Walk through the input tree bottom-up. *)
Fixpoint balance_level_loop (n : nat) (balance : Z)
  (inlist : list p4est_quadrant_t) (inmaxl : Z)
  (tree_first tree_last : p4est_quadrant_t) (l : Z) (st : balance_state)
  : balance_state :=
  match n with
  | O => st
  | S n' =>
    if l >? 0 then
      balance_level_loop n' balance inlist inmaxl tree_first tree_last (l - 1)
        (balance_pass balance inlist inmaxl tree_first tree_last l st)
    else st
  end.

(** The search for the first quadrant inside the root. *)
Fixpoint first_inside_loop (rest : list p4est_quadrant_t) (i : Z)
  : option (Z * p4est_quadrant_t) :=
  match rest with
  | [] => None
  | q :: rest' =>
    if p4est_quadrant_is_inside q then Some (i, q)
    else first_inside_loop rest' (i + 1)
  end.

(** The loop that determines [tree_last] and [last_inside] over the
    quadrants after the first one inside. *)
Fixpoint tree_last_loop (rest : list p4est_quadrant_t) (i inmaxl : Z)
  (ld tree_last : p4est_quadrant_t) (last_inside : Z)
  : p4est_quadrant_t * Z :=
  match rest with
  | [] => (tree_last, last_inside)
  | q :: rest' =>
    if negb (p4est_quadrant_is_inside q) then (tree_last, i - 1)
    else
      let ld := p4est_quadrant_last_descendent q ld inmaxl in
      let comp := p4est_quadrant_compare tree_last ld in
      let tree_last := if comp <? 0 then ld else tree_last in
      tree_last_loop rest' (i + 1) inmaxl ld tree_last last_inside
  end.

(** Merge the valid quadrants of the output list of level [l] into the
    input list. *)
Fixpoint merge_outlist (ol : list p4est_quadrant_t) (l : Z)
  (p4est : p4est_t) (inlist : list p4est_quadrant_t) (per_level : list Z)
  (merged : bool) : p4est_t * list p4est_quadrant_t * list Z * bool :=
  match ol with
  | [] => (p4est, inlist, per_level, merged)
  | qalloc :: ol' =>
    if p4est_quadrant_is_inside qalloc then
      (* copy temporary quadrant into final tree *)
      let per_level := per_level_add per_level l 1 in
      (* complete quadrant initialization *)
      let '(p4est, q) := p4est_quadrant_init_data p4est qalloc in
      merge_outlist ol' l (qpool_free p4est) (inlist ++ [q]) per_level true
    else
      merge_outlist ol' l (qpool_free p4est) inlist per_level merged
  end.

Fixpoint merge_levels (n : nat) (l : Z) (outlist : list (list p4est_quadrant_t))
  (p4est : p4est_t) (inlist : list p4est_quadrant_t) (per_level : list Z)
  (maxl : Z) : p4est_t * list p4est_quadrant_t * list Z * Z :=
  match n with
  | O => (p4est, inlist, per_level, maxl)
  | S n' =>
    let '(p4est, inlist, per_level, merged) :=
      merge_outlist (level_list outlist l) l p4est inlist per_level false in
    let maxl := if merged && (l >? maxl) then int8 l else maxl in
    merge_levels n' (l + 1) outlist p4est inlist per_level maxl
  end.

(** [p4est_complete_or_balance]; [balance] can be 0: no balancing,
    1: balance across edges, 2: balance across edges and corners. *)
Definition p4est_complete_or_balance (p4est : p4est_t) (tree : p4est_tree_t)
  (balance : Z) : p4est_t * p4est_tree_t :=
  let inlist := quadrants tree in
  let incount := elem_count inlist in
  let inmaxl := maxlevel tree in
  (* if tree is empty or a single block, there is nothing to do *)
  if incount <=? 1 then (p4est, tree)
  else
    (* determine the first and last small quadrants contained in the tree *)
    match first_inside_loop inlist 0 with
    | None =>
      (* only extended quadrants in the tree, there is nothing to do *)
      (p4est, tree)
    | Some (first_inside, q) =>
      let tree_first :=
        p4est_quadrant_first_descendent q quadrant_zero inmaxl in
      let tree_last0 :=
        p4est_quadrant_last_descendent q quadrant_zero inmaxl in
      let '(tree_last, last_inside) :=
        tree_last_loop (skipn (Z.to_nat (first_inside + 1)) inlist)
          (first_inside + 1) inmaxl quadrant_zero tree_last0 (incount - 1) in
      (* initialize temporary storage *)
      let n := Z.to_nat (inmaxl + 1) in
      let st0 :=
        mkbalance (qpool_alloc p4est) (repeat [] n) (repeat [] n)
          (set_user_data quadrant_zero key) quadrant_zero 0 (-1) 0 0 0 0 in
      (* walk through the input tree bottom-up *)
      let st :=
        balance_level_loop (Z.to_nat inmaxl) balance inlist inmaxl
          tree_first tree_last inmaxl st0 in
      let p4est := qpool_free (bs_p4est st) in
      (* merge outlist into input list and free temporary storage *)
      let '(p4est, inlist, per_level, maxl) :=
        merge_levels n 0 (bs_outlist st) p4est inlist
          (quadrants_per_level tree) (maxlevel tree) in
      (* sort and linearize tree *)
      let inlist := sc_array_sort inlist p4est_quadrant_compare in
      p4est_linearize_subtree p4est (mktree inlist per_level maxl)
    end.

Definition p4est_complete_subtree (p4est : p4est_t) (tree : p4est_tree_t)
  : p4est_t * p4est_tree_t :=
  p4est_complete_or_balance p4est tree 0.

Definition p4est_balance_subtree (p4est : p4est_t) (tree : p4est_tree_t)
  : p4est_t * p4est_tree_t :=
  p4est_complete_or_balance p4est tree 2.


(* ================================================================= *)
(** ** Notions used to state the balance property *)

(** Two quadrants touch when their closed squares meet: they share a face,
    a part of a face, or a corner. *)
Definition quadrants_touch (q r : p4est_quadrant_t) : Prop :=
  x q <= x r + P4EST_QUADRANT_LEN (level r) /\
  x r <= x q + P4EST_QUADRANT_LEN (level q) /\
  y q <= y r + P4EST_QUADRANT_LEN (level r) /\
  y r <= y q + P4EST_QUADRANT_LEN (level q).

(** Some element of the array has the coordinates and the level of [c]. *)
Definition In_xyl (c : p4est_quadrant_t) (l : list p4est_quadrant_t) : Prop :=
  exists e, In e l /\ same_xyl e c.

(** The [k]-th relevant indirect neighbor of a parent [A]. *)
Definition nbr_candidate (A : p4est_quadrant_t) (k : Z) : p4est_quadrant_t :=
  let nb := indirect_neighbor (p4est_quadrant_child_id A) k in
  set_xyl quadrant_zero (x A + fst nb * P4EST_QUADRANT_LEN (level A))
    (y A + snd nb * P4EST_QUADRANT_LEN (level A)) (level A).

(** The test of stage 2 that drops a candidate inside the root because it
    lies outside of the tree. *)
Definition window_drop (inmaxl : Z) (tree_first tree_last c : p4est_quadrant_t)
  : bool :=
  ((p4est_quadrant_compare tree_first c >? 0) &&
   (negb (x c =? x tree_first) || negb (y c =? y tree_first))) ||
  (p4est_quadrant_compare
     (p4est_quadrant_last_descendent c quadrant_zero inmaxl) tree_last >? 0).

(** A candidate is covered when the input list or the output list of its
    level holds a quadrant with its coordinates and level. *)
Definition covered (inlist : list p4est_quadrant_t) (st : balance_state)
  (c : p4est_quadrant_t) : Prop :=
  In_xyl c inlist \/ In_xyl c (level_list (bs_outlist st) (level c)).

(** The indirect neighbors of a parent [A] inside the root have been seen:
    each one inside the root and inside the tree is covered. *)
Definition nbrs_done (inmaxl : Z) (tree_first tree_last : p4est_quadrant_t)
  (inlist : list p4est_quadrant_t) (st : balance_state)
  (A : p4est_quadrant_t) : Prop :=
  forall k, 0 <= k < 3 ->
    p4est_quadrant_is_inside (nbr_candidate A k) = true ->
    window_drop inmaxl tree_first tree_last (nbr_candidate A k) = false ->
    covered inlist st (nbr_candidate A k).

(** The parent of [q]. *)
Definition parent_of (q : p4est_quadrant_t) : p4est_quadrant_t :=
  p4est_quadrant_parent q quadrant_zero.

(** What holds of the temporary storage between two turns of the loop over
    [sid]: the hash tables and the output lists have one entry per level
    up to [inmaxl], hashed quadrants are in the output list of their level,
    a quadrant sits in the list of its own level, the spare quadrant
    carries [key], and quadrants inside the root were not dropped by the
    test against the tree. *)
Record balance_wf (inmaxl : Z) (tree_first tree_last : p4est_quadrant_t)
  (st : balance_state) : Prop := mkwf {
  wf_hash_len : length (bs_hash st) = Z.to_nat (inmaxl + 1);
  wf_out_len : length (bs_outlist st) = Z.to_nat (inmaxl + 1);
  wf_hash_out : forall l e, 0 <= l ->
    In e (level_list (bs_hash st) l) -> In e (level_list (bs_outlist st) l);
  wf_level : forall l e, 0 <= l ->
    In e (level_list (bs_outlist st) l) -> level e = l;
  wf_qalloc : p_user_data (bs_qalloc st) = key;
  wf_window : forall l e, 0 <= l ->
    In e (level_list (bs_outlist st) l) ->
    p4est_quadrant_is_inside e = true ->
    window_drop inmaxl tree_first tree_last e = false
}.

(** A parent inside the root that is hashed with [parent_key] has had its
    indirect neighbors seen, except for the parent [ex] under treatment. *)
Definition parents_done (inmaxl : Z) (tree_first tree_last : p4est_quadrant_t)
  (inlist : list p4est_quadrant_t) (st : balance_state)
  (ex : option p4est_quadrant_t) : Prop :=
  forall l P, 0 <= l -> In P (level_list (bs_hash st) l) ->
    p_user_data P = parent_key -> p4est_quadrant_is_inside P = true ->
    match ex with Some A => same_xyl P A | None => False end \/
    nbrs_done inmaxl tree_first tree_last inlist st P.

(** The output lists of [st'] extend those of [st]. *)
Definition outlist_ext (st st' : balance_state) : Prop :=
  forall l, 0 <= l ->
    exists ext, level_list (bs_outlist st') l
                = level_list (bs_outlist st) l ++ ext.

(** What stage 2 stores when it includes the candidate [c]. *)
Definition stage2_stored (sid : Z) (c : p4est_quadrant_t)
  (st st' : balance_state) : Prop :=
  let c' := if sid =? 4 then set_user_data c parent_key else c in
  bs_hash st' = level_list_set (bs_hash st) (level c)
                  (level_list (bs_hash st) (level c) ++ [c']) /\
  bs_outlist st' = level_list_set (bs_outlist st) (level c)
                     (level_list (bs_outlist st) (level c) ++ [c']) /\
  bs_qalloc st' = set_user_data quadrant_zero key.

(** [e] is a quadrant at the level below [A] whose corner is at most one
    side length of [e] away from the square of [A]: a child of [A], or a
    quadrant in the 2 x 2 block that starts at a child of [A]. *)
Definition near_parent (A e : p4est_quadrant_t) : Prop :=
  level e = level A + 1 /\
  (x e - x A = 0 \/ x e - x A = P4EST_QUADRANT_LEN (level e) \/
   x e - x A = 2 * P4EST_QUADRANT_LEN (level e)) /\
  (y e - y A = 0 \/ y e - y A = P4EST_QUADRANT_LEN (level e) \/
   y e - y A = 2 * P4EST_QUADRANT_LEN (level e)).

(** What the treatment of [q] adds to the output lists: siblings of [q] at
    the level of [q] when [q] is inside the root, and quadrants at the
    level above. *)
Definition adds_ok (q : p4est_quadrant_t) (st st' : balance_state) : Prop :=
  forall k, 0 <= k ->
    exists ext,
      level_list (bs_outlist st') k = level_list (bs_outlist st) k ++ ext /\
      forall e, In e ext ->
        (k = level q /\ p4est_quadrant_is_inside q = true /\
         near_parent (parent_of q) e) \/
        k = level q - 1.

(** The context of the loop over [sid] for the quadrant [q] in the full
    balance across edges and corners. *)
Definition sid_ctx (inlist : list p4est_quadrant_t) (inmaxl : Z)
  (tree_first tree_last q : p4est_quadrant_t) (isfamily : bool) : balance_ctx :=
  mkctx 2 8 inlist inmaxl tree_first tree_last q isfamily
        (negb (p4est_quadrant_is_inside q)) (p4est_quadrant_child_id q).


(* ================================================================= *)
(** ** Further functions of the quadrant algebra *)

(** [p4est_quadrant_hash]. *)
Definition p4est_quadrant_hash (q : p4est_quadrant_t) : Z :=
  uint32 (p4est_quadrant_linear_id q (level q) mod uint64 (Z.shiftl 1 30)).

(** [p4est_quadrant_is_sibling]. *)
Definition p4est_quadrant_is_sibling (q1 q2 : p4est_quadrant_t) : bool :=
  if level q1 =? 0 then false
  else
    let exclorx := Z.lxor (x q1) (x q2) in
    let exclory := Z.lxor (y q1) (y q2) in
    if (exclorx =? 0) && (exclory =? 0) then false
    else
      (level q1 =? level q2) &&
      (Z.land exclorx (Z.lnot (P4EST_QUADRANT_LEN (level q1))) =? 0) &&
      (Z.land exclory (Z.lnot (P4EST_QUADRANT_LEN (level q1))) =? 0).

(** [p4est_quadrant_is_sibling_D], the version written with the parents.
    Only [q1->level == 0] is guarded: [p4est_quadrant_parent] asserts a
    positive level of its argument, and [None] stands for the failure of
    that assertion. *)
Definition p4est_quadrant_is_sibling_D (q1 q2 : p4est_quadrant_t)
  : option bool :=
  (* make sure the quadrant_parent functions below don't abort *)
  if level q1 =? 0 then Some false
  else if p4est_quadrant_is_equal q1 q2 then Some false
  else if (level q1 >? 0) && (level q2 >? 0) then
    let p1 := p4est_quadrant_parent q1 quadrant_zero in
    let p2 := p4est_quadrant_parent q2 quadrant_zero in
    Some (p4est_quadrant_is_equal p1 p2)
  else None.

(** [p4est_quadrant_is_parent]: [q] is the parent of [r]. *)
Definition p4est_quadrant_is_parent (q r : p4est_quadrant_t) : bool :=
  (level q + 1 =? level r) &&
  (x q =? Z.land (x r) (Z.lnot (P4EST_QUADRANT_LEN (level r)))) &&
  (y q =? Z.land (y r) (Z.lnot (P4EST_QUADRANT_LEN (level r)))).

(** [p4est_quadrant_is_parent_D]. *)
Definition p4est_quadrant_is_parent_D (q r : p4est_quadrant_t) : bool :=
  (* make sure the quadrant_parent function below doesn't abort *)
  if level r =? 0 then false
  else p4est_quadrant_is_equal q (p4est_quadrant_parent r quadrant_zero).

(** [p4est_quadrant_is_ancestor_D]; [fuel] bounds the loops of
    [p4est_nearest_common_ancestor_D]. *)
Definition p4est_quadrant_is_ancestor_D (fuel : nat) (q r : p4est_quadrant_t)
  : option bool :=
  if p4est_quadrant_is_equal q r then Some false
  else
    match p4est_nearest_common_ancestor_D fuel q r quadrant_zero with
    | None => None
    | Some s => Some (p4est_quadrant_is_equal q s)
    end.

(** The loop of [p4est_quadrant_is_next_D]: [None] stands for a loop that
    has not finished, [Some None] for the return of [0] from inside the
    loop. *)
Fixpoint is_next_D_loop (fuel : nat) (a : p4est_quadrant_t) (bl : Z)
  : option (option p4est_quadrant_t) :=
  if level a >? bl then
    match fuel with
    | O => None
    | S f =>
      if negb (p4est_quadrant_child_id a =? 3) then Some None
      else is_next_D_loop f (p4est_quadrant_parent a a) bl
    end
  else Some (Some a).

(** [p4est_quadrant_is_next_D]. *)
Definition p4est_quadrant_is_next_D (fuel : nat) (q r : p4est_quadrant_t)
  : option bool :=
  if p4est_quadrant_compare q r >=? 0 then Some false
  else
    match is_next_D_loop fuel q (level r) with
    | None => None
    | Some None => Some false
    | Some (Some a) =>
      let i1 := p4est_quadrant_linear_id a (level a) in
      let i2 := p4est_quadrant_linear_id r (level a) in
      Some (uint64 (i1 + 1) =? i2)
    end.

(** The loop of [p4est_quadrant_corner_level]; the result is the level
    returned, [None] when the fuel is used up. *)
Fixpoint corner_level_loop (fuel : nat) (quad : p4est_quadrant_t)
  (zcorner l : Z) : option Z :=
  if level quad >? l then
    match fuel with
    | O => None
    | S f =>
      let th := P4EST_LAST_OFFSET (level quad) in
      let sibling := p4est_quadrant_sibling quad quadrant_zero zcorner in
      if ((zcorner =? 0) && (x sibling <=? 0) && (y sibling <=? 0)) ||
         ((zcorner =? 1) && (x sibling >=? th) && (y sibling <=? 0)) ||
         ((zcorner =? 2) && (x sibling <=? 0) && (y sibling >=? th)) ||
         ((zcorner =? 3) && (x sibling >=? th) && (y sibling >=? th))
      then Some (level quad)
      else
        let stepx := fst (nth (Z.to_nat zcorner)
                            [(-1, -1); (1, -1); (-1, 1); (1, 1)] (0, 0)) in
        let stepy := snd (nth (Z.to_nat zcorner)
                            [(-1, -1); (1, -1); (-1, 1); (1, 1)] (0, 0)) in
        let quad := p4est_quadrant_parent quad quad in
        let quad :=
          set_xyl quad
            (int32 (x quad + int32 (stepx * P4EST_QUADRANT_LEN (level quad))))
            (int32 (y quad + int32 (stepy * P4EST_QUADRANT_LEN (level quad))))
            (level quad) in
        corner_level_loop f quad zcorner l
    end
  else Some l.

(** [p4est_quadrant_corner_level]. *)
Definition p4est_quadrant_corner_level (fuel : nat) (q : p4est_quadrant_t)
  (zcorner l : Z) : option Z :=
  corner_level_loop fuel q zcorner l.

(** [p4est_quadrant_corner]; a corner number outside of [0 .. 3] aborts. *)
Definition p4est_quadrant_corner (q : p4est_quadrant_t) (zcorner : Z)
  (inside : bool) : option p4est_quadrant_t :=
  let lshift := if inside then 0 else int32 (- P4EST_QUADRANT_LEN (level q)) in
  let rshift := if inside then P4EST_LAST_OFFSET (level q)
                else P4EST_ROOT_LEN in
  if zcorner =? 0 then Some (set_xyl q lshift lshift (level q))
  else if zcorner =? 1 then Some (set_xyl q rshift lshift (level q))
  else if zcorner =? 2 then Some (set_xyl q lshift rshift (level q))
  else if zcorner =? 3 then Some (set_xyl q rshift rshift (level q))
  else None.

(** [p4est_quadrant_translate]; a face number outside of [0 .. 3] aborts. *)
Definition p4est_quadrant_translate (q : p4est_quadrant_t) (face : Z)
  : option p4est_quadrant_t :=
  if face =? 0 then Some (set_xyl q (x q) (int32 (y q + P4EST_ROOT_LEN)) (level q))
  else if face =? 1
  then Some (set_xyl q (int32 (x q - P4EST_ROOT_LEN)) (y q) (level q))
  else if face =? 2
  then Some (set_xyl q (x q) (int32 (y q - P4EST_ROOT_LEN)) (level q))
  else if face =? 3
  then Some (set_xyl q (int32 (x q + P4EST_ROOT_LEN)) (y q) (level q))
  else None.

(** [p4est_quadrant_transform]; a transform type outside of [0 .. 7]
    aborts. *)
Definition p4est_quadrant_transform (q r : p4est_quadrant_t)
  (transform_type : Z) : option p4est_quadrant_t :=
  let th := P4EST_LAST_OFFSET (level q) in
  if transform_type =? 0 then          (* identity *)
    Some (set_xyl r (x q) (y q) (level q))
  else if transform_type =? 1 then     (* rotate -90 degrees *)
    Some (set_xyl r (int32 (th - y q)) (x q) (level q))
  else if transform_type =? 2 then     (* rotate 180 degrees *)
    Some (set_xyl r (int32 (th - x q)) (int32 (th - y q)) (level q))
  else if transform_type =? 3 then     (* rotate 90 degrees *)
    Some (set_xyl r (y q) (int32 (th - x q)) (level q))
  else if transform_type =? 4 then     (* mirror across 0 degree axis *)
    Some (set_xyl r (x q) (int32 (th - y q)) (level q))
  else if transform_type =? 5 then     (* mirror across 45 degree axis *)
    Some (set_xyl r (y q) (x q) (level q))
  else if transform_type =? 6 then     (* mirror across 90 degree axis *)
    Some (set_xyl r (int32 (th - x q)) (y q) (level q))
  else if transform_type =? 7 then     (* mirror across 135 degree axis *)
    Some (set_xyl r (int32 (th - y q)) (int32 (th - x q)) (level q))
  else None.

(** The transform type that undoes [transform_type]: the two rotations by
    90 degrees undo each other, every other transform undoes itself. *)
Definition inverse_transform (transform_type : Z) : Z :=
  if transform_type =? 1 then 3
  else if transform_type =? 3 then 1
  else transform_type.

(* ================================================================= *)
(** ** Notions used to state properties of the trees *)

(** The number of quadrants of level [l] in an array. *)
Definition level_count (l : Z) (array : list p4est_quadrant_t) : Z :=
  Z.of_nat (length (filter (fun q => level q =? l) array)).

(** The level counters are the histogram of the levels of the array. *)
Definition per_level_matches (per_level : list Z)
  (array : list p4est_quadrant_t) : bool :=
  forallb (fun l => per_level_get per_level (Z.of_nat l)
                    =? level_count (Z.of_nat l) array)
          (seq 0 (Z.to_nat (P4EST_MAXLEVEL + 1))).

(** All elements of an array are valid quadrants. *)
Definition array_is_valid (array : list p4est_quadrant_t) : bool :=
  forallb p4est_quadrant_is_valid array.

(* ================================================================= *)
(** ** Corner numbers under a transform *)

(** [p4est_node_transform].  The table [p4est_corner_to_zorder] is defined
    in p4est.c, outside of the sources at hand, and is an argument here; an
    access outside of the table reads [0].  A node outside of [0 .. 3] in
    one of the mirror cases, or a transform type outside of [0 .. 7],
    aborts. *)
Definition p4est_node_transform (p4est_corner_to_zorder : list Z)
  (node transform_type : Z) : option Z :=
  let tbl i := nth (Z.to_nat i) p4est_corner_to_zorder 0 in
  if transform_type =? 0 then Some node
  else if transform_type =? 1 then
    Some (tbl (Z.rem (tbl node + 1) 4))
  else if transform_type =? 2 then Some (3 - node)
  else if transform_type =? 3 then
    Some (tbl (Z.rem (tbl node + 3) 4))
  else if transform_type =? 4 then
    if node =? 0 then Some 2 else if node =? 1 then Some 3
    else if node =? 2 then Some 0 else if node =? 3 then Some 1 else None
  else if transform_type =? 5 then
    if node =? 0 then Some 0 else if node =? 1 then Some 2
    else if node =? 2 then Some 1 else if node =? 3 then Some 3 else None
  else if transform_type =? 6 then
    if node =? 0 then Some 1 else if node =? 1 then Some 0
    else if node =? 2 then Some 3 else if node =? 3 then Some 2 else None
  else if transform_type =? 7 then
    if node =? 0 then Some 3 else if node =? 1 then Some 1
    else if node =? 2 then Some 2 else if node =? 3 then Some 0 else None
  else None.

(** The corner table for which the two rotations of
    [p4est_node_transform] agree with those of [p4est_quadrant_transform]. *)
Definition zorder_table : list Z := [0; 1; 3; 2].

(* ================================================================= *)
(** ** The filter of the overlap, on lists *)

(** The test of [p4est_tree_uniqify_overlap] for an element of [not]. *)
Definition found_in (not : list p4est_quadrant_t) (inq : p4est_quadrant_t)
  : bool :=
  negb (sc_array_bsearch not inq p4est_quadrant_compare_piggy =? -1).

(** What the loop of [p4est_tree_uniqify_overlap] leaves of a list: an
    element goes when it equals its successor or is found in [not]. *)
Fixpoint uniqified (not l : list p4est_quadrant_t) : list p4est_quadrant_t :=
  match l with
  | [] => []
  | a :: t =>
    if match t with
       | [] => false
       | b :: _ => p4est_quadrant_is_equal a b
       end
    then uniqified not t
    else if found_in not a then uniqified not t
    else a :: uniqified not t
  end.

(* ================================================================= *)
(** ** Completion of a region *)

(** The variables that [p4est_complete_region] updates: the forest (for its
    pools), the array and the level counters of the tree [R], and the locals
    [maxlevel] and [num_quadrants]. *)
Record region_state : Type := mkregion {
  rg_p4est : p4est_t;
  rg_quadrants : list p4est_quadrant_t;
  rg_per_level : list Z;
  rg_maxlevel : Z;
  rg_num_quadrants : Z
}.

(** [R <- R + q], the step written out three times in the function: the
    array grows by one element, which takes the value of [q]. *)
Definition region_push (st : region_state) (q : p4est_quadrant_t)
  : region_state :=
  let quadrants := sc_array_resize (rg_quadrants st) (rg_num_quadrants st + 1) in
  let quadrants := sc_array_set quadrants (rg_num_quadrants st) q in
  mkregion (rg_p4est st) quadrants
    (per_level_add (rg_per_level st) (level q) 1)
    (SC_MAX (level q) (rg_maxlevel st))
    (rg_num_quadrants st + 1).

(** The same step for an element [w] of the work list, whose copy in the
    array gets its user data from [p4est_quadrant_init_data]. *)
Definition region_push_init (st : region_state) (w : p4est_quadrant_t)
  : region_state :=
  let quadrants := sc_array_resize (rg_quadrants st) (rg_num_quadrants st + 1) in
  let '(p4est, r) := p4est_quadrant_init_data (rg_p4est st) w in
  let quadrants := sc_array_set quadrants (rg_num_quadrants st) r in
  mkregion p4est quadrants
    (per_level_add (rg_per_level st) (level w) 1)
    (SC_MAX (level w) (rg_maxlevel st))
    (rg_num_quadrants st + 1).

Definition region_with_p4est (st : region_state) (p4est : p4est_t)
  : region_state :=
  mkregion p4est (rg_quadrants st) (rg_per_level st) (rg_maxlevel st)
    (rg_num_quadrants st).

(** The four children of [w], written to blocks taken from the quadrant
    pool. *)
Definition region_alloc (st : region_state) : region_state :=
  region_with_p4est st
    (qpool_alloc (qpool_alloc (qpool_alloc (qpool_alloc (rg_p4est st))))).
Definition children_of (w : p4est_quadrant_t) : list p4est_quadrant_t :=
  let '(c0, c1, c2, c3) :=
    p4est_quadrant_children w quadrant_zero quadrant_zero quadrant_zero
                            quadrant_zero in
  [c0; c1; c2; c3].

(** The loop over the work list [W]; [fuel] bounds the number of elements
    popped, [None] stands for a loop that has not finished. *)
Fixpoint region_loop (fuel : nat) (a b : p4est_quadrant_t)
  (W : list p4est_quadrant_t) (st : region_state) {struct fuel}
  : option region_state :=
  match W with
  | [] => Some st
  | w :: W =>
    match fuel with
    | O => None
    | S fuel' =>
      (* if (a < w < b) and (w not in {A(b)}) *)
      if (p4est_quadrant_compare a w <? 0) && (p4est_quadrant_compare w b <? 0)
         && negb (p4est_quadrant_is_ancestor w b)
      then
        (* R <- R + w *)
        let st := region_push_init st w in
        (* W <- W - w *)
        region_loop fuel' a b W (region_with_p4est st (qpool_free (rg_p4est st)))
      (* else if (w in {{A(a)}, {A(b)}}) *)
      else if p4est_quadrant_is_ancestor w a || p4est_quadrant_is_ancestor w b
      then
        (* W <- W + C(w) *)
        let st := region_alloc st in
        region_loop fuel' a b (children_of w ++ W)
          (region_with_p4est st (qpool_free (rg_p4est st)))
      else
        region_loop fuel' a b W (region_with_p4est st (qpool_free (rg_p4est st)))
    end
  end.

(** The body of [p4est_complete_region] up to its closing assertions: the
    forest and the tree [R] as they are when the assertions are reached. *)
Definition complete_region_build (fuel : nat) (p4est : p4est_t)
  (q1 : p4est_quadrant_t) (include_q1 : bool)
  (q2 : p4est_quadrant_t) (include_q2 : bool) (tree : p4est_tree_t)
  : option (p4est_t * p4est_tree_t) :=
  let a := q1 in
  let b := q2 in
  let st := mkregion p4est (quadrants tree) (quadrants_per_level tree) 0 0 in
  let comp := p4est_quadrant_compare a b in
  (* R <- R + a *)
  let st := if include_q1 then region_push st a else st in
  let result st :=
    (rg_p4est st,
     mktree (rg_quadrants st) (rg_per_level st) (int8 (rg_maxlevel st))) in
  if comp <? 0 then
    (* W <- C(A_{finest}(a,b)) *)
    let Afinest := p4est_nearest_common_ancestor a b quadrant_zero in
    let st := region_alloc st in
    let W := children_of Afinest in
    match region_loop fuel a b W st with
    | None => None
    | Some st =>
      (* R <- R + b *)
      let st := if include_q2 then region_push st b else st in
      Some (result st)
    end
  else Some (result st).

(** [p4est_complete_region].  The assertions on entry, an empty tree and
    [q1 < q2], are hypotheses of the theorems.  The closing assertion
    [p4est_tree_is_complete (R)] is checked: [None] stands for a loop that
    has not finished or for the failure of this assertion.  The closing
    assertions on the two pools are stated as a theorem. *)
Definition p4est_complete_region (fuel : nat) (p4est : p4est_t)
  (q1 : p4est_quadrant_t) (include_q1 : bool)
  (q2 : p4est_quadrant_t) (include_q2 : bool) (tree : p4est_tree_t)
  : option (p4est_t * p4est_tree_t) :=
  match complete_region_build fuel p4est q1 include_q1 q2 include_q2 tree with
  | None => None
  | Some (p4est', R) =>
    if p4est_tree_is_complete R then Some (p4est', R) else None
  end.

(** The end of a quadrant in the Morton order: the index of its first cell
    of the deepest level plus the number of these cells. *)
Definition quadrant_end (q : p4est_quadrant_t) : Z :=
  morton_key q + 2 ^ (2 * (P4EST_MAXLEVEL - level q)).

(** A list of quadrants that fills the Morton indices from [lo] up to
    [hi], one quadrant beginning where the previous one ends. *)
Fixpoint fills (lo : Z) (l : list p4est_quadrant_t) (hi : Z) {struct l}
  : Prop :=
  match l with
  | [] => lo = hi
  | q :: t =>
    p4est_quadrant_is_valid q = true /\ morton_key q = lo /\
    fills (quadrant_end q) t hi
  end.

(** The quadrants that the loop of [p4est_complete_region] adds while it
    treats [w] and the descendants of [w]; [d] bounds the depth. *)
Fixpoint region_fill (d : nat) (a b w : p4est_quadrant_t) {struct d}
  : list p4est_quadrant_t :=
  if (p4est_quadrant_compare a w <? 0) && (p4est_quadrant_compare w b <? 0)
     && negb (p4est_quadrant_is_ancestor w b)
  then [w]
  else if p4est_quadrant_is_ancestor w a || p4est_quadrant_is_ancestor w b then
    match d with
    | O => []
    | S d' => flat_map (region_fill d' a b) (children_of w)
    end
  else [].

(** The number of elements popped meanwhile. *)
Fixpoint region_cost (d : nat) (a b w : p4est_quadrant_t) {struct d}
  : nat :=
  if (p4est_quadrant_compare a w <? 0) && (p4est_quadrant_compare w b <? 0)
     && negb (p4est_quadrant_is_ancestor w b)
  then 1
  else if p4est_quadrant_is_ancestor w a || p4est_quadrant_is_ancestor w b then
    match d with
    | O => 1
    | S d' => S (list_sum (map (region_cost d' a b) (children_of w)))
    end
  else 1.

(** The number of blocks of the user data pool, and whether quadrants get
    a block there. *)
Definition user_pool_count (p4est : p4est_t) : Z :=
  match user_data_pool p4est with
  | Some pool => mempool_elem_count pool
  | None => 0
  end.
Definition data_in_use (p4est : p4est_t) : bool :=
  (data_size p4est >? 0) &&
  match user_data_pool p4est with Some _ => true | None => false end.

(** The counters agree with the array: what the loop of
    [p4est_complete_region] relies on. *)
Definition region_inv (st : region_state) : Prop :=
  rg_num_quadrants st = elem_count (rg_quadrants st) /\
  P4EST_MAXLEVEL < Z.of_nat (length (rg_per_level st)).

(** From [st] to [st'] the quadrants [l] were added, up to their payload,
    and [n] blocks of the quadrant pool were given back. *)
Definition region_rel (n : Z) (st st' : region_state)
  (l : list p4est_quadrant_t) : Prop :=
  (exists added, rg_quadrants st' = rg_quadrants st ++ added /\
                 Forall2 same_xyl added l) /\
  rg_num_quadrants st' = rg_num_quadrants st + Z.of_nat (length l) /\
  mempool_elem_count (quadrant_pool (rg_p4est st'))
  = mempool_elem_count (quadrant_pool (rg_p4est st)) - n /\
  data_in_use (rg_p4est st') = data_in_use (rg_p4est st) /\
  user_pool_count (rg_p4est st')
  = user_pool_count (rg_p4est st)
    + (if data_in_use (rg_p4est st) then Z.of_nat (length l) else 0) /\
  length (rg_per_level st') = length (rg_per_level st) /\
  (forall k, 0 <= k ->
     per_level_get (rg_per_level st') k
     = per_level_get (rg_per_level st) k + level_count k l) /\
  rg_maxlevel st'
  = fold_left (fun m q => SC_MAX (level q) m) l (rg_maxlevel st).

(* ================================================================= *)
(** ** The validity check of a forest *)

(** An element of [global_first_position]: the fields [which_tree], [x] and
    [y] that [p4est_is_valid] reads (the type is declared in p4est.h, which
    is not among the sources at hand). *)
Record position_t : Type := mkposition {
  pos_which_tree : Z;
  pos_x : Z;
  pos_y : Z
}.

(** The fields of [p4est_t] that [p4est_is_valid] reads; [trees] is the
    array of all trees of the connectivity. *)
Record p4est_forest_t : Type := mkforest {
  mpisize : Z;
  mpirank : Z;
  first_local_tree : Z;
  last_local_tree : Z;
  local_num_quadrants : Z;
  global_first_position : list position_t;
  num_trees : Z;                      (* connectivity->num_trees *)
  trees : list p4est_tree_t
}.

(** What an access outside of an array yields in the model (the C code makes
    none under its assertions). *)
Definition position_zero : position_t := mkposition 0 0 0.
Definition tree_zero : p4est_tree_t := mktree [] [] 0.
Definition position_index (array : list position_t) (i : Z) : position_t :=
  nth (Z.to_nat i) array position_zero.
Definition tree_index (array : list p4est_tree_t) (i : Z) : p4est_tree_t :=
  nth (Z.to_nat i) array tree_zero.

(** The loop over the levels of one tree: [nquadrants] is a
    [p4est_locidx_t] and wraps at 32 bits. *)
Fixpoint is_valid_level_loop (n : nat) (i : Z) (per_level : list Z)
  (maxl nquadrants : Z) {struct n} : Z * Z :=
  match n with
  | O => (maxl, nquadrants)
  | S n' =>
    let perlevel := per_level_get per_level i in
    let nquadrants := int32 (nquadrants + perlevel) in
    let maxl := if perlevel >? 0 then i else maxl in
    is_valid_level_loop n' (i + 1) per_level maxl nquadrants
  end.

(** The loop over the trees; [None] stands for [return 0].  The index [js]
    is a [size_t], so the two tree numbers it is compared with are converted
    to unsigned 64-bit values, and so is [nquadrants] when it is compared
    with [elem_count]. *)
Fixpoint is_valid_tree_loop (p4est : p4est_forest_t)
  (rest : list p4est_tree_t) (js lquadrants : Z) {struct rest} : option Z :=
  match rest with
  | [] => Some lquadrants
  | tree :: rest' =>
    if negb (p4est_tree_is_complete tree) then None
    else if ((js <? uint64 (first_local_tree p4est))
             || (js >? uint64 (last_local_tree p4est)))
            && (elem_count (quadrants tree) >? 0) then None
    else
      let r := is_valid_level_loop (Z.to_nat (P4EST_MAXLEVEL + 1)) 0
                                   (quadrants_per_level tree) 0 0 in
      let lquadrants := int32 (lquadrants + snd r) in
      if negb (fst r =? maxlevel tree) then None
      else if negb (uint64 (snd r) =? elem_count (quadrants tree)) then None
      else is_valid_tree_loop p4est rest' (js + 1) lquadrants
  end.

Definition p4est_is_valid (p4est : p4est_forest_t) : bool :=
  let rank := mpirank p4est in
  let first_tree := first_local_tree p4est in
  let last_tree := last_local_tree p4est in
  (* check first tree in global partition *)
  let first_ok :=
    if first_tree <? 0 then (first_tree =? -1) && (last_tree =? -2)
    else if negb (pos_which_tree
                    (position_index (global_first_position p4est) rank)
                  =? first_tree) then false
    else
      let mylow :=
        set_xyl quadrant_zero
          (pos_x (position_index (global_first_position p4est) rank))
          (pos_y (position_index (global_first_position p4est) rank))
          P4EST_MAXLEVEL in
      let tree := tree_index (trees p4est) first_tree in
      if elem_count (quadrants tree) >? 0 then
        let q := sc_array_index (quadrants tree) 0 in
        negb (negb (x q =? x mylow) || negb (y q =? y mylow))
      else true in
  if negb first_ok then false
  else
    (* check last tree in global partition *)
    let last_ok :=
      if last_tree <? 0 then (first_tree =? -1) && (last_tree =? -2)
      else
        let next_tree :=
          pos_which_tree
            (position_index (global_first_position p4est) (rank + 1)) in
        if negb (next_tree =? last_tree) && negb (next_tree =? last_tree + 1)
        then false
        else
          let nextlow :=
            set_xyl quadrant_zero
              (pos_x (position_index (global_first_position p4est) (rank + 1)))
              (pos_y (position_index (global_first_position p4est) (rank + 1)))
              P4EST_MAXLEVEL in
          let tree := tree_index (trees p4est) last_tree in
          if elem_count (quadrants tree) >? 0 then
            let q := sc_array_index (quadrants tree)
                       (elem_count (quadrants tree) - 1) in
            if next_tree =? last_tree then p4est_quadrant_is_next q nextlow
            else
              let s := p4est_quadrant_last_descendent q quadrant_zero
                         P4EST_MAXLEVEL in
              negb (negb (x s + 1 =? P4EST_ROOT_LEN)
                    || negb (y s + 1 =? P4EST_ROOT_LEN))
          else true in
    if negb last_ok then false
    else
      (* check individual trees *)
      match is_valid_tree_loop p4est (trees p4est) 0 0 with
      | None => false
      | Some lquadrants => lquadrants =? local_num_quadrants p4est
      end.

(** The assertions of [p4est_is_valid] and of the functions it calls: the
    entry after the last process in [global_first_position] is the origin of
    the tree after the last one, [trees] has [num_trees] elements, the level
    counters are not negative, and [p4est_quadrant_is_next] is given
    extended quadrants. *)
Definition is_valid_asserts (p4est : p4est_forest_t) : bool :=
  let last :=
    position_index (global_first_position p4est) (mpisize p4est) in
  (pos_which_tree last =? num_trees p4est) &&
  (pos_x last =? 0) && (pos_y last =? 0) &&
  (num_trees p4est =? int32 (Z.of_nat (length (trees p4est)))) &&
  forallb (fun t => array_is_extended (quadrants t)) (trees p4est) &&
  forallb (fun t =>
             forallb (fun l => 0 <=? per_level_get (quadrants_per_level t)
                                                  (Z.of_nat l))
                     (seq 0 (Z.to_nat (P4EST_MAXLEVEL + 1))))
          (trees p4est).

(** The sum of the level counters of a tree, whether they are all
    non-negative, and the two totals of a forest. *)
Definition per_level_sum (per_level : list Z) : Z :=
  fold_right Z.add 0
    (map (fun l => per_level_get per_level (Z.of_nat l))
         (seq 0 (Z.to_nat (P4EST_MAXLEVEL + 1)))).
Definition per_level_nonneg (per_level : list Z) : bool :=
  forallb (fun l => 0 <=? per_level_get per_level (Z.of_nat l))
          (seq 0 (Z.to_nat (P4EST_MAXLEVEL + 1))).
Definition trees_counted (ts : list p4est_tree_t) : Z :=
  fold_right Z.add 0 (map (fun t => per_level_sum (quadrants_per_level t)) ts).
Definition trees_num_quadrants (ts : list p4est_tree_t) : Z :=
  fold_right Z.add 0 (map (fun t => elem_count (quadrants t)) ts).


(* ================================================================= *)
(** ** Machine integers and the logarithm table *)

Lemma int32_small (z : Z) : - 2 ^ 31 <= z < 2 ^ 31 -> int32 z = z.
Proof.
  intros H. unfold int32. rewrite Z.mod_small; lia.
Qed.

Lemma int8_small (z : Z) : - 2 ^ 7 <= z < 2 ^ 7 -> int8 z = z.
Proof.
  intros H. unfold int8. rewrite Z.mod_small; lia.
Qed.

Lemma uint32_small (z : Z) : 0 <= z < 2 ^ 32 -> uint32 z = z.
Proof. intros H. unfold uint32. apply Z.mod_small; lia. Qed.

Lemma uint64_small (z : Z) : 0 <= z < 2 ^ 64 -> uint64 z = z.
Proof. intros H. unfold uint64. apply Z.mod_small; lia. Qed.

Lemma uint32_range (z : Z) : 0 <= uint32 z < 2 ^ 32.
Proof. unfold uint32. apply Z.mod_pos_bound. lia. Qed.

Lemma uint32_testbit (z i : Z) :
  Z.testbit (uint32 z) i = (i <? 32) && Z.testbit z i.
Proof.
  unfold uint32. destruct (Z.ltb_spec i 32).
  - rewrite Z.mod_pow2_bits_low by lia. reflexivity.
  - rewrite Z.mod_pow2_bits_high by lia. reflexivity.
Qed.

Lemma uint64_testbit (z i : Z) :
  Z.testbit (uint64 z) i = (i <? 64) && Z.testbit z i.
Proof.
  unfold uint64. destruct (Z.ltb_spec i 64).
  - rewrite Z.mod_pow2_bits_low by lia. reflexivity.
  - rewrite Z.mod_pow2_bits_high by lia. reflexivity.
Qed.

Lemma int32_testbit (z i : Z) :
  0 <= i < 32 -> Z.testbit (int32 z) i = Z.testbit z i.
Proof.
  intros Hi. unfold int32.
  replace ((z + 2 ^ 31) mod 2 ^ 32 - 2 ^ 31)
    with (z + 2 ^ 32 * (- ((z + 2 ^ 31) / 2 ^ 32))).
  2:{ pose proof (Z.div_mod (z + 2 ^ 31) (2 ^ 32)). lia. }
  rewrite <- (Z.mod_pow2_bits_low _ 32 i) by lia.
  rewrite <- (Z.mod_pow2_bits_low z 32 i) by lia.
  f_equal. rewrite Z.mul_comm, Z.mod_add by lia. reflexivity.
Qed.

Lemma SC_LOG2_8_table :
  forallb (fun n => SC_LOG2_8 (Z.of_nat n) =?
                    (if Nat.eqb n 0 then -1 else Z.log2 (Z.of_nat n)))
          (seq 0 256) = true.
Proof. vm_compute. reflexivity. Qed.

Lemma SC_LOG2_8_spec (a : Z) :
  0 <= a < 256 -> SC_LOG2_8 a = if a =? 0 then -1 else Z.log2 a.
Proof.
  intros H. pose proof SC_LOG2_8_table as T.
  rewrite forallb_forall in T.
  specialize (T (Z.to_nat a)). rewrite Z2Nat.id in T by lia.
  assert (In (Z.to_nat a) (seq 0 256)) as I by (apply in_seq; lia).
  apply T in I. apply Z.eqb_eq in I. rewrite I.
  destruct (Nat.eqb_spec (Z.to_nat a) 0), (Z.eqb_spec a 0); try reflexivity; lia.
Qed.

Lemma log2_shiftr_ge (a n : Z) :
  0 <= n -> 2 ^ n <= a -> Z.log2 (Z.shiftr a n) + n = Z.log2 a.
Proof.
  intros Hn Ha.
  assert (0 < a) by (pose proof (Z.pow_pos_nonneg 2 n); lia).
  assert (n <= Z.log2 a) by (apply Z.log2_le_pow2; lia).
  rewrite Z.log2_shiftr by lia. lia.
Qed.

Lemma SC_LOG2_16_spec (a : Z) :
  0 <= a < 65536 -> SC_LOG2_16 a = if a =? 0 then -1 else Z.log2 a.
Proof.
  intros H. unfold SC_LOG2_16.
  destruct (Z.gtb_spec a 255).
  - assert (0 <= Z.shiftr a 8 < 256).
    { rewrite Z.shiftr_div_pow2 by lia. split.
      - apply Z.div_pos; lia.
      - apply Z.div_lt_upper_bound; lia. }
    rewrite SC_LOG2_8_spec by lia.
    assert (1 <= Z.shiftr a 8).
    { rewrite Z.shiftr_div_pow2 by lia. apply Z.div_le_lower_bound; lia. }
    destruct (Z.eqb_spec (Z.shiftr a 8) 0); [lia|].
    destruct (Z.eqb_spec a 0); [lia|].
    apply log2_shiftr_ge; lia.
  - apply SC_LOG2_8_spec. lia.
Qed.

Lemma SC_LOG2_32_spec (a : Z) :
  0 <= a < 2 ^ 32 -> SC_LOG2_32 a = if a =? 0 then -1 else Z.log2 a.
Proof.
  intros H. unfold SC_LOG2_32.
  destruct (Z.gtb_spec a 65535).
  - assert (0 <= Z.shiftr a 16 < 65536).
    { rewrite Z.shiftr_div_pow2 by lia. split.
      - apply Z.div_pos; lia.
      - apply Z.div_lt_upper_bound; lia. }
    rewrite SC_LOG2_16_spec by lia.
    assert (1 <= Z.shiftr a 16).
    { rewrite Z.shiftr_div_pow2 by lia. apply Z.div_le_lower_bound; lia. }
    destruct (Z.eqb_spec (Z.shiftr a 16) 0); [lia|].
    destruct (Z.eqb_spec a 0); [lia|].
    apply log2_shiftr_ge; lia.
  - apply SC_LOG2_16_spec. lia.
Qed.

Lemma SC_LOG2_32_lt (a m : Z) :
  0 <= a < 2 ^ 32 -> 0 <= m -> (SC_LOG2_32 a < m <-> a < 2 ^ m).
Proof.
  intros Ha Hm. rewrite SC_LOG2_32_spec by lia.
  destruct (Z.eqb_spec a 0).
  - subst. pose proof (Z.pow_pos_nonneg 2 m). lia.
  - split; intros.
    + apply Z.log2_lt_pow2; lia.
    + apply Z.log2_lt_pow2; lia.
Qed.

Lemma QUADRANT_LEN_pow (l : Z) :
  l <= P4EST_MAXLEVEL -> P4EST_QUADRANT_LEN l = 2 ^ (P4EST_MAXLEVEL - l).
Proof.
  intros H. unfold P4EST_QUADRANT_LEN. rewrite Z.shiftl_1_l. reflexivity.
Qed.

Lemma ROOT_LEN_val : P4EST_ROOT_LEN = 2 ^ 29.
Proof. reflexivity. Qed.


(* ================================================================= *)
(** ** The sign of a coordinate and the comparison *)

Lemma testbit_31_sign (a : Z) :
  int32_range a -> Z.testbit a 31 = (a <? 0).
Proof.
  unfold int32_range. intros H.
  rewrite <- (Z.add_0_l 31), <- Z.div_pow2_bits, Z.bit0_odd by lia.
  destruct (Z.ltb_spec a 0).
  - replace (a / 2 ^ 31) with (-1); [reflexivity|].
    apply Z.div_unique with (r := a + 2 ^ 31); lia.
  - rewrite Z.div_small by lia. reflexivity.
Qed.

Lemma uint32_lxor_sign_nonzero (a b : Z) :
  int32_range a -> int32_range b -> a < 0 <= b ->
  Z.testbit (uint32 (Z.lxor a b)) 31 = true.
Proof.
  intros Ha Hb H. rewrite uint32_testbit, Z.lxor_spec.
  rewrite !testbit_31_sign by assumption.
  destruct (Z.ltb_spec a 0), (Z.ltb_spec b 0); try lia. reflexivity.
Qed.

Lemma uint32_bit31_log2 (e : Z) :
  Z.testbit (uint32 e) 31 = true -> SC_LOG2_32 (uint32 e) = 31.
Proof.
  intros H. pose proof (uint32_range e) as R.
  rewrite SC_LOG2_32_spec by assumption.
  destruct (Z.eqb_spec (uint32 e) 0) as [E|E].
  - rewrite E in H. rewrite Z.testbit_0_l in H. discriminate.
  - apply Z.log2_unique; [lia|]. split; [|lia].
    destruct (Z.lt_ge_cases (uint32 e) (2 ^ 31)) as [L|L]; [|assumption].
    rewrite (Z.bits_above_log2 (uint32 e) 31) in H; [discriminate|lia|].
    apply Z.log2_lt_pow2; lia.
Qed.

Lemma uint32_nobit31_log2 (e : Z) :
  Z.testbit (uint32 e) 31 = false -> SC_LOG2_32 (uint32 e) < 31.
Proof.
  intros H. pose proof (uint32_range e) as R.
  apply SC_LOG2_32_lt; [assumption|lia|].
  destruct (Z.lt_ge_cases (uint32 e) (2 ^ 31)) as [L|L]; [assumption|].
  assert (Z.log2 (uint32 e) = 31) as E.
  { apply Z.log2_unique; lia. }
  pose proof (Z.bit_log2 (uint32 e)) as B. rewrite E in B.
  rewrite B in H by lia. discriminate.
Qed.

Lemma sign3_pos (d : Z) : 0 < d -> sign3 d = 1.
Proof.
  intros H. unfold sign3.
  destruct (Z.eqb_spec d 0); [lia|]. destruct (Z.ltb_spec d 0); [lia|reflexivity].
Qed.

Lemma sign3_neg (d : Z) : d < 0 -> sign3 d = -1.
Proof.
  intros H. unfold sign3.
  destruct (Z.eqb_spec d 0); [lia|]. destruct (Z.ltb_spec d 0); [reflexivity|lia].
Qed.

Lemma sign3_zero (d : Z) : sign3 d = 0 <-> d = 0.
Proof.
  unfold sign3. destruct (Z.eqb_spec d 0); [tauto|].
  destruct (Z.ltb_spec d 0); split; intros; lia.
Qed.

Lemma sign3_lt0 (d : Z) : sign3 d < 0 <-> d < 0.
Proof.
  unfold sign3. destruct (Z.eqb_spec d 0); [lia|].
  destruct (Z.ltb_spec d 0); split; intros; lia.
Qed.

Lemma sign3_opp (d : Z) : sign3 (- d) = - sign3 d.
Proof.
  unfold sign3. destruct (Z.eqb_spec d 0), (Z.eqb_spec (- d) 0); try lia.
  destruct (Z.ltb_spec d 0), (Z.ltb_spec (- d) 0); lia.
Qed.

(** *** C6: where the negative side sorts *)

(** C6, as stated, fails: the quadrant at [y = -R] and the root are decided
    on the y axis, the first has the negative coordinate, and it compares
    above the root. *)
Lemma compare_negative_side_counterexample :
  let q1 := mkquad 0 (- P4EST_ROOT_LEN) 0 (user_data NULL) in
  let q2 := mkquad 0 0 0 (user_data NULL) in
  p4est_quadrant_is_extended q1 = true /\
  p4est_quadrant_is_extended q2 = true /\
  compare_axis_y q1 q2 = true /\
  y q1 < 0 <= y q2 /\
  ~ p4est_quadrant_compare q1 q2 < 0.
Proof.
  cbv zeta. repeat split; try (vm_compute; congruence).
Qed.

(** C6, amended: on the axis that decides the comparison, a negative
    coordinate compares above a coordinate at or above zero whenever the two
    are less than [1 << (Lmax + 2)] apart, which holds for all coordinates at
    most one root length outside of the root. *)
Theorem compare_negative_side_sorts_above (q1 q2 : p4est_quadrant_t) :
  int32_range (x q1) -> int32_range (y q1) ->
  int32_range (x q2) -> int32_range (y q2) ->
  (compare_axis_y q1 q2 = true ->
   y q1 < 0 <= y q2 -> y q2 - y q1 < Z.shiftl 1 (P4EST_MAXLEVEL + 2) ->
   p4est_quadrant_compare q1 q2 = 1 /\ p4est_quadrant_compare q2 q1 = -1) /\
  (compare_axis_y q1 q2 = false ->
   x q1 < 0 <= x q2 -> x q2 - x q1 < Z.shiftl 1 (P4EST_MAXLEVEL + 2) ->
   p4est_quadrant_compare q1 q2 = 1 /\ p4est_quadrant_compare q2 q1 = -1).
Proof.
  intros X1 Y1 X2 Y2.
  assert (forall a b, uint32 (Z.lxor a b) = 0 -> uint32 (Z.lxor b a) = 0) as S0
    by (intros a b; rewrite (Z.lxor_comm b a); auto).
  change (Z.shiftl 1 (P4EST_MAXLEVEL + 2)) with (2 ^ 31).
  split; intros A S D; unfold compare_axis_y in A;
    unfold p4est_quadrant_compare;
    change (Z.shiftl 1 (P4EST_MAXLEVEL + 2)) with (2 ^ 31);
    rewrite (Z.lxor_comm (y q2) (y q1)), (Z.lxor_comm (x q2) (x q1)).
  - pose proof (uint32_lxor_sign_nonzero _ _ Y1 Y2 S) as B.
    destruct (Z.eqb_spec (uint32 (Z.lxor (y q1) (y q2))) 0) as [E|E].
    { rewrite E, Z.testbit_0_l in B. discriminate. }
    cbn [andb]. rewrite A.
    destruct (Z.geb_spec (y q1) 0); [lia|]. destruct (Z.geb_spec (y q2) 0); [|lia].
    split; [apply sign3_pos | apply sign3_neg]; lia.
  - pose proof (uint32_lxor_sign_nonzero _ _ X1 X2 S) as B.
    destruct (Z.eqb_spec (uint32 (Z.lxor (x q1) (x q2))) 0) as [E|E].
    { rewrite E, Z.testbit_0_l in B. discriminate. }
    rewrite andb_false_r. rewrite A.
    destruct (Z.geb_spec (x q1) 0); [lia|]. destruct (Z.geb_spec (x q2) 0); [|lia].
    split; [apply sign3_pos | apply sign3_neg]; lia.
Qed.

Lemma compare_negative_side_sorts_above_witness :
  let q1 := mkquad 0 (- P4EST_ROOT_LEN) 0 (user_data NULL) in
  let q2 := mkquad 0 0 0 (user_data NULL) in
  p4est_quadrant_compare q1 q2 = 1 /\ p4est_quadrant_compare q2 q1 = -1.
Proof.
  cbv zeta.
  refine (proj1 (compare_negative_side_sorts_above
            (mkquad 0 (- P4EST_ROOT_LEN) 0 (user_data NULL))
            (mkquad 0 0 0 (user_data NULL)) _ _ _ _) _ _ _);
    try (unfold int32_range; vm_compute; split; congruence);
    try (vm_compute; reflexivity).
Defined.


(* ================================================================= *)
(** ** Bits of coordinates *)

Lemma int32_is_range (z : Z) : int32_range (int32 z).
Proof.
  unfold int32_range, int32.
  pose proof (Z.mod_pos_bound (z + 2 ^ 31) (2 ^ 32)). lia.
Qed.

(** Two [int32_t] values with the same 32 low bits are equal. *)
Lemma int32_bits_inj (u v : Z) :
  int32_range u -> int32_range v ->
  (forall k, 0 <= k < 32 -> Z.testbit u k = Z.testbit v k) -> u = v.
Proof.
  unfold int32_range. intros Hu Hv B.
  assert (u mod 2 ^ 32 = v mod 2 ^ 32) as E.
  { apply Z.bits_inj'. intros k Hk.
    destruct (Z.ltb_spec k 32).
    - rewrite !Z.mod_pow2_bits_low by lia. apply B. lia.
    - rewrite !Z.mod_pow2_bits_high by lia. reflexivity. }
  pose proof (Z.div_mod u (2 ^ 32)). pose proof (Z.div_mod v (2 ^ 32)).
  assert (u / 2 ^ 32 = v / 2 ^ 32); [|lia].
  pose proof (Z.mod_pos_bound u (2 ^ 32)). pose proof (Z.mod_pos_bound v (2 ^ 32)).
  nia.
Qed.

Lemma clear_low_testbit (c m k : Z) :
  0 <= m -> 0 <= k ->
  Z.testbit (clear_low c m) k = (m <=? k) && Z.testbit c k.
Proof.
  intros Hm Hk. unfold clear_low.
  destruct (Z.leb_spec m k).
  - rewrite Z.shiftl_spec, Z.shiftr_spec by lia. cbn. f_equal. lia.
  - rewrite Z.shiftl_spec_low by lia. reflexivity.
Qed.

Lemma clear_low_eq (c m : Z) : 0 <= m -> clear_low c m = c - c mod 2 ^ m.
Proof.
  intros Hm. unfold clear_low.
  rewrite Z.shiftl_mul_pow2, Z.shiftr_div_pow2 by lia.
  pose proof (Z.div_mod c (2 ^ m)). pose proof (Z.pow_pos_nonneg 2 m). lia.
Qed.

Lemma clear_low_range (c m : Z) :
  0 <= m <= 31 -> int32_range c -> int32_range (clear_low c m).
Proof.
  unfold int32_range. intros Hm Hc. rewrite clear_low_eq by lia.
  pose proof (Z.pow_pos_nonneg 2 m).
  pose proof (Z.mod_pos_bound c (2 ^ m)).
  split; [|lia].
  assert (2 ^ 31 = 2 ^ m * 2 ^ (31 - m)) as E.
  { rewrite <- Z.pow_add_r by lia. f_equal. lia. }
  pose proof (Z.div_mod c (2 ^ m)).
  assert (- 2 ^ (31 - m) <= c / 2 ^ m).
  { apply Z.div_le_lower_bound; lia. }
  nia.
Qed.

Lemma clear_low_aligned (c m : Z) :
  0 <= m -> Z.land c (2 ^ m - 1) = 0 -> clear_low c m = c.
Proof.
  intros Hm A. rewrite clear_low_eq by lia.
  change (2 ^ m - 1) with (Z.pred (2 ^ m)) in A.
  rewrite <- Z.ones_equiv, Z.land_ones in A by lia. lia.
Qed.

Lemma clear_low_land (c m : Z) :
  0 <= m -> Z.land c (Z.lnot (2 ^ m - 1)) = clear_low c m.
Proof.
  intros Hm. apply Z.bits_inj'. intros k Hk.
  rewrite clear_low_testbit, Z.land_spec, Z.lnot_spec by lia.
  change (2 ^ m - 1) with (Z.pred (2 ^ m)). rewrite <- Z.ones_equiv.
  destruct (Z.leb_spec m k).
  - rewrite Z.ones_spec_high by lia. cbn. apply andb_true_r.
  - rewrite Z.ones_spec_low by lia. cbn. apply andb_false_r.
Qed.

(** Clearing bit [m] of a coordinate whose bits below [m] are clear. *)
Lemma clear_bit_aligned (c m : Z) :
  0 <= m -> Z.land c (2 ^ m - 1) = 0 ->
  Z.land c (Z.lnot (2 ^ m)) = clear_low c (m + 1).
Proof.
  intros Hm A. apply Z.bits_inj'. intros k Hk.
  rewrite clear_low_testbit, Z.land_spec, Z.lnot_spec, Z.pow2_bits_eqb by lia.
  assert (k < m -> Z.testbit c k = false) as L.
  { intros Hlt. apply (f_equal (fun z => Z.testbit z k)) in A.
    rewrite Z.land_spec, Z.testbit_0_l in A.
    change (2 ^ m - 1) with (Z.pred (2 ^ m)) in A.
    rewrite <- Z.ones_equiv, Z.ones_spec_low, andb_true_r in A by lia. exact A. }
  destruct (Z.eqb_spec m k), (Z.leb_spec (m + 1) k); try lia; cbn.
  - apply andb_true_r.
  - rewrite L by lia. reflexivity.
Qed.

Lemma clear_low_clear_low (c m n : Z) :
  0 <= m -> 0 <= n -> clear_low (clear_low c m) n = clear_low c (Z.max m n).
Proof.
  intros Hm Hn. apply Z.bits_inj'. intros k Hk.
  rewrite !clear_low_testbit by lia.
  destruct (Z.leb_spec n k), (Z.leb_spec m k), (Z.leb_spec (Z.max m n) k);
    try lia; reflexivity.
Qed.

Lemma clear_low_0 (c : Z) : clear_low c 0 = c.
Proof. unfold clear_low. rewrite Z.shiftr_0_r, Z.shiftl_0_r. reflexivity. Qed.

(** Alignment of a clear_low coordinate. *)
Lemma clear_low_is_aligned (c m : Z) :
  0 <= m -> Z.land (clear_low c m) (2 ^ m - 1) = 0.
Proof.
  intros Hm. apply Z.bits_inj'. intros k Hk.
  rewrite Z.land_spec, clear_low_testbit, Z.testbit_0_l by lia.
  change (2 ^ m - 1) with (Z.pred (2 ^ m)). rewrite <- Z.ones_equiv.
  destruct (Z.leb_spec m k).
  - rewrite Z.ones_spec_high by lia. apply andb_false_r.
  - reflexivity.
Qed.

(** Equality of cleared coordinates through the exclusive or. *)
Lemma clear_low_eq_iff (a b m : Z) :
  0 <= m -> (clear_low a m = clear_low b m <-> Z.shiftr (Z.lxor a b) m = 0).
Proof.
  intros Hm. split; intros H.
  - apply Z.bits_inj'. intros k Hk.
    rewrite Z.shiftr_spec, Z.lxor_spec, Z.testbit_0_l by lia.
    apply (f_equal (fun z => Z.testbit z (k + m))) in H.
    rewrite !clear_low_testbit in H by lia.
    destruct (Z.leb_spec m (k + m)); [|lia]. cbn in H. rewrite H.
    apply xorb_nilpotent.
  - apply Z.bits_inj'. intros k Hk. rewrite !clear_low_testbit by lia.
    destruct (Z.leb_spec m k); [|reflexivity]. cbn.
    apply (f_equal (fun z => Z.testbit z (k - m))) in H.
    rewrite Z.shiftr_spec, Z.lxor_spec, Z.testbit_0_l in H by lia.
    replace (k - m + m) with k in H by lia.
    apply xorb_eq. exact H.
Qed.


(* ================================================================= *)
(** ** The Morton index and its inverse *)

Ltac destr_cmp :=
  repeat first
    [ match goal with |- context [?u =? ?v] => destruct (Z.eqb_spec u v) end
    | match goal with |- context [?u <? ?v] => destruct (Z.ltb_spec u v) end
    | match goal with |- context [?u <=? ?v] => destruct (Z.leb_spec u v) end ];
  try lia.

Ltac bsolve :=
  destr_cmp; cbn [andb orb negb];
  rewrite ?orb_false_r, ?andb_true_r, ?andb_false_r, ?orb_true_r;
  try reflexivity; try lia.

Lemma uint64_shiftl_1 (i : Z) : 0 <= i < 64 -> uint64 (Z.shiftl 1 i) = 2 ^ i.
Proof.
  intros H. rewrite Z.shiftl_1_l. apply uint64_small.
  split; [apply Z.pow_nonneg; lia | apply Z.pow_lt_mono_r; lia].
Qed.

Lemma bit_pick64 (a i s k : Z) :
  0 <= i -> 0 <= s -> i + s < 64 -> 0 <= k ->
  Z.testbit (uint64 (Z.shiftl (Z.land a (uint64 (Z.shiftl 1 i))) s)) k
  = (k =? i + s) && Z.testbit a i.
Proof.
  intros Hi Hs His Hk. rewrite uint64_shiftl_1 by lia.
  rewrite uint64_testbit, Z.shiftl_spec, Z.land_spec by lia.
  destruct (Z.eqb_spec k (i + s)) as [E|E].
  - subst k. replace (i + s - s) with i by lia.
    rewrite Z.pow2_bits_eqb, Z.eqb_refl by lia.
    destruct (Z.ltb_spec (i + s) 64); [|lia]. cbn. apply andb_true_r.
  - destruct (Z.lt_ge_cases (k - s) 0).
    + rewrite (Z.testbit_neg_r (2 ^ i)) by lia.
      rewrite andb_false_r. apply andb_false_r.
    + rewrite Z.pow2_bits_eqb by lia.
      destruct (Z.eqb_spec i (k - s)); [lia|].
      rewrite andb_false_r. apply andb_false_r.
Qed.

Lemma linear_id_loop_bits (a b : Z) (n : nat) :
  forall i id k, 0 <= i -> i + Z.of_nat n <= 32 -> 0 <= k ->
  Z.testbit (linear_id_loop n i a b id) k
  = Z.testbit id k ||
    ((2 * i <=? k) && (k <? 2 * (i + Z.of_nat n)) &&
     (if Z.even k then Z.testbit a (k / 2) else Z.testbit b (k / 2))).
Proof.
  induction n as [|n IH]; intros i id k Hi Hn Hk.
  - cbn [linear_id_loop]. bsolve.
  - cbn [linear_id_loop]. rewrite IH by lia.
    rewrite !Z.lor_spec, !bit_pick64 by lia.
    destruct (Z.eqb_spec k (i + i)) as [E|E].
    { assert (Z.even k = true) as Ev.
      { subst k. replace (i + i) with (2 * i) by lia.
        rewrite Z.even_mul. reflexivity. }
      assert (k / 2 = i) as Dv.
      { symmetry. apply Z.div_unique with (r := 0); lia. }
      rewrite Ev, Dv. bsolve. }
    destruct (Z.eqb_spec k (i + (i + 1))) as [F|F].
    { assert (Z.even k = false) as Ev.
      { subst k. replace (i + (i + 1)) with (1 + 2 * i) by lia.
        rewrite Z.even_add, Z.even_mul. reflexivity. }
      assert (k / 2 = i) as Dv.
      { symmetry. apply Z.div_unique with (r := 1); lia. }
      rewrite Ev, Dv. bsolve. }
    cbn [andb]. rewrite !orb_false_r. bsolve.
Qed.

Lemma linear_id_bits (q : p4est_quadrant_t) (l k : Z) :
  0 <= l <= P4EST_MAXLEVEL -> 0 <= k ->
  Z.testbit (p4est_quadrant_linear_id q l) k
  = (k <? 2 * (l + 3)) &&
    (if Z.even k then Z.testbit (x q) (k / 2 + (P4EST_MAXLEVEL - l))
     else Z.testbit (y q) (k / 2 + (P4EST_MAXLEVEL - l))).
Proof.
  unfold P4EST_MAXLEVEL. intros Hl Hk. unfold p4est_quadrant_linear_id.
  unfold P4EST_MAXLEVEL.
  rewrite linear_id_loop_bits by lia.
  rewrite Z.testbit_0_l. cbn [orb].
  rewrite Z2Nat.id by lia. replace (0 + (l + (32 - 29))) with (l + 3) by lia.
  destruct (Z.leb_spec (2 * 0) k); [|lia]. cbn [andb].
  destruct (Z.ltb_spec k (2 * (l + 3))); [|reflexivity]. cbn [andb].
  assert (0 <= k / 2 < 32).
  { split; [apply Z.div_pos; lia | apply Z.div_lt_upper_bound; lia]. }
  rewrite !uint64_testbit, !Z.shiftr_spec by lia.
  destruct (Z.ltb_spec (k / 2) 64); [|lia]. reflexivity.
Qed.

Lemma bit_pick32 (id t s k : Z) :
  0 <= s <= t -> t < 64 -> 0 <= k < 32 ->
  Z.testbit (int32 (Z.shiftr (Z.land id (uint64 (Z.shiftl 1 t))) s)) k
  = (k =? t - s) && Z.testbit id t.
Proof.
  intros Hs Ht Hk. rewrite uint64_shiftl_1 by lia.
  rewrite int32_testbit, Z.shiftr_spec, Z.land_spec, Z.pow2_bits_eqb by lia.
  destruct (Z.eqb_spec t (k + s)), (Z.eqb_spec k (t - s)); try lia.
  rewrite <- e. cbn. apply andb_true_r.
Qed.

Lemma set_morton_loop_bits (id : Z) (n : nat) :
  forall i a b j, 0 <= i -> i + Z.of_nat n <= 32 -> 0 <= j < 32 ->
  Z.testbit (fst (set_morton_loop n i id a b)) j
  = Z.testbit a j ||
    ((i <=? j) && (j <? i + Z.of_nat n) && Z.testbit id (2 * j)) /\
  Z.testbit (snd (set_morton_loop n i id a b)) j
  = Z.testbit b j ||
    ((i <=? j) && (j <? i + Z.of_nat n) && Z.testbit id (2 * j + 1)).
Proof.
  induction n as [|n IH]; intros i a b j Hi Hn Hj.
  - cbn [set_morton_loop fst snd].
    destruct (Z.leb_spec i j), (Z.ltb_spec j (i + Z.of_nat 0)); try lia;
      cbn; rewrite ?orb_false_r; split; reflexivity.
  - cbn [set_morton_loop].
    destruct (IH (i + 1)
      (Z.lor a (int32 (Z.shiftr (Z.land id (uint64 (Z.shiftl 1 (2 * i)))) i)))
      (Z.lor b (int32 (Z.shiftr (Z.land id (uint64 (Z.shiftl 1 (2 * i + 1))))
                         (i + 1))))
      j ltac:(lia) ltac:(lia) Hj) as [Ea Eb].
    rewrite Ea, Eb. rewrite !Z.lor_spec, !bit_pick32 by lia.
    replace (2 * i - i) with i by lia.
    replace (2 * i + 1 - (i + 1)) with i by lia.
    replace (i + 1 + Z.of_nat n) with (i + Z.of_nat (S n)) by lia.
    destruct (Z.eqb_spec j i) as [E|E].
    + subst j.
      destruct (Z.leb_spec (i + 1) i); [lia|].
      destruct (Z.leb_spec i i); [|lia].
      destruct (Z.ltb_spec i (i + Z.of_nat (S n))); [|lia].
      cbn. rewrite !orb_false_r. split; reflexivity.
    + cbn [andb]. rewrite !orb_false_r.
      destruct (Z.leb_spec (i + 1) j), (Z.leb_spec i j); try lia;
        split; reflexivity.
Qed.

(** The coordinates rebuilt by [p4est_quadrant_set_morton] from the index of
    level [l] of [q] are those of [q] with the bits below level [l] cleared. *)
Lemma set_morton_linear_id_ancestor (q r : p4est_quadrant_t) (l : Z) :
  int32_range (x q) -> int32_range (y q) -> 0 <= l <= P4EST_MAXLEVEL ->
  p4est_quadrant_set_morton r l (p4est_quadrant_linear_id q l)
  = set_xyl r (clear_low (x q) (P4EST_MAXLEVEL - l))
              (clear_low (y q) (P4EST_MAXLEVEL - l)) l.
Proof.
  intros Hx Hy Hl. unfold p4est_quadrant_set_morton.
  destruct (set_morton_loop _ 0 _ 0 0) as [a b] eqn:E.
  assert (Hbits := fun j (Hj : 0 <= j < 32) =>
     set_morton_loop_bits (p4est_quadrant_linear_id q l)
       (Z.to_nat (l + (32 - P4EST_MAXLEVEL))) 0 0 0 j
       ltac:(lia) ltac:(unfold P4EST_MAXLEVEL in *; lia) Hj).
  rewrite E in Hbits. cbn [fst snd] in Hbits.
  unfold P4EST_MAXLEVEL in *.
  rewrite (int8_small l) by lia.
  unfold set_xyl. f_equal.
  - apply int32_bits_inj.
    + apply int32_is_range.
    + apply clear_low_range; [lia|assumption].
    + intros k Hk. rewrite int32_testbit, clear_low_testbit by lia.
      destruct (Z.leb_spec (29 - l) k).
      * rewrite Z.shiftl_spec by lia.
        destruct (Hbits (k - (29 - l)) ltac:(lia)) as [Ea _].
        rewrite Ea, Z.testbit_0_l, linear_id_bits by (unfold P4EST_MAXLEVEL; lia).
        rewrite Z2Nat.id by lia. unfold P4EST_MAXLEVEL.
        rewrite Z.even_mul. cbn [Z.even orb].
        rewrite (Z.mul_comm 2), Z.div_mul by lia.
        destruct (Z.leb_spec 0 (k - (29 - l))); [|lia].
        destruct (Z.ltb_spec (k - (29 - l)) (0 + (l + (32 - 29)))); [|lia].
        destruct (Z.ltb_spec ((k - (29 - l)) * 2) (2 * (l + 3))); [|lia].
        cbn. f_equal. lia.
      * rewrite Z.shiftl_spec_low by lia. reflexivity.
  - apply int32_bits_inj.
    + apply int32_is_range.
    + apply clear_low_range; [lia|assumption].
    + intros k Hk. rewrite int32_testbit, clear_low_testbit by lia.
      destruct (Z.leb_spec (29 - l) k).
      * rewrite Z.shiftl_spec by lia.
        destruct (Hbits (k - (29 - l)) ltac:(lia)) as [_ Eb].
        rewrite Eb, Z.testbit_0_l, linear_id_bits by (unfold P4EST_MAXLEVEL; lia).
        rewrite Z2Nat.id by lia. unfold P4EST_MAXLEVEL.
        replace (2 * (k - (29 - l)) + 1) with (1 + 2 * (k - (29 - l))) by lia.
        rewrite Z.even_add, Z.even_mul. cbn [Z.even orb Bool.eqb].
        replace ((1 + 2 * (k - (29 - l))) / 2) with (k - (29 - l)).
        2:{ apply Z.div_unique with (r := 1); lia. }
        destruct (Z.leb_spec 0 (k - (29 - l))); [|lia].
        destruct (Z.ltb_spec (k - (29 - l)) (0 + (l + (32 - 29)))); [|lia].
        destruct (Z.ltb_spec (1 + 2 * (k - (29 - l))) (2 * (l + 3))); [|lia].
        cbn. f_equal. lia.
      * rewrite Z.shiftl_spec_low by lia. reflexivity.
Qed.


(* ================================================================= *)
(** ** Extended quadrants and their ancestors *)

Lemma is_extended_inv (q : p4est_quadrant_t) :
  p4est_quadrant_is_extended q = true ->
  0 <= level q <= P4EST_MAXLEVEL /\
  Z.land (x q) (2 ^ (P4EST_MAXLEVEL - level q) - 1) = 0 /\
  Z.land (y q) (2 ^ (P4EST_MAXLEVEL - level q) - 1) = 0.
Proof.
  unfold p4est_quadrant_is_extended. intros H.
  apply andb_prop in H. destruct H as [H Hy].
  apply andb_prop in H. destruct H as [H Hx].
  apply andb_prop in H. destruct H as [L0 L1].
  assert (0 <= level q <= P4EST_MAXLEVEL) as L by lia.
  rewrite QUADRANT_LEN_pow in Hx, Hy by lia.
  split; [exact L|]. split; lia.
Qed.

Lemma ancestor_at_self (q : p4est_quadrant_t) :
  p4est_quadrant_is_extended q = true -> ancestor_at q (level q) = q.
Proof.
  intros H. apply is_extended_inv in H. destruct H as (L & Hx & Hy).
  unfold ancestor_at, set_xyl.
  rewrite !clear_low_aligned by (assumption || lia).
  destruct q; reflexivity.
Qed.

Lemma ancestor_at_extended (q : p4est_quadrant_t) (l : Z) :
  0 <= l <= P4EST_MAXLEVEL ->
  p4est_quadrant_is_extended (ancestor_at q l) = true.
Proof.
  intros L. unfold p4est_quadrant_is_extended, ancestor_at, set_xyl.
  cbn [x y level]. rewrite QUADRANT_LEN_pow by lia.
  rewrite !clear_low_is_aligned by lia.
  destruct (Z.geb_spec l 0), (Z.leb_spec l P4EST_MAXLEVEL); try lia; reflexivity.
Qed.

(** *** C5: the Morton index and its inverse *)

(** C5, as stated, fails: the index of level 0 of a quadrant of level 1
    rebuilds the root, not the quadrant. *)
Lemma set_morton_linear_id_counterexample :
  let q := mkquad (2 ^ 28) 0 1 (user_data NULL) in
  p4est_quadrant_is_extended q = true /\ level q >= 0 /\
  p4est_quadrant_set_morton q 0 (p4est_quadrant_linear_id q 0) <> q /\
  p4est_quadrant_is_equal
    (p4est_quadrant_set_morton q 0 (p4est_quadrant_linear_id q 0)) q = false.
Proof.
  cbv zeta. repeat split; vm_compute; congruence.
Qed.

(** C5, amended: for an extended quadrant [q] and a level [l <= level q],
    [set_morton (l, linear_id (q, l))] is the ancestor of [q] at level [l],
    with the exact bit pattern of its coordinates including the sign bits;
    it is [q] itself when [l = level q]. *)
Theorem set_morton_linear_id (q r : p4est_quadrant_t) (l : Z) :
  p4est_quadrant_is_extended q = true ->
  int32_range (x q) -> int32_range (y q) ->
  0 <= l <= level q ->
  p4est_quadrant_set_morton r l (p4est_quadrant_linear_id q l)
    = set_xyl r (x (ancestor_at q l)) (y (ancestor_at q l)) l /\
  (l = level q ->
   p4est_quadrant_set_morton r l (p4est_quadrant_linear_id q l)
    = set_xyl r (x q) (y q) (level q)) /\
  (l = level q ->
   p4est_quadrant_set_morton q l (p4est_quadrant_linear_id q l) = q).
Proof.
  intros E Hx Hy Hl.
  pose proof (is_extended_inv q E) as (L & _ & _).
  assert (p4est_quadrant_set_morton r l (p4est_quadrant_linear_id q l)
          = set_xyl r (x (ancestor_at q l)) (y (ancestor_at q l)) l) as A.
  { rewrite set_morton_linear_id_ancestor by (assumption || lia). reflexivity. }
  split; [exact A|]. split.
  - intros ->. rewrite A, ancestor_at_self by assumption. reflexivity.
  - intros ->. rewrite set_morton_linear_id_ancestor by (assumption || lia).
    exact (ancestor_at_self q E).
Qed.

Lemma set_morton_linear_id_witness :
  let q := mkquad (2 ^ 28) 0 1 (user_data NULL) in
  p4est_quadrant_set_morton q 0 (p4est_quadrant_linear_id q 0)
    = set_xyl q (x (ancestor_at q 0)) (y (ancestor_at q 0)) 0.
Proof.
  cbv zeta.
  refine (proj1 (set_morton_linear_id (mkquad (2 ^ 28) 0 1 (user_data NULL))
                   (mkquad (2 ^ 28) 0 1 (user_data NULL)) 0 _ _ _ _)).
  - vm_compute. reflexivity.
  - unfold int32_range. cbn. lia.
  - unfold int32_range. cbn. lia.
  - cbn. lia.
Defined.


(* ================================================================= *)
(** ** Nearest common ancestor *)

Lemma testbit_above (a m k : Z) :
  0 <= a < 2 ^ m -> 0 <= m <= k -> Z.testbit a k = false.
Proof.
  intros Ha Hk. rewrite <- (Z.mod_small a (2 ^ m)) by lia.
  apply Z.mod_pow2_bits_high. lia.
Qed.

Lemma int32_high_bits (a k : Z) :
  int32_range a -> 31 <= k -> Z.testbit a k = (a <? 0).
Proof.
  unfold int32_range. intros H Hk.
  replace k with ((k - 31) + 31) by lia.
  rewrite <- Z.div_pow2_bits by lia.
  destruct (Z.ltb_spec a 0).
  - replace (a / 2 ^ 31) with (-1).
    + apply Z.bits_m1. lia.
    + apply Z.div_unique with (r := a + 2 ^ 31); lia.
  - rewrite Z.div_small by lia. apply Z.testbit_0_l.
Qed.

(** The exclusive or of two coordinates, seen as [uint32_t], bounds the
    bits in which they differ. *)
Lemma lxor_shiftr_zero (a b m n : Z) :
  int32_range a -> int32_range b -> 0 <= m <= 31 -> m <= n ->
  uint32 (Z.lxor a b) < 2 ^ m ->
  Z.shiftr (Z.lxor a b) n = 0.
Proof.
  intros Ha Hb Hm Hn Hlt. pose proof (uint32_range (Z.lxor a b)) as R.
  assert (forall k, m <= k < 32 -> Z.testbit (Z.lxor a b) k = false) as B.
  { intros k Hk.
    pose proof (testbit_above (uint32 (Z.lxor a b)) m k ltac:(lia) ltac:(lia)) as T.
    rewrite uint32_testbit in T. destruct (Z.ltb_spec k 32); [exact T|lia]. }
  apply Z.bits_inj'. intros k Hk.
  rewrite Z.shiftr_spec, Z.testbit_0_l by lia.
  destruct (Z.lt_ge_cases (k + n) 32).
  - apply B. lia.
  - rewrite Z.lxor_spec, !int32_high_bits by (assumption || lia).
    specialize (B 31 ltac:(lia)).
    rewrite Z.lxor_spec, !int32_high_bits in B by (assumption || lia). exact B.
Qed.

Lemma lor_lt_pow2 (a b m : Z) :
  0 <= a -> 0 <= b -> 0 <= m -> Z.lor a b < 2 ^ m -> a < 2 ^ m /\ b < 2 ^ m.
Proof.
  intros Ha Hb Hm H.
  assert (0 <= Z.lor a b) by (apply Z.lor_nonneg; lia).
  assert (forall c, 0 <= c ->
            (forall k, m <= k -> Z.testbit c k = false) -> c < 2 ^ m) as K.
  { intros c Hc Bc.
    destruct (Z.eq_dec c 0) as [->|Nz]; [apply Z.pow_pos_nonneg; lia|].
    apply Z.log2_lt_pow2; [lia|].
    destruct (Z.lt_ge_cases (Z.log2 c) m) as [L|L]; [exact L|].
    pose proof (Z.bit_log2 c ltac:(lia)) as T.
    rewrite (Bc _ L) in T. discriminate. }
  assert (forall k, m <= k -> Z.testbit (Z.lor a b) k = false) as B.
  { intros k Hk. apply (testbit_above _ m); lia. }
  split; apply K; try assumption; intros k Hk; specialize (B k Hk);
    rewrite Z.lor_spec in B; apply orb_false_elim in B; tauto.
Qed.

(** The number of low bits in which two quadrants of one tree differ. *)
Lemma same_tree_bound (q1 q2 : p4est_quadrant_t) :
  same_tree q1 q2 = true ->
  let e := Z.lor (uint32 (Z.lxor (x q1) (x q2))) (uint32 (Z.lxor (y q1) (y q2))) in
  0 <= SC_LOG2_32 e + 1 <= P4EST_MAXLEVEL /\ e < 2 ^ (SC_LOG2_32 e + 1) /\
  0 <= e < 2 ^ 32.
Proof.
  intros H. unfold same_tree in H. cbv zeta.
  set (e := Z.lor (uint32 (Z.lxor (x q1) (x q2))) (uint32 (Z.lxor (y q1) (y q2)))) in *.
  pose proof (uint32_range (Z.lxor (x q1) (x q2))) as Rx.
  pose proof (uint32_range (Z.lxor (y q1) (y q2))) as Ry.
  assert (0 <= e < 2 ^ 32) as Re.
  { split; [apply Z.lor_nonneg; lia|].
    destruct (Z.eq_dec e 0) as [->|Nz]; [lia|].
    assert (0 <= e) by (apply Z.lor_nonneg; lia).
    apply Z.log2_lt_pow2; [lia|].
    unfold e. rewrite Z.log2_lor by lia.
    destruct (Z.eq_dec (uint32 (Z.lxor (x q1) (x q2))) 0) as [E1|E1];
    destruct (Z.eq_dec (uint32 (Z.lxor (y q1) (y q2))) 0) as [E2|E2];
      rewrite ?E1, ?E2; cbn [Z.log2];
      try (assert (Z.log2 (uint32 (Z.lxor (x q1) (x q2))) < 32)
             by (apply Z.log2_lt_pow2; lia));
      try (assert (Z.log2 (uint32 (Z.lxor (y q1) (y q2))) < 32)
             by (apply Z.log2_lt_pow2; lia)); lia. }
  assert (-1 <= SC_LOG2_32 e).
  { rewrite SC_LOG2_32_spec by assumption.
    destruct (Z.eqb_spec e 0); [lia|]. pose proof (Z.log2_nonneg e). lia. }
  split; [lia|]. split; [|assumption].
  apply SC_LOG2_32_lt; lia.
Qed.

Lemma parent_ancestor_at (q : p4est_quadrant_t) (k : Z) :
  1 <= k <= P4EST_MAXLEVEL ->
  p4est_quadrant_parent (ancestor_at q k) (ancestor_at q k) = ancestor_at q (k - 1).
Proof.
  intros Hk. unfold p4est_quadrant_parent, ancestor_at, set_xyl. cbn [x y level p].
  rewrite QUADRANT_LEN_pow by lia. unfold P4EST_MAXLEVEL in *.
  rewrite !clear_bit_aligned by (try apply clear_low_is_aligned; lia).
  rewrite !clear_low_clear_low by lia.
  rewrite int8_small by lia.
  replace (Z.max (29 - k) (29 - k + 1)) with (29 - (k - 1)) by lia.
  reflexivity.
Qed.

Lemma nca_promote_stop (fuel : nat) (s : p4est_quadrant_t) (l : Z) :
  level s <= l -> nca_promote fuel s l = Some s.
Proof.
  intros H. destruct fuel; cbn; destruct (Z.gtb_spec (level s) l); try lia;
    reflexivity.
Qed.

Lemma nca_promote_ancestor (q : p4est_quadrant_t) (l : Z) (fuel : nat) :
  forall k, 0 <= l <= k -> k <= P4EST_MAXLEVEL ->
  (Z.to_nat (k - l) <= fuel)%nat ->
  nca_promote fuel (ancestor_at q k) l = Some (ancestor_at q l).
Proof.
  induction fuel as [|f IH]; intros k Hl Hk Hf.
  - assert (k = l) by lia. subst k. apply nca_promote_stop. cbn. lia.
  - destruct (Z.eq_dec k l) as [->|Ne].
    + apply nca_promote_stop. cbn. lia.
    + cbn [nca_promote]. cbn [ancestor_at set_xyl level].
      destruct (Z.gtb_spec k l); [|lia].
      change (mkquad (clear_low (x q) (P4EST_MAXLEVEL - k))
                (clear_low (y q) (P4EST_MAXLEVEL - k)) k (p q))
        with (ancestor_at q k).
      rewrite parent_ancestor_at by lia. apply IH; lia.
Qed.

(** Equality of the ancestors of two quadrants at one level. *)
Lemma ancestors_equal_iff (q1 q2 : p4est_quadrant_t) (m j : Z) :
  int32_range (x q1) -> int32_range (y q1) ->
  int32_range (x q2) -> int32_range (y q2) ->
  same_tree q1 q2 = true ->
  m = SC_LOG2_32 (Z.lor (uint32 (Z.lxor (x q1) (x q2)))
                        (uint32 (Z.lxor (y q1) (y q2)))) + 1 ->
  0 <= j <= P4EST_MAXLEVEL ->
  p4est_quadrant_is_equal (ancestor_at q1 j) (ancestor_at q2 j)
  = (j <=? P4EST_MAXLEVEL - m).
Proof.
  intros X1 Y1 X2 Y2 ST Em Hj.
  pose proof (same_tree_bound q1 q2 ST) as B. cbv zeta in B.
  rewrite <- Em in B. destruct B as (Hm & Hlt & Re).
  pose proof (uint32_range (Z.lxor (x q1) (x q2))) as Rx.
  pose proof (uint32_range (Z.lxor (y q1) (y q2))) as Ry.
  destruct (lor_lt_pow2 (uint32 (Z.lxor (x q1) (x q2)))
              (uint32 (Z.lxor (y q1) (y q2))) m
              ltac:(lia) ltac:(lia) ltac:(lia) Hlt) as [Lx Ly].
  unfold p4est_quadrant_is_equal, ancestor_at, set_xyl. cbn [x y level].
  rewrite Z.eqb_refl. cbn [andb].
  destruct (Z.leb_spec j (P4EST_MAXLEVEL - m)) as [Hle|Hgt].
  - assert (clear_low (x q1) (P4EST_MAXLEVEL - j)
            = clear_low (x q2) (P4EST_MAXLEVEL - j)) as Ex.
    { apply clear_low_eq_iff; [lia|].
      apply (lxor_shiftr_zero _ _ m); unfold P4EST_MAXLEVEL in *; try assumption; lia. }
    assert (clear_low (y q1) (P4EST_MAXLEVEL - j)
            = clear_low (y q2) (P4EST_MAXLEVEL - j)) as Ey.
    { apply clear_low_eq_iff; [lia|].
      apply (lxor_shiftr_zero _ _ m); unfold P4EST_MAXLEVEL in *; try assumption; lia. }
    rewrite Ex, Ey, !Z.eqb_refl. reflexivity.
  - (* bit [m - 1] differs in one of the coordinates *)
    set (e := Z.lor (uint32 (Z.lxor (x q1) (x q2)))
                    (uint32 (Z.lxor (y q1) (y q2)))) in *.
    assert (e <> 0) as Nz.
    { intros Z0. rewrite Z0 in Em. rewrite SC_LOG2_32_spec in Em by lia.
      cbn in Em. lia. }
    assert (m - 1 = Z.log2 e) as Lg.
    { rewrite Em, SC_LOG2_32_spec by assumption.
      destruct (Z.eqb_spec e 0); lia. }
    pose proof (Z.bit_log2 e ltac:(lia)) as T. rewrite <- Lg in T.
    unfold e in T. rewrite Z.lor_spec, !uint32_testbit in T.
    destruct (Z.ltb_spec (m - 1) 32); [|unfold P4EST_MAXLEVEL in *; lia].
    cbn [andb] in T.
    apply orb_true_iff in T.
    apply andb_false_iff.
    destruct T as [T|T]; [left|right]; apply Z.eqb_neq; intros C;
      apply clear_low_eq_iff in C; try lia;
      apply (f_equal (fun z => Z.testbit z (m - 1 - (P4EST_MAXLEVEL - j)))) in C;
      rewrite Z.shiftr_spec, Z.testbit_0_l in C by lia;
      replace (m - 1 - (P4EST_MAXLEVEL - j) + (P4EST_MAXLEVEL - j)) with (m - 1)
        in C by lia; congruence.
Qed.

Lemma aligned_low_bits (c a j : Z) :
  0 <= a -> Z.land c (2 ^ a - 1) = 0 -> 0 <= j < a -> Z.testbit c j = false.
Proof.
  intros Ha A Hj. apply (f_equal (fun z => Z.testbit z j)) in A.
  rewrite Z.land_spec, Z.testbit_0_l in A.
  change (2 ^ a - 1) with (Z.pred (2 ^ a)) in A.
  rewrite <- Z.ones_equiv, Z.ones_spec_low, andb_true_r in A by lia. exact A.
Qed.

Lemma nca_climb_ancestor (q1 q2 : p4est_quadrant_t) (m : Z) (fuel : nat) :
  int32_range (x q1) -> int32_range (y q1) ->
  int32_range (x q2) -> int32_range (y q2) ->
  same_tree q1 q2 = true ->
  m = SC_LOG2_32 (Z.lor (uint32 (Z.lxor (x q1) (x q2)))
                        (uint32 (Z.lxor (y q1) (y q2)))) + 1 ->
  forall k, 0 <= k <= P4EST_MAXLEVEL ->
  (Z.to_nat (k - Z.min k (P4EST_MAXLEVEL - m)) <= fuel)%nat ->
  nca_climb fuel (ancestor_at q1 k) (ancestor_at q2 k)
  = Some (ancestor_at q1 (Z.min k (P4EST_MAXLEVEL - m)),
          ancestor_at q2 (Z.min k (P4EST_MAXLEVEL - m))).
Proof.
  intros X1 Y1 X2 Y2 ST Em.
  pose proof (same_tree_bound q1 q2 ST) as B. cbv zeta in B.
  rewrite <- Em in B. destruct B as (Hm & _ & _).
  induction fuel as [|f IH]; intros k Hk Hf.
  - assert (k <= P4EST_MAXLEVEL - m) by lia.
    cbn [nca_climb]. rewrite (ancestors_equal_iff q1 q2 m k) by assumption.
    destruct (Z.leb_spec k (P4EST_MAXLEVEL - m)); [|lia]. cbn [negb].
    rewrite Z.min_l by lia. reflexivity.
  - cbn [nca_climb]. rewrite (ancestors_equal_iff q1 q2 m k) by assumption.
    destruct (Z.leb_spec k (P4EST_MAXLEVEL - m)); cbn [negb].
    + rewrite Z.min_l by lia. reflexivity.
    + rewrite !parent_ancestor_at by lia.
      rewrite IH by lia. rewrite !Z.min_r by lia. reflexivity.
Qed.

(** The level and the coordinates computed by the closed form. *)
Lemma nca_closed_form (q1 q2 r : p4est_quadrant_t) (m k : Z) :
  p4est_quadrant_is_extended q1 = true ->
  p4est_quadrant_is_extended q2 = true ->
  int32_range (x q1) -> int32_range (y q1) ->
  int32_range (x q2) -> int32_range (y q2) ->
  same_tree q1 q2 = true ->
  m = SC_LOG2_32 (Z.lor (uint32 (Z.lxor (x q1) (x q2)))
                        (uint32 (Z.lxor (y q1) (y q2)))) + 1 ->
  k = Z.min (Z.min (level q1) (level q2)) (P4EST_MAXLEVEL - m) ->
  p4est_nearest_common_ancestor q1 q2 r
  = set_xyl r (x (ancestor_at q1 k)) (y (ancestor_at q1 k)) k.
Proof.
  intros E1 E2 X1 Y1 X2 Y2 ST Em Ek.
  pose proof (same_tree_bound q1 q2 ST) as B. cbv zeta in B.
  rewrite <- Em in B. destruct B as (Hm & Hlt & Re).
  pose proof (uint32_range (Z.lxor (x q1) (x q2))) as Rx.
  pose proof (uint32_range (Z.lxor (y q1) (y q2))) as Ry.
  destruct (lor_lt_pow2 (uint32 (Z.lxor (x q1) (x q2)))
              (uint32 (Z.lxor (y q1) (y q2))) m
              ltac:(lia) ltac:(lia) ltac:(lia) Hlt) as [Lx Ly].
  destruct (is_extended_inv q1 E1) as (L1 & A1x & A1y).
  destruct (is_extended_inv q2 E2) as (L2 & A2x & A2y).
  unfold p4est_nearest_common_ancestor. rewrite <- Em.
  unfold P4EST_MAXLEVEL in *.
  assert (2 ^ m <= 2 ^ 29) by (apply Z.pow_le_mono_r; lia).
  assert (0 < 2 ^ m) by (apply Z.pow_pos_nonneg; lia).
  rewrite Z.shiftl_1_l, (int32_small (2 ^ m)) by lia.
  rewrite (int32_small (2 ^ m - 1)) by lia.
  rewrite !clear_low_land by lia.
  assert (SC_MIN (29 - m) (SC_MIN (level q1) (level q2)) = k) as Lk.
  { unfold SC_MIN. subst k.
    destruct (Z.ltb_spec (level q1) (level q2));
      destruct (Z.ltb_spec (29 - m) (level q1));
      destruct (Z.ltb_spec (29 - m) (level q2)); lia. }
  rewrite Lk, int8_small by lia.
  unfold ancestor_at, set_xyl. cbn [x y level p].
  assert (forall c1 c2,
            int32_range c1 -> int32_range c2 ->
            uint32 (Z.lxor c1 c2) < 2 ^ m ->
            Z.land c1 (2 ^ (29 - level q1) - 1) = 0 ->
            Z.land c2 (2 ^ (29 - level q2) - 1) = 0 ->
            clear_low c1 m = clear_low c1 (29 - k)) as K.
  { intros c1 c2 R1 R2 Hc Al1 Al2. apply Z.bits_inj'. intros j Hj.
    rewrite !clear_low_testbit by lia.
    destruct (Z.leb_spec m j), (Z.leb_spec (29 - k) j); try lia; try reflexivity.
    cbn [andb].
    destruct (Z.lt_ge_cases j (29 - level q1)).
    - apply (aligned_low_bits c1 (29 - level q1)); (assumption || lia).
    - assert (Z.testbit c2 j = false) as T2
        by (apply (aligned_low_bits c2 (29 - level q2)); (assumption || lia)).
      pose proof (lxor_shiftr_zero c1 c2 m j R1 R2 ltac:(lia) ltac:(lia) Hc) as S.
      apply (f_equal (fun z => Z.testbit z 0)) in S.
      rewrite Z.shiftr_spec, Z.add_0_l, Z.lxor_spec, Z.testbit_0_l, T2,
        xorb_false_r in S by lia.
      exact S. }
  rewrite (K (x q1) (x q2)), (K (y q1) (y q2)) by assumption.
  reflexivity.
Qed.

Lemma is_ancestor_ancestor_at (a q : p4est_quadrant_t) (k : Z) :
  0 <= k < level q -> k <= P4EST_MAXLEVEL ->
  x a = clear_low (x q) (P4EST_MAXLEVEL - k) ->
  y a = clear_low (y q) (P4EST_MAXLEVEL - k) ->
  level a = k ->
  p4est_quadrant_is_ancestor a q = true.
Proof.
  intros Hk Hm Ex Ey El. unfold p4est_quadrant_is_ancestor.
  rewrite El. destruct (Z.geb_spec k (level q)); [lia|].
  assert (forall c, Z.shiftr (Z.lxor (clear_low c (P4EST_MAXLEVEL - k)) c)
                      (P4EST_MAXLEVEL - k) = 0) as K.
  { intros c. apply clear_low_eq_iff; [lia|].
    rewrite clear_low_clear_low by lia. f_equal. lia. }
  rewrite Ex, Ey, !K. reflexivity.
Qed.

Lemma ancestor_or_equal_ancestor_at (a q : p4est_quadrant_t) (k : Z) :
  p4est_quadrant_is_extended q = true ->
  0 <= k <= level q ->
  x a = clear_low (x q) (P4EST_MAXLEVEL - k) ->
  y a = clear_low (y q) (P4EST_MAXLEVEL - k) ->
  level a = k ->
  p4est_quadrant_is_equal a q || p4est_quadrant_is_ancestor a q = true.
Proof.
  intros E Hk Ex Ey El.
  destruct (is_extended_inv q E) as (L & Ax & Ay).
  destruct (Z.eq_dec k (level q)) as [->|Ne].
  - rewrite clear_low_aligned in Ex, Ey by (assumption || lia).
    unfold p4est_quadrant_is_equal. rewrite Ex, Ey, El, !Z.eqb_refl. reflexivity.
  - rewrite (is_ancestor_ancestor_at a q k) by (assumption || lia).
    apply orb_true_r.
Qed.

(** *** C7: the closed form and the iterative version agree *)

(** C7: for extended quadrants of one tree, the parent-climbing version
    terminates (any fuel of at least 30 iterations per loop suffices) with
    the quadrant of the closed form; the result is symmetric in the two
    quadrants and is an ancestor of, or equal to, both. *)
Theorem nearest_common_ancestor_agree
  (q1 q2 r : p4est_quadrant_t) (fuel : nat) :
  p4est_quadrant_is_extended q1 = true ->
  p4est_quadrant_is_extended q2 = true ->
  int32_range (x q1) -> int32_range (y q1) ->
  int32_range (x q2) -> int32_range (y q2) ->
  same_tree q1 q2 = true ->
  (30 <= fuel)%nat ->
  p4est_nearest_common_ancestor_D fuel q1 q2 r
    = Some (p4est_nearest_common_ancestor q1 q2 r) /\
  p4est_nearest_common_ancestor q1 q2 r = p4est_nearest_common_ancestor q2 q1 r /\
  p4est_quadrant_is_equal (p4est_nearest_common_ancestor q1 q2 r) q1
    || p4est_quadrant_is_ancestor (p4est_nearest_common_ancestor q1 q2 r) q1 = true /\
  p4est_quadrant_is_equal (p4est_nearest_common_ancestor q1 q2 r) q2
    || p4est_quadrant_is_ancestor (p4est_nearest_common_ancestor q1 q2 r) q2 = true.
Proof.
  intros E1 E2 X1 Y1 X2 Y2 ST Hf.
  set (m := SC_LOG2_32 (Z.lor (uint32 (Z.lxor (x q1) (x q2)))
                              (uint32 (Z.lxor (y q1) (y q2)))) + 1).
  set (k := Z.min (Z.min (level q1) (level q2)) (P4EST_MAXLEVEL - m)).
  pose proof (same_tree_bound q1 q2 ST) as B. cbv zeta in B.
  fold m in B. destruct B as (Hm & _ & _).
  destruct (is_extended_inv q1 E1) as (L1 & _ & _).
  destruct (is_extended_inv q2 E2) as (L2 & _ & _).
  assert (same_tree q2 q1 = true) as ST'.
  { unfold same_tree in *.
    rewrite (Z.lxor_comm (x q2)), (Z.lxor_comm (y q2)). exact ST. }
  assert (m = SC_LOG2_32 (Z.lor (uint32 (Z.lxor (x q2) (x q1)))
                                (uint32 (Z.lxor (y q2) (y q1)))) + 1) as Em'.
  { rewrite (Z.lxor_comm (x q2)), (Z.lxor_comm (y q2)). reflexivity. }
  assert (k = Z.min (Z.min (level q2) (level q1)) (P4EST_MAXLEVEL - m)) as Ek'
    by (unfold k; lia).
  pose proof (nca_closed_form q1 q2 r m k E1 E2 X1 Y1 X2 Y2 ST eq_refl eq_refl) as C12.
  pose proof (nca_closed_form q2 q1 r m k E2 E1 X2 Y2 X1 Y1 ST' Em' Ek') as C21.
  assert (0 <= k <= P4EST_MAXLEVEL) as Hk by (unfold k; lia).
  pose proof (ancestors_equal_iff q1 q2 m k X1 Y1 X2 Y2 ST eq_refl Hk) as Q.
  destruct (Z.leb_spec k (P4EST_MAXLEVEL - m)); [|unfold k in *; lia].
  unfold p4est_quadrant_is_equal in Q.
  apply andb_prop in Q. destruct Q as [Q Qy].
  apply andb_prop in Q. destruct Q as [_ Qx].
  apply Z.eqb_eq in Qx, Qy.
  split; [|split; [|split]].
  - (* the iterative version *)
    unfold p4est_nearest_common_ancestor_D.
    assert (nca_promote fuel q1 (level q2)
            = Some (ancestor_at q1 (Z.min (level q1) (level q2)))) as P1.
    { destruct (Z.le_gt_cases (level q1) (level q2)).
      - rewrite Z.min_l, ancestor_at_self by assumption.
        apply nca_promote_stop. assumption.
      - rewrite Z.min_r by lia. rewrite <- (ancestor_at_self q1 E1) at 1.
        apply nca_promote_ancestor; unfold P4EST_MAXLEVEL in *; lia. }
    rewrite P1.
    assert (nca_promote fuel q2 (level (ancestor_at q1 (Z.min (level q1) (level q2))))
            = Some (ancestor_at q2 (Z.min (level q1) (level q2)))) as P2.
    { cbn [ancestor_at set_xyl level].
      destruct (Z.le_gt_cases (level q2) (level q1)).
      - rewrite Z.min_r, ancestor_at_self by assumption.
        apply nca_promote_stop. lia.
      - rewrite Z.min_l by lia. rewrite <- (ancestor_at_self q2 E2) at 1.
        apply nca_promote_ancestor; unfold P4EST_MAXLEVEL in *; lia. }
    rewrite P2.
    rewrite (nca_climb_ancestor q1 q2 m) by
      (try assumption; try reflexivity; unfold P4EST_MAXLEVEL in *; lia).
    fold k. rewrite C12. reflexivity.
  - rewrite C12, C21. rewrite Qx, Qy. reflexivity.
  - rewrite C12. apply (ancestor_or_equal_ancestor_at _ q1 k); try assumption;
      try reflexivity. unfold k; lia.
  - rewrite C12. apply (ancestor_or_equal_ancestor_at _ q2 k); try assumption;
      try reflexivity. unfold k; lia.
Qed.

Lemma nearest_common_ancestor_agree_witness :
  let q1 := mkquad (2 ^ 28) 0 2 (user_data NULL) in
  let q2 := mkquad (2 ^ 28 + 2 ^ 27) (2 ^ 26) 3 (user_data NULL) in
  p4est_nearest_common_ancestor_D 30 q1 q2 q1
    = Some (p4est_nearest_common_ancestor q1 q2 q1).
Proof.
  cbv zeta.
  refine (proj1 (nearest_common_ancestor_agree
            (mkquad (2 ^ 28) 0 2 (user_data NULL))
            (mkquad (2 ^ 28 + 2 ^ 27) (2 ^ 26) 3 (user_data NULL))
            (mkquad (2 ^ 28) 0 2 (user_data NULL)) 30 _ _ _ _ _ _ _ _));
    try (vm_compute; reflexivity);
    try (unfold int32_range; cbn; lia).
Defined.


(* ================================================================= *)
(** ** The Morton order *)

(** Two distinct non-negative numbers are ordered by the highest bit in
    which they differ. *)
Lemma lt_iff_top_bit (m n : Z) :
  0 <= m -> 0 <= n -> m <> n ->
  (m < n <-> Z.testbit n (Z.log2 (Z.lxor m n)) = true) /\
  (n < m <-> Z.testbit m (Z.log2 (Z.lxor m n)) = true).
Proof.
  intros Hm Hn Ne.
  set (e := Z.lxor m n). set (t := Z.log2 e).
  assert (0 <= e) as He by (apply Z.lxor_nonneg; lia).
  assert (e <> 0) as Nz by (intros Z0; apply Z.lxor_eq in Z0; lia).
  assert (0 <= t) as Ht by apply Z.log2_nonneg.
  assert (Z.testbit e t = true) as Bt by (apply Z.bit_log2; lia).
  assert (m / 2 ^ (t + 1) = n / 2 ^ (t + 1)) as Hi.
  { rewrite <- !Z.shiftr_div_pow2 by lia. apply Z.bits_inj'. intros k Hk.
    rewrite !Z.shiftr_spec by lia.
    assert (Z.testbit e (k + (t + 1)) = false) as F
      by (apply Z.bits_above_log2; unfold t; lia).
    unfold e in F. rewrite Z.lxor_spec in F. apply xorb_eq. exact F. }
  unfold e in Bt. rewrite Z.lxor_spec in Bt.
  assert (forall a, 0 <= a -> a / 2 ^ t = 2 * (a / 2 ^ (t + 1)) + (a / 2 ^ t) mod 2) as D.
  { intros a Ha. rewrite Z.pow_add_r, Z.pow_1_r, <- Z.div_div by lia.
    pose proof (Z.div_mod (a / 2 ^ t) 2). lia. }
  assert (0 < 2 ^ t) as Pt by (apply Z.pow_pos_nonneg; lia).
  pose proof (Z.div_mod m (2 ^ t) ltac:(lia)) as Dm.
  pose proof (Z.div_mod n (2 ^ t) ltac:(lia)) as Dn.
  pose proof (Z.mod_pos_bound m (2 ^ t) Pt) as Bm.
  pose proof (Z.mod_pos_bound n (2 ^ t) Pt) as Bn.
  pose proof (D m Hm) as D1. pose proof (D n Hn) as D2.
  destruct (Z.testbit m t) eqn:Tm, (Z.testbit n t) eqn:Tn; try discriminate.
  - apply Z.testbit_true in Tm; [|lia]. apply Z.testbit_false in Tn; [|lia].
    split; split; intros; try discriminate; try reflexivity; nia.
  - apply Z.testbit_false in Tm; [|lia]. apply Z.testbit_true in Tn; [|lia].
    split; split; intros; try discriminate; try reflexivity; nia.
Qed.

Lemma log2_top_bit (e t : Z) :
  0 <= e -> 0 <= t -> Z.testbit e t = true ->
  (forall k, t < k -> Z.testbit e k = false) -> Z.log2 e = t.
Proof.
  intros He Ht B A.
  assert (e <> 0) as Nz by (intros ->; rewrite Z.testbit_0_l in B; discriminate).
  destruct (Z.lt_trichotomy (Z.log2 e) t) as [L|[L|L]]; [|exact L|].
  - rewrite Z.bits_above_log2 in B by lia. discriminate.
  - pose proof (Z.bit_log2 e ltac:(lia)) as T. rewrite A in T by lia. discriminate.
Qed.

Lemma morton_key_bits (q : p4est_quadrant_t) (k : Z) :
  0 <= k ->
  Z.testbit (morton_key q) k
  = (k <? 64) && (if Z.even k then Z.testbit (x q) (k / 2)
                  else Z.testbit (y q) (k / 2)).
Proof.
  intros Hk. unfold morton_key. rewrite linear_id_bits by (unfold P4EST_MAXLEVEL; lia).
  unfold P4EST_MAXLEVEL. cbn [Z.sub Z.add Z.mul]. rewrite !Z.add_0_r.
  change (2 * (29 + 3)) with 64. reflexivity.
Qed.

Lemma linear_id_loop_nonneg (a b : Z) (n : nat) :
  forall i id, 0 <= id -> 0 <= linear_id_loop n i a b id.
Proof.
  induction n as [|n IH]; intros i id H; cbn [linear_id_loop]; [exact H|].
  apply IH. apply Z.lor_nonneg. split.
  - apply Z.lor_nonneg. split; [exact H|]. unfold uint64.
    apply Z.mod_pos_bound. lia.
  - unfold uint64. apply Z.mod_pos_bound. lia.
Qed.

Lemma linear_id_nonneg (q : p4est_quadrant_t) (l : Z) :
  0 <= p4est_quadrant_linear_id q l.
Proof. apply linear_id_loop_nonneg. lia. Qed.

Lemma nonneg_bits_lt (a m : Z) :
  0 <= a -> 0 <= m -> (forall k, m <= k -> Z.testbit a k = false) -> a < 2 ^ m.
Proof.
  intros Ha Hm B.
  destruct (Z.eq_dec a 0) as [->|Nz]; [apply Z.pow_pos_nonneg; lia|].
  apply Z.log2_lt_pow2; [lia|].
  destruct (Z.lt_ge_cases (Z.log2 a) m) as [L|L]; [exact L|].
  pose proof (Z.bit_log2 a ltac:(lia)) as T. rewrite (B _ L) in T. discriminate.
Qed.

Lemma morton_key_range (q : p4est_quadrant_t) : 0 <= morton_key q < 2 ^ 64.
Proof.
  assert (0 <= morton_key q) as N
    by (unfold morton_key; apply linear_id_nonneg).
  split; [exact N|].
  apply nonneg_bits_lt; [exact N|lia|].
  intros k Hk. rewrite morton_key_bits by lia.
  destruct (Z.ltb_spec k 64); [lia|reflexivity].
Qed.

(** The index determines the coordinates. *)
Lemma morton_key_inj (q1 q2 : p4est_quadrant_t) :
  int32_range (x q1) -> int32_range (y q1) ->
  int32_range (x q2) -> int32_range (y q2) ->
  morton_key q1 = morton_key q2 -> x q1 = x q2 /\ y q1 = y q2.
Proof.
  intros X1 Y1 X2 Y2 E.
  assert (forall k, 0 <= k -> Z.testbit (morton_key q1) k = Z.testbit (morton_key q2) k)
    as B by (intros; rewrite E; reflexivity).
  split; apply int32_bits_inj; try assumption; intros j Hj.
  - specialize (B (2 * j) ltac:(lia)). rewrite !morton_key_bits in B by lia.
    rewrite Z.even_mul in B. cbn [Z.even orb] in B.
    rewrite (Z.mul_comm 2), Z.div_mul in B by lia.
    destruct (Z.ltb_spec (j * 2) 64); [exact B|lia].
  - specialize (B (1 + 2 * j) ltac:(lia)). rewrite !morton_key_bits in B by lia.
    rewrite Z.even_add, Z.even_mul in B. cbn [Z.even orb Bool.eqb] in B.
    replace ((1 + 2 * j) / 2) with j in B
      by (apply Z.div_unique with (r := 1); lia).
    destruct (Z.ltb_spec (1 + 2 * j) 64); [exact B|lia].
Qed.

Lemma uint32_lxor (a b : Z) :
  Z.lxor (uint32 a) (uint32 b) = uint32 (Z.lxor a b).
Proof.
  apply Z.bits_inj'. intros k Hk.
  rewrite Z.lxor_spec, !uint32_testbit, Z.lxor_spec.
  destruct (k <? 32); reflexivity.
Qed.

Lemma uint32_inj (a b : Z) :
  int32_range a -> int32_range b -> uint32 a = uint32 b -> a = b.
Proof.
  intros Ha Hb E. apply int32_bits_inj; try assumption. intros k Hk.
  apply (f_equal (fun z => Z.testbit z k)) in E. rewrite !uint32_testbit in E.
  destruct (Z.ltb_spec k 32); [exact E|lia].
Qed.

Lemma uint32_lxor_zero (a b : Z) :
  int32_range a -> int32_range b -> (uint32 (Z.lxor a b) = 0 <-> a = b).
Proof.
  intros Ha Hb. rewrite <- uint32_lxor. split.
  - intros E. apply Z.lxor_eq in E. apply uint32_inj; assumption.
  - intros ->. apply Z.lxor_nilpotent.
Qed.

Lemma uint32_lxor_zero_eq (a b : Z) :
  int32_range a -> int32_range b -> uint32 (Z.lxor a b) = 0 -> a = b.
Proof. intros Ha Hb. apply (proj1 (uint32_lxor_zero a b Ha Hb)). Qed.

Lemma uint32_lxor_same (a b : Z) : a = b -> uint32 (Z.lxor a b) = 0.
Proof. intros ->. rewrite Z.lxor_nilpotent. reflexivity. Qed.

(** In the band, the rebiased coordinates of the comparison are ordered as
    the unsigned bit patterns. *)
Lemma rebias_order (a b : Z) :
  coord_in_band a = true -> coord_in_band b = true ->
  sign3 ((a + (if a >=? 0 then 0 else Z.shiftl 1 (P4EST_MAXLEVEL + 2)))
         - (b + (if b >=? 0 then 0 else Z.shiftl 1 (P4EST_MAXLEVEL + 2))))
  = sign3 (uint32 a - uint32 b).
Proof.
  unfold coord_in_band. change P4EST_ROOT_LEN with (2 ^ 29).
  change (Z.shiftl 1 (P4EST_MAXLEVEL + 2)) with (2 ^ 31).
  intros Ha Hb. apply andb_prop in Ha, Hb.
  assert (- 2 ^ 29 <= a < 2 ^ 30) as Ra by lia.
  assert (- 2 ^ 29 <= b < 2 ^ 30) as Rb by lia.
  assert (forall c, - 2 ^ 29 <= c < 2 ^ 30 ->
            uint32 c = if c >=? 0 then c else c + 2 ^ 32) as U.
  { intros c Hc. unfold uint32. destruct (Z.geb_spec c 0).
    - apply Z.mod_small; lia.
    - symmetry. apply Z.mod_unique with (q := -1); lia. }
  rewrite (U a Ra), (U b Rb).
  destruct (Z.geb_spec a 0), (Z.geb_spec b 0); unfold sign3;
    repeat match goal with
           | |- context [?u =? ?v] => destruct (Z.eqb_spec u v)
           | |- context [?u <? ?v] => destruct (Z.ltb_spec u v)
           end; lia.
Qed.

Lemma band_int32 (c : Z) : coord_in_band c = true -> int32_range c.
Proof.
  unfold coord_in_band, int32_range. change P4EST_ROOT_LEN with (2 ^ 29).
  intros H. apply andb_prop in H. lia.
Qed.

Lemma sign3_by_order (a b c d : Z) :
  (a < b <-> c < d) -> (b < a <-> d < c) -> sign3 (a - b) = sign3 (c - d).
Proof.
  intros H1 H2. unfold sign3.
  repeat match goal with
         | |- context [?u =? ?v] => destruct (Z.eqb_spec u v)
         | |- context [?u <? ?v] => destruct (Z.ltb_spec u v)
         end; lia.
Qed.

Section Interleaved.
(** Two indices [K1], [K2] whose bits interleave those of [a1], [b1] and of
    [a2], [b2]: the [a]-bits at the even places, the [b]-bits at the odd
    ones. *)
Variables K1 K2 a1 b1 a2 b2 : Z.
Hypothesis HK1 : 0 <= K1.
Hypothesis HK2 : 0 <= K2.
Hypothesis Ha1 : 0 <= a1 < 2 ^ 32.
Hypothesis Hb1 : 0 <= b1 < 2 ^ 32.
Hypothesis Ha2 : 0 <= a2 < 2 ^ 32.
Hypothesis Hb2 : 0 <= b2 < 2 ^ 32.
Hypothesis B1 : forall k, 0 <= k ->
  Z.testbit K1 k = (k <? 64) &&
    (if Z.even k then Z.testbit a1 (k / 2) else Z.testbit b1 (k / 2)).
Hypothesis B2 : forall k, 0 <= k ->
  Z.testbit K2 k = (k <? 64) &&
    (if Z.even k then Z.testbit a2 (k / 2) else Z.testbit b2 (k / 2)).

Let ea := Z.lxor a1 a2.
Let eb := Z.lxor b1 b2.

Lemma interleaved_lxor_bits (k : Z) :
  0 <= k ->
  Z.testbit (Z.lxor K1 K2) k
  = (k <? 64) && (if Z.even k then Z.testbit ea (k / 2)
                  else Z.testbit eb (k / 2)).
Proof.
  intros Hk. rewrite Z.lxor_spec, B1, B2 by lia. unfold ea, eb.
  destruct (k <? 64), (Z.even k); cbn; rewrite ?Z.lxor_spec; reflexivity.
Qed.

Lemma lxor_u32_log2 (u v : Z) :
  0 <= u < 2 ^ 32 -> 0 <= v < 2 ^ 32 -> u <> v ->
  0 <= Z.log2 (Z.lxor u v) < 32.
Proof.
  intros Hu Hv Ne. split; [apply Z.log2_nonneg|].
  assert (0 <= Z.lxor u v) by (apply Z.lxor_nonneg; lia).
  assert (Z.lxor u v <> 0) by (intros E; apply Z.lxor_eq in E; lia).
  apply Z.log2_lt_pow2; [lia|].
  apply nonneg_bits_lt; [lia|lia|]. intros k Hk.
  rewrite Z.lxor_spec, (testbit_above u 32), (testbit_above v 32) by lia.
  reflexivity.
Qed.

Lemma even_div2 (t : Z) : Z.even (2 * t) = true /\ (2 * t) / 2 = t.
Proof.
  split.
  - rewrite Z.even_mul. reflexivity.
  - rewrite Z.mul_comm. apply Z.div_mul. lia.
Qed.

Lemma odd_div2 (t : Z) : Z.even (2 * t + 1) = false /\ (2 * t + 1) / 2 = t.
Proof.
  split.
  - rewrite Z.add_comm, Z.even_add, Z.even_mul. reflexivity.
  - symmetry. apply Z.div_unique with (r := 1); lia.
Qed.

Lemma half_gt (k t : Z) : 2 * t + 1 < k -> t < k / 2.
Proof.
  intros H. pose proof (Z.div_mod k 2 ltac:(lia)) as D.
  pose proof (Z.mod_pos_bound k 2 ltac:(lia)). lia.
Qed.

Lemma half_ge (k t : Z) : 2 * t < k -> t <= k / 2.
Proof.
  intros H. apply Z.div_le_lower_bound; lia.
Qed.

Lemma half_gt_even (k t : Z) : 2 * t < k -> Z.even k = true -> t < k / 2.
Proof.
  intros H Ev. pose proof (Z.div_mod k 2 ltac:(lia)) as D.
  rewrite Zmod_even, Ev in D. lia.
Qed.

(** The odd places decide when the highest difference lies there. *)
Lemma interleaved_order_b :
  b1 <> b2 -> (a1 = a2 \/ Z.log2 ea <= Z.log2 eb) ->
  K1 <> K2 /\ (K1 < K2 <-> b1 < b2) /\ (K2 < K1 <-> b2 < b1).
Proof.
  intros Nb Ha.
  pose proof (lxor_u32_log2 b1 b2 Hb1 Hb2 Nb) as Lb. fold eb in Lb.
  assert (0 <= eb) as Heb by (apply Z.lxor_nonneg; lia).
  assert (0 <= ea) as Hea by (apply Z.lxor_nonneg; lia).
  assert (eb <> 0) as Nzb by (intros E; apply Z.lxor_eq in E; lia).
  assert (Z.log2 (Z.lxor K1 K2) = 2 * Z.log2 eb + 1) as LK.
  { apply log2_top_bit.
    - apply Z.lxor_nonneg. lia.
    - lia.
    - rewrite interleaved_lxor_bits by lia.
      destruct (odd_div2 (Z.log2 eb)) as [Ev Dv]. rewrite Ev, Dv.
      destruct (Z.ltb_spec (2 * Z.log2 eb + 1) 64); [|lia].
      apply Z.bit_log2. lia.
    - intros k Hk. rewrite interleaved_lxor_bits by lia.
      destruct (Z.ltb_spec k 64); [|reflexivity]. cbn [andb].
      destruct (Z.even k) eqn:Ev.
      + pose proof (half_gt_even k (Z.log2 eb) ltac:(lia) Ev).
        destruct Ha as [->|Ha].
        * unfold ea. rewrite Z.lxor_nilpotent. apply Z.testbit_0_l.
        * apply Z.bits_above_log2; lia.
      + pose proof (half_gt k (Z.log2 eb) Hk).
        apply Z.bits_above_log2; lia. }
  assert (K1 <> K2) as NK.
  { intros E. rewrite E, Z.lxor_nilpotent in LK.
    change (Z.log2 0) with 0 in LK. lia. }
  split; [exact NK|].
  destruct (lt_iff_top_bit K1 K2 HK1 HK2 NK) as [P1 P2].
  destruct (lt_iff_top_bit b1 b2 ltac:(lia) ltac:(lia) Nb) as [Q1 Q2].
  fold eb in Q1, Q2. rewrite LK in P1, P2.
  rewrite B2 in P1 by lia. rewrite B1 in P2 by lia.
  destruct (odd_div2 (Z.log2 eb)) as [Ev Dv]. rewrite Ev, Dv in P1, P2.
  destruct (Z.ltb_spec (2 * Z.log2 eb + 1) 64); [|lia]. cbn [andb] in P1, P2.
  split; [rewrite P1, Q1 | rewrite P2, Q2]; reflexivity.
Qed.

(** The even places decide when the highest difference lies there. *)
Lemma interleaved_order_a :
  a1 <> a2 -> (b1 = b2 \/ Z.log2 eb < Z.log2 ea) ->
  K1 <> K2 /\ (K1 < K2 <-> a1 < a2) /\ (K2 < K1 <-> a2 < a1).
Proof.
  intros Na Hb.
  pose proof (lxor_u32_log2 a1 a2 Ha1 Ha2 Na) as La. fold ea in La.
  assert (0 <= eb) as Heb by (apply Z.lxor_nonneg; lia).
  assert (0 <= ea) as Hea by (apply Z.lxor_nonneg; lia).
  assert (ea <> 0) as Nza by (intros E; apply Z.lxor_eq in E; lia).
  assert (Z.log2 (Z.lxor K1 K2) = 2 * Z.log2 ea) as LK.
  { apply log2_top_bit.
    - apply Z.lxor_nonneg. lia.
    - lia.
    - rewrite interleaved_lxor_bits by lia.
      destruct (even_div2 (Z.log2 ea)) as [Ev Dv]. rewrite Ev, Dv.
      destruct (Z.ltb_spec (2 * Z.log2 ea) 64); [|lia].
      apply Z.bit_log2. lia.
    - intros k Hk. rewrite interleaved_lxor_bits by lia.
      destruct (Z.ltb_spec k 64); [|reflexivity]. cbn [andb].
      destruct (Z.even k) eqn:Ev.
      + pose proof (half_gt_even k (Z.log2 ea) ltac:(lia) Ev).
        apply Z.bits_above_log2; lia.
      + pose proof (half_ge k (Z.log2 ea) Hk).
        destruct Hb as [->|Hb].
        * unfold eb. rewrite Z.lxor_nilpotent. apply Z.testbit_0_l.
        * apply Z.bits_above_log2; lia. }
  assert (K1 <> K2) as NK.
  { intros E. rewrite E, Z.lxor_nilpotent in LK.
    assert (Z.testbit (Z.lxor K2 K2) (2 * Z.log2 ea) = true) as T.
    { rewrite <- E at 1. rewrite interleaved_lxor_bits by lia.
      destruct (even_div2 (Z.log2 ea)) as [Ev Dv]. rewrite Ev, Dv.
      destruct (Z.ltb_spec (2 * Z.log2 ea) 64); [|lia].
      apply Z.bit_log2. lia. }
    rewrite Z.lxor_nilpotent, Z.testbit_0_l in T. discriminate. }
  split; [exact NK|].
  destruct (lt_iff_top_bit K1 K2 HK1 HK2 NK) as [P1 P2].
  destruct (lt_iff_top_bit a1 a2 ltac:(lia) ltac:(lia) Na) as [Q1 Q2].
  fold ea in Q1, Q2. rewrite LK in P1, P2.
  rewrite B2 in P1 by lia. rewrite B1 in P2 by lia.
  destruct (even_div2 (Z.log2 ea)) as [Ev Dv]. rewrite Ev, Dv in P1, P2.
  destruct (Z.ltb_spec (2 * Z.log2 ea) 64); [|lia]. cbn [andb] in P1, P2.
  split; [rewrite P1, Q1 | rewrite P2, Q2]; reflexivity.
Qed.
End Interleaved.

Lemma morton_key_bits_u32 (q : p4est_quadrant_t) (k : Z) :
  0 <= k ->
  Z.testbit (morton_key q) k
  = (k <? 64) && (if Z.even k then Z.testbit (uint32 (x q)) (k / 2)
                  else Z.testbit (uint32 (y q)) (k / 2)).
Proof.
  intros Hk. rewrite morton_key_bits, !uint32_testbit by lia.
  destruct (Z.ltb_spec k 64); [|reflexivity]. cbn [andb].
  assert (k / 2 < 32) by (apply Z.div_lt_upper_bound; lia).
  destruct (Z.ltb_spec (k / 2) 32); [|lia]. reflexivity.
Qed.

Lemma morton_key_same_xy (q1 q2 : p4est_quadrant_t) :
  x q1 = x q2 -> y q1 = y q2 -> morton_key q1 = morton_key q2.
Proof.
  intros Ex Ey. unfold morton_key, p4est_quadrant_linear_id.
  rewrite Ex, Ey. reflexivity.
Qed.

Lemma in_band_inv (q : p4est_quadrant_t) :
  quadrant_in_band q = true ->
  coord_in_band (x q) = true /\ coord_in_band (y q) = true /\
  int32_range (x q) /\ int32_range (y q).
Proof.
  unfold quadrant_in_band. intros H. apply andb_prop in H. destruct H as [Hx Hy].
  repeat split; try assumption; apply band_int32; assumption.
Qed.

(** [p4est_quadrant_compare] orders quadrants of the band by Morton index
    first and by level second. *)
Lemma compare_spec (q1 q2 : p4est_quadrant_t) :
  quadrant_in_band q1 = true -> quadrant_in_band q2 = true ->
  p4est_quadrant_compare q1 q2
  = if morton_key q1 =? morton_key q2 then level q1 - level q2
    else sign3 (morton_key q1 - morton_key q2).
Proof.
  intros I1 I2.
  destruct (in_band_inv q1 I1) as (Bx1 & By1 & X1 & Y1).
  destruct (in_band_inv q2 I2) as (Bx2 & By2 & X2 & Y2).
  unfold p4est_quadrant_compare.
  pose proof (uint32_range (x q1)) as Rx1. pose proof (uint32_range (x q2)) as Rx2.
  pose proof (uint32_range (y q1)) as Ry1. pose proof (uint32_range (y q2)) as Ry2.
  pose proof (uint32_range (Z.lxor (x q1) (x q2))) as Rex.
  pose proof (uint32_range (Z.lxor (y q1) (y q2))) as Rey.
  pose proof (morton_key_range q1) as RK1. pose proof (morton_key_range q2) as RK2.
  rewrite !SC_LOG2_32_spec by assumption.
  destruct (Z.eqb_spec (uint32 (Z.lxor (y q1) (y q2))) 0) as [Ey|Ey];
  destruct (Z.eqb_spec (uint32 (Z.lxor (x q1) (x q2))) 0) as [Ex|Ex]; cbn [andb].
  - apply uint32_lxor_zero_eq in Ex, Ey; try assumption.
    rewrite (morton_key_same_xy q1 q2 Ex Ey), Z.eqb_refl. reflexivity.
  - (* decided on x *)
    pose proof (Z.log2_nonneg (uint32 (Z.lxor (x q1) (x q2)))).
    destruct (Z.geb_spec (-1) (Z.log2 (uint32 (Z.lxor (x q1) (x q2))))); [lia|].
    apply uint32_lxor_zero_eq in Ey; try assumption.
    destruct (interleaved_order_a (morton_key q1) (morton_key q2)
                (uint32 (x q1)) (uint32 (y q1)) (uint32 (x q2)) (uint32 (y q2))
                ltac:(lia) ltac:(lia) Rx1 Ry1 Rx2 Ry2
                (morton_key_bits_u32 q1) (morton_key_bits_u32 q2))
      as (NK & L1 & L2).
    + intros E. apply uint32_inj in E; try assumption.
      apply Ex. apply uint32_lxor_same; assumption.
    + left. rewrite Ey. reflexivity.
    + destruct (Z.eqb_spec (morton_key q1) (morton_key q2)); [contradiction|].
      rewrite rebias_order by assumption. symmetry.
      apply sign3_by_order; assumption.
  - (* decided on y *)
    pose proof (Z.log2_nonneg (uint32 (Z.lxor (y q1) (y q2)))).
    destruct (Z.geb_spec (Z.log2 (uint32 (Z.lxor (y q1) (y q2)))) (-1)); [|lia].
    apply uint32_lxor_zero_eq in Ex; try assumption.
    destruct (interleaved_order_b (morton_key q1) (morton_key q2)
                (uint32 (x q1)) (uint32 (y q1)) (uint32 (x q2)) (uint32 (y q2))
                ltac:(lia) ltac:(lia) Rx1 Ry1 Rx2 Ry2
                (morton_key_bits_u32 q1) (morton_key_bits_u32 q2))
      as (NK & L1 & L2).
    + intros E. apply uint32_inj in E; try assumption.
      apply Ey. apply uint32_lxor_same; assumption.
    + left. rewrite Ex. reflexivity.
    + destruct (Z.eqb_spec (morton_key q1) (morton_key q2)); [contradiction|].
      rewrite rebias_order by assumption. symmetry.
      apply sign3_by_order; assumption.
  - assert (uint32 (x q1) <> uint32 (x q2)) as Nx.
    { intros E. apply uint32_inj in E; try assumption.
      apply Ex. apply uint32_lxor_same; assumption. }
    assert (uint32 (y q1) <> uint32 (y q2)) as Ny.
    { intros E. apply uint32_inj in E; try assumption.
      apply Ey. apply uint32_lxor_same; assumption. }
    destruct (Z.geb_spec (Z.log2 (uint32 (Z.lxor (y q1) (y q2))))
                         (Z.log2 (uint32 (Z.lxor (x q1) (x q2))))) as [G|G].
    + destruct (interleaved_order_b (morton_key q1) (morton_key q2)
                  (uint32 (x q1)) (uint32 (y q1)) (uint32 (x q2)) (uint32 (y q2))
                  ltac:(lia) ltac:(lia) Rx1 Ry1 Rx2 Ry2
                  (morton_key_bits_u32 q1) (morton_key_bits_u32 q2) Ny)
        as (NK & L1 & L2).
      { right. rewrite !uint32_lxor. lia. }
      destruct (Z.eqb_spec (morton_key q1) (morton_key q2)); [contradiction|].
      rewrite rebias_order by assumption. symmetry.
      apply sign3_by_order; assumption.
    + destruct (interleaved_order_a (morton_key q1) (morton_key q2)
                  (uint32 (x q1)) (uint32 (y q1)) (uint32 (x q2)) (uint32 (y q2))
                  ltac:(lia) ltac:(lia) Rx1 Ry1 Rx2 Ry2
                  (morton_key_bits_u32 q1) (morton_key_bits_u32 q2) Nx)
        as (NK & L1 & L2).
      { right. rewrite !uint32_lxor. lia. }
      destruct (Z.eqb_spec (morton_key q1) (morton_key q2)); [contradiction|].
      rewrite rebias_order by assumption. symmetry.
      apply sign3_by_order; assumption.
Qed.

Lemma compare_lt_iff (q1 q2 : p4est_quadrant_t) :
  quadrant_in_band q1 = true -> quadrant_in_band q2 = true ->
  (p4est_quadrant_compare q1 q2 < 0 <-> quadrant_lt q1 q2).
Proof.
  intros I1 I2. rewrite compare_spec by assumption. unfold quadrant_lt.
  destruct (Z.eqb_spec (morton_key q1) (morton_key q2)).
  - lia.
  - rewrite sign3_lt0. lia.
Qed.

Lemma compare_le_iff (q1 q2 : p4est_quadrant_t) :
  quadrant_in_band q1 = true -> quadrant_in_band q2 = true ->
  (p4est_quadrant_compare q1 q2 <= 0 <-> quadrant_le q1 q2).
Proof.
  intros I1 I2. rewrite compare_spec by assumption. unfold quadrant_le.
  destruct (Z.eqb_spec (morton_key q1) (morton_key q2)).
  - lia.
  - unfold sign3.
    destruct (Z.eqb_spec (morton_key q1 - morton_key q2) 0); [lia|].
    destruct (Z.ltb_spec (morton_key q1 - morton_key q2) 0); lia.
Qed.

Lemma compare_eq_iff (q1 q2 : p4est_quadrant_t) :
  quadrant_in_band q1 = true -> quadrant_in_band q2 = true ->
  (p4est_quadrant_compare q1 q2 = 0 <-> same_xyl q1 q2).
Proof.
  intros I1 I2. rewrite compare_spec by assumption. unfold same_xyl.
  destruct (in_band_inv q1 I1) as (_ & _ & X1 & Y1).
  destruct (in_band_inv q2 I2) as (_ & _ & X2 & Y2).
  destruct (Z.eqb_spec (morton_key q1) (morton_key q2)) as [E|E].
  - destruct (morton_key_inj q1 q2 X1 Y1 X2 Y2 E). lia.
  - rewrite sign3_zero. split; [lia|]. intros (Ex & Ey & _).
    exfalso. apply E. apply morton_key_same_xy; assumption.
Qed.

Lemma compare_antisym (q1 q2 : p4est_quadrant_t) :
  quadrant_in_band q1 = true -> quadrant_in_band q2 = true ->
  (p4est_quadrant_compare q2 q1 > 0 <-> p4est_quadrant_compare q1 q2 < 0).
Proof.
  intros I1 I2. rewrite !compare_spec by assumption.
  destruct (Z.eqb_spec (morton_key q1) (morton_key q2)),
           (Z.eqb_spec (morton_key q2) (morton_key q1)); try lia.
  unfold sign3.
  repeat match goal with
         | |- context [?u =? ?v] => destruct (Z.eqb_spec u v)
         | |- context [?u <? ?v] => destruct (Z.ltb_spec u v)
         end; lia.
Qed.

Lemma quadrant_lt_trans (a b c : p4est_quadrant_t) :
  quadrant_lt a b -> quadrant_lt b c -> quadrant_lt a c.
Proof. unfold quadrant_lt. lia. Qed.

Lemma quadrant_le_trans (a b c : p4est_quadrant_t) :
  quadrant_le a b -> quadrant_le b c -> quadrant_le a c.
Proof. unfold quadrant_le. lia. Qed.

Lemma quadrant_lt_le_trans (a b c : p4est_quadrant_t) :
  quadrant_lt a b -> quadrant_le b c -> quadrant_lt a c.
Proof. unfold quadrant_lt, quadrant_le. lia. Qed.

Lemma quadrant_le_lt_trans (a b c : p4est_quadrant_t) :
  quadrant_le a b -> quadrant_lt b c -> quadrant_lt a c.
Proof. unfold quadrant_lt, quadrant_le. lia. Qed.

Lemma quadrant_lt_le (a b : p4est_quadrant_t) : quadrant_lt a b -> quadrant_le a b.
Proof. unfold quadrant_lt, quadrant_le. lia. Qed.

Lemma quadrant_lt_irrefl (a : p4est_quadrant_t) : ~ quadrant_lt a a.
Proof. unfold quadrant_lt. lia. Qed.

Lemma quadrant_le_total (a b : p4est_quadrant_t) :
  quadrant_le a b \/ quadrant_lt b a.
Proof. unfold quadrant_lt, quadrant_le. lia. Qed.


(* ================================================================= *)
(** ** Sorted arrays *)

Lemma array_in_band_cons (q : p4est_quadrant_t) (l : list p4est_quadrant_t) :
  array_in_band (q :: l) = true <->
  quadrant_in_band q = true /\ array_in_band l = true.
Proof. unfold array_in_band. cbn [forallb]. apply andb_true_iff. Qed.

Lemma array_in_band_nth (l : list p4est_quadrant_t) (i : nat) :
  array_in_band l = true -> (i < length l)%nat ->
  quadrant_in_band (nth i l quadrant_zero) = true.
Proof.
  unfold array_in_band. rewrite forallb_forall. intros H Hi.
  apply H. apply nth_In. exact Hi.
Qed.

Lemma array_in_band_index (l : list p4est_quadrant_t) (i : Z) :
  array_in_band l = true -> 0 <= i < elem_count l ->
  quadrant_in_band (sc_array_index l i) = true.
Proof.
  unfold elem_count, sc_array_index. intros H Hi.
  apply array_in_band_nth; [exact H|lia].
Qed.

Lemma tree_is_sorted_loop_strongly (q1 : p4est_quadrant_t)
  (rest : list p4est_quadrant_t) :
  array_in_band (q1 :: rest) = true ->
  tree_is_sorted_loop q1 rest = true ->
  StronglySorted quadrant_lt (q1 :: rest).
Proof.
  revert q1. induction rest as [|q2 rest IH]; intros q1 B S.
  - constructor; constructor.
  - cbn [tree_is_sorted_loop] in S.
    apply array_in_band_cons in B. destruct B as [B1 B].
    pose proof B as B'. apply array_in_band_cons in B'. destruct B' as [B2 _].
    destruct (Z.geb_spec (p4est_quadrant_compare q1 q2) 0); [discriminate|].
    specialize (IH q2 B S).
    assert (quadrant_lt q1 q2) as L12 by (apply compare_lt_iff; assumption || lia).
    constructor; [exact IH|].
    constructor; [exact L12|].
    apply StronglySorted_inv in IH. destruct IH as [_ F].
    rewrite Forall_forall in *. intros z Hz.
    apply (quadrant_lt_trans q1 q2 z); auto.
Qed.

Lemma strongly_sorted_nth (l : list p4est_quadrant_t) :
  StronglySorted quadrant_lt l ->
  forall i j, (i < j < length l)%nat ->
  quadrant_lt (nth i l quadrant_zero) (nth j l quadrant_zero).
Proof.
  induction 1 as [|a l S IH F]; intros i j Hij; [cbn in Hij; lia|].
  destruct j as [|j]; [lia|]. cbn [length] in Hij.
  destruct i as [|i]; cbn [nth].
  - rewrite Forall_forall in F. apply F. apply nth_In. lia.
  - apply IH. lia.
Qed.

Lemma tree_sorted_index (tree : p4est_tree_t) :
  array_in_band (quadrants tree) = true ->
  p4est_tree_is_sorted tree = true ->
  forall i j, 0 <= i < j -> j < elem_count (quadrants tree) ->
  quadrant_lt (sc_array_index (quadrants tree) i)
              (sc_array_index (quadrants tree) j).
Proof.
  unfold p4est_tree_is_sorted, elem_count, sc_array_index.
  intros B S i j Hi Hj.
  destruct (quadrants tree) as [|q1 rest] eqn:E; [cbn in Hj; lia|].
  apply strongly_sorted_nth.
  - apply tree_is_sorted_loop_strongly; assumption.
  - lia.
Qed.

(* ================================================================= *)
(** ** Binary searches *)

Section LowerBound.
Variable array : list p4est_quadrant_t.
Variable q : p4est_quadrant_t.
Let count := elem_count array.
Let le_at (i : Z) : Prop :=
  p4est_quadrant_compare q (sc_array_index array i) <= 0.

(** Along a sorted array, once an element is at or above [q], all later
    ones are. *)
Hypothesis le_at_mono :
  forall i j, 0 <= i <= j -> j < count -> le_at i -> le_at j.

Lemma find_lower_bound_loop_correct (fuel : nat) :
  forall quad_low quad_high guess,
  0 <= quad_low -> quad_low <= guess <= quad_high -> quad_high < count ->
  (Z.to_nat (quad_high - quad_low) < fuel)%nat ->
  (forall i, 0 <= i < quad_low -> ~ le_at i) ->
  (quad_high = count - 1 \/ le_at quad_high) ->
  exists r,
    find_lower_bound_loop fuel array q quad_low quad_high guess = Some r /\
    ((r = -1 /\ forall i, 0 <= i < count -> ~ le_at i) \/
     (0 <= r < count /\ le_at r /\ forall i, 0 <= i < r -> ~ le_at i)).
Proof.
  induction fuel as [|f IH]; intros lo hi g Hlo Hg Hhi Hf Below Above; [lia|].
  cbn [find_lower_bound_loop].
  destruct (Z.leb_spec (p4est_quadrant_compare q (sc_array_index array g)) 0)
    as [C|C]; cbn [andb].
  - destruct (Z.gtb_spec g 0) as [G0|G0]; cbn [andb].
    + destruct (Z.leb_spec
                  (p4est_quadrant_compare q (sc_array_index array (g - 1))) 0)
        as [C1|C1].
      * (* continue below the guess *)
        assert (lo < g) as Hlt.
        { destruct (Z.eq_dec lo g) as [->|]; [|lia].
          exfalso. apply (Below (g - 1)); [lia|exact C1]. }
        rewrite Z.quot_div_nonneg by lia.
        pose proof (Z.div_mod (lo + (g - 1) + 1) 2 ltac:(lia)) as D.
        pose proof (Z.mod_pos_bound (lo + (g - 1) + 1) 2 ltac:(lia)) as M.
        apply IH; try lia; try assumption.
        right. exact C1.
      * (* the guess is the answer *)
        destruct (Z.gtb_spec (p4est_quadrant_compare q (sc_array_index array g)) 0);
          [lia|].
        exists g. split; [reflexivity|]. right.
        split; [lia|]. split; [exact C|].
        intros i Hi L. apply (le_at_mono i (g - 1)) in L; try lia.
        unfold le_at in L. lia.
    + destruct (Z.gtb_spec (p4est_quadrant_compare q (sc_array_index array g)) 0);
        [lia|].
      exists g. split; [reflexivity|]. right.
      split; [lia|]. split; [exact C|]. intros i Hi. lia.
  - destruct (Z.gtb_spec (p4est_quadrant_compare q (sc_array_index array g)) 0);
      [|lia].
    assert (forall i, 0 <= i <= g -> ~ le_at i) as Below'.
    { intros i Hi L. apply (le_at_mono i g) in L; try lia.
      unfold le_at in L. lia. }
    destruct (Z.gtb_spec (g + 1) hi) as [E|E].
    + exists (-1). split; [reflexivity|]. left. split; [reflexivity|].
      assert (g = hi) by lia. subst g.
      destruct Above as [->|A]; [|unfold le_at in A; lia].
      intros i Hi. apply Below'. lia.
    + rewrite Z.quot_div_nonneg by lia.
      pose proof (Z.div_mod (g + 1 + hi) 2 ltac:(lia)) as D.
      pose proof (Z.mod_pos_bound (g + 1 + hi) 2 ltac:(lia)) as M.
      apply IH; try lia; try assumption.
      intros i Hi. apply Below'. lia.
Qed.
End LowerBound.

Section HigherBound.
Variable array : list p4est_quadrant_t.
Variable q : p4est_quadrant_t.
Let count := elem_count array.
Let ge_at (i : Z) : Prop :=
  p4est_quadrant_compare (sc_array_index array i) q <= 0.

(** Along a sorted array, once an element is at or below [q], all earlier
    ones are. *)
Hypothesis ge_at_mono :
  forall i j, 0 <= i <= j -> j < count -> ge_at j -> ge_at i.

Lemma find_higher_bound_loop_correct (fuel : nat) :
  forall quad_low quad_high guess,
  0 <= quad_low -> quad_low <= guess <= quad_high -> quad_high < count ->
  (Z.to_nat (quad_high - quad_low) < fuel)%nat ->
  (forall i, quad_high < i < count -> ~ ge_at i) ->
  (quad_low = 0 \/ ge_at quad_low) ->
  exists r,
    find_higher_bound_loop fuel array q count quad_low quad_high guess = Some r /\
    ((r = -1 /\ forall i, 0 <= i < count -> ~ ge_at i) \/
     (0 <= r < count /\ ge_at r /\ forall i, r < i < count -> ~ ge_at i)).
Proof.
  induction fuel as [|f IH]; intros lo hi g Hlo Hg Hhi Hf Above Below; [lia|].
  cbn [find_higher_bound_loop].
  destruct (Z.leb_spec (p4est_quadrant_compare (sc_array_index array g) q) 0)
    as [C|C]; cbn [andb].
  - destruct (Z.ltb_spec g (count - 1)) as [G0|G0]; cbn [andb].
    + destruct (Z.leb_spec
                  (p4est_quadrant_compare (sc_array_index array (g + 1)) q) 0)
        as [C1|C1].
      * (* continue above the guess *)
        assert (g < hi) as Hlt.
        { destruct (Z.eq_dec hi g) as [->|]; [|lia].
          exfalso. apply (Above (g + 1)); [lia|exact C1]. }
        rewrite Z.quot_div_nonneg by lia.
        pose proof (Z.div_mod (g + 1 + hi) 2 ltac:(lia)) as D.
        pose proof (Z.mod_pos_bound (g + 1 + hi) 2 ltac:(lia)) as M.
        apply IH; try lia; try assumption.
        right. exact C1.
      * (* the guess is the answer *)
        destruct (Z.gtb_spec (p4est_quadrant_compare (sc_array_index array g) q) 0);
          [lia|].
        exists g. split; [reflexivity|]. right.
        split; [lia|]. split; [exact C|].
        intros i Hi L. apply (ge_at_mono (g + 1) i) in L; try lia.
        unfold ge_at in L. lia.
    + destruct (Z.gtb_spec (p4est_quadrant_compare (sc_array_index array g) q) 0);
        [lia|].
      exists g. split; [reflexivity|]. right.
      split; [lia|]. split; [exact C|]. intros i Hi. lia.
  - destruct (Z.gtb_spec (p4est_quadrant_compare (sc_array_index array g) q) 0);
      [|lia].
    assert (forall i, g <= i < count -> ~ ge_at i) as Above'.
    { intros i Hi L. apply (ge_at_mono g i) in L; try lia.
      unfold ge_at in L. lia. }
    destruct (Z.ltb_spec (g - 1) lo) as [E|E].
    + exists (-1). split; [reflexivity|]. left. split; [reflexivity|].
      assert (g = lo) by lia. subst g.
      destruct Below as [->|A]; [|unfold ge_at in A; lia].
      intros i Hi. apply Above'. lia.
    + rewrite Z.quot_div_nonneg by lia.
      pose proof (Z.div_mod (lo + (g - 1) + 1) 2 ltac:(lia)) as D.
      pose proof (Z.mod_pos_bound (lo + (g - 1) + 1) 2 ltac:(lia)) as M.
      apply IH; try lia; try assumption.
      intros i Hi. apply Above'. lia.
Qed.
End HigherBound.

Lemma compare_flip_le (q1 q2 : p4est_quadrant_t) :
  quadrant_in_band q1 = true -> quadrant_in_band q2 = true ->
  (p4est_quadrant_compare q1 q2 <= 0 <-> p4est_quadrant_compare q2 q1 >= 0).
Proof.
  intros I1 I2.
  pose proof (compare_antisym q1 q2 I1 I2) as A.
  pose proof (compare_antisym q2 q1 I2 I1) as B.
  pose proof (compare_eq_iff q1 q2 I1 I2) as E1.
  pose proof (compare_eq_iff q2 q1 I2 I1) as E2.
  assert (same_xyl q1 q2 <-> same_xyl q2 q1) as S
    by (unfold same_xyl; intuition congruence).
  destruct (Z.lt_trichotomy (p4est_quadrant_compare q1 q2) 0) as [L|[L|L]];
  destruct (Z.lt_trichotomy (p4est_quadrant_compare q2 q1) 0) as [M|[M|M]];
    try lia; try tauto.
Qed.

Lemma compare_flip_gt (q1 q2 : p4est_quadrant_t) :
  quadrant_in_band q1 = true -> quadrant_in_band q2 = true ->
  (p4est_quadrant_compare q1 q2 > 0 <-> p4est_quadrant_compare q2 q1 < 0).
Proof. intros I1 I2. apply compare_antisym; assumption. Qed.

(** *** C9: the two binary searches *)




(* ================================================================= *)
(** ** Overlap: sorting and filtering the out array *)

(** *** C8: the out array after [p4est_tree_uniqify_overlap] *)

(** C8 at a failing input: two quadrants with the same coordinates and level
    but tagged with different trees are distinct in the piggy order and
    neither is in the (empty) [not] array, yet only one of them is left:
    the array is sorted with [p4est_quadrant_compare] and duplicates are
    found with [p4est_quadrant_is_equal], both blind to the tree. *)
Lemma uniqify_overlap_loses_other_tree :
  let q0 := mkquad 0 0 1 (piggy 0) in
  let q1 := mkquad 0 0 1 (piggy 1) in
  p4est_quadrant_compare_piggy q0 q1 = -1 /\
  p4est_tree_uniqify_overlap [] [q0; q1] = [q1] /\
  p4est_tree_uniqify_overlap [] [q1; q0] = [q0].
Proof.
  cbv zeta. repeat split; vm_compute; reflexivity.
Qed.


(* ================================================================= *)
(** ** Ancestors as intervals of the Morton index *)

Lemma shifted_key_bits (q : p4est_quadrant_t) (m k : Z) :
  0 <= m -> 0 <= k ->
  Z.testbit (Z.shiftr (morton_key q) (2 * m)) k
  = (k + 2 * m <? 64) &&
    (if Z.even k then Z.testbit (x q) (k / 2 + m)
     else Z.testbit (y q) (k / 2 + m)).
Proof.
  intros Hm Hk. rewrite Z.shiftr_spec, morton_key_bits by lia.
  replace (Z.even (k + 2 * m)) with (Z.even k).
  2:{ rewrite Z.even_add, Z.even_mul. cbn [Z.even orb]. destruct (Z.even k); reflexivity. }
  replace ((k + 2 * m) / 2) with (k / 2 + m).
  2:{ rewrite (Z.mul_comm 2 m), Z.div_add by lia. reflexivity. }
  reflexivity.
Qed.

Lemma key_shift_eq_iff (a b : p4est_quadrant_t) (m : Z) :
  int32_range (x a) -> int32_range (y a) ->
  int32_range (x b) -> int32_range (y b) ->
  0 <= m <= 31 ->
  (Z.shiftr (morton_key a) (2 * m) = Z.shiftr (morton_key b) (2 * m) <->
   Z.shiftr (Z.lxor (x a) (x b)) m = 0 /\ Z.shiftr (Z.lxor (y a) (y b)) m = 0).
Proof.
  intros Xa Ya Xb Yb Hm. split.
  - intros E.
    assert (forall j, m <= j < 32 ->
              Z.testbit (x a) j = Z.testbit (x b) j /\
              Z.testbit (y a) j = Z.testbit (y b) j) as B.
    { intros j Hj. split.
      - apply (f_equal (fun z => Z.testbit z (2 * (j - m)))) in E.
        rewrite !shifted_key_bits in E by lia.
        rewrite Z.even_mul in E. cbn [Z.even orb] in E.
        rewrite (Z.mul_comm 2 (j - m)), Z.div_mul in E by lia.
        replace (j - m + m) with j in E by lia.
        destruct (Z.ltb_spec ((j - m) * 2 + 2 * m) 64); [exact E|lia].
      - apply (f_equal (fun z => Z.testbit z (1 + 2 * (j - m)))) in E.
        rewrite !shifted_key_bits in E by lia.
        rewrite Z.even_add, Z.even_mul in E. cbn [Z.even orb Bool.eqb] in E.
        replace ((1 + 2 * (j - m)) / 2) with (j - m) in E
          by (apply Z.div_unique with (r := 1); lia).
        replace (j - m + m) with j in E by lia.
        destruct (Z.ltb_spec (1 + 2 * (j - m) + 2 * m) 64); [exact E|lia]. }
    assert (forall c d, int32_range c -> int32_range d ->
              (forall j, m <= j < 32 -> Z.testbit c j = Z.testbit d j) ->
              Z.shiftr (Z.lxor c d) m = 0) as K.
    { intros c d Rc Rd Bc. apply Z.bits_inj'. intros k Hk.
      rewrite Z.shiftr_spec, Z.lxor_spec, Z.testbit_0_l by lia.
      destruct (Z.lt_ge_cases (k + m) 32).
      - rewrite Bc by lia. apply xorb_nilpotent.
      - rewrite !int32_high_bits by (assumption || lia).
        specialize (Bc 31 ltac:(lia)).
        rewrite !int32_high_bits in Bc by (assumption || lia).
        rewrite Bc. apply xorb_nilpotent. }
    split; apply K; try assumption; intros j Hj; apply B; exact Hj.
  - intros [Ex Ey]. apply Z.bits_inj'. intros k Hk.
    rewrite !shifted_key_bits by lia.
    assert (0 <= k / 2) by (apply Z.div_pos; lia).
    apply (f_equal (fun z => Z.testbit z (k / 2))) in Ex, Ey.
    rewrite Z.shiftr_spec, Z.lxor_spec, Z.testbit_0_l in Ex, Ey by lia.
    apply xorb_eq in Ex, Ey. rewrite Ex, Ey. reflexivity.
Qed.

(** The index of an extended quadrant has no bits below its level. *)
Lemma key_aligned (q : p4est_quadrant_t) :
  p4est_quadrant_is_extended q = true ->
  clear_low (morton_key q) (2 * (P4EST_MAXLEVEL - level q)) = morton_key q.
Proof.
  intros E. destruct (is_extended_inv q E) as (L & Ax & Ay).
  apply Z.bits_inj'. intros k Hk.
  rewrite clear_low_testbit by lia.
  destruct (Z.leb_spec (2 * (P4EST_MAXLEVEL - level q)) k); [reflexivity|].
  cbn [andb]. rewrite morton_key_bits by lia.
  assert (0 <= k / 2 < P4EST_MAXLEVEL - level q).
  { split; [apply Z.div_pos; lia | apply Z.div_lt_upper_bound; lia]. }
  rewrite (aligned_low_bits (x q) (P4EST_MAXLEVEL - level q)),
          (aligned_low_bits (y q) (P4EST_MAXLEVEL - level q))
    by (assumption || lia).
  destruct (k <? 64), (Z.even k); reflexivity.
Qed.

Lemma shiftr_eq_iff_interval (K K' n : Z) :
  0 <= n -> clear_low K n = K ->
  (Z.shiftr K n = Z.shiftr K' n <-> K <= K' < K + 2 ^ n).
Proof.
  intros Hn A. rewrite clear_low_eq in A by lia.
  rewrite !Z.shiftr_div_pow2 by lia.
  assert (0 < 2 ^ n) as P by (apply Z.pow_pos_nonneg; lia).
  pose proof (Z.div_mod K (2 ^ n) ltac:(lia)) as D.
  pose proof (Z.div_mod K' (2 ^ n) ltac:(lia)) as D'.
  pose proof (Z.mod_pos_bound K (2 ^ n) P) as M.
  pose proof (Z.mod_pos_bound K' (2 ^ n) P) as M'.
  split.
  - intros E. rewrite <- E in D'. lia.
  - intros I. apply Z.div_unique with (r := K' - K); lia.
Qed.

(** An extended quadrant is an ancestor of exactly the deeper quadrants
    whose index lies in the interval that starts at its own index and has
    the length of its area. *)
Lemma is_ancestor_iff_interval (a b : p4est_quadrant_t) :
  p4est_quadrant_is_extended a = true ->
  int32_range (x a) -> int32_range (y a) ->
  int32_range (x b) -> int32_range (y b) ->
  (p4est_quadrant_is_ancestor a b = true <->
   level a < level b /\
   morton_key a <= morton_key b
     < morton_key a + 2 ^ (2 * (P4EST_MAXLEVEL - level a))).
Proof.
  intros E Xa Ya Xb Yb. destruct (is_extended_inv a E) as (L & _ & _).
  pose proof (key_aligned a E) as A.
  rewrite <- (shiftr_eq_iff_interval (morton_key a) (morton_key b)) by (lia || exact A).
  rewrite key_shift_eq_iff by (assumption || unfold P4EST_MAXLEVEL in *; lia).
  unfold p4est_quadrant_is_ancestor.
  destruct (Z.geb_spec (level a) (level b)).
  - split; [discriminate|lia].
  - rewrite andb_true_iff, !Z.eqb_eq. split; [intros HH; split; [lia|exact HH]|tauto].
Qed.

(** The interval property: between an ancestor and its descendant in the
    Morton order there are only the ancestor itself and its descendants. *)
Lemma between_ancestor_descendant (a b e : p4est_quadrant_t) :
  p4est_quadrant_is_extended a = true ->
  p4est_quadrant_is_extended b = true ->
  quadrant_in_band a = true -> quadrant_in_band b = true ->
  quadrant_in_band e = true ->
  p4est_quadrant_is_ancestor a e = true ->
  quadrant_le a b -> quadrant_le b e ->
  p4est_quadrant_is_equal a b || p4est_quadrant_is_ancestor a b = true.
Proof.
  intros Ea Eb Ia Ib Ie An Lab Lbe.
  destruct (in_band_inv a Ia) as (_ & _ & Xa & Ya).
  destruct (in_band_inv b Ib) as (_ & _ & Xb & Yb).
  destruct (in_band_inv e Ie) as (_ & _ & Xe & Ye).
  destruct (is_extended_inv a Ea) as (La & _ & _).
  destruct (is_extended_inv b Eb) as (Lb & _ & _).
  apply is_ancestor_iff_interval in An; try assumption.
  destruct An as (Lae & Iv).
  assert (morton_key a <= morton_key b
            < morton_key a + 2 ^ (2 * (P4EST_MAXLEVEL - level a))) as Ib'.
  { unfold quadrant_le in *. lia. }
  destruct (Z.lt_ge_cases (level a) (level b)) as [Hl|Hl].
  - apply orb_true_iff. right.
    apply is_ancestor_iff_interval; try assumption. split; assumption.
  - (* [b] is not deeper than [a]: its index is a multiple of the span *)
    apply orb_true_iff. left.
    pose proof (key_aligned a Ea) as Aa. pose proof (key_aligned b Eb) as Ab.
    rewrite clear_low_eq in Aa, Ab by lia.
    set (ma := 2 * (P4EST_MAXLEVEL - level a)) in *.
    set (mb := 2 * (P4EST_MAXLEVEL - level b)) in *.
    assert (2 ^ mb = 2 ^ ma * 2 ^ (mb - ma)) as Pw.
    { rewrite <- Z.pow_add_r by (unfold ma, mb; lia). f_equal. lia. }
    assert (0 < 2 ^ ma) by (apply Z.pow_pos_nonneg; unfold ma; lia).
    assert (0 < 2 ^ (mb - ma)) by (apply Z.pow_pos_nonneg; unfold ma, mb; lia).
    assert (morton_key a mod 2 ^ ma = 0) as Za by lia.
    assert (morton_key b mod 2 ^ mb = 0) as Zb by lia.
    apply Z.mod_divide in Za, Zb; try lia.
    destruct Za as [ca Ca]. destruct Zb as [cb Cb].
    assert (morton_key b = morton_key a) as EK.
    { rewrite Pw in Cb.
      remember (2 ^ ma) as P eqn:EP. remember (2 ^ (mb - ma)) as Q eqn:EQ.
      assert (ca <= cb * Q) by (apply (Z.mul_le_mono_pos_r _ _ P); lia).
      assert (cb * Q < ca + 1) by (apply (Z.mul_lt_mono_pos_r P); lia).
      assert (cb * Q = ca) as EC by lia.
      rewrite Cb, Ca, <- EC. ring. }
    assert (level a = level b) as EL by (unfold quadrant_le in Lab; lia).
    destruct (morton_key_inj b a Xb Yb Xa Ya EK) as [Ex Ey].
    unfold p4est_quadrant_is_equal. rewrite EL, Ex, Ey, !Z.eqb_refl. reflexivity.
Qed.


(* ================================================================= *)
(** ** Linearization *)

Lemma sc_array_index_app_r (pre : list p4est_quadrant_t) (c : p4est_quadrant_t)
  (post : list p4est_quadrant_t) :
  sc_array_index (pre ++ c :: post) (Z.of_nat (length pre)) = c.
Proof.
  unfold sc_array_index. rewrite Nat2Z.id, app_nth2, Nat.sub_diag by lia.
  reflexivity.
Qed.

Lemma list_set_app_r {A : Type} (pre : list A) (c v : A) (post : list A) :
  list_set (pre ++ c :: post) (length pre) v = pre ++ v :: post.
Proof.
  induction pre as [|h t IH]; cbn; [reflexivity|]. rewrite IH. reflexivity.
Qed.

Lemma sc_array_set_app_r (pre : list p4est_quadrant_t) (c v : p4est_quadrant_t)
  (post : list p4est_quadrant_t) :
  sc_array_set (pre ++ c :: post) (Z.of_nat (length pre)) v = pre ++ v :: post.
Proof.
  unfold sc_array_set. destruct (Z.ltb_spec (Z.of_nat (length pre)) 0); [lia|].
  rewrite Nat2Z.id. apply list_set_app_r.
Qed.

Lemma linearized_cons2 (a b : p4est_quadrant_t) (t : list p4est_quadrant_t) :
  linearized (a :: b :: t)
  = if p4est_quadrant_is_equal a b || p4est_quadrant_is_ancestor a b
    then linearized (b :: t) else a :: linearized (b :: t).
Proof. reflexivity. Qed.

Lemma linearize_dropped_cons2 (a b : p4est_quadrant_t)
  (t : list p4est_quadrant_t) :
  linearize_dropped (a :: b :: t)
  = if p4est_quadrant_is_equal a b || p4est_quadrant_is_ancestor a b
    then a :: linearize_dropped (b :: t) else linearize_dropped (b :: t).
Proof. reflexivity. Qed.

Lemma free_data_all_cons (p4est : p4est_t) (c : p4est_quadrant_t)
  (d : list p4est_quadrant_t) :
  free_data_all p4est (c :: d)
  = free_data_all (fst (p4est_quadrant_free_data p4est c)) d.
Proof. reflexivity. Qed.

Lemma per_level_drop_cons (per_level : list Z) (c : p4est_quadrant_t)
  (d : list p4est_quadrant_t) :
  per_level_drop per_level (c :: d)
  = per_level_drop (per_level_add per_level (level c) (-1)) d.
Proof. reflexivity. Qed.

(** The loop keeps the elements before [current], holds the candidate at
    [current] and the unread elements from [rest] on. *)
Lemma linearize_loop_spec (suffix : list p4est_quadrant_t) :
  forall pre c junk p4est per_level removed,
  exists arr' cur',
    linearize_loop (length suffix) p4est (pre ++ c :: junk ++ suffix) per_level
      (Z.of_nat (length pre)) (Z.of_nat (length pre + 1 + length junk)) removed
    = (free_data_all p4est (linearize_dropped (c :: suffix)),
       arr',
       per_level_drop per_level (linearize_dropped (c :: suffix)),
       cur',
       removed + Z.of_nat (length (linearize_dropped (c :: suffix)))) /\
    0 <= cur' < Z.of_nat (length arr') /\
    firstn (Z.to_nat (cur' + 1)) arr' = pre ++ linearized (c :: suffix) /\
    length arr' = length (pre ++ c :: junk ++ suffix).
Proof.
  induction suffix as [|q2 suffix IH]; intros pre c junk p4est per_level removed.
  - exists (pre ++ c :: junk ++ []), (Z.of_nat (length pre)).
    cbn [length linearize_loop linearize_dropped linearized free_data_all
         per_level_drop fold_left].
    rewrite Z.add_0_r. split; [reflexivity|].
    split; [rewrite length_app; cbn [length]; lia|]. split; [|reflexivity].
    replace (Z.to_nat (Z.of_nat (length pre) + 1)) with (length (pre ++ [c])).
    2:{ rewrite length_app. cbn. lia. }
    replace (pre ++ c :: junk ++ []) with ((pre ++ [c]) ++ junk ++ []).
    2:{ rewrite <- app_assoc. reflexivity. }
    rewrite firstn_app, firstn_all, Nat.sub_diag. cbn [firstn].
    rewrite app_nil_r. reflexivity.
  - cbn [length linearize_loop].
    rewrite sc_array_index_app_r.
    assert (sc_array_index (pre ++ c :: junk ++ q2 :: suffix)
              (Z.of_nat (length pre + 1 + length junk)) = q2) as I2.
    { replace (pre ++ c :: junk ++ q2 :: suffix)
        with ((pre ++ c :: junk) ++ q2 :: suffix)
        by (rewrite <- app_assoc; reflexivity).
      replace (length pre + 1 + length junk)%nat with (length (pre ++ c :: junk))
        by (rewrite length_app; cbn; lia).
      apply sc_array_index_app_r. }
    rewrite I2.
    rewrite linearized_cons2, linearize_dropped_cons2.
    destruct (p4est_quadrant_is_equal c q2 || p4est_quadrant_is_ancestor c q2) eqn:D.
    + (* [c] is dropped, [q2] takes its place *)
      rewrite sc_array_set_app_r.
      destruct (IH pre q2 (junk ++ [q2])
                  (fst (p4est_quadrant_free_data p4est c))
                  (per_level_add per_level (level c) (-1)) (removed + 1))
        as (arr' & cur' & E & Hc & F & Ln).
      exists arr', cur'.
      replace (pre ++ q2 :: junk ++ q2 :: suffix)
        with (pre ++ q2 :: (junk ++ [q2]) ++ suffix)
        by (rewrite <- app_assoc; reflexivity).
      replace (Z.of_nat (length pre + 1 + length junk) + 1)
        with (Z.of_nat (length pre + 1 + length (junk ++ [q2])))
        by (rewrite length_app; cbn; lia).
      destruct (p4est_quadrant_free_data p4est c) as [p4est1 qfree] eqn:Fr.
      cbn [fst] in E. rewrite E.
      rewrite free_data_all_cons, per_level_drop_cons, Fr.
      cbn [fst length]. rewrite Nat2Z.inj_succ.
      split; [f_equal; lia|]. split; [exact Hc|]. split; [exact F|].
      rewrite Ln, !length_app. cbn [length]. rewrite !length_app. cbn [length]. lia.
    + (* [c] is kept *)
      destruct junk as [|j0 junk'].
      * destruct (Z.ltb_spec (Z.of_nat (length pre) + 1)
                             (Z.of_nat (length pre + 1 + length (@nil p4est_quadrant_t))));
          [cbn [length] in *; lia|].
        destruct (IH (pre ++ [c]) q2 [] p4est per_level removed)
          as (arr' & cur' & E & Hc & F & Ln).
        exists arr', cur'.
        replace (pre ++ c :: [] ++ q2 :: suffix)
          with ((pre ++ [c]) ++ q2 :: [] ++ suffix)
          by (rewrite <- app_assoc; reflexivity).
        replace (Z.of_nat (length pre) + 1) with (Z.of_nat (length (pre ++ [c])))
          by (rewrite length_app; cbn; lia).
        replace (Z.of_nat (length pre + 1 + length (@nil p4est_quadrant_t)) + 1)
          with (Z.of_nat (length (pre ++ [c]) + 1 + length (@nil p4est_quadrant_t)))
          by (rewrite length_app; cbn; lia).
        rewrite E. split; [reflexivity|]. split; [exact Hc|].
        split; [rewrite F, <- app_assoc; reflexivity|exact Ln].
      * destruct (Z.ltb_spec (Z.of_nat (length pre) + 1)
                             (Z.of_nat (length pre + 1 + length (j0 :: junk'))));
          [|cbn [length] in *; lia].
        replace (Z.of_nat (length pre) + 1) with (Z.of_nat (length (pre ++ [c])))
          by (rewrite length_app; cbn; lia).
        replace (pre ++ c :: (j0 :: junk') ++ q2 :: suffix)
          with ((pre ++ [c]) ++ j0 :: junk' ++ q2 :: suffix)
          by (rewrite <- app_assoc; reflexivity).
        rewrite sc_array_set_app_r.
        destruct (IH (pre ++ [c]) q2 (junk' ++ [q2]) p4est per_level removed)
          as (arr' & cur' & E & Hc & F & Ln).
        exists arr', cur'.
        replace ((pre ++ [c]) ++ q2 :: junk' ++ q2 :: suffix)
          with ((pre ++ [c]) ++ q2 :: (junk' ++ [q2]) ++ suffix)
          by (rewrite <- (app_assoc junk'); reflexivity).
        replace (Z.of_nat (length pre + 1 + length (j0 :: junk')) + 1)
          with (Z.of_nat (length (pre ++ [c]) + 1 + length (junk' ++ [q2])))
          by (rewrite !length_app; cbn [length]; lia).
        rewrite E. split; [reflexivity|]. split; [exact Hc|].
        split; [rewrite F, <- app_assoc; reflexivity|].
        rewrite Ln, !length_app. cbn [length]. rewrite !length_app. cbn [length]. lia.
Qed.

Lemma linearized_short (l : list p4est_quadrant_t) :
  (length l <= 1)%nat -> linearized l = l /\ linearize_dropped l = [].
Proof.
  destruct l as [|a [|b t]]; cbn; intros H; try lia; split; reflexivity.
Qed.

(** The quadrants, the level counters and the pool after
    [p4est_linearize_subtree]. *)
Lemma linearize_subtree_quadrants (p4est : p4est_t) (tree : p4est_tree_t) :
  quadrants (snd (p4est_linearize_subtree p4est tree))
    = linearized (quadrants tree) /\
  quadrants_per_level (snd (p4est_linearize_subtree p4est tree))
    = per_level_drop (quadrants_per_level tree)
                     (linearize_dropped (quadrants tree)) /\
  fst (p4est_linearize_subtree p4est tree)
    = free_data_all p4est (linearize_dropped (quadrants tree)).
Proof.
  unfold p4est_linearize_subtree, elem_count.
  destruct (Z.leb_spec (Z.of_nat (length (quadrants tree))) 1) as [H|H].
  - destruct (linearized_short (quadrants tree) ltac:(lia)) as [E1 E2].
    rewrite E1, E2. cbn. repeat split; reflexivity.
  - destruct (quadrants tree) as [|c suffix] eqn:Q; [cbn in H; lia|].
    cbn [length] in *.
    replace (Z.to_nat (Z.of_nat (S (length suffix)) - 1)) with (length suffix) by lia.
    destruct (linearize_loop_spec suffix [] c [] p4est (quadrants_per_level tree) 0)
      as (arr' & cur' & E & Hc & F & Ln).
    cbn [app length Nat.add Z.of_nat Pos.of_succ_nat] in E. cbn [app] in F.
    change (Z.pos 1) with 1 in E. rewrite E.
    destruct (level_counters_loop _ 0 _ 0 0) as [maxl num].
    cbn [fst snd quadrants quadrants_per_level].
    split; [|split; reflexivity].
    unfold sc_array_resize. rewrite F.
    replace (Z.to_nat (cur' + 1) - length arr')%nat with 0%nat by lia.
    cbn [repeat]. apply app_nil_r.
Qed.


(* ================================================================= *)
(** ** Properties of the removal of ancestors *)

Lemma is_equal_inv (a b : p4est_quadrant_t) :
  p4est_quadrant_is_equal a b = true <-> same_xyl a b.
Proof.
  unfold p4est_quadrant_is_equal, same_xyl.
  rewrite !andb_true_iff, !Z.eqb_eq. tauto.
Qed.

Lemma is_equal_compare_zero (a b : p4est_quadrant_t) :
  p4est_quadrant_is_equal a b = true -> p4est_quadrant_compare a b = 0.
Proof.
  intros H. apply is_equal_inv in H. destruct H as (Ex & Ey & El).
  unfold p4est_quadrant_compare. rewrite Ex, Ey, El, !Z.lxor_nilpotent.
  cbn. lia.
Qed.

Lemma array_is_extended_cons (q : p4est_quadrant_t) (l : list p4est_quadrant_t) :
  array_is_extended (q :: l) = true <->
  p4est_quadrant_is_extended q = true /\ array_is_extended l = true.
Proof. unfold array_is_extended. cbn [forallb]. apply andb_true_iff. Qed.

Lemma tree_is_ordered_loop_strongly (q1 : p4est_quadrant_t)
  (rest : list p4est_quadrant_t) :
  array_in_band (q1 :: rest) = true ->
  tree_is_ordered_loop q1 rest = true ->
  StronglySorted quadrant_le (q1 :: rest).
Proof.
  revert q1. induction rest as [|q2 rest IH]; intros q1 B S.
  - constructor; constructor.
  - cbn [tree_is_ordered_loop] in S. apply andb_prop in S. destruct S as [C S].
    apply array_in_band_cons in B. destruct B as [B1 B].
    pose proof B as B'. apply array_in_band_cons in B'. destruct B' as [B2 _].
    specialize (IH q2 B S).
    assert (quadrant_le q1 q2) as L12 by (apply compare_le_iff; assumption || lia).
    constructor; [exact IH|].
    constructor; [exact L12|].
    apply StronglySorted_inv in IH. destruct IH as [_ F].
    rewrite Forall_forall in *. intros z Hz.
    apply (quadrant_le_trans q1 q2 z); auto.
Qed.

Lemma linearized_in (l : list p4est_quadrant_t) (e : p4est_quadrant_t) :
  In e (linearized l) -> In e l.
Proof.
  induction l as [|a [|b t] IH]; intros H; [exact H|exact H|].
  rewrite linearized_cons2 in H.
  destruct (p4est_quadrant_is_equal a b || p4est_quadrant_is_ancestor a b).
  - right. apply IH. exact H.
  - destruct H as [H|H]; [left; exact H|right; apply IH; exact H].
Qed.

Lemma linearized_nonempty (a : p4est_quadrant_t) (t : list p4est_quadrant_t) :
  linearized (a :: t) <> [].
Proof.
  revert a. induction t as [|b t IH]; intros a; [discriminate|].
  rewrite linearized_cons2.
  destruct (p4est_quadrant_is_equal a b || p4est_quadrant_is_ancestor a b);
    [apply IH|discriminate].
Qed.

Lemma quadrant_le_not_equal_lt (a b : p4est_quadrant_t) :
  quadrant_in_band a = true -> quadrant_in_band b = true ->
  quadrant_le a b -> p4est_quadrant_is_equal a b = false -> quadrant_lt a b.
Proof.
  intros Ia Ib L N.
  destruct (in_band_inv a Ia) as (_ & _ & Xa & Ya).
  destruct (in_band_inv b Ib) as (_ & _ & Xb & Yb).
  unfold quadrant_le in L. unfold quadrant_lt.
  destruct L as [L|[E L]]; [left; exact L|].
  destruct (Z.eq_dec (level a) (level b)) as [El|Nl]; [|right; lia].
  exfalso. destruct (morton_key_inj a b Xa Ya Xb Yb E) as [Ex Ey].
  assert (p4est_quadrant_is_equal a b = true) as T
    by (apply is_equal_inv; unfold same_xyl; tauto).
  congruence.
Qed.

(** On an array in non-decreasing order, the removal of ancestors leaves a
    linear array. *)
Lemma linearized_linear (l : list p4est_quadrant_t) :
  StronglySorted quadrant_le l ->
  array_in_band l = true -> array_is_extended l = true ->
  match linearized l with
  | [] => True
  | e :: r => tree_is_linear_loop e r = true
  end.
Proof.
  induction l as [|a [|b t] IH]; intros S B E; [exact I|reflexivity|].
  rewrite linearized_cons2.
  apply StronglySorted_inv in S. destruct S as [S Fa].
  apply array_in_band_cons in B. destruct B as [Ba B].
  apply array_is_extended_cons in E. destruct E as [Ea E].
  specialize (IH S B E).
  destruct (p4est_quadrant_is_equal a b || p4est_quadrant_is_ancestor a b) eqn:D;
    [exact IH|].
  destruct (linearized (b :: t)) as [|e r] eqn:Lz;
    [exfalso; exact (linearized_nonempty b t Lz)|].
  assert (In e (b :: t)) as Ie by (apply linearized_in; rewrite Lz; left; reflexivity).
  pose proof B as B'. apply array_in_band_cons in B'. destruct B' as [Bb _].
  pose proof E as E'. apply array_is_extended_cons in E'. destruct E' as [Eb _].
  assert (quadrant_in_band e = true) as Be.
  { unfold array_in_band in B. rewrite forallb_forall in B. apply B. exact Ie. }
  rewrite Forall_forall in Fa.
  assert (quadrant_le a b) as Lab by (apply Fa; left; reflexivity).
  assert (quadrant_le b e) as Lbe.
  { destruct Ie as [<-|Ie]; [unfold quadrant_le; lia|].
    apply StronglySorted_inv in S. destruct S as [_ Fb].
    rewrite Forall_forall in Fb. apply Fb. exact Ie. }
  apply orb_false_iff in D. destruct D as [Neq Nanc].
  assert (quadrant_lt a e) as Lae.
  { apply (quadrant_lt_le_trans a b e); [|exact Lbe].
    apply quadrant_le_not_equal_lt; assumption. }
  cbn [tree_is_linear_loop].
  apply compare_lt_iff in Lae; try assumption.
  destruct (Z.geb_spec (p4est_quadrant_compare a e) 0); [lia|].
  destruct (p4est_quadrant_is_ancestor a e) eqn:An; [|exact IH].
  exfalso.
  pose proof (between_ancestor_descendant a b e Ea Eb Ba Bb Be An Lab Lbe) as C.
  rewrite Neq, Nanc in C. discriminate.
Qed.

Lemma linear_loop_sorted (q1 : p4est_quadrant_t) (rest : list p4est_quadrant_t) :
  tree_is_linear_loop q1 rest = true -> tree_is_sorted_loop q1 rest = true.
Proof.
  revert q1. induction rest as [|q2 rest IH]; intros q1 H; [reflexivity|].
  cbn [tree_is_linear_loop tree_is_sorted_loop] in *.
  destruct (p4est_quadrant_compare q1 q2 >=? 0); [discriminate|].
  destruct (p4est_quadrant_is_ancestor q1 q2); [discriminate|].
  apply IH. exact H.
Qed.

(** A linear array has nothing to remove. *)
Lemma linearized_of_linear (q1 : p4est_quadrant_t) (rest : list p4est_quadrant_t) :
  tree_is_linear_loop q1 rest = true ->
  linearized (q1 :: rest) = q1 :: rest /\ linearize_dropped (q1 :: rest) = [].
Proof.
  revert q1. induction rest as [|q2 rest IH]; intros q1 H; [split; reflexivity|].
  cbn [tree_is_linear_loop] in H.
  rewrite linearized_cons2, linearize_dropped_cons2.
  destruct (Z.geb_spec (p4est_quadrant_compare q1 q2) 0) as [G|G]; [discriminate|].
  destruct (p4est_quadrant_is_ancestor q1 q2) eqn:A; [discriminate|].
  destruct (p4est_quadrant_is_equal q1 q2) eqn:Q.
  - apply is_equal_compare_zero in Q. lia.
  - cbn [orb]. destruct (IH q2 H) as [E1 E2]. rewrite E1, E2. split; reflexivity.
Qed.

Lemma uint64_succ_neq (i : Z) : (uint64 (i + 1) =? i) = false.
Proof.
  apply Z.eqb_neq. unfold uint64. intros E.
  pose proof (Z.div_mod (i + 1) (2 ^ 64) ltac:(lia)) as D. rewrite E in D.
  assert (2 ^ 64 * ((i + 1) / 2 ^ 64) = 1) as C by lia.
  assert (Z.divide (2 ^ 64) 1) as Dv by (exists ((i + 1) / 2 ^ 64); lia).
  apply Z.divide_1_r_nonneg in Dv; lia.
Qed.

Lemma is_next_not_equal_or_ancestor (a b : p4est_quadrant_t) :
  p4est_quadrant_is_next a b = true ->
  p4est_quadrant_is_equal a b || p4est_quadrant_is_ancestor a b = false.
Proof.
  intros N. apply orb_false_iff. split.
  - destruct (p4est_quadrant_is_equal a b) eqn:Q; [|reflexivity].
    apply is_equal_inv in Q. destruct Q as (Ex & Ey & El).
    unfold p4est_quadrant_is_next in N.
    destruct (Z.gtb_spec (level a) (level b)); [lia|]. cbn [andb] in N.
    unfold p4est_quadrant_linear_id in N. rewrite Ex, Ey in N.
    rewrite uint64_succ_neq in N. discriminate.
  - destruct (p4est_quadrant_is_ancestor a b) eqn:A; [|reflexivity].
    unfold p4est_quadrant_is_ancestor in A.
    destruct (Z.geb_spec (level a) (level b)); [discriminate|].
    apply andb_prop in A. destruct A as [Ax Ay]. apply Z.eqb_eq in Ax, Ay.
    rewrite Z.shiftr_lxor in Ax, Ay. apply Z.lxor_eq in Ax, Ay.
    unfold p4est_quadrant_is_next in N.
    destruct (Z.gtb_spec (level a) (level b)); [lia|]. cbn [andb] in N.
    unfold p4est_quadrant_linear_id in N. rewrite Ax, Ay in N.
    rewrite uint64_succ_neq in N. discriminate.
Qed.

(** A complete array has nothing to remove. *)
Lemma linearized_of_complete (q1 : p4est_quadrant_t) (rest : list p4est_quadrant_t) :
  tree_is_complete_loop q1 rest = true ->
  linearized (q1 :: rest) = q1 :: rest /\ linearize_dropped (q1 :: rest) = [].
Proof.
  revert q1. induction rest as [|q2 rest IH]; intros q1 H; [split; reflexivity|].
  cbn [tree_is_complete_loop] in H.
  rewrite linearized_cons2, linearize_dropped_cons2.
  destruct (p4est_quadrant_is_next q1 q2) eqn:N; [|discriminate]. cbn [negb] in H.
  rewrite (is_next_not_equal_or_ancestor q1 q2 N).
  destruct (IH q2 H) as [E1 E2]. rewrite E1, E2. split; reflexivity.
Qed.

(** The loop over the level counters finds the highest populated level. *)
Lemma level_counters_loop_spec (per_level : list Z) (n : nat) :
  forall i maxl num,
  0 <= i ->
  (forall j, 0 <= j < i -> per_level_get per_level j > 0 -> j <= maxl) ->
  ((maxl = 0 /\ forall j, 0 <= j < i -> per_level_get per_level j <= 0) \/
   (0 <= maxl < i /\ per_level_get per_level maxl > 0)) ->
  let m := fst (level_counters_loop n i per_level maxl num) in
  (forall j, 0 <= j < i + Z.of_nat n -> per_level_get per_level j > 0 -> j <= m) /\
  ((m = 0 /\ forall j, 0 <= j < i + Z.of_nat n -> per_level_get per_level j <= 0) \/
   (0 <= m < i + Z.of_nat n /\ per_level_get per_level m > 0)).
Proof.
  induction n as [|n IH]; intros i maxl num Hi U W.
  - cbn [level_counters_loop fst]. rewrite Z.add_0_r. split; assumption.
  - cbn [level_counters_loop]. cbv zeta.
    replace (i + Z.of_nat (S n)) with ((i + 1) + Z.of_nat n) by lia.
    apply IH; [lia| |].
    + intros j Hj P.
      destruct (Z.gtb_spec (per_level_get per_level i) 0).
      * lia.
      * destruct (Z.eq_dec j i) as [->|]; [lia|]. apply U; [lia|exact P].
    + destruct (Z.gtb_spec (per_level_get per_level i) 0).
      * right. split; lia.
      * destruct W as [[-> Z0]|[R P]].
        -- left. split; [reflexivity|]. intros j Hj.
           destruct (Z.eq_dec j i) as [->|]; [lia|]. apply Z0. lia.
        -- right. split; [lia|exact P].
Qed.

Lemma level_counters_highest (per_level : list Z) :
  highest_populated per_level
    (fst (level_counters_loop (Z.to_nat (P4EST_MAXLEVEL + 1)) 0 per_level 0 0)).
Proof.
  pose proof (level_counters_loop_spec per_level (Z.to_nat (P4EST_MAXLEVEL + 1))
                0 0 0 ltac:(lia)) as H.
  cbv zeta in H.
  destruct H as [U W].
  - intros j Hj. lia.
  - left. split; [reflexivity|]. intros j Hj. lia.
  - unfold highest_populated. unfold P4EST_MAXLEVEL in *. split.
    + intros i Hi. apply U. lia.
    + destruct W as [[E Z0]|[R P]]; [left|right].
      * split; [exact E|]. intros i Hi. apply Z0. lia.
      * split; [lia|exact P].
Qed.

Lemma linearize_subtree_maxlevel (p4est : p4est_t) (tree : p4est_tree_t) :
  1 < elem_count (quadrants tree) ->
  highest_populated
    (quadrants_per_level (snd (p4est_linearize_subtree p4est tree)))
    (maxlevel (snd (p4est_linearize_subtree p4est tree))).
Proof.
  intros H. unfold p4est_linearize_subtree.
  destruct (Z.leb_spec (elem_count (quadrants tree)) 1); [lia|].
  destruct (linearize_loop _ _ _ _ _ _ _) as [[[[p' arr'] pl'] cur'] rem'].
  pose proof (level_counters_highest pl') as HP.
  destruct (level_counters_loop _ 0 pl' 0 0) as [maxl num].
  cbn [fst snd quadrants_per_level maxlevel] in *.
  assert (0 <= maxl <= P4EST_MAXLEVEL) as R.
  { destruct HP as [_ [[-> _]|[R _]]]; [unfold P4EST_MAXLEVEL; lia|exact R]. }
  rewrite int8_small by (unfold P4EST_MAXLEVEL in R; lia). exact HP.
Qed.

(** *** C4: linearization of a tree *)

(** C4, as stated, fails on two inputs that pass the assertion
    [p4est_tree_is_almost_sorted (tree, 0)].  The root followed by its first
    child is not complete, but the output, the child alone, is complete.
    Two quadrants outside the same corner of the root, in descending order,
    are returned as they are, and that output is not sorted. *)
Lemma linearize_subtree_counterexample :
  let p4est := mkp4est 0 None (mkpool 0 0) in
  let tree1 :=
    mktree [mkquad 0 0 0 (user_data NULL); mkquad 0 0 1 (user_data NULL)]
           ([1; 1] ++ repeat 0 28) 1 in
  let tree2 :=
    mktree [mkquad (- 2 ^ 28) (- 2 ^ 28) 1 (user_data NULL);
            mkquad (- 2 ^ 29) (- 2 ^ 29) 1 (user_data NULL)]
           ([0; 2] ++ repeat 0 28) 1 in
  (p4est_tree_is_almost_sorted tree1 false = true /\
   p4est_tree_is_complete tree1 = false /\
   p4est_tree_is_complete (snd (p4est_linearize_subtree p4est tree1)) = true) /\
  (p4est_tree_is_almost_sorted tree2 false = true /\
   p4est_tree_is_sorted (snd (p4est_linearize_subtree p4est tree2)) = false).
Proof.
  cbv zeta. repeat split; vm_compute; reflexivity.
Qed.

Lemma linearize_result_tree (p4est : p4est_t) (tree : p4est_tree_t)
  (e : p4est_quadrant_t) (r : list p4est_quadrant_t) :
  linearized (quadrants tree) = e :: r ->
  p4est_tree_is_linear (snd (p4est_linearize_subtree p4est tree))
    = tree_is_linear_loop e r /\
  p4est_tree_is_sorted (snd (p4est_linearize_subtree p4est tree))
    = tree_is_sorted_loop e r.
Proof.
  intros E. unfold p4est_tree_is_linear, p4est_tree_is_sorted.
  destruct (linearize_subtree_quadrants p4est tree) as (Q & _ & _).
  rewrite Q, E. split; reflexivity.
Qed.

Lemma highest_populated_unique (per_level : list Z) (m m' : Z) :
  highest_populated per_level m -> highest_populated per_level m' -> m = m'.
Proof.
  intros [U [[E Z0]|[R P]]] [U' [[E' Z0']|[R' P']]].
  - lia.
  - specialize (Z0 m' R'). lia.
  - specialize (Z0' m R). lia.
  - specialize (U m' R' P'). specialize (U' m R P). lia.
Qed.

Lemma linearize_subtree_short (p4est : p4est_t) (tree : p4est_tree_t) :
  elem_count (quadrants tree) <= 1 ->
  p4est_linearize_subtree p4est tree = (p4est, tree).
Proof.
  intros H. unfold p4est_linearize_subtree.
  destruct (Z.leb_spec (elem_count (quadrants tree)) 1); [reflexivity|lia].
Qed.

(** C4, amended: applied to an almost-sorted tree of extended quadrants of
    the band in which the neighbours outside the same corner of the root are
    not in descending order either, [p4est_linearize_subtree] yields a tree
    that is sorted and linear; [maxlevel] is the highest level with a
    positive counter afterwards (rebuilt when the input has more than one
    quadrant; a shorter input is returned as it is and keeps this if it had
    it); an input that is sorted and linear keeps its quadrants, its
    counters and the pools, and it is returned unchanged as a whole when
    its [maxlevel] agreed with its counters or it has at most one quadrant;
    and a complete input keeps its quadrants and stays complete (an
    incomplete input may become complete). *)
Theorem linearize_subtree_correct (p4est : p4est_t) (tree : p4est_tree_t) :
  array_in_band (quadrants tree) = true ->
  array_is_extended (quadrants tree) = true ->
  p4est_tree_is_almost_sorted tree false = true ->
  tree_is_ordered tree = true ->
  let tree' := snd (p4est_linearize_subtree p4est tree) in
  p4est_tree_is_sorted tree' = true /\
  p4est_tree_is_linear tree' = true /\
  (1 < elem_count (quadrants tree) \/
   highest_populated (quadrants_per_level tree) (maxlevel tree) ->
   highest_populated (quadrants_per_level tree') (maxlevel tree')) /\
  (p4est_tree_is_linear tree = true ->
   quadrants tree' = quadrants tree /\
   quadrants_per_level tree' = quadrants_per_level tree /\
   fst (p4est_linearize_subtree p4est tree) = p4est /\
   (elem_count (quadrants tree) <= 1 \/
    highest_populated (quadrants_per_level tree) (maxlevel tree) ->
    tree' = tree)) /\
  (p4est_tree_is_complete tree = true ->
   quadrants tree' = quadrants tree /\ p4est_tree_is_complete tree' = true).
Proof.
  intros B E _ O tree'.
  destruct (linearize_subtree_quadrants p4est tree) as (Q & PL & FD).
  fold tree' in Q, PL.
  assert (p4est_tree_is_linear tree' = true) as Lin.
  { unfold p4est_tree_is_linear. rewrite Q.
    destruct (quadrants tree) as [|q1 rest] eqn:Eq; [reflexivity|].
    pose proof (linearized_linear (q1 :: rest)
                  (tree_is_ordered_loop_strongly q1 rest B
                     ltac:(unfold tree_is_ordered in O; rewrite Eq in O; exact O))
                  B E) as L.
    destruct (linearized (q1 :: rest)); [reflexivity|exact L]. }
  assert (1 < elem_count (quadrants tree) \/
          highest_populated (quadrants_per_level tree) (maxlevel tree) ->
          highest_populated (quadrants_per_level tree') (maxlevel tree')) as HP.
  { intros [H|H]; [apply linearize_subtree_maxlevel; exact H|].
    destruct (Z.leb_spec (elem_count (quadrants tree)) 1) as [S|S].
    - unfold tree'. rewrite (linearize_subtree_short p4est tree S). exact H.
    - apply linearize_subtree_maxlevel. exact S. }
  split; [|split; [exact Lin|split; [exact HP|split]]].
  - unfold p4est_tree_is_linear in Lin. unfold p4est_tree_is_sorted.
    destruct (quadrants tree'); [reflexivity|]. apply linear_loop_sorted. exact Lin.
  - intros L.
    assert (quadrants tree' = quadrants tree /\
            quadrants_per_level tree' = quadrants_per_level tree /\
            fst (p4est_linearize_subtree p4est tree) = p4est) as (K1 & K2 & K3).
    { unfold p4est_tree_is_linear in L.
      destruct (quadrants tree) as [|q1 rest] eqn:Eq.
      + rewrite Q, PL, FD. cbn. repeat split; reflexivity.
      + destruct (linearized_of_linear q1 rest L) as [E1 E2].
        rewrite Q, PL, FD, E1, E2. cbn. repeat split; reflexivity. }
    split; [exact K1|]. split; [exact K2|]. split; [exact K3|].
    intros [S|H].
    + unfold tree'. rewrite (linearize_subtree_short p4est tree S). reflexivity.
    + pose proof (HP (or_intror H)) as H'. rewrite K2 in H'.
      pose proof (highest_populated_unique _ _ _ H' H) as K4.
      clearbody tree'. destruct tree' as [qs' pl' m'], tree as [qs pl m].
      cbn [quadrants quadrants_per_level maxlevel] in K1, K2, K4.
      rewrite K1, K2, K4. reflexivity.
  - intros C. unfold p4est_tree_is_complete in *. rewrite Q.
    destruct (quadrants tree) as [|q1 rest] eqn:Eq.
    + cbn. split; reflexivity.
    + destruct (linearized_of_complete q1 rest C) as [E1 E2].
      rewrite E1. split; [reflexivity|exact C].
Qed.

Lemma linearize_subtree_correct_witness :
  let p4est := mkp4est 0 None (mkpool 0 0) in
  let tree :=
    mktree [mkquad 0 0 0 (user_data NULL); mkquad 0 0 1 (user_data NULL);
            mkquad (2 ^ 28) 0 1 (user_data NULL)]
           ([1; 2] ++ repeat 0 28) 1 in
  p4est_tree_is_sorted (snd (p4est_linearize_subtree p4est tree)) = true /\
  p4est_tree_is_linear (snd (p4est_linearize_subtree p4est tree)) = true.
Proof.
  cbv zeta.
  pose proof (linearize_subtree_correct (mkp4est 0 None (mkpool 0 0))
    (mktree [mkquad 0 0 0 (user_data NULL); mkquad 0 0 1 (user_data NULL);
             mkquad (2 ^ 28) 0 1 (user_data NULL)]
            ([1; 2] ++ repeat 0 28) 1)
    ltac:(vm_compute; reflexivity) ltac:(vm_compute; reflexivity)
    ltac:(vm_compute; reflexivity) ltac:(vm_compute; reflexivity)) as H.
  cbv zeta in H. destruct H as (S & L & _). split; [exact S|exact L].
Defined.


(* ================================================================= *)
(** ** Completion and balance: trees that are left alone *)

Lemma first_inside_loop_none (l : list p4est_quadrant_t) (i : Z) :
  existsb p4est_quadrant_is_inside l = false -> first_inside_loop l i = None.
Proof.
  revert i. induction l as [|q l IH]; intros i H; [reflexivity|].
  cbn [existsb first_inside_loop] in *.
  apply orb_false_iff in H. destruct H as [Hq Hl].
  rewrite Hq. apply IH. exact Hl.
Qed.

Lemma first_inside_loop_some (l : list p4est_quadrant_t) (i j : Z)
  (q : p4est_quadrant_t) :
  first_inside_loop l i = Some (j, q) ->
  In q l /\ p4est_quadrant_is_inside q = true.
Proof.
  revert i. induction l as [|a l IH]; intros i H; [discriminate|].
  cbn [first_inside_loop] in H.
  destruct (p4est_quadrant_is_inside a) eqn:Ia.
  - inversion H; subst. split; [left; reflexivity|exact Ia].
  - destruct (IH _ H) as [I1 I2]. split; [right; exact I1|exact I2].
Qed.




(* ================================================================= *)
(** ** Sorting, removal of ancestors and the merge of the output lists *)

Lemma array_in_band_forall (l : list p4est_quadrant_t) :
  array_in_band l = true <-> (forall e, In e l -> quadrant_in_band e = true).
Proof. unfold array_in_band. apply forallb_forall. Qed.

Lemma array_is_extended_forall (l : list p4est_quadrant_t) :
  array_is_extended l = true <->
  (forall e, In e l -> p4est_quadrant_is_extended e = true).
Proof. unfold array_is_extended. apply forallb_forall. Qed.

Lemma sort_insert_perm (compar : p4est_quadrant_t -> p4est_quadrant_t -> Z)
  (a : p4est_quadrant_t) (l : list p4est_quadrant_t) :
  Permutation (sort_insert compar a l) (a :: l).
Proof.
  induction l as [|b t IH]; cbn [sort_insert]; [reflexivity|].
  destruct (compar a b <=? 0); [reflexivity|].
  rewrite IH. apply perm_swap.
Qed.

Lemma sc_array_sort_perm (compar : p4est_quadrant_t -> p4est_quadrant_t -> Z)
  (l : list p4est_quadrant_t) :
  Permutation (sc_array_sort l compar) l.
Proof.
  unfold sc_array_sort. induction l as [|a t IH]; cbn [fold_right]; [reflexivity|].
  rewrite sort_insert_perm. constructor. exact IH.
Qed.

Lemma sort_insert_sorted (a : p4est_quadrant_t) (l : list p4est_quadrant_t) :
  quadrant_in_band a = true -> array_in_band l = true ->
  StronglySorted quadrant_le l ->
  StronglySorted quadrant_le (sort_insert p4est_quadrant_compare a l).
Proof.
  intros Ba Bl S. induction S as [|b t S IH Hb]; cbn [sort_insert].
  - constructor; constructor.
  - apply array_in_band_cons in Bl. destruct Bl as [Bb Bt].
    destruct (Z.leb_spec (p4est_quadrant_compare a b) 0) as [C|C].
    + apply compare_le_iff in C; try assumption.
      constructor; [constructor; assumption|].
      constructor; [exact C|].
      rewrite Forall_forall in *. intros e He.
      apply quadrant_le_trans with b; [exact C|apply Hb; exact He].
    + assert (quadrant_le b a) as Lba.
      { destruct (quadrant_le_total a b) as [L|L].
        - apply compare_le_iff in L; try assumption. lia.
        - apply quadrant_lt_le. exact L. }
      constructor; [apply IH; exact Bt|].
      rewrite Forall_forall in *. intros e He.
      apply (Permutation_in _ (sort_insert_perm _ a t)) in He.
      destruct He as [<-|He]; [exact Lba|apply Hb; exact He].
Qed.

Lemma sc_array_sort_in_band (l : list p4est_quadrant_t) :
  array_in_band l = true ->
  array_in_band (sc_array_sort l p4est_quadrant_compare) = true.
Proof.
  rewrite !array_in_band_forall. intros B e He. apply B.
  apply (Permutation_in _ (sc_array_sort_perm p4est_quadrant_compare l)). exact He.
Qed.

Lemma sc_array_sort_sorted (l : list p4est_quadrant_t) :
  array_in_band l = true ->
  StronglySorted quadrant_le (sc_array_sort l p4est_quadrant_compare).
Proof.
  induction l as [|a t IH]; intros B; [constructor|].
  apply array_in_band_cons in B. destruct B as [Ba Bt].
  change (sc_array_sort (a :: t) p4est_quadrant_compare)
    with (sort_insert p4est_quadrant_compare a
            (sc_array_sort t p4est_quadrant_compare)).
  apply sort_insert_sorted; [exact Ba|apply sc_array_sort_in_band; exact Bt|].
  apply IH. exact Bt.
Qed.

(** An ancestor comes strictly before its descendants. *)
Lemma ancestor_lt (a e : p4est_quadrant_t) :
  p4est_quadrant_is_extended a = true ->
  quadrant_in_band a = true -> quadrant_in_band e = true ->
  p4est_quadrant_is_ancestor a e = true -> quadrant_lt a e.
Proof.
  intros Ea Ba Be An.
  destruct (in_band_inv a Ba) as (_ & _ & Xa & Ya).
  destruct (in_band_inv e Be) as (_ & _ & Xe & Ye).
  apply is_ancestor_iff_interval in An; try assumption.
  unfold quadrant_lt. lia.
Qed.

(** In a sorted array the removal of ancestors leaves no quadrant that is
    an ancestor of a quadrant of the array. *)
Lemma linearized_no_ancestor (l : list p4est_quadrant_t) :
  array_in_band l = true -> array_is_extended l = true ->
  StronglySorted quadrant_le l ->
  forall a e, In a (linearized l) -> In e l ->
  p4est_quadrant_is_ancestor a e = true -> False.
Proof.
  induction l as [|c [|b t] IH]; intros B E S a e Ha He An.
  - destruct Ha.
  - destruct Ha as [<-|[]]. destruct He as [<-|[]].
    unfold p4est_quadrant_is_ancestor in An.
    destruct (Z.geb_spec (level c) (level c)); [discriminate|lia].
  - pose proof B as B0. pose proof E as E0.
    apply array_in_band_cons in B. destruct B as [Bc Bt].
    apply array_is_extended_cons in E. destruct E as [Ec Et].
    inversion S as [|c' t' St Fc]; subst.
    rewrite Forall_forall in Fc.
    assert (In a (linearized (b :: t)) -> False) as Tail.
    { intros Ha'. destruct He as [<-|He].
      - pose proof (linearized_in _ _ Ha') as Ia.
        pose proof (Fc a Ia) as Lca.
        rewrite array_in_band_forall in Bt.
        rewrite array_is_extended_forall in Et.
        pose proof (ancestor_lt a c (Et a Ia) (Bt a Ia) Bc An) as Lac.
        unfold quadrant_le, quadrant_lt in *. lia.
      - exact (IH Bt Et St a e Ha' He An). }
    rewrite linearized_cons2 in Ha.
    destruct (p4est_quadrant_is_equal c b || p4est_quadrant_is_ancestor c b) eqn:D.
    + exact (Tail Ha).
    + destruct Ha as [<-|Ha]; [|exact (Tail Ha)].
      destruct He as [<-|He].
      * unfold p4est_quadrant_is_ancestor in An.
        destruct (Z.geb_spec (level c) (level c)); [discriminate|lia].
      * apply array_in_band_cons in Bt. destruct Bt as [Bb Bt].
        apply array_is_extended_cons in Et. destruct Et as [Eb Et].
        assert (quadrant_in_band e = true) as Be.
        { rewrite array_in_band_forall in B0. apply B0. right. exact He. }
        assert (quadrant_le b e) as Lbe.
        { destruct He as [<-|He]; [unfold quadrant_le; lia|].
          inversion St as [|b' t' _ Fb]; subst.
          rewrite Forall_forall in Fb. apply Fb. exact He. }
        pose proof (between_ancestor_descendant c b e Ec Eb Bc Bb Be An
                      (Fc b (or_introl eq_refl)) Lbe) as K.
        congruence.
Qed.

(** ** The merge *)

Lemma init_data_xyl (p4est : p4est_t) (q : p4est_quadrant_t) :
  same_xyl (snd (p4est_quadrant_init_data p4est q)) q.
Proof.
  unfold p4est_quadrant_init_data, same_xyl.
  destruct (data_size p4est >? 0); [|cbn; auto].
  destruct (user_data_pool p4est) as [pool|]; [|cbn; auto].
  destruct (sc_mempool_alloc pool). cbn. auto.
Qed.

Lemma merge_outlist_spec (ol : list p4est_quadrant_t) :
  forall l p4est inlist per_level merged,
  exists add,
    snd (fst (fst (merge_outlist ol l p4est inlist per_level merged)))
      = inlist ++ add /\
    (forall q, In q add ->
       exists e, In e ol /\ p4est_quadrant_is_inside e = true /\ same_xyl q e) /\
    (forall e, In e ol -> p4est_quadrant_is_inside e = true -> In_xyl e add).
Proof.
  induction ol as [|qa ol IH]; intros l p4est inlist per_level merged.
  - exists []. cbn. rewrite app_nil_r. split; [reflexivity|].
    split; intros ? [].
  - cbn [merge_outlist]. destruct (p4est_quadrant_is_inside qa) eqn:I.
    + pose proof (init_data_xyl p4est qa) as X.
      destruct (p4est_quadrant_init_data p4est qa) as [p4est1 q1]. cbn [snd] in X.
      destruct (IH l (qpool_free p4est1) (inlist ++ [q1])
                   (per_level_add per_level l 1) true) as (add & E & A1 & A2).
      exists (q1 :: add). rewrite E, <- app_assoc. split; [reflexivity|]. split.
      * intros q [<-|Hq].
        -- exists qa. split; [left; reflexivity|]. split; assumption.
        -- destruct (A1 q Hq) as (e & He & Ie & Xe).
           exists e. split; [right; exact He|]. split; assumption.
      * intros e [<-|He] Ie.
        -- exists q1. split; [left; reflexivity|exact X].
        -- destruct (A2 e He Ie) as (e' & He' & Xe').
           exists e'. split; [right; exact He'|exact Xe'].
    + destruct (IH l (qpool_free p4est) inlist per_level merged)
        as (add & E & A1 & A2).
      exists add. split; [exact E|]. split.
      * intros q Hq. destruct (A1 q Hq) as (e & He & Ie & Xe).
        exists e. split; [right; exact He|]. split; assumption.
      * intros e [<-|He] Ie; [congruence|]. apply A2; assumption.
Qed.

Lemma merge_levels_spec (n : nat) (outlist : list (list p4est_quadrant_t)) :
  forall l p4est inlist per_level maxl, 0 <= l ->
  exists add,
    snd (fst (fst (merge_levels n l outlist p4est inlist per_level maxl)))
      = inlist ++ add /\
    (forall q, In q add ->
       exists k e, l <= k < l + Z.of_nat n /\ In e (level_list outlist k) /\
                   p4est_quadrant_is_inside e = true /\ same_xyl q e) /\
    (forall k e, l <= k < l + Z.of_nat n -> In e (level_list outlist k) ->
       p4est_quadrant_is_inside e = true -> In_xyl e add).
Proof.
  induction n as [|n IH]; intros l p4est inlist per_level maxl Hl.
  - exists []. cbn [merge_levels fst snd]. rewrite app_nil_r.
    split; [reflexivity|]. split; [intros ? []|]. intros k e Hk. lia.
  - cbn [merge_levels].
    destruct (merge_outlist_spec (level_list outlist l) l p4est inlist
                per_level false) as (add1 & E1 & A1 & A2).
    destruct (merge_outlist (level_list outlist l) l p4est inlist per_level false)
      as [[[p1 in1] pl1] mg1].
    cbn [fst snd] in E1. subst in1.
    destruct (IH (l + 1) p1 (inlist ++ add1) pl1
                 (if mg1 && (l >? maxl) then int8 l else maxl) ltac:(lia))
      as (add2 & E2 & B1 & B2).
    exists (add1 ++ add2). rewrite E2, <- app_assoc. split; [reflexivity|]. split.
    + intros q Hq. apply in_app_or in Hq. destruct Hq as [Hq|Hq].
      * destruct (A1 q Hq) as (e & He & Ie & Xe).
        exists l, e. split; [lia|]. split; [exact He|]. split; assumption.
      * destruct (B1 q Hq) as (k & e & Hk & He & Ie & Xe).
        exists k, e. split; [lia|]. split; [exact He|]. split; assumption.
    + intros k e Hk He Ie.
      destruct (Z.eq_dec k l) as [->|Nk].
      * destruct (A2 e He Ie) as (e' & He' & Xe').
        exists e'. split; [apply in_or_app; left; exact He'|exact Xe'].
      * destruct (B2 k e ltac:(lia) He Ie) as (e' & He' & Xe').
        exists e'. split; [apply in_or_app; right; exact He'|exact Xe'].
Qed.


(* ================================================================= *)
(** ** Stage 2 of the balance loop *)

Lemma list_set_length {A : Type} (l : list A) (i : nat) (v : A) :
  length (list_set l i v) = length l.
Proof.
  revert i. induction l as [|h t IH]; intros [|i]; cbn; try reflexivity.
  rewrite IH. reflexivity.
Qed.

Lemma list_set_nth_same {A : Type} (l : list A) (i : nat) (v d : A) :
  (i < length l)%nat -> nth i (list_set l i v) d = v.
Proof.
  revert i. induction l as [|h t IH]; intros [|i] H; cbn in *; try lia.
  - reflexivity.
  - apply IH. lia.
Qed.

Lemma list_set_nth_other {A : Type} (l : list A) (i j : nat) (v d : A) :
  i <> j -> nth j (list_set l i v) d = nth j l d.
Proof.
  revert i j. induction l as [|h t IH]; intros [|i] [|j] H; cbn; try reflexivity.
  - lia.
  - apply IH. lia.
Qed.

Lemma list_set_beyond {A : Type} (l : list A) (i : nat) (v : A) :
  (length l <= i)%nat -> list_set l i v = l.
Proof.
  revert i. induction l as [|h t IH]; intros [|i] H; cbn in *; try reflexivity.
  - lia.
  - rewrite IH by lia. reflexivity.
Qed.

Lemma level_list_set_length (ll : list (list p4est_quadrant_t)) (l : Z)
  (v : list p4est_quadrant_t) :
  length (level_list_set ll l v) = length ll.
Proof.
  unfold level_list_set. destruct (l <? 0); [reflexivity|apply list_set_length].
Qed.

Lemma level_list_set_same (ll : list (list p4est_quadrant_t)) (l : Z)
  (v : list p4est_quadrant_t) :
  0 <= l < Z.of_nat (length ll) ->
  level_list (level_list_set ll l v) l = v.
Proof.
  intros H. unfold level_list, level_list_set.
  destruct (Z.ltb_spec l 0); [lia|]. apply list_set_nth_same. lia.
Qed.

Lemma level_list_set_other (ll : list (list p4est_quadrant_t)) (l k : Z)
  (v : list p4est_quadrant_t) :
  0 <= k -> k <> l ->
  level_list (level_list_set ll l v) k = level_list ll k.
Proof.
  intros Hk N. unfold level_list, level_list_set.
  destruct (Z.ltb_spec l 0); [reflexivity|]. apply list_set_nth_other. lia.
Qed.

(** Extending the list of a level extends what is read at every level. *)
Lemma level_list_set_app (ll : list (list p4est_quadrant_t)) (l k : Z)
  (ext : list p4est_quadrant_t) :
  0 <= k ->
  exists ext', level_list (level_list_set ll l (level_list ll l ++ ext)) k
               = level_list ll k ++ ext' /\
               ((ext' = [] /\ ~ (k = l /\ 0 <= l < Z.of_nat (length ll))) \/
                (ext' = ext /\ k = l /\ 0 <= l < Z.of_nat (length ll))).
Proof.
  intros Hk. destruct (Z.eq_dec k l) as [->|N].
  - destruct (Z.lt_ge_cases l (Z.of_nat (length ll))) as [In|Out].
    + exists ext. rewrite level_list_set_same by lia. split; [reflexivity|].
      right. repeat split; lia.
    + exists []. unfold level_list_set. destruct (Z.ltb_spec l 0); [lia|].
      rewrite list_set_beyond by lia. rewrite app_nil_r. split; [reflexivity|].
      left. split; [reflexivity|lia].
  - exists []. rewrite level_list_set_other, app_nil_r by assumption.
    split; [reflexivity|left; split; [reflexivity|lia]].
Qed.

Lemma hash_lookup_some (hash : list p4est_quadrant_t) (c e : p4est_quadrant_t) :
  sc_hash_lookup hash c = Some e -> In e hash /\ same_xyl e c.
Proof.
  unfold sc_hash_lookup. intros F. apply find_some in F. destruct F as [I E].
  split; [exact I|]. apply is_equal_inv in E. unfold same_xyl in *. lia.
Qed.

Lemma hash_insert_unique_new (hash : list p4est_quadrant_t)
  (c c' : p4est_quadrant_t) :
  same_xyl c' c -> sc_hash_lookup hash c = None ->
  sc_hash_insert_unique hash c' = hash ++ [c'].
Proof.
  intros X N. unfold sc_hash_insert_unique.
  replace (sc_hash_lookup hash c') with (sc_hash_lookup hash c);
    [rewrite N; reflexivity|].
  unfold sc_hash_lookup, p4est_quadrant_is_equal.
  destruct X as (-> & -> & ->). reflexivity.
Qed.

Lemma window_drop_xyl (inmaxl : Z) (tf tl c c' : p4est_quadrant_t) :
  same_xyl c' c -> window_drop inmaxl tf tl c' = window_drop inmaxl tf tl c.
Proof.
  intros (Ex & Ey & El). unfold window_drop, p4est_quadrant_compare,
    p4est_quadrant_last_descendent, set_xyl.
  cbn [x y level]. rewrite Ex, Ey, El. reflexivity.
Qed.

Lemma is_inside_xyl (c c' : p4est_quadrant_t) :
  same_xyl c' c -> p4est_quadrant_is_inside c' = p4est_quadrant_is_inside c.
Proof.
  intros (Ex & Ey & El). unfold p4est_quadrant_is_inside. rewrite Ex, Ey. reflexivity.
Qed.

(** The outcomes of stage 2 on the candidate [c]: nothing is stored (the
    candidate is outside of the tree, already hashed, or in the input list),
    or the candidate is stored. *)
Lemma balance_stage2_cases (cx : balance_ctx) (sid : Z) (st : balance_state) :
  let c := bs_qalloc st in
  let r := balance_stage2 cx sid st in
  bs_parent (fst r) = bs_parent st /\ bs_ph (fst r) = bs_ph st /\
  bs_pid (fst r) = bs_pid st /\
  ((bs_hash (fst r) = bs_hash st /\ bs_outlist (fst r) = bs_outlist st /\
    bs_qalloc (fst r) = c /\
    ((snd r = false /\ p4est_quadrant_is_inside c = true /\
      window_drop (cx_inmaxl cx) (cx_tree_first cx) (cx_tree_last cx) c = true) \/
     (exists e, In e (level_list (bs_hash st) (level c)) /\ same_xyl e c /\
                snd r = (sid =? 4) && (p_user_data e =? parent_key)) \/
     (snd r = false /\
      sc_array_bsearch (cx_inlist cx) c p4est_quadrant_compare <> -1))) \/
   (snd r = false /\
    (p4est_quadrant_is_inside c = true ->
     window_drop (cx_inmaxl cx) (cx_tree_first cx) (cx_tree_last cx) c = false) /\
    stage2_stored sid c st (fst r))).
Proof.
  cbv zeta. unfold balance_stage2.
  fold (window_drop (cx_inmaxl cx) (cx_tree_first cx) (cx_tree_last cx)
          (bs_qalloc st)).
  destruct (p4est_quadrant_is_inside (bs_qalloc st)) eqn:I;
    destruct (window_drop (cx_inmaxl cx) (cx_tree_first cx) (cx_tree_last cx)
                (bs_qalloc st)) eqn:W; cbn [andb].
  1: { cbn [fst snd bs_parent bs_ph bs_pid bs_hash bs_outlist bs_qalloc].
       repeat split; try reflexivity. left. repeat split; try reflexivity.
       left. repeat split; reflexivity. }
  all: destruct (sc_hash_lookup (level_list (bs_hash st) (level (bs_qalloc st)))
                   (bs_qalloc st)) as [e|] eqn:F.
  all: try (apply hash_lookup_some in F; destruct F as [Ie Xe];
            destruct ((sid =? 4) && (p_user_data e =? parent_key)) eqn:Brk;
            cbn [fst snd bs_parent bs_ph bs_pid bs_hash bs_outlist bs_qalloc];
            repeat split; try reflexivity; left; repeat split; try reflexivity;
            right; left; exists e; rewrite Brk; repeat split;
            solve [assumption | apply Xe]).
  all: destruct (sc_array_bsearch (cx_inlist cx) (bs_qalloc st)
                   p4est_quadrant_compare =? -1) eqn:Bs; cbn [negb].
  all: try (apply Z.eqb_neq in Bs;
            cbn [fst snd bs_parent bs_ph bs_pid bs_hash bs_outlist bs_qalloc];
            repeat split; try reflexivity; left; repeat split; try reflexivity;
            right; right; split; [reflexivity|exact Bs]).
  all: unfold stage2_stored; destruct (sid =? 4);
       cbn [fst snd bs_parent bs_ph bs_pid bs_hash bs_outlist bs_qalloc
            level set_user_data];
       (split; [reflexivity|]); (split; [reflexivity|]); (split; [reflexivity|]);
       right; (split; [reflexivity|]); (split; [intros; congruence|]);
       (split; [|split; reflexivity]);
       (rewrite (hash_insert_unique_new _ (bs_qalloc st));
        [reflexivity|unfold same_xyl; cbn; auto|exact F]).
Qed.

Lemma level_list_set_in (ll : list (list p4est_quadrant_t)) (l k : Z)
  (ext : list p4est_quadrant_t) (e : p4est_quadrant_t) :
  0 <= k ->
  (In e (level_list (level_list_set ll l (level_list ll l ++ ext)) k) <->
   In e (level_list ll k) \/
   (In e ext /\ k = l /\ 0 <= l < Z.of_nat (length ll))).
Proof.
  intros Hk.
  destruct (level_list_set_app ll l k ext Hk)
    as (ext' & E & [(-> & N)|(-> & -> & R)]);
    rewrite E, in_app_iff; cbn [In]; tauto.
Qed.

Lemma stored_level (sid : Z) (c : p4est_quadrant_t) :
  level (if sid =? 4 then set_user_data c parent_key else c) = level c.
Proof. destruct (sid =? 4); reflexivity. Qed.

Lemma stored_xyl (sid : Z) (c : p4est_quadrant_t) :
  same_xyl (if sid =? 4 then set_user_data c parent_key else c) c.
Proof. destruct (sid =? 4); unfold same_xyl; cbn; auto. Qed.

Lemma balance_stage2_wf (cx : balance_ctx) (sid : Z) (st : balance_state) :
  balance_wf (cx_inmaxl cx) (cx_tree_first cx) (cx_tree_last cx) st ->
  balance_wf (cx_inmaxl cx) (cx_tree_first cx) (cx_tree_last cx)
             (fst (balance_stage2 cx sid st)).
Proof.
  intros [HL OL HO LV QA WD].
  destruct (balance_stage2_cases cx sid st) as (_ & _ & _ & C). cbv zeta in C.
  destruct C as [(Eh & Eo & Eq & _)|(_ & Wc & Sh & So & Sq)].
  - constructor; rewrite ?Eh, ?Eo, ?Eq; assumption.
  - constructor; rewrite ?Sh, ?So, ?Sq, ?level_list_set_length; try assumption.
    + intros l e Hl He. rewrite level_list_set_in in He |- * by exact Hl.
      rewrite HL in He. rewrite OL.
      destruct He as [He|He]; [left; apply HO; assumption|right; exact He].
    + intros l e Hl He. rewrite level_list_set_in in He by exact Hl.
      destruct He as [He|([<-|[]] & -> & _)]; [apply LV; assumption|].
      apply stored_level.
    + reflexivity.
    + intros l e Hl He Ie. rewrite level_list_set_in in He by exact Hl.
      destruct He as [He|([<-|[]] & -> & _)]; [apply (WD l); assumption|].
      rewrite (window_drop_xyl _ _ _ _ _ (stored_xyl sid (bs_qalloc st))).
      apply Wc. rewrite <- (is_inside_xyl _ _ (stored_xyl sid (bs_qalloc st))).
      exact Ie.
Qed.

Lemma outlist_ext_refl (st : balance_state) : outlist_ext st st.
Proof. intros l _. exists []. rewrite app_nil_r. reflexivity. Qed.

Lemma outlist_ext_trans (st1 st2 st3 : balance_state) :
  outlist_ext st1 st2 -> outlist_ext st2 st3 -> outlist_ext st1 st3.
Proof.
  intros H1 H2 l Hl. destruct (H1 l Hl) as (e1 & E1).
  destruct (H2 l Hl) as (e2 & E2). exists (e1 ++ e2).
  rewrite E2, E1, app_assoc. reflexivity.
Qed.

Lemma outlist_ext_eq (st st' : balance_state) :
  bs_outlist st' = bs_outlist st -> outlist_ext st st'.
Proof. intros E l _. exists []. rewrite E, app_nil_r. reflexivity. Qed.

Lemma outlist_ext_in (st st' : balance_state) (l : Z) (e : p4est_quadrant_t) :
  outlist_ext st st' -> 0 <= l ->
  In e (level_list (bs_outlist st) l) -> In e (level_list (bs_outlist st') l).
Proof.
  intros X Hl He. destruct (X l Hl) as (ext & E). rewrite E.
  apply in_or_app. left. exact He.
Qed.

Lemma balance_stage2_ext (cx : balance_ctx) (sid : Z) (st : balance_state) :
  outlist_ext st (fst (balance_stage2 cx sid st)).
Proof.
  destruct (balance_stage2_cases cx sid st) as (_ & _ & _ & C). cbv zeta in C.
  destruct C as [(Eh & Eo & Eq & _)|(_ & Wc & Sh & So & Sq)].
  - apply outlist_ext_eq. exact Eo.
  - intros l Hl. rewrite So.
    destruct (level_list_set_app (bs_outlist st) (level (bs_qalloc st)) l
                [if sid =? 4 then set_user_data (bs_qalloc st) parent_key
                 else bs_qalloc st] Hl) as (ext & E & _).
    exists ext. exact E.
Qed.

Lemma In_xyl_app (c : p4est_quadrant_t) (l ext : list p4est_quadrant_t) :
  In_xyl c l -> In_xyl c (l ++ ext).
Proof.
  intros (e & He & Xe). exists e. split; [apply in_or_app; left; exact He|exact Xe].
Qed.

Lemma covered_mono (inlist : list p4est_quadrant_t) (st st' : balance_state)
  (c : p4est_quadrant_t) :
  0 <= level c -> outlist_ext st st' ->
  covered inlist st c -> covered inlist st' c.
Proof.
  intros Hl X [H|H]; [left; exact H|right].
  destruct (X (level c) Hl) as (ext & E). rewrite E. apply In_xyl_app. exact H.
Qed.

Lemma nbr_candidate_level (A : p4est_quadrant_t) (k : Z) :
  level (nbr_candidate A k) = level A.
Proof. reflexivity. Qed.

Lemma nbr_candidate_xyl (P A : p4est_quadrant_t) (k : Z) :
  same_xyl P A -> nbr_candidate P k = nbr_candidate A k.
Proof.
  intros (Ex & Ey & El). unfold nbr_candidate, p4est_quadrant_child_id.
  rewrite Ex, Ey, El. reflexivity.
Qed.

Lemma nbrs_done_mono (inmaxl : Z) (tf tl : p4est_quadrant_t)
  (inlist : list p4est_quadrant_t) (st st' : balance_state)
  (A : p4est_quadrant_t) :
  0 <= level A -> outlist_ext st st' ->
  nbrs_done inmaxl tf tl inlist st A -> nbrs_done inmaxl tf tl inlist st' A.
Proof.
  intros Hl X D k Hk Ik Wk.
  apply (covered_mono inlist st st'); [rewrite nbr_candidate_level; exact Hl|exact X|].
  apply D; assumption.
Qed.

Lemma nbrs_done_xyl (inmaxl : Z) (tf tl : p4est_quadrant_t)
  (inlist : list p4est_quadrant_t) (st : balance_state)
  (P A : p4est_quadrant_t) :
  same_xyl P A ->
  nbrs_done inmaxl tf tl inlist st A -> nbrs_done inmaxl tf tl inlist st P.
Proof.
  intros X D k. rewrite (nbr_candidate_xyl P A k X). apply D.
Qed.

(** Stage 2 keeps what is known of the hashed parents; a parent stored by
    [sid = 4] is the one under treatment. *)
Lemma balance_stage2_parents (cx : balance_ctx) (sid : Z) (st : balance_state)
  (ex : option p4est_quadrant_t) :
  balance_wf (cx_inmaxl cx) (cx_tree_first cx) (cx_tree_last cx) st ->
  (sid = 4 -> match ex with Some A => same_xyl (bs_qalloc st) A | None => False end) ->
  parents_done (cx_inmaxl cx) (cx_tree_first cx) (cx_tree_last cx)
               (cx_inlist cx) st ex ->
  parents_done (cx_inmaxl cx) (cx_tree_first cx) (cx_tree_last cx)
               (cx_inlist cx) (fst (balance_stage2 cx sid st)) ex.
Proof.
  intros WF S4 PD.
  pose proof (balance_stage2_ext cx sid st) as X.
  destruct (balance_stage2_cases cx sid st) as (_ & _ & _ & C). cbv zeta in C.
  assert (forall l P, 0 <= l -> In P (level_list (bs_hash st) l) ->
            p_user_data P = parent_key -> p4est_quadrant_is_inside P = true ->
            match ex with Some A => same_xyl P A | None => False end \/
            nbrs_done (cx_inmaxl cx) (cx_tree_first cx) (cx_tree_last cx)
              (cx_inlist cx) (fst (balance_stage2 cx sid st)) P) as Old.
  { intros l P Hl HP K I. destruct (PD l P Hl HP K I) as [E|D]; [left; exact E|].
    right. apply (nbrs_done_mono _ _ _ _ st); [|exact X|exact D].
    rewrite (wf_level _ _ _ _ WF l P Hl (wf_hash_out _ _ _ _ WF l P Hl HP)).
    exact Hl. }
  destruct C as [(Eh & Eo & Eq & _)|(_ & Wc & Sh & So & Sq)].
  - intros l P Hl HP. rewrite Eh in HP. apply (Old l); assumption.
  - intros l P Hl HP K I. rewrite Sh, level_list_set_in in HP by exact Hl.
    destruct HP as [HP|([<-|[]] & -> & _)]; [apply (Old l); assumption|].
    destruct (Z.eqb_spec sid 4) as [->|N].
    + left. specialize (S4 eq_refl). destruct ex as [A|]; [|exact S4].
      destruct S4 as (Ex & Ey & El). unfold same_xyl. cbn. auto.
    + rewrite (wf_qalloc _ _ _ _ WF) in K. discriminate.
Qed.


(* ================================================================= *)
(** ** The loop over the siblings, the parent and its neighbors *)

(** A successful binary search returns the index of an element that
    compares equal to the key. *)
Lemma bsearch_loop_sound (fuel : nat) (array : list p4est_quadrant_t)
  (c : p4est_quadrant_t) (compar : p4est_quadrant_t -> p4est_quadrant_t -> Z) :
  forall l u, 0 <= l -> u <= elem_count array ->
  bsearch_loop fuel array c compar l u <> -1 ->
  0 <= bsearch_loop fuel array c compar l u < elem_count array /\
  compar c (sc_array_index array (bsearch_loop fuel array c compar l u)) = 0.
Proof.
  induction fuel as [|fuel IH]; intros l u Hl Hu N; cbn [bsearch_loop] in *.
  - congruence.
  - destruct (Z.ltb_spec l u) as [Lu|Lu]; [|congruence].
    assert (l <= (l + u) / 2 < u) as Mid.
    { split; [apply Z.div_le_lower_bound; lia|apply Z.div_lt_upper_bound; lia]. }
    destruct (Z.ltb_spec (compar c (sc_array_index array ((l + u) / 2))) 0).
    + apply IH; lia.
    + destruct (Z.gtb_spec (compar c (sc_array_index array ((l + u) / 2))) 0).
      * apply IH; lia.
      * split; lia.
Qed.

Lemma inside_in_band (c : p4est_quadrant_t) :
  p4est_quadrant_is_inside c = true -> quadrant_in_band c = true.
Proof.
  unfold p4est_quadrant_is_inside, quadrant_in_band, coord_in_band.
  change P4EST_ROOT_LEN with (2 ^ 29). intros H.
  apply andb_prop in H. destruct H as [Hx Hy].
  apply andb_prop in Hx. apply andb_prop in Hy.
  apply andb_true_iff. split; apply andb_true_iff; lia.
Qed.

Lemma same_xyl_sym (a b : p4est_quadrant_t) : same_xyl a b -> same_xyl b a.
Proof. unfold same_xyl. intros (-> & -> & ->). auto. Qed.

Lemma same_xyl_trans (a b c : p4est_quadrant_t) :
  same_xyl a b -> same_xyl b c -> same_xyl a c.
Proof. unfold same_xyl. intros (-> & -> & ->) (-> & -> & ->). auto. Qed.

(** A candidate inside the root and inside the tree is covered after
    stage 2. *)
Lemma balance_stage2_covered (cx : balance_ctx) (sid : Z) (st : balance_state) :
  balance_wf (cx_inmaxl cx) (cx_tree_first cx) (cx_tree_last cx) st ->
  array_in_band (cx_inlist cx) = true ->
  0 <= level (bs_qalloc st) <= cx_inmaxl cx ->
  p4est_quadrant_is_inside (bs_qalloc st) = true ->
  window_drop (cx_inmaxl cx) (cx_tree_first cx) (cx_tree_last cx)
              (bs_qalloc st) = false ->
  covered (cx_inlist cx) (fst (balance_stage2 cx sid st)) (bs_qalloc st).
Proof.
  intros WF B L I W.
  destruct (balance_stage2_cases cx sid st) as (_ & _ & _ & C). cbv zeta in C.
  destruct C as [(Eh & Eo & Eq & [(_ & _ & W')|[(e & He & Xe & _)|(_ & Bs)]])
                |(_ & Wc & Sh & So & Sq)].
  - congruence.
  - right. rewrite Eo. exists e. split; [|exact Xe].
    apply (wf_hash_out _ _ _ _ WF); [lia|exact He].
  - left. unfold sc_array_bsearch in Bs.
    destruct (bsearch_loop_sound _ _ _ _ 0 (elem_count (cx_inlist cx))
                (Z.le_refl 0) (Z.le_refl _) Bs) as [R Z0].
    set (idx := bsearch_loop _ _ _ _ _ _) in *.
    exists (sc_array_index (cx_inlist cx) idx).
    assert (In (sc_array_index (cx_inlist cx) idx) (cx_inlist cx)) as Hn.
    { unfold sc_array_index, elem_count in *. apply nth_In. lia. }
    split; [exact Hn|]. apply same_xyl_sym.
    apply compare_eq_iff; [apply inside_in_band; exact I| |exact Z0].
    rewrite array_in_band_forall in B. apply B. exact Hn.
  - right. rewrite So, level_list_set_same
      by (rewrite (wf_out_len _ _ _ _ WF); lia).
    exists (if sid =? 4 then set_user_data (bs_qalloc st) parent_key
            else bs_qalloc st).
    split; [apply in_or_app; right; left; reflexivity|apply stored_xyl].
Qed.

(** The loop over [sid] is left in stage 2 only for a parent that is hashed
    with [parent_key]. *)
Lemma balance_stage2_break (cx : balance_ctx) (sid : Z) (st : balance_state) :
  snd (balance_stage2 cx sid st) = true ->
  sid = 4 /\
  exists e, In e (level_list (bs_hash st) (level (bs_qalloc st))) /\
            same_xyl e (bs_qalloc st) /\ p_user_data e = parent_key.
Proof.
  intros Brk.
  destruct (balance_stage2_cases cx sid st) as (_ & _ & _ & C). cbv zeta in C.
  destruct C as [(Eh & Eo & Eq & [(F & _)|[(e & He & Xe & Eb)|(F & _)]])
                |(F & _)]; try congruence.
  rewrite Brk in Eb. symmetry in Eb. apply andb_prop in Eb.
  split; [lia|]. exists e. split; [exact He|]. split; [exact Xe|lia].
Qed.

(** What stage 2 adds is the candidate. *)
Lemma balance_stage2_adds (cx : balance_ctx) (sid : Z) (st : balance_state) :
  forall k, 0 <= k ->
  exists ext,
    level_list (bs_outlist (fst (balance_stage2 cx sid st))) k
      = level_list (bs_outlist st) k ++ ext /\
    forall e, In e ext -> k = level (bs_qalloc st) /\ same_xyl e (bs_qalloc st).
Proof.
  intros k Hk.
  destruct (balance_stage2_cases cx sid st) as (_ & _ & _ & C). cbv zeta in C.
  destruct C as [(Eh & Eo & Eq & _)|(_ & Wc & Sh & So & Sq)].
  - exists []. rewrite Eo, app_nil_r. split; [reflexivity|intros ? []].
  - rewrite So.
    destruct (level_list_set_app (bs_outlist st) (level (bs_qalloc st)) k
                [if sid =? 4 then set_user_data (bs_qalloc st) parent_key
                 else bs_qalloc st] Hk) as (ext & E & [(-> & _)|(-> & -> & _)]).
    + exists []. split; [exact E|intros ? []].
    + eexists. split; [exact E|]. intros e [<-|[]].
      split; [reflexivity|apply stored_xyl].
Qed.

Lemma balance_stage2_break_store (cx : balance_ctx) (sid : Z)
  (st : balance_state) :
  snd (balance_stage2 cx sid st) = true ->
  bs_hash (fst (balance_stage2 cx sid st)) = bs_hash st /\
  bs_outlist (fst (balance_stage2 cx sid st)) = bs_outlist st /\
  bs_qalloc (fst (balance_stage2 cx sid st)) = bs_qalloc st.
Proof.
  intros Brk.
  destruct (balance_stage2_cases cx sid st) as (_ & _ & _ & C). cbv zeta in C.
  destruct C as [(Eh & Eo & Eq & _)|(F & _)]; [|congruence].
  repeat split; assumption.
Qed.

(** The invariants read the hash tables, the output lists and the payload
    of the spare quadrant only. *)
Lemma balance_wf_store_eq (inmaxl : Z) (tf tl : p4est_quadrant_t)
  (st st' : balance_state) :
  bs_hash st' = bs_hash st -> bs_outlist st' = bs_outlist st ->
  p_user_data (bs_qalloc st') = key ->
  balance_wf inmaxl tf tl st -> balance_wf inmaxl tf tl st'.
Proof.
  intros Eh Eo Eq [HL OL HO LV QA WD].
  constructor; rewrite ?Eh, ?Eo; assumption.
Qed.

Lemma nbrs_done_store_eq (inmaxl : Z) (tf tl : p4est_quadrant_t)
  (inlist : list p4est_quadrant_t) (st st' : balance_state)
  (A : p4est_quadrant_t) :
  bs_outlist st' = bs_outlist st ->
  nbrs_done inmaxl tf tl inlist st A -> nbrs_done inmaxl tf tl inlist st' A.
Proof.
  intros Eo D k Hk I W. destruct (D k Hk I W) as [C|C]; [left; exact C|right].
  rewrite Eo. exact C.
Qed.

Lemma parents_done_store_eq (inmaxl : Z) (tf tl : p4est_quadrant_t)
  (inlist : list p4est_quadrant_t) (st st' : balance_state)
  (ex : option p4est_quadrant_t) :
  bs_hash st' = bs_hash st -> bs_outlist st' = bs_outlist st ->
  parents_done inmaxl tf tl inlist st ex ->
  parents_done inmaxl tf tl inlist st' ex.
Proof.
  intros Eh Eo PD l P Hl HP K I. rewrite Eh in HP.
  destruct (PD l P Hl HP K I) as [E|D]; [left; exact E|right].
  apply (nbrs_done_store_eq _ _ _ _ st); assumption.
Qed.

Lemma parents_done_weaken (inmaxl : Z) (tf tl : p4est_quadrant_t)
  (inlist : list p4est_quadrant_t) (st : balance_state)
  (A : p4est_quadrant_t) :
  parents_done inmaxl tf tl inlist st None ->
  parents_done inmaxl tf tl inlist st (Some A).
Proof.
  intros PD l P Hl HP K I. destruct (PD l P Hl HP K I) as [[]|D]. right. exact D.
Qed.

Lemma parents_done_close (inmaxl : Z) (tf tl : p4est_quadrant_t)
  (inlist : list p4est_quadrant_t) (st : balance_state)
  (A : p4est_quadrant_t) :
  (p4est_quadrant_is_inside A = true -> nbrs_done inmaxl tf tl inlist st A) ->
  parents_done inmaxl tf tl inlist st (Some A) ->
  parents_done inmaxl tf tl inlist st None.
Proof.
  intros DA PD l P Hl HP K I. right.
  destruct (PD l P Hl HP K I) as [X|D]; [|exact D].
  apply (nbrs_done_xyl _ _ _ _ _ P A X). apply DA.
  rewrite <- (is_inside_xyl _ _ X). exact I.
Qed.

Lemma adds_ok_store_eq (q : p4est_quadrant_t) (st st' : balance_state) :
  bs_outlist st' = bs_outlist st -> adds_ok q st st'.
Proof.
  intros Eo k Hk. exists []. rewrite Eo, app_nil_r.
  split; [reflexivity|intros ? []].
Qed.

Lemma adds_ok_trans (q : p4est_quadrant_t) (st1 st2 st3 : balance_state) :
  adds_ok q st1 st2 -> adds_ok q st2 st3 -> adds_ok q st1 st3.
Proof.
  intros H1 H2 k Hk. destruct (H1 k Hk) as (e1 & E1 & A1).
  destruct (H2 k Hk) as (e2 & E2 & A2). exists (e1 ++ e2).
  rewrite E2, E1, app_assoc. split; [reflexivity|].
  intros e He. apply in_app_or in He. destruct He; auto.
Qed.

Lemma adds_ok_ext (q : p4est_quadrant_t) (st st' : balance_state) :
  adds_ok q st st' -> outlist_ext st st'.
Proof.
  intros H k Hk. destruct (H k Hk) as (ext & E & _). exists ext. exact E.
Qed.

Lemma covered_xyl (inlist : list p4est_quadrant_t) (st : balance_state)
  (c c' : p4est_quadrant_t) :
  same_xyl c c' -> covered inlist st c -> covered inlist st c'.
Proof.
  intros X [(e & He & Xe)|(e & He & Xe)]; [left|right].
  - exists e. split; [exact He|]. apply same_xyl_trans with c; assumption.
  - destruct X as (Ex & Ey & El). rewrite <- El. exists e. split; [exact He|].
    apply same_xyl_trans with c; [exact Xe|]. unfold same_xyl. auto.
Qed.

(** *** Parents and siblings of aligned quadrants *)

Lemma lor_bit_aligned (c m : Z) :
  0 <= m -> Z.land c (2 ^ m - 1) = 0 ->
  Z.lor c (2 ^ m) = clear_low c (m + 1) + 2 ^ m.
Proof.
  intros Hm A.
  assert (Z.land (clear_low c (m + 1)) (2 ^ m) = 0) as D.
  { apply Z.bits_inj'. intros k Hk.
    rewrite Z.land_spec, clear_low_testbit, Z.pow2_bits_eqb, Z.testbit_0_l by lia.
    destruct (Z.leb_spec (m + 1) k), (Z.eqb_spec m k); try lia;
      cbn; rewrite ?andb_false_r; reflexivity. }
  rewrite Z.add_nocarry_lxor, Z.lxor_lor by exact D.
  apply Z.bits_inj'. intros k Hk.
  rewrite !Z.lor_spec, clear_low_testbit, Z.pow2_bits_eqb by lia.
  destruct (Z.leb_spec (m + 1) k), (Z.eqb_spec m k); try lia; cbn;
    rewrite ?orb_true_r, ?orb_false_r; try reflexivity.
  apply (aligned_low_bits c m k); try assumption; lia.
Qed.

Lemma aligned_mod (c m : Z) :
  0 <= m -> (Z.land c (2 ^ m - 1) = 0 <-> c mod 2 ^ m = 0).
Proof.
  intros Hm. change (2 ^ m - 1) with (Z.pred (2 ^ m)).
  rewrite <- Z.ones_equiv, Z.land_ones by lia. reflexivity.
Qed.

(** The parent of an aligned quadrant below the root in terms of the
    arithmetic of its corner. *)
Lemma parent_of_arith (q : p4est_quadrant_t) :
  p4est_quadrant_is_extended q = true -> 1 <= level q ->
  level (parent_of q) = level q - 1 /\
  x (parent_of q) = x q - x q mod (2 * P4EST_QUADRANT_LEN (level q)) /\
  y (parent_of q) = y q - y q mod (2 * P4EST_QUADRANT_LEN (level q)) /\
  P4EST_QUADRANT_LEN (level (parent_of q)) = 2 * P4EST_QUADRANT_LEN (level q) /\
  p4est_quadrant_is_extended (parent_of q) = true.
Proof.
  intros E L1. destruct (is_extended_inv q E) as (L & Ax & Ay).
  unfold P4EST_MAXLEVEL in *.
  assert (level (parent_of q) = level q - 1) as El.
  { unfold parent_of, p4est_quadrant_parent, set_xyl. cbn [level].
    apply int8_small. lia. }
  assert (2 * P4EST_QUADRANT_LEN (level q) = 2 ^ (29 - level q + 1)) as E2.
  { rewrite QUADRANT_LEN_pow by (unfold P4EST_MAXLEVEL; lia).
    unfold P4EST_MAXLEVEL. rewrite Z.pow_add_r by lia. lia. }
  assert (x (parent_of q) = clear_low (x q) (29 - level q + 1)) as Ex.
  { unfold parent_of, p4est_quadrant_parent, set_xyl. cbn [x].
    rewrite QUADRANT_LEN_pow by (unfold P4EST_MAXLEVEL; lia).
    apply clear_bit_aligned; [unfold P4EST_MAXLEVEL; lia|exact Ax]. }
  assert (y (parent_of q) = clear_low (y q) (29 - level q + 1)) as Ey.
  { unfold parent_of, p4est_quadrant_parent, set_xyl. cbn [y].
    rewrite QUADRANT_LEN_pow by (unfold P4EST_MAXLEVEL; lia).
    apply clear_bit_aligned; [unfold P4EST_MAXLEVEL; lia|exact Ay]. }
  split; [exact El|]. rewrite E2.
  split; [rewrite Ex; apply clear_low_eq; lia|].
  split; [rewrite Ey; apply clear_low_eq; lia|].
  split.
  - rewrite El, QUADRANT_LEN_pow by (unfold P4EST_MAXLEVEL; lia).
    unfold P4EST_MAXLEVEL. f_equal. lia.
  - unfold p4est_quadrant_is_extended. rewrite El, Ex, Ey.
    rewrite QUADRANT_LEN_pow by (unfold P4EST_MAXLEVEL; lia).
    unfold P4EST_MAXLEVEL.
    replace (29 - (level q - 1)) with (29 - level q + 1) by lia.
    rewrite !clear_low_is_aligned by lia.
    destruct (Z.geb_spec (level q - 1) 0), (Z.leb_spec (level q - 1) 29);
      try lia; reflexivity.
Qed.

Lemma parent_xyl (q r : p4est_quadrant_t) :
  same_xyl (p4est_quadrant_parent q r) (parent_of q).
Proof. unfold same_xyl, parent_of. cbn. auto. Qed.

(** A sibling is near the parent. *)
Lemma sibling_near_parent (q r : p4est_quadrant_t) (sid : Z) :
  p4est_quadrant_is_extended q = true -> 1 <= level q ->
  near_parent (parent_of q) (p4est_quadrant_sibling q r sid).
Proof.
  intros E L1. destruct (is_extended_inv q E) as (L & Ax & Ay).
  destruct (parent_of_arith q E L1) as (El & Ex & Ey & Eh & _).
  unfold near_parent.
  assert (level (p4est_quadrant_sibling q r sid) = level q) as Ls by reflexivity.
  rewrite Ls, El. split; [lia|].
  assert (forall c, Z.land c (2 ^ (P4EST_MAXLEVEL - level q) - 1) = 0 ->
            Z.land c (Z.lnot (P4EST_QUADRANT_LEN (level q)))
              = c - c mod (2 * P4EST_QUADRANT_LEN (level q)) /\
            Z.lor c (P4EST_QUADRANT_LEN (level q))
              = c - c mod (2 * P4EST_QUADRANT_LEN (level q))
                + P4EST_QUADRANT_LEN (level q)) as K.
  { intros c Ac. rewrite QUADRANT_LEN_pow by lia.
    rewrite clear_bit_aligned, lor_bit_aligned by (assumption || lia).
    rewrite clear_low_eq by lia. rewrite Z.pow_add_r by lia.
    change (2 ^ 1) with 2. rewrite (Z.mul_comm _ 2). split; reflexivity. }
  destruct (K (x q) Ax) as [Kx1 Kx2]. destruct (K (y q) Ay) as [Ky1 Ky2].
  unfold p4est_quadrant_sibling, set_xyl. cbn [x y].
  rewrite Ex, Ey, Kx1, Kx2, Ky1, Ky2.
  split.
  - destruct (Z.land sid 1 =? 0); lia.
  - destruct (Z.shiftr (Z.land sid 2) 1 =? 0); lia.
Qed.

(** Below the root, a quadrant is inside the root exactly when its parent
    is. *)
Lemma parent_of_inside (q : p4est_quadrant_t) :
  p4est_quadrant_is_extended q = true -> 1 <= level q ->
  p4est_quadrant_is_inside (parent_of q) = p4est_quadrant_is_inside q.
Proof.
  intros E L1. destruct (is_extended_inv q E) as (L & Ax & Ay).
  destruct (parent_of_arith q E L1) as (El & Ex & Ey & Eh & _).
  unfold p4est_quadrant_is_inside. rewrite Ex, Ey.
  change P4EST_ROOT_LEN with (2 ^ 29).
  rewrite QUADRANT_LEN_pow by lia. unfold P4EST_MAXLEVEL in *.
  set (H := 2 * 2 ^ (29 - level q)).
  assert (0 < H) as PH by (unfold H; pose proof (Z.pow_pos_nonneg 2 (29 - level q)); lia).
  assert (2 ^ 29 = H * 2 ^ (level q - 1)) as R.
  { unfold H. replace (2 * 2 ^ (29 - level q)) with (2 ^ (29 - level q + 1))
      by (rewrite Z.pow_add_r by lia; lia).
    rewrite <- Z.pow_add_r by lia. f_equal. lia. }
  assert (forall c, ((c - c mod H >=? 0) && (c - c mod H <? 2 ^ 29))
                    = ((c >=? 0) && (c <? 2 ^ 29))) as K.
  { intros c. pose proof (Z.mod_pos_bound c H PH) as M.
    pose proof (Z.div_mod c H ltac:(lia)) as D.
    assert (c - c mod H = H * (c / H)) as -> by lia.
    rewrite R. set (P := 2 ^ (level q - 1)) in *.
    assert (0 < P) by (apply Z.pow_pos_nonneg; lia).
    destruct (Z.geb_spec c 0), (Z.ltb_spec c (H * P)),
             (Z.geb_spec (H * (c / H)) 0), (Z.ltb_spec (H * (c / H)) (H * P));
      try reflexivity; try nia.
    - assert (c / H < P) by (apply Z.div_lt_upper_bound; lia). nia.
    - assert (c / H >= P) by nia. nia.
  }
  rewrite !K. reflexivity.
Qed.

Lemma child_id_range (A : p4est_quadrant_t) :
  0 <= p4est_quadrant_child_id A <= 3.
Proof.
  unfold p4est_quadrant_child_id.
  destruct (level A =? 0); [lia|].
  destruct (Z.land (x A) (P4EST_QUADRANT_LEN (level A)) =? 0),
           (Z.land (y A) (P4EST_QUADRANT_LEN (level A)) =? 0); cbn; lia.
Qed.

Lemma indirect_neighbor_bound (pid k : Z) :
  -2 <= fst (indirect_neighbor pid k) <= 2 /\
  -2 <= snd (indirect_neighbor pid k) <= 2.
Proof.
  unfold indirect_neighbor, indirect_neighbors.
  destruct (Z.to_nat pid) as [|[|[|[|[|n5]]]]];
    destruct (Z.to_nat k) as [|[|[|[|m4]]]]; cbn; lia.
Qed.

(** *** The loop over [sid] *)

Section SidLoop.

Variable inlist : list p4est_quadrant_t.
Variable inmaxl : Z.
Variables tf tl q : p4est_quadrant_t.
Variable isfamily : bool.

Hypothesis Hext : p4est_quadrant_is_extended q = true.
Hypothesis Hlev : 1 <= level q <= inmaxl.
Hypothesis Hmax : inmaxl <= P4EST_MAXLEVEL.
Hypothesis Hband : array_in_band inlist = true.

(** The siblings: [sid = 0 .. 3]. *)
Lemma balance_sid_body_sibling (sid : Z) (st : balance_state) :
  0 <= sid < 4 ->
  balance_wf inmaxl tf tl st ->
  parents_done inmaxl tf tl inlist st None ->
  snd (balance_sid_body (sid_ctx inlist inmaxl tf tl q isfamily) sid st) = false /\
  balance_wf inmaxl tf tl
    (fst (balance_sid_body (sid_ctx inlist inmaxl tf tl q isfamily) sid st)) /\
  parents_done inmaxl tf tl inlist
    (fst (balance_sid_body (sid_ctx inlist inmaxl tf tl q isfamily) sid st)) None /\
  adds_ok q st
    (fst (balance_sid_body (sid_ctx inlist inmaxl tf tl q isfamily) sid st)).
Proof.
  intros Hs WF PD. unfold balance_sid_body.
  destruct (Z.ltb_spec sid 4); [|lia].
  cbn [cx_qid cx_isfamily cx_isoutroot cx_q sid_ctx].
  assert (adds_ok q st st) as Refl by (apply adds_ok_store_eq; reflexivity).
  destruct ((p4est_quadrant_child_id q =? sid) || isfamily);
    [cbn [fst snd]; auto|].
  destruct (p4est_quadrant_is_inside q) eqn:Iq; cbn [negb];
    [|cbn [fst snd]; auto].
  set (st1 := with_qalloc st (p4est_quadrant_sibling q (bs_qalloc st) sid)).
  set (cx := sid_ctx inlist inmaxl tf tl q isfamily).
  fold cx.
  assert (balance_wf (cx_inmaxl cx) (cx_tree_first cx) (cx_tree_last cx) st1) as WF1.
  { apply (balance_wf_store_eq _ _ _ st); try reflexivity; [|exact WF].
    cbn. exact (wf_qalloc _ _ _ _ WF). }
  split.
  { destruct (snd (balance_stage2 cx sid st1)) eqn:Brk; [|reflexivity].
    apply balance_stage2_break in Brk. lia. }
  split; [exact (balance_stage2_wf cx sid st1 WF1)|].
  split.
  { apply (balance_stage2_parents cx sid st1 None WF1); [lia|].
    apply (parents_done_store_eq _ _ _ _ st); try reflexivity. exact PD. }
  intros k Hk. destruct (balance_stage2_adds cx sid st1 k Hk) as (ext & E & A).
  exists ext. split; [exact E|]. intros e He. destruct (A e He) as [-> Xe].
  left. split; [reflexivity|]. split; [exact Iq|].
  pose proof (sibling_near_parent q (bs_qalloc st) sid Hext ltac:(lia)) as N.
  destruct Xe as (Ex & Ey & El). unfold near_parent in *.
  cbn [bs_qalloc st1 with_qalloc] in *. rewrite Ex, Ey, El. exact N.
Qed.

(** The parent: [sid = 4]. *)
Lemma balance_sid_body_parent (st : balance_state) :
  balance_wf inmaxl tf tl st ->
  parents_done inmaxl tf tl inlist st None ->
  balance_wf inmaxl tf tl
    (fst (balance_sid_body (sid_ctx inlist inmaxl tf tl q isfamily) 4 st)) /\
  adds_ok q st
    (fst (balance_sid_body (sid_ctx inlist inmaxl tf tl q isfamily) 4 st)) /\
  ((snd (balance_sid_body (sid_ctx inlist inmaxl tf tl q isfamily) 4 st) = true /\
    parents_done inmaxl tf tl inlist
      (fst (balance_sid_body (sid_ctx inlist inmaxl tf tl q isfamily) 4 st)) None /\
    (p4est_quadrant_is_inside q = true ->
     nbrs_done inmaxl tf tl inlist
       (fst (balance_sid_body (sid_ctx inlist inmaxl tf tl q isfamily) 4 st))
       (parent_of q))) \/
   (snd (balance_sid_body (sid_ctx inlist inmaxl tf tl q isfamily) 4 st) = false /\
    parents_done inmaxl tf tl inlist
      (fst (balance_sid_body (sid_ctx inlist inmaxl tf tl q isfamily) 4 st))
      (Some (parent_of q)) /\
    same_xyl
      (bs_parent (fst (balance_sid_body (sid_ctx inlist inmaxl tf tl q isfamily) 4 st)))
      (parent_of q) /\
    bs_ph (fst (balance_sid_body (sid_ctx inlist inmaxl tf tl q isfamily) 4 st))
      = P4EST_QUADRANT_LEN (level (parent_of q)) /\
    bs_pid (fst (balance_sid_body (sid_ctx inlist inmaxl tf tl q isfamily) 4 st))
      = p4est_quadrant_child_id (parent_of q))).
Proof.
  intros WF PD.
  set (cx := sid_ctx inlist inmaxl tf tl q isfamily).
  set (c := p4est_quadrant_parent q (bs_qalloc st)).
  set (st1 := mkbalance (bs_p4est st) (bs_hash st) (bs_outlist st) c
       c (P4EST_QUADRANT_LEN (level c)) (p4est_quadrant_child_id c)
       (count_outside_root st) (count_outside_tree st)
       (count_already_inlist st) (count_already_outlist st)).
  assert (balance_sid_body cx 4 st = balance_stage2 cx 4 st1) as Eb by reflexivity.
  rewrite Eb.
  pose proof (parent_xyl q (bs_qalloc st)) as Xc. fold c in Xc.
  destruct (parent_of_arith q Hext ltac:(lia)) as (El & _ & _ & _ & EA).
  assert (balance_wf (cx_inmaxl cx) (cx_tree_first cx) (cx_tree_last cx) st1) as WF1.
  { apply (balance_wf_store_eq _ _ _ st); try reflexivity; [|exact WF].
    cbn. exact (wf_qalloc _ _ _ _ WF). }
  split; [exact (balance_stage2_wf cx 4 st1 WF1)|].
  split.
  { intros k Hk. destruct (balance_stage2_adds cx 4 st1 k Hk) as (ext & E & A).
    exists ext. split; [exact E|]. intros e He. destruct (A e He) as [-> Xe].
    right. cbn [bs_qalloc st1]. destruct Xc as (_ & _ & ->). exact El. }
  destruct (balance_stage2_cases cx 4 st1) as (Fp & Fh & Fi & _).
  cbn [bs_parent bs_ph bs_pid st1] in Fp, Fh, Fi.
  destruct (snd (balance_stage2 cx 4 st1)) eqn:Brk; [left|right].
  - split; [reflexivity|].
    destruct (balance_stage2_break_store cx 4 st1 Brk) as (Sh & So & _).
    split.
    + apply (parents_done_store_eq _ _ _ _ st); assumption.
    + intros Iq. apply (nbrs_done_store_eq _ _ _ _ st); [exact So|].
      destruct (balance_stage2_break cx 4 st1 Brk) as (_ & e & He & Xe & Ke).
      cbn [bs_qalloc bs_hash st1] in He, Xe.
      assert (same_xyl e (parent_of q)) as XA
        by (apply same_xyl_trans with c; assumption).
      apply (nbrs_done_xyl _ _ _ _ _ (parent_of q) e (same_xyl_sym _ _ XA)).
      destruct (PD (level c) e) as [[]|D]; try assumption.
      * destruct Xc as (_ & _ & ->). lia.
      * rewrite (is_inside_xyl _ _ XA), parent_of_inside by (assumption || lia).
        exact Iq.
  - split; [reflexivity|]. split.
    + apply (balance_stage2_parents cx 4 st1 (Some (parent_of q)) WF1).
      * intros _. exact Xc.
      * apply parents_done_weaken.
        apply (parents_done_store_eq _ _ _ _ st); try reflexivity. exact PD.
    + rewrite Fp, Fh, Fi. split; [exact Xc|].
      destruct Xc as (Ex & Ey & Ell).
      split; [rewrite Ell; reflexivity|].
      unfold p4est_quadrant_child_id. rewrite Ex, Ey, Ell. reflexivity.
Qed.

(** The candidate of [sid = 5 + k] for a parent inside the root. *)
Lemma neighbor_candidate_xyl (k : Z) (st : balance_state) :
  p4est_quadrant_is_inside q = true ->
  same_xyl (bs_parent st) (parent_of q) ->
  bs_ph st = P4EST_QUADRANT_LEN (level (parent_of q)) ->
  bs_pid st = p4est_quadrant_child_id (parent_of q) ->
  same_xyl
    (set_xyl (bs_qalloc st)
       (int32 (x (bs_parent st)
               + int32 (fst (indirect_neighbor (bs_pid st) k) * bs_ph st)))
       (int32 (y (bs_parent st)
               + int32 (snd (indirect_neighbor (bs_pid st) k) * bs_ph st)))
       (level (bs_parent st)))
    (nbr_candidate (parent_of q) k).
Proof.
  intros Iq (Ex & Ey & El) Eh Ei.
  destruct (parent_of_arith q Hext ltac:(lia)) as (ElA & _ & _ & _ & EA).
  assert (p4est_quadrant_is_inside (parent_of q) = true) as IA
    by (rewrite parent_of_inside by (assumption || lia); exact Iq).
  unfold p4est_quadrant_is_inside in IA. change P4EST_ROOT_LEN with (2 ^ 29) in IA.
  destruct (indirect_neighbor_bound (p4est_quadrant_child_id (parent_of q)) k)
    as [Bx By].
  assert (0 < P4EST_QUADRANT_LEN (level (parent_of q)) <= 2 ^ 29) as BH.
  { rewrite QUADRANT_LEN_pow by (unfold P4EST_MAXLEVEL in *; lia).
    split; [apply Z.pow_pos_nonneg; unfold P4EST_MAXLEVEL in *; lia|].
    apply Z.pow_le_mono_r; unfold P4EST_MAXLEVEL in *; lia. }
  unfold same_xyl, nbr_candidate, set_xyl. cbn [x y level].
  rewrite Ex, Ey, El, Eh, Ei.
  set (H := P4EST_QUADRANT_LEN (level (parent_of q))) in *.
  set (nb := indirect_neighbor (p4est_quadrant_child_id (parent_of q)) k) in *.
  rewrite (int32_small (fst nb * H)), (int32_small (snd nb * H)) by nia.
  rewrite !int32_small by nia. auto.
Qed.

(** The indirect neighbors of the parent: [sid = 5 .. 7]. *)
Lemma balance_sid_body_neighbor (k : Z) (st : balance_state) :
  0 <= k < 3 ->
  balance_wf inmaxl tf tl st ->
  parents_done inmaxl tf tl inlist st (Some (parent_of q)) ->
  same_xyl (bs_parent st) (parent_of q) ->
  bs_ph st = P4EST_QUADRANT_LEN (level (parent_of q)) ->
  bs_pid st = p4est_quadrant_child_id (parent_of q) ->
  snd (balance_sid_body (sid_ctx inlist inmaxl tf tl q isfamily) (5 + k) st)
    = false /\
  balance_wf inmaxl tf tl
    (fst (balance_sid_body (sid_ctx inlist inmaxl tf tl q isfamily) (5 + k) st)) /\
  parents_done inmaxl tf tl inlist
    (fst (balance_sid_body (sid_ctx inlist inmaxl tf tl q isfamily) (5 + k) st))
    (Some (parent_of q)) /\
  adds_ok q st
    (fst (balance_sid_body (sid_ctx inlist inmaxl tf tl q isfamily) (5 + k) st)) /\
  same_xyl
    (bs_parent
       (fst (balance_sid_body (sid_ctx inlist inmaxl tf tl q isfamily) (5 + k) st)))
    (parent_of q) /\
  bs_ph (fst (balance_sid_body (sid_ctx inlist inmaxl tf tl q isfamily) (5 + k) st))
    = P4EST_QUADRANT_LEN (level (parent_of q)) /\
  bs_pid (fst (balance_sid_body (sid_ctx inlist inmaxl tf tl q isfamily) (5 + k) st))
    = p4est_quadrant_child_id (parent_of q) /\
  (p4est_quadrant_is_inside q = true ->
   p4est_quadrant_is_inside (nbr_candidate (parent_of q) k) = true ->
   window_drop inmaxl tf tl (nbr_candidate (parent_of q) k) = false ->
   covered inlist
     (fst (balance_sid_body (sid_ctx inlist inmaxl tf tl q isfamily) (5 + k) st))
     (nbr_candidate (parent_of q) k)).
Proof.
  intros Hk WF PD XP Eh Ei.
  set (cx := sid_ctx inlist inmaxl tf tl q isfamily).
  set (c := set_xyl (bs_qalloc st)
       (int32 (x (bs_parent st)
               + int32 (fst (indirect_neighbor (bs_pid st) k) * bs_ph st)))
       (int32 (y (bs_parent st)
               + int32 (snd (indirect_neighbor (bs_pid st) k) * bs_ph st)))
       (level (bs_parent st))).
  set (st1 := with_qalloc st c).
  set (dropped := mkbalance (bs_p4est st1) (bs_hash st1) (bs_outlist st1)
       (bs_qalloc st1) (bs_parent st1) (bs_ph st1) (bs_pid st1)
       (count_outside_root st1 + 1) (count_outside_tree st1)
       (count_already_inlist st1) (count_already_outlist st1)).
  set (out := (y c <? 0) || (x c >=? P4EST_ROOT_LEN) ||
              (y c >=? P4EST_ROOT_LEN) || (x c <? 0)).
  set (across := ((y c <? 0) || (y c >=? P4EST_ROOT_LEN)) &&
                 ((x c >=? P4EST_ROOT_LEN) || (x c <? 0))).
  assert (balance_sid_body cx (5 + k) st
          = if negb (negb (p4est_quadrant_is_inside q))
            then if out then (dropped, false) else balance_stage2 cx (5 + k) st1
            else if across then (dropped, false)
                 else balance_stage2 cx (5 + k) st1) as Eb.
  { unfold balance_sid_body.
    destruct (Z.ltb_spec (5 + k) 4); [lia|].
    destruct (Z.eqb_spec (5 + k) 4); [lia|].
    replace (5 + k - 5) with k by lia. reflexivity. }
  rewrite Eb. clear Eb.
  destruct (parent_of_arith q Hext ltac:(lia)) as (ElA & _ & _ & _ & EA).
  assert (balance_wf (cx_inmaxl cx) (cx_tree_first cx) (cx_tree_last cx) st1) as WF1.
  { apply (balance_wf_store_eq _ _ _ st); try reflexivity; [|exact WF].
    cbn. exact (wf_qalloc _ _ _ _ WF). }
  assert (level c = level q - 1) as Lc.
  { cbn [level c set_xyl]. destruct XP as (_ & _ & ->). exact ElA. }
  (* the two outcomes *)
  assert (forall r,
            r = (dropped, false) \/ r = balance_stage2 cx (5 + k) st1 ->
            snd r = false /\ balance_wf inmaxl tf tl (fst r) /\
            parents_done inmaxl tf tl inlist (fst r) (Some (parent_of q)) /\
            adds_ok q st (fst r) /\
            same_xyl (bs_parent (fst r)) (parent_of q) /\
            bs_ph (fst r) = P4EST_QUADRANT_LEN (level (parent_of q)) /\
            bs_pid (fst r) = p4est_quadrant_child_id (parent_of q)) as Both.
  { intros r [->| ->].
    - cbn [fst snd]. split; [reflexivity|].
      split.
      { apply (balance_wf_store_eq _ _ _ st); try reflexivity; [|exact WF].
        cbn. exact (wf_qalloc _ _ _ _ WF). }
      split; [apply (parents_done_store_eq _ _ _ _ st); try reflexivity; exact PD|].
      split; [apply adds_ok_store_eq; reflexivity|].
      split; [exact XP|]. split; assumption.
    - split.
      { destruct (snd (balance_stage2 cx (5 + k) st1)) eqn:Brk; [|reflexivity].
        apply balance_stage2_break in Brk. lia. }
      split; [exact (balance_stage2_wf cx (5 + k) st1 WF1)|].
      split.
      { apply (balance_stage2_parents cx (5 + k) st1 _ WF1); [lia|].
        apply (parents_done_store_eq _ _ _ _ st); try reflexivity. exact PD. }
      split.
      { intros j Hj.
        destruct (balance_stage2_adds cx (5 + k) st1 j Hj) as (ext & E & A).
        exists ext. split; [exact E|]. intros e He. destruct (A e He) as [-> Xe].
        right. exact Lc. }
      destruct (balance_stage2_cases cx (5 + k) st1) as (Fp & Fh & Fi & _).
      rewrite Fp, Fh, Fi. split; [exact XP|]. split; assumption. }
  assert (forall r,
            r = (dropped, false) \/ r = balance_stage2 cx (5 + k) st1 ->
            (p4est_quadrant_is_inside q = true ->
             p4est_quadrant_is_inside (nbr_candidate (parent_of q) k) = true ->
             window_drop inmaxl tf tl (nbr_candidate (parent_of q) k) = false ->
             r = balance_stage2 cx (5 + k) st1) ->
            snd r = false /\ balance_wf inmaxl tf tl (fst r) /\
            parents_done inmaxl tf tl inlist (fst r) (Some (parent_of q)) /\
            adds_ok q st (fst r) /\
            same_xyl (bs_parent (fst r)) (parent_of q) /\
            bs_ph (fst r) = P4EST_QUADRANT_LEN (level (parent_of q)) /\
            bs_pid (fst r) = p4est_quadrant_child_id (parent_of q) /\
            (p4est_quadrant_is_inside q = true ->
             p4est_quadrant_is_inside (nbr_candidate (parent_of q) k) = true ->
             window_drop inmaxl tf tl (nbr_candidate (parent_of q) k) = false ->
             covered inlist (fst r) (nbr_candidate (parent_of q) k))) as Fin.
  { intros r Hr Cov.
    destruct (Both r Hr) as (B1 & B2 & B3 & B4 & B5 & B6 & B7).
    repeat (split; [assumption|]).
    intros Iq Ic Wc. rewrite (Cov Iq Ic Wc).
    pose proof (neighbor_candidate_xyl k st Iq XP Eh Ei) as Xc. fold c in Xc.
    apply (covered_xyl _ _ c); [exact Xc|].
    apply (balance_stage2_covered cx (5 + k) st1 WF1 Hband).
    - cbn [bs_qalloc st1 with_qalloc cx_inmaxl cx sid_ctx]. lia.
    - cbn [bs_qalloc st1 with_qalloc]. rewrite (is_inside_xyl _ _ Xc). exact Ic.
    - cbn [bs_qalloc st1 with_qalloc]. rewrite (window_drop_xyl _ _ _ _ _ Xc).
      exact Wc. }
  apply Fin.
  - destruct (negb (negb (p4est_quadrant_is_inside q)));
      [destruct out|destruct across]; auto.
  - intros Iq Ic Wc. rewrite Iq. cbn [negb].
    pose proof (neighbor_candidate_xyl k st Iq XP Eh Ei) as Xc. fold c in Xc.
    rewrite <- (is_inside_xyl _ _ Xc) in Ic.
    assert (out = false) as ->; [|reflexivity].
    unfold out. unfold p4est_quadrant_is_inside in Ic.
    apply andb_prop in Ic. destruct Ic as [I1 I2].
    apply andb_prop in I1. apply andb_prop in I2.
    destruct (Z.ltb_spec (y c) 0), (Z.geb_spec (x c) P4EST_ROOT_LEN),
             (Z.geb_spec (y c) P4EST_ROOT_LEN), (Z.ltb_spec (x c) 0);
      try reflexivity; lia.
Qed.

End SidLoop.


(* ================================================================= *)
(** ** Siblings, parents and children *)

Lemma land_lxor_eqb (a b c : Z) :
  (Z.land (Z.lxor a b) c =? 0) = (Z.land a c =? Z.land b c).
Proof.
  assert (Z.land (Z.lxor a b) c = Z.lxor (Z.land a c) (Z.land b c)) as ->.
  { apply Z.bits_inj'. intros k Hk.
    rewrite Z.land_spec, !Z.lxor_spec, !Z.land_spec.
    destruct (Z.testbit a k), (Z.testbit b k), (Z.testbit c k); reflexivity. }
  destruct (Z.eqb_spec (Z.lxor (Z.land a c) (Z.land b c)) 0) as [E|E],
           (Z.eqb_spec (Z.land a c) (Z.land b c)) as [F|F]; try reflexivity.
  - apply Z.lxor_eq in E. contradiction.
  - rewrite F, Z.lxor_nilpotent in E. contradiction.
Qed.

Lemma lxor_eqb (a b : Z) : (Z.lxor a b =? 0) = (a =? b).
Proof.
  destruct (Z.eqb_spec (Z.lxor a b) 0) as [E|E], (Z.eqb_spec a b) as [F|F];
    try reflexivity.
  - apply Z.lxor_eq in E. contradiction.
  - rewrite F, Z.lxor_nilpotent in E. contradiction.
Qed.

Lemma is_sibling_D_equiv (q1 q2 : p4est_quadrant_t) :
  p4est_quadrant_is_extended q1 = true ->
  p4est_quadrant_is_extended q2 = true ->
  level q1 = 0 \/ 0 < level q2 ->
  p4est_quadrant_is_sibling_D q1 q2 = Some (p4est_quadrant_is_sibling q1 q2).
Proof.
  intros E1 E2 G.
  destruct (is_extended_inv q1 E1) as (L1 & _ & _).
  destruct (is_extended_inv q2 E2) as (L2 & _ & _).
  unfold P4EST_MAXLEVEL in *.
  unfold p4est_quadrant_is_sibling, p4est_quadrant_is_sibling_D.
  destruct (Z.eqb_spec (level q1) 0) as [Z0|Z0]; [reflexivity|].
  destruct (Z.gtb_spec (level q1) 0); [|lia].
  destruct (Z.gtb_spec (level q2) 0); [|lia]. cbn [andb].
  unfold p4est_quadrant_is_equal, p4est_quadrant_parent, set_xyl.
  cbn [x y level]. rewrite !land_lxor_eqb, !lxor_eqb.
  rewrite !int8_small by lia.
  destruct (Z.eqb_spec (level q1) (level q2)) as [El|El].
  - rewrite <- El.
    destruct (Z.eqb_spec (level q1 - 1) (level q1 - 1)); [|lia].
    cbn [andb]. destruct ((x q1 =? x q2) && (y q1 =? y q2)); reflexivity.
  - destruct (Z.eqb_spec (level q1 - 1) (level q2 - 1)); [lia|].
    cbn [andb]. destruct ((x q1 =? x q2) && (y q1 =? y q2)); reflexivity.
Qed.

(** X1: [p4est_quadrant_is_sibling], which tests the exclusive or of the
    coordinates, against [p4est_quadrant_is_sibling_D], which compares the
    two parents, on extended quadrants.  When [q1] is of level 0 or [q2] of
    positive level, the second function answers, and its answer is that of
    the first.  When [q1] is of positive level and [q2] of level 0, the
    second function gives no answer (it asks for the parent of [q2], which
    fails the assertion of [p4est_quadrant_parent]), and the first answers
    no. *)
Theorem is_sibling_agrees_with_D (q1 q2 : p4est_quadrant_t) :
  p4est_quadrant_is_extended q1 = true ->
  p4est_quadrant_is_extended q2 = true ->
  (level q1 = 0 \/ 0 < level q2 ->
   p4est_quadrant_is_sibling_D q1 q2
   = Some (p4est_quadrant_is_sibling q1 q2)) /\
  (0 < level q1 -> level q2 = 0 ->
   p4est_quadrant_is_sibling_D q1 q2 = None /\
   p4est_quadrant_is_sibling q1 q2 = false).
Proof.
  intros E1 E2. split; [apply is_sibling_D_equiv; assumption|].
  intros P1 Z2.
  assert (p4est_quadrant_is_equal q1 q2 = false) as Ne.
  { destruct (p4est_quadrant_is_equal q1 q2) eqn:Q; [|reflexivity].
    apply is_equal_inv in Q. destruct Q as (_ & _ & Q). lia. }
  split.
  - unfold p4est_quadrant_is_sibling_D. rewrite Ne.
    destruct (Z.eqb_spec (level q1) 0); [lia|].
    destruct (Z.gtb_spec (level q2) 0); [lia|].
    rewrite andb_false_r. reflexivity.
  - unfold p4est_quadrant_is_sibling.
    destruct (Z.eqb_spec (level q1) 0); [reflexivity|].
    destruct (Z.eqb_spec (level q1) (level q2)); [lia|]. cbn [andb].
    destruct ((Z.lxor (x q1) (x q2) =? 0) && (Z.lxor (y q1) (y q2) =? 0));
      reflexivity.
Qed.

Lemma is_sibling_agrees_with_D_witness :
  p4est_quadrant_is_sibling_D (mkquad 0 0 1 (user_data NULL))
                              (mkquad (2 ^ 28) 0 1 (user_data NULL))
  = Some (p4est_quadrant_is_sibling (mkquad 0 0 1 (user_data NULL))
                                    (mkquad (2 ^ 28) 0 1 (user_data NULL))).
Proof.
  apply (proj1 (is_sibling_agrees_with_D (mkquad 0 0 1 (user_data NULL))
                  (mkquad (2 ^ 28) 0 1 (user_data NULL)) eq_refl eq_refl)).
  right. cbn. lia.
Defined.

(** X2: on extended quadrants [p4est_quadrant_is_parent] and
    [p4est_quadrant_is_parent_D] give the same answer, and a parent is an
    ancestor. *)
Theorem is_parent_agrees_with_D (q r : p4est_quadrant_t) :
  p4est_quadrant_is_extended q = true ->
  p4est_quadrant_is_extended r = true ->
  p4est_quadrant_is_parent q r = p4est_quadrant_is_parent_D q r /\
  (p4est_quadrant_is_parent q r = true ->
   p4est_quadrant_is_ancestor q r = true).
Proof.
  intros Eq Er.
  destruct (is_extended_inv q Eq) as (Lq & _ & _).
  destruct (is_extended_inv r Er) as (Lr & Ax & Ay).
  unfold P4EST_MAXLEVEL in *. split.
  - unfold p4est_quadrant_is_parent, p4est_quadrant_is_parent_D,
      p4est_quadrant_is_equal, p4est_quadrant_parent, set_xyl.
    cbn [x y level].
    destruct (Z.eqb_spec (level r) 0) as [Z0|Z0].
    + destruct (Z.eqb_spec (level q + 1) (level r)); [lia|reflexivity].
    + rewrite int8_small by lia.
      destruct (Z.eqb_spec (level q + 1) (level r)),
               (Z.eqb_spec (level q) (level r - 1)); try lia; reflexivity.
  - unfold p4est_quadrant_is_parent. intros H.
    apply andb_prop in H. destruct H as [H Hy].
    apply andb_prop in H. destruct H as [Hl Hx].
    apply Z.eqb_eq in Hl, Hx, Hy.
    rewrite QUADRANT_LEN_pow in Hx, Hy by (unfold P4EST_MAXLEVEL; lia).
    unfold P4EST_MAXLEVEL in *.
    rewrite clear_bit_aligned in Hx, Hy by (assumption || lia).
    apply (is_ancestor_ancestor_at q r (level q));
      unfold P4EST_MAXLEVEL; try lia.
    + rewrite Hx. f_equal. lia.
    + rewrite Hy. f_equal. lia.
Qed.

Lemma is_parent_agrees_with_D_witness :
  p4est_quadrant_is_parent (mkquad 0 0 0 (user_data NULL))
                           (mkquad (2 ^ 28) 0 1 (user_data NULL))
  = p4est_quadrant_is_parent_D (mkquad 0 0 0 (user_data NULL))
                               (mkquad (2 ^ 28) 0 1 (user_data NULL)) /\
  (p4est_quadrant_is_parent (mkquad 0 0 0 (user_data NULL))
                            (mkquad (2 ^ 28) 0 1 (user_data NULL)) = true ->
   p4est_quadrant_is_ancestor (mkquad 0 0 0 (user_data NULL))
                              (mkquad (2 ^ 28) 0 1 (user_data NULL)) = true).
Proof.
  apply is_parent_agrees_with_D; vm_compute; reflexivity.
Defined.

(** The result of the parent-climbing search for the nearest common
    ancestor. *)
Lemma nca_D_result (q1 q2 r : p4est_quadrant_t) (fuel : nat) (m k : Z) :
  p4est_quadrant_is_extended q1 = true ->
  p4est_quadrant_is_extended q2 = true ->
  int32_range (x q1) -> int32_range (y q1) ->
  int32_range (x q2) -> int32_range (y q2) ->
  same_tree q1 q2 = true ->
  (30 <= fuel)%nat ->
  m = SC_LOG2_32 (Z.lor (uint32 (Z.lxor (x q1) (x q2)))
                        (uint32 (Z.lxor (y q1) (y q2)))) + 1 ->
  k = Z.min (Z.min (level q1) (level q2)) (P4EST_MAXLEVEL - m) ->
  p4est_nearest_common_ancestor_D fuel q1 q2 r
  = Some (set_xyl r (clear_low (x q1) (P4EST_MAXLEVEL - k))
                    (clear_low (y q1) (P4EST_MAXLEVEL - k)) k).
Proof.
  intros E1 E2 X1 Y1 X2 Y2 ST Hf Em Ek.
  pose proof (same_tree_bound q1 q2 ST) as B. cbv zeta in B.
  rewrite <- Em in B. destruct B as (Hm & _ & _).
  destruct (is_extended_inv q1 E1) as (L1 & _ & _).
  destruct (is_extended_inv q2 E2) as (L2 & _ & _).
  unfold p4est_nearest_common_ancestor_D.
  assert (nca_promote fuel q1 (level q2)
          = Some (ancestor_at q1 (Z.min (level q1) (level q2)))) as P1.
  { destruct (Z.le_gt_cases (level q1) (level q2)).
    - rewrite Z.min_l, ancestor_at_self by assumption.
      apply nca_promote_stop. assumption.
    - rewrite Z.min_r by lia.
      pose proof (nca_promote_ancestor q1 (level q2) fuel (level q1)) as P.
      rewrite (ancestor_at_self q1 E1) in P.
      apply P; unfold P4EST_MAXLEVEL in *; lia. }
  rewrite P1.
  assert (nca_promote fuel q2 (level (ancestor_at q1 (Z.min (level q1) (level q2))))
          = Some (ancestor_at q2 (Z.min (level q1) (level q2)))) as P2.
  { cbn [ancestor_at set_xyl level].
    destruct (Z.le_gt_cases (level q2) (level q1)).
    - rewrite Z.min_r, ancestor_at_self by assumption.
      apply nca_promote_stop. lia.
    - rewrite Z.min_l by lia.
      pose proof (nca_promote_ancestor q2 (level q1) fuel (level q2)) as P.
      rewrite (ancestor_at_self q2 E2) in P.
      apply P; unfold P4EST_MAXLEVEL in *; lia. }
  rewrite P2.
  rewrite (nca_climb_ancestor q1 q2 m) by
    (try assumption; unfold P4EST_MAXLEVEL in *; lia).
  rewrite <- Ek. reflexivity.
Qed.

(** X3: for extended quadrants of one tree [p4est_quadrant_is_ancestor_D],
    which climbs to the nearest common ancestor, terminates (30 iterations
    per loop suffice) with the answer of [p4est_quadrant_is_ancestor]. *)
Theorem is_ancestor_agrees_with_D (q r : p4est_quadrant_t) (fuel : nat) :
  p4est_quadrant_is_extended q = true ->
  p4est_quadrant_is_extended r = true ->
  int32_range (x q) -> int32_range (y q) ->
  int32_range (x r) -> int32_range (y r) ->
  same_tree q r = true ->
  (30 <= fuel)%nat ->
  p4est_quadrant_is_ancestor_D fuel q r = Some (p4est_quadrant_is_ancestor q r).
Proof.
  intros Eq Er Xq Yq Xr Yr ST Hf.
  set (m := SC_LOG2_32 (Z.lor (uint32 (Z.lxor (x q) (x r)))
                              (uint32 (Z.lxor (y q) (y r)))) + 1).
  set (k := Z.min (Z.min (level q) (level r)) (P4EST_MAXLEVEL - m)).
  pose proof (same_tree_bound q r ST) as B. cbv zeta in B.
  fold m in B. destruct B as (Hm & _ & _).
  destruct (is_extended_inv q Eq) as (Lq & Axq & Ayq).
  destruct (is_extended_inv r Er) as (Lr & Axr & Ayr).
  unfold p4est_quadrant_is_ancestor_D.
  destruct (p4est_quadrant_is_equal q r) eqn:Qr.
  - apply is_equal_inv in Qr. destruct Qr as (_ & _ & El).
    unfold p4est_quadrant_is_ancestor.
    destruct (Z.geb_spec (level q) (level r)); [reflexivity|lia].
  - rewrite (nca_D_result q r quadrant_zero fuel m k) by (assumption || reflexivity).
    f_equal.
    pose proof (ancestors_equal_iff q r m (level q) Xq Yq Xr Yr ST eq_refl Lq) as A.
    rewrite ancestor_at_self in A by exact Eq.
    unfold p4est_quadrant_is_equal at 1. unfold set_xyl. cbn [x y level].
    unfold p4est_quadrant_is_ancestor.
    destruct (Z.geb_spec (level q) (level r)) as [G|G].
    + (* [q] is not above [r] *)
      destruct (Z.eqb_spec (level q) k) as [Ek|Ek]; [|reflexivity].
      assert (level q = level r) as El by (unfold k in Ek; lia).
      assert (level q <= P4EST_MAXLEVEL - m) as Hq by (unfold k in Ek; lia).
      destruct (Z.leb_spec (level q) (P4EST_MAXLEVEL - m)); [|lia].
      unfold p4est_quadrant_is_equal, ancestor_at, set_xyl in A.
      cbn [x y level] in A.
      rewrite El in A.
      rewrite !(clear_low_aligned _ (P4EST_MAXLEVEL - level r)) in A
        by (assumption || lia).
      unfold p4est_quadrant_is_equal in Qr. rewrite El in Qr.
      rewrite Z.eqb_refl in Qr, A. cbn [andb] in Qr, A. congruence.
    + (* [q] is above [r] *)
      assert ((level q =? k) = (level q <=? P4EST_MAXLEVEL - m)) as ->.
      { unfold k. destruct (Z.eqb_spec (level q)
                    (Z.min (Z.min (level q) (level r)) (P4EST_MAXLEVEL - m))),
                 (Z.leb_spec (level q) (P4EST_MAXLEVEL - m)); try lia; reflexivity. }
      destruct (Z.leb_spec (level q) (P4EST_MAXLEVEL - m)) as [Le|Gt].
      * assert (k = level q) as -> by (unfold k; lia).
        rewrite !clear_low_aligned by (assumption || lia).
        rewrite !Z.eqb_refl. cbn [andb].
        unfold p4est_quadrant_is_equal, ancestor_at, set_xyl in A.
        cbn [x y level] in A. rewrite Z.eqb_refl in A. cbn [andb] in A.
        apply andb_prop in A. destruct A as [Ax Ay]. apply Z.eqb_eq in Ax, Ay.
        rewrite <- (clear_low_aligned (x q) (P4EST_MAXLEVEL - level q)) in Ax
          by (assumption || lia).
        rewrite <- (clear_low_aligned (y q) (P4EST_MAXLEVEL - level q)) in Ay
          by (assumption || lia).
        apply clear_low_eq_iff in Ax; [|lia]. apply clear_low_eq_iff in Ay; [|lia].
        rewrite Ax, Ay. reflexivity.
      * symmetry. apply not_true_is_false. intros H.
        apply andb_prop in H. destruct H as [Hx Hy]. apply Z.eqb_eq in Hx, Hy.
        apply clear_low_eq_iff in Hx; [|lia]. apply clear_low_eq_iff in Hy; [|lia].
        rewrite (clear_low_aligned (x q) (P4EST_MAXLEVEL - level q)) in Hx
          by (assumption || lia).
        rewrite (clear_low_aligned (y q) (P4EST_MAXLEVEL - level q)) in Hy
          by (assumption || lia).
        unfold p4est_quadrant_is_equal, ancestor_at, set_xyl in A.
        cbn [x y level] in A. rewrite <- Hx, <- Hy, !Z.eqb_refl in A.
        discriminate.
Qed.

Lemma is_ancestor_agrees_with_D_witness :
  p4est_quadrant_is_ancestor_D 30 (mkquad 0 0 1 (user_data NULL))
                                  (mkquad (2 ^ 27) (2 ^ 26) 3 (user_data NULL))
  = Some (p4est_quadrant_is_ancestor (mkquad 0 0 1 (user_data NULL))
            (mkquad (2 ^ 27) (2 ^ 26) 3 (user_data NULL))).
Proof.
  apply is_ancestor_agrees_with_D;
    try (vm_compute; reflexivity); try (unfold int32_range; cbn; lia).
Defined.

(** *** Bits of aligned coordinates *)

Lemma land_pow2_eqb (a m : Z) :
  0 <= m -> (Z.land a (2 ^ m) =? 0) = negb (Z.testbit a m).
Proof.
  intros Hm.
  assert (Z.land a (2 ^ m) = if Z.testbit a m then 2 ^ m else 0) as ->.
  { apply Z.bits_inj'. intros k Hk. rewrite Z.land_spec, Z.pow2_bits_eqb by lia.
    destruct (Z.eqb_spec m k) as [->|N].
    - destruct (Z.testbit a k); [|rewrite Z.testbit_0_l; reflexivity].
      rewrite Z.pow2_bits_eqb, Z.eqb_refl by lia. reflexivity.
    - rewrite andb_false_r.
      destruct (Z.testbit a m); [|rewrite Z.testbit_0_l; reflexivity].
      rewrite Z.pow2_bits_eqb by lia. symmetry. apply Z.eqb_neq. exact N. }
  pose proof (Z.pow_pos_nonneg 2 m ltac:(lia) Hm).
  destruct (Z.testbit a m); [apply Z.eqb_neq; lia|reflexivity].
Qed.

Lemma clear_bit_testbit (c m k : Z) :
  0 <= m -> 0 <= k ->
  Z.testbit (Z.land c (Z.lnot (2 ^ m))) k = Z.testbit c k && negb (k =? m).
Proof.
  intros Hm Hk. rewrite Z.land_spec, Z.lnot_spec, Z.pow2_bits_eqb by lia.
  rewrite (Z.eqb_sym m k). reflexivity.
Qed.

Lemma set_bit_testbit (c m k : Z) :
  0 <= m -> 0 <= k ->
  Z.testbit (Z.lor c (2 ^ m)) k = Z.testbit c k || (k =? m).
Proof.
  intros Hm Hk. rewrite Z.lor_spec, Z.pow2_bits_eqb by lia.
  rewrite (Z.eqb_sym m k). reflexivity.
Qed.

Lemma aligned_by_bits (c m : Z) :
  0 <= m -> (forall k, 0 <= k < m -> Z.testbit c k = false) ->
  Z.land c (2 ^ m - 1) = 0.
Proof.
  intros Hm B. apply Z.bits_inj'. intros k Hk.
  rewrite Z.land_spec, Z.testbit_0_l.
  change (2 ^ m - 1) with (Z.pred (2 ^ m)). rewrite <- Z.ones_equiv.
  destruct (Z.lt_ge_cases k m).
  - rewrite B by lia. reflexivity.
  - rewrite Z.ones_spec_high by lia. apply andb_false_r.
Qed.

(** The coordinate of a sibling: the bit of the level is set or cleared. *)
Lemma sibling_coord_testbit (c m addx k : Z) :
  0 <= m -> 0 <= k ->
  Z.testbit (if addx =? 0 then Z.land c (Z.lnot (2 ^ m)) else Z.lor c (2 ^ m)) k
  = if k =? m then negb (addx =? 0) else Z.testbit c k.
Proof.
  intros Hm Hk. destruct (addx =? 0).
  - rewrite clear_bit_testbit by lia. destruct (k =? m); cbn;
      [apply andb_false_r|apply andb_true_r].
  - rewrite set_bit_testbit by lia. destruct (k =? m); cbn;
      [apply orb_true_r|apply orb_false_r].
Qed.

Lemma child_id_bits (q : p4est_quadrant_t) :
  1 <= level q <= P4EST_MAXLEVEL ->
  p4est_quadrant_child_id q
  = (if Z.testbit (x q) (P4EST_MAXLEVEL - level q) then 1 else 0)
    + (if Z.testbit (y q) (P4EST_MAXLEVEL - level q) then 2 else 0).
Proof.
  intros L. unfold p4est_quadrant_child_id.
  destruct (Z.eqb_spec (level q) 0); [lia|].
  rewrite QUADRANT_LEN_pow by lia.
  rewrite !land_pow2_eqb by lia.
  destruct (Z.testbit (x q) _), (Z.testbit (y q) _); reflexivity.
Qed.

Lemma sibling_bits (q r : p4est_quadrant_t) (i k : Z) :
  1 <= level q <= P4EST_MAXLEVEL -> 0 <= k ->
  level (p4est_quadrant_sibling q r i) = level q /\
  Z.testbit (x (p4est_quadrant_sibling q r i)) k
  = (if k =? P4EST_MAXLEVEL - level q then negb (Z.land i 1 =? 0)
     else Z.testbit (x q) k) /\
  Z.testbit (y (p4est_quadrant_sibling q r i)) k
  = (if k =? P4EST_MAXLEVEL - level q
     then negb (Z.shiftr (Z.land i 2) 1 =? 0)
     else Z.testbit (y q) k).
Proof.
  intros L Hk. unfold p4est_quadrant_sibling, set_xyl. cbn [x y level].
  rewrite QUADRANT_LEN_pow by lia.
  rewrite !sibling_coord_testbit by lia. auto.
Qed.

Lemma sibling_id_bits (i : Z) :
  0 <= i < 4 ->
  (if negb (Z.land i 1 =? 0) then 1 else 0)
  + (if negb (Z.shiftr (Z.land i 2) 1 =? 0) then 2 else 0) = i.
Proof.
  intros H. assert (i = 0 \/ i = 1 \/ i = 2 \/ i = 3) as C by lia.
  destruct C as [->|[->|[->| ->]]]; reflexivity.
Qed.

Lemma sibling_facts (q r : p4est_quadrant_t) (i : Z) :
  p4est_quadrant_is_extended q = true -> 1 <= level q -> 0 <= i < 4 ->
  p4est_quadrant_is_extended (p4est_quadrant_sibling q r i) = true /\
  p4est_quadrant_child_id (p4est_quadrant_sibling q r i) = i /\
  same_xyl (parent_of (p4est_quadrant_sibling q r i)) (parent_of q) /\
  (i = p4est_quadrant_child_id q -> same_xyl (p4est_quadrant_sibling q r i) q) /\
  (i <> p4est_quadrant_child_id q ->
   p4est_quadrant_is_sibling q (p4est_quadrant_sibling q r i) = true).
Proof.
  intros E L1 Hi. destruct (is_extended_inv q E) as (L & Ax & Ay).
  set (s := p4est_quadrant_sibling q r i).
  assert (forall k, 0 <= k ->
            level s = level q /\
            Z.testbit (x s) k
            = (if k =? P4EST_MAXLEVEL - level q then negb (Z.land i 1 =? 0)
               else Z.testbit (x q) k) /\
            Z.testbit (y s) k
            = (if k =? P4EST_MAXLEVEL - level q
               then negb (Z.shiftr (Z.land i 2) 1 =? 0)
               else Z.testbit (y q) k)) as B
    by (intros k Hk; apply sibling_bits; lia).
  assert (level s = level q) as Ls by reflexivity.
  assert (p4est_quadrant_is_extended s = true) as Es.
  { assert (Z.land (x s) (2 ^ (P4EST_MAXLEVEL - level q) - 1) = 0) as Axs.
    { apply aligned_by_bits; [lia|].
      intros k Hk. destruct (B k ltac:(lia)) as (_ & -> & _).
      destruct (Z.eqb_spec k (P4EST_MAXLEVEL - level q)); [lia|].
      apply (aligned_low_bits (x q) (P4EST_MAXLEVEL - level q)); (assumption || lia). }
    assert (Z.land (y s) (2 ^ (P4EST_MAXLEVEL - level q) - 1) = 0) as Ays.
    { apply aligned_by_bits; [lia|].
      intros k Hk. destruct (B k ltac:(lia)) as (_ & _ & ->).
      destruct (Z.eqb_spec k (P4EST_MAXLEVEL - level q)); [lia|].
      apply (aligned_low_bits (y q) (P4EST_MAXLEVEL - level q)); (assumption || lia). }
    unfold p4est_quadrant_is_extended. rewrite Ls.
    rewrite QUADRANT_LEN_pow by lia. rewrite Axs, Ays.
    destruct (Z.geb_spec (level q) 0), (Z.leb_spec (level q) P4EST_MAXLEVEL);
      try lia; reflexivity. }
  assert (p4est_quadrant_child_id s = i) as Cs.
  { rewrite child_id_bits by (rewrite Ls; lia). rewrite Ls.
    destruct (B (P4EST_MAXLEVEL - level q) ltac:(lia)) as (_ & -> & ->).
    rewrite Z.eqb_refl. apply sibling_id_bits. exact Hi. }
  assert (same_xyl (parent_of s) (parent_of q)) as Ps.
  { unfold same_xyl, parent_of, p4est_quadrant_parent, set_xyl.
    cbn [x y level]. rewrite Ls. rewrite QUADRANT_LEN_pow by lia.
    split; [|split; [|reflexivity]]; apply Z.bits_inj'; intros k Hk;
      rewrite !clear_bit_testbit by lia;
      destruct (B k Hk) as (_ & Bx & By); rewrite ?Bx, ?By;
      destruct (k =? P4EST_MAXLEVEL - level q); cbn;
      rewrite ?andb_false_r; reflexivity. }
  assert (i = p4est_quadrant_child_id q -> same_xyl s q) as Same.
  { intros Ei. rewrite child_id_bits in Ei by lia.
    assert (negb (Z.land i 1 =? 0) = Z.testbit (x q) (P4EST_MAXLEVEL - level q) /\
            negb (Z.shiftr (Z.land i 2) 1 =? 0)
            = Z.testbit (y q) (P4EST_MAXLEVEL - level q)) as [Bx By].
    { rewrite Ei. destruct (Z.testbit (x q) _), (Z.testbit (y q) _);
        split; reflexivity. }
    unfold same_xyl. split; [|split; [|exact Ls]]; apply Z.bits_inj';
      intros k Hk; destruct (B k Hk) as (_ & Cx & Cy); rewrite ?Cx, ?Cy;
      destruct (Z.eqb_spec k (P4EST_MAXLEVEL - level q)) as [->|N];
      congruence. }
  repeat (split; [assumption|]).
  intros Ni.
  assert (p4est_quadrant_is_sibling_D q s = Some true) as D.
  { unfold p4est_quadrant_is_sibling_D.
    destruct (Z.eqb_spec (level q) 0); [lia|].
    destruct (p4est_quadrant_is_equal q s) eqn:Qs.
    - exfalso. apply Ni. rewrite <- Cs. apply is_equal_inv in Qs.
      destruct Qs as (Ex & Ey & El). unfold p4est_quadrant_child_id.
      rewrite Ex, Ey, El. reflexivity.
    - destruct (Z.gtb_spec (level q) 0); [|lia].
      destruct (Z.gtb_spec (level s) 0); [|lia]. cbn [andb]. f_equal.
      apply is_equal_inv. apply same_xyl_sym. exact Ps. }
  rewrite is_sibling_D_equiv in D by (assumption || (right; lia)).
  injection D as D. exact D.
Qed.

(** X4: for an extended quadrant [q] below the root and a sibling number
    [i] in [0 .. 3], [p4est_quadrant_sibling] yields an extended quadrant
    with child id [i] and the parent of [q]; it is [q] itself for the child
    id of [q], and a sibling of [q] in the sense of
    [p4est_quadrant_is_sibling] otherwise. *)
Theorem sibling_is_sibling (q r : p4est_quadrant_t) (i : Z) :
  p4est_quadrant_is_extended q = true -> 1 <= level q -> 0 <= i < 4 ->
  p4est_quadrant_is_extended (p4est_quadrant_sibling q r i) = true /\
  p4est_quadrant_child_id (p4est_quadrant_sibling q r i) = i /\
  same_xyl (parent_of (p4est_quadrant_sibling q r i)) (parent_of q) /\
  (i = p4est_quadrant_child_id q -> same_xyl (p4est_quadrant_sibling q r i) q) /\
  (i <> p4est_quadrant_child_id q ->
   p4est_quadrant_is_sibling q (p4est_quadrant_sibling q r i) = true).
Proof. exact (sibling_facts q r i). Qed.

Lemma sibling_is_sibling_witness :
  p4est_quadrant_child_id
    (p4est_quadrant_sibling (mkquad (2 ^ 28) 0 1 (user_data NULL))
                            quadrant_zero 2) = 2 /\
  p4est_quadrant_is_sibling (mkquad (2 ^ 28) 0 1 (user_data NULL))
    (p4est_quadrant_sibling (mkquad (2 ^ 28) 0 1 (user_data NULL))
                            quadrant_zero 2) = true.
Proof.
  pose proof (sibling_is_sibling (mkquad (2 ^ 28) 0 1 (user_data NULL))
                quadrant_zero 2 ltac:(vm_compute; reflexivity)
                ltac:(cbn; lia) ltac:(lia)) as (_ & C & _ & _ & S).
  split; [exact C|]. apply S. vm_compute. discriminate.
Defined.

(** One coordinate of a child: the coordinate of the parent, with the bit
    of the level of the child set for the upper half. *)
Lemma child_coord (c m : Z) (b : bool) :
  0 <= m -> Z.land c (2 ^ (m + 1) - 1) = 0 ->
  Z.land (if b then Z.lor c (2 ^ m) else c) (2 ^ m - 1) = 0 /\
  Z.testbit (if b then Z.lor c (2 ^ m) else c) m = b /\
  Z.land (if b then Z.lor c (2 ^ m) else c) (Z.lnot (2 ^ m)) = c /\
  Z.lor c (2 ^ m) = c + 2 ^ m.
Proof.
  intros Hm A.
  assert (forall k, 0 <= k < m + 1 -> Z.testbit c k = false) as Lo
    by (intros k Hk; apply (aligned_low_bits c (m + 1) k); (assumption || lia)).
  split; [|split; [|split]].
  - apply aligned_by_bits; [lia|]. intros k Hk.
    destruct b; [rewrite set_bit_testbit by lia|]; rewrite Lo by lia;
      [destruct (Z.eqb_spec k m); [lia|]|]; reflexivity.
  - destruct b; [rewrite set_bit_testbit, Z.eqb_refl by lia; apply orb_true_r|].
    apply Lo. lia.
  - apply Z.bits_inj'. intros k Hk. rewrite clear_bit_testbit by lia.
    destruct b; [rewrite set_bit_testbit by lia|];
      destruct (Z.eqb_spec k m) as [->|N]; cbn;
      rewrite ?andb_false_r, ?andb_true_r, ?orb_false_r;
      try reflexivity; symmetry; apply Lo; lia.
  - assert (Z.land c (2 ^ m) = 0) as D.
    { apply Z.eqb_eq. rewrite land_pow2_eqb, Lo by lia. reflexivity. }
    rewrite (Z.add_nocarry_lxor _ _ D). symmetry. apply Z.lxor_lor. exact D.
Qed.

(** An aligned coordinate of the [int32_t] range has room for one more step
    of its alignment. *)
Lemma aligned_room (c m : Z) :
  0 <= m <= 30 -> Z.land c (2 ^ (m + 1) - 1) = 0 -> int32_range c ->
  int32_range (c + 2 ^ m).
Proof.
  intros Hm A R. apply aligned_mod in A; [|lia]. unfold int32_range in *.
  assert (0 < 2 ^ m) as Pm by (apply Z.pow_pos_nonneg; lia).
  assert (2 ^ (m + 1) = 2 * 2 ^ m) as E1 by (rewrite Z.pow_add_r by lia; lia).
  assert (2 ^ 31 = 2 ^ (m + 1) * 2 ^ (30 - m)) as E2.
  { rewrite <- Z.pow_add_r by lia. f_equal. lia. }
  apply Z.mod_divide in A; [|lia]. destruct A as [k Ek].
  assert (0 < 2 ^ (30 - m)) as Pq by (apply Z.pow_pos_nonneg; lia).
  rewrite E2 in R |- *. rewrite Ek in R |- *.
  remember (2 ^ (m + 1)) as H2. remember (2 ^ (30 - m)) as Q.
  assert (k < Q) by (apply (Z.mul_lt_mono_pos_r H2); lia).
  assert (k * H2 + H2 <= H2 * Q) by nia. lia.
Qed.

(** X5: the four children that [p4est_quadrant_children] makes of an
    extended quadrant above the deepest level form a family for
    [p4est_quadrant_is_family]; the child number [i] is extended, has child
    id [i], has the quadrant as its parent for [p4est_quadrant_is_parent]
    and [p4est_quadrant_parent] leads back to the quadrant. *)
Theorem children_round_trip (q t0 t1 t2 t3 : p4est_quadrant_t) :
  p4est_quadrant_is_extended q = true -> level q < P4EST_MAXLEVEL ->
  int32_range (x q) -> int32_range (y q) ->
  let cs := p4est_quadrant_children q t0 t1 t2 t3 in
  p4est_quadrant_is_family (fst (fst (fst cs))) (snd (fst (fst cs)))
                           (snd (fst cs)) (snd cs) = true /\
  forall i c,
    nth_error [fst (fst (fst cs)); snd (fst (fst cs)); snd (fst cs); snd cs] i
      = Some c ->
    p4est_quadrant_is_extended c = true /\
    p4est_quadrant_child_id c = Z.of_nat i /\
    p4est_quadrant_is_parent q c = true /\
    same_xyl (parent_of c) q.
Proof.
  intros E Lt Rx Ry. destruct (is_extended_inv q E) as (L & Ax & Ay).
  unfold P4EST_MAXLEVEL in *.
  set (m := 29 - (level q + 1)).
  assert (0 <= m <= 28) as Hm by (unfold m; lia).
  replace (29 - level q) with (m + 1) in Ax, Ay by (unfold m; lia).
  assert (P4EST_QUADRANT_LEN (level q + 1) = 2 ^ m) as EH
    by (rewrite QUADRANT_LEN_pow by (unfold P4EST_MAXLEVEL; lia); reflexivity).
  (* every child from the two bits of its number *)
  assert (forall (bx b_y : bool) (t : p4est_quadrant_t),
            let c := set_xyl t (if bx then Z.lor (x q) (2 ^ m) else x q)
                             (if b_y then Z.lor (y q) (2 ^ m) else y q)
                             (level q + 1) in
            p4est_quadrant_is_extended c = true /\
            p4est_quadrant_child_id c
            = (if bx then 1 else 0) + (if b_y then 2 else 0) /\
            p4est_quadrant_is_parent q c = true /\
            same_xyl (parent_of c) q) as One.
  { intros bx b_y t c.
    destruct (child_coord (x q) m bx ltac:(lia) Ax) as (X1 & X2 & X3 & _).
    destruct (child_coord (y q) m b_y ltac:(lia) Ay) as (Y1 & Y2 & Y3 & _).
    split; [|split; [|split]].
    - unfold p4est_quadrant_is_extended, c, set_xyl. cbn [x y level].
      rewrite EH, X1, Y1.
      destruct (Z.geb_spec (level q + 1) 0),
               (Z.leb_spec (level q + 1) P4EST_MAXLEVEL);
        unfold P4EST_MAXLEVEL in *; try lia; reflexivity.
    - rewrite child_id_bits by (cbn; unfold P4EST_MAXLEVEL; lia).
      unfold c, set_xyl, P4EST_MAXLEVEL. cbn [x y level]. fold m.
      rewrite X2, Y2. reflexivity.
    - unfold p4est_quadrant_is_parent, c, set_xyl. cbn [x y level].
      rewrite EH, X3, Y3, !Z.eqb_refl. reflexivity.
    - unfold same_xyl, parent_of, p4est_quadrant_parent, c, set_xyl.
      cbn [x y level]. rewrite EH, X3, Y3.
      rewrite int8_small by lia. repeat split; lia. }
  cbv zeta. unfold p4est_quadrant_children. cbv zeta.
  cbn [fst snd set_xyl x y level]. rewrite (int8_small (level q + 1)) by lia.
  rewrite EH. split.
  - destruct (child_coord (x q) m true ltac:(lia) Ax) as (_ & _ & _ & Sx).
    destruct (child_coord (y q) m true ltac:(lia) Ay) as (_ & _ & _ & Sy).
    pose proof (aligned_room (x q) m ltac:(lia) Ax Rx) as Bx.
    pose proof (aligned_room (y q) m ltac:(lia) Ay Ry) as B_y.
    unfold p4est_quadrant_is_family, set_xyl. cbn [x y level]. rewrite ?EH.
    destruct (Z.eqb_spec (level q + 1) 0); [lia|].
    rewrite !Z.eqb_refl. cbn [negb orb andb].
    unfold int32_range in Bx, B_y.
    rewrite Sx, Sy. rewrite !int32_small by assumption.
    rewrite !Z.eqb_refl. reflexivity.
  - intros i c Hc.
    destruct i as [|[|[|[|i]]]]; cbn [nth_error] in Hc;
      try (destruct i; discriminate); inversion Hc; subst c.
    + exact (One false false t0).
    + exact (One true false t1).
    + exact (One false true t2).
    + exact (One true true t3).
Qed.

Lemma children_round_trip_witness :
  let cs := p4est_quadrant_children (mkquad (2 ^ 28) 0 1 (user_data NULL))
              quadrant_zero quadrant_zero quadrant_zero quadrant_zero in
  p4est_quadrant_is_family (fst (fst (fst cs))) (snd (fst (fst cs)))
                           (snd (fst cs)) (snd cs) = true.
Proof.
  cbv zeta.
  exact (proj1 (children_round_trip (mkquad (2 ^ 28) 0 1 (user_data NULL))
                  quadrant_zero quadrant_zero quadrant_zero quadrant_zero
                  ltac:(vm_compute; reflexivity)
                  ltac:(unfold P4EST_MAXLEVEL; cbn; lia)
                  ltac:(unfold int32_range; cbn; lia)
                  ltac:(unfold int32_range; cbn; lia))).
Defined.


(* ================================================================= *)
(** ** Translation, transformation and corners *)

Lemma int32_add_idem (a b : Z) : int32 (int32 a + b) = int32 (a + b).
Proof.
  unfold int32. f_equal.
  replace ((a + 2 ^ 31) mod 2 ^ 32 - 2 ^ 31 + b + 2 ^ 31)
    with ((a + 2 ^ 31) mod 2 ^ 32 + b) by lia.
  rewrite Z.add_mod_idemp_l by lia. f_equal. lia.
Qed.

Lemma int32_sub_idem (a b : Z) : int32 (a - int32 b) = int32 (a - b).
Proof.
  unfold int32. f_equal.
  replace (a - ((b + 2 ^ 31) mod 2 ^ 32 - 2 ^ 31) + 2 ^ 31)
    with (a + 2 ^ 32 - (b + 2 ^ 31) mod 2 ^ 32) by lia.
  rewrite Zminus_mod, Z.mod_mod by lia. rewrite <- Zminus_mod.
  f_equal. lia.
Qed.

Lemma int32_mod_pow2 (z m : Z) :
  0 <= m <= 32 -> int32 z mod 2 ^ m = z mod 2 ^ m.
Proof.
  intros Hm. unfold int32.
  pose proof (Z.div_mod (z + 2 ^ 31) (2 ^ 32) ltac:(lia)) as D.
  assert (2 ^ 32 = 2 ^ (32 - m) * 2 ^ m) as E
    by (rewrite <- Z.pow_add_r by lia; f_equal; lia).
  assert (0 < 2 ^ m) as Pm by (apply Z.pow_pos_nonneg; lia).
  replace ((z + 2 ^ 31) mod 2 ^ 32 - 2 ^ 31)
    with (z + (- ((z + 2 ^ 31) / 2 ^ 32) * 2 ^ (32 - m)) * 2 ^ m)
    by (rewrite <- Z.mul_assoc, <- E; lia).
  apply Z.mod_add. lia.
Qed.

(** Alignment survives the wrap-around of [int32_t] and any shift by a
    multiple of the side length. *)
Lemma aligned_int32 (z m : Z) :
  0 <= m <= 32 -> z mod 2 ^ m = 0 -> Z.land (int32 z) (2 ^ m - 1) = 0.
Proof.
  intros Hm A. apply aligned_mod; [lia|]. rewrite int32_mod_pow2 by lia. exact A.
Qed.

Lemma root_len_mod (m : Z) : 0 <= m <= 29 -> P4EST_ROOT_LEN mod 2 ^ m = 0.
Proof.
  intros Hm. change P4EST_ROOT_LEN with (2 ^ 29).
  replace (2 ^ 29) with (2 ^ (29 - m) * 2 ^ m)
    by (rewrite <- Z.pow_add_r by lia; f_equal; lia).
  apply Z.mod_mul. pose proof (Z.pow_pos_nonneg 2 m). lia.
Qed.

Lemma extended_by_mod (q : p4est_quadrant_t) :
  0 <= level q <= P4EST_MAXLEVEL ->
  x q mod 2 ^ (P4EST_MAXLEVEL - level q) = 0 ->
  y q mod 2 ^ (P4EST_MAXLEVEL - level q) = 0 ->
  p4est_quadrant_is_extended q = true.
Proof.
  intros L Mx My. unfold p4est_quadrant_is_extended.
  rewrite QUADRANT_LEN_pow by lia.
  apply aligned_mod in Mx; [|lia]. apply aligned_mod in My; [|lia].
  rewrite Mx, My.
  destruct (Z.geb_spec (level q) 0), (Z.leb_spec (level q) P4EST_MAXLEVEL);
    try lia; reflexivity.
Qed.

Lemma extended_mod (q : p4est_quadrant_t) :
  p4est_quadrant_is_extended q = true ->
  0 <= level q <= P4EST_MAXLEVEL /\
  x q mod 2 ^ (P4EST_MAXLEVEL - level q) = 0 /\
  y q mod 2 ^ (P4EST_MAXLEVEL - level q) = 0.
Proof.
  intros E. destruct (is_extended_inv q E) as (L & Ax & Ay).
  apply aligned_mod in Ax; [|lia]. apply aligned_mod in Ay; [|lia]. auto.
Qed.

(** X6: [p4est_quadrant_translate] across a face [0 .. 3] keeps an extended
    quadrant extended at its level, also when the addition wraps around,
    and the translation across the opposite face undoes it. *)
Theorem translate_round_trip (q : p4est_quadrant_t) (face : Z) :
  p4est_quadrant_is_extended q = true ->
  int32_range (x q) -> int32_range (y q) -> 0 <= face < 4 ->
  exists q',
    p4est_quadrant_translate q face = Some q' /\
    p4est_quadrant_is_extended q' = true /\ level q' = level q /\
    p4est_quadrant_translate q' ((face + 2) mod 4) = Some q.
Proof.
  intros E Rx Ry Hf. destruct (extended_mod q E) as (L & Mx & My).
  pose proof (root_len_mod (P4EST_MAXLEVEL - level q)
                ltac:(unfold P4EST_MAXLEVEL in *; lia)) as MR.
  assert (forall c, c mod 2 ^ (P4EST_MAXLEVEL - level q) = 0 ->
            int32 (c + P4EST_ROOT_LEN) mod 2 ^ (P4EST_MAXLEVEL - level q) = 0 /\
            int32 (c - P4EST_ROOT_LEN) mod 2 ^ (P4EST_MAXLEVEL - level q) = 0)
    as Al.
  { intros c Mc. rewrite !int32_mod_pow2 by (unfold P4EST_MAXLEVEL in *; lia).
    rewrite Z.add_mod, Zminus_mod, Mc, MR by (apply Z.pow_nonzero; lia).
    split; reflexivity. }
  assert (forall c, int32_range c ->
            int32 (int32 (c + P4EST_ROOT_LEN) - P4EST_ROOT_LEN) = c /\
            int32 (int32 (c - P4EST_ROOT_LEN) + P4EST_ROOT_LEN) = c) as Back.
  { intros c Rc. unfold int32_range in Rc. split.
    - replace (int32 (c + P4EST_ROOT_LEN) - P4EST_ROOT_LEN)
        with (int32 (c + P4EST_ROOT_LEN) + - P4EST_ROOT_LEN) by lia.
      rewrite int32_add_idem.
      replace (c + P4EST_ROOT_LEN + - P4EST_ROOT_LEN) with c by lia.
      apply int32_small. lia.
    - rewrite int32_add_idem.
      replace (c - P4EST_ROOT_LEN + P4EST_ROOT_LEN) with c by lia.
      apply int32_small. lia. }
  destruct (Al (x q) Mx) as [Axp Axm]. destruct (Al (y q) My) as [Ayp Aym].
  destruct (Back (x q) Rx) as [Bxp Bxm]. destruct (Back (y q) Ry) as [Byp Bym].
  assert (face = 0 \/ face = 1 \/ face = 2 \/ face = 3) as C by lia.
  destruct q as [qx qy ql qp]. cbn [x y level] in *.
  unfold p4est_quadrant_translate, set_xyl.
  destruct C as [->|[->|[->| ->]]]; cbn [Z.eqb Z.add Z.modulo Z.div_eucl
    Z.pos_div_eucl Pos.add Pos.succ Z.leb Z.ltb Z.compare Pos.compare
    Pos.compare_cont Z.mul Pos.mul Z.sub Z.opp Z.pos_sub snd fst Z.succ_double
    Z.double Z.pred_double Pos.pred_double x y level p];
    eexists; (split; [reflexivity|]);
    (split; [apply extended_by_mod; cbn [x y level]; assumption|]);
    (split; [reflexivity|]); cbn [x y level p];
    rewrite ?Bxp, ?Bxm, ?Byp, ?Bym; reflexivity.
Qed.

Lemma translate_round_trip_witness :
  exists q',
    p4est_quadrant_translate (mkquad (2 ^ 28) 0 1 (user_data NULL)) 3 = Some q' /\
    p4est_quadrant_is_extended q' = true /\ level q' = 1 /\
    p4est_quadrant_translate q' ((3 + 2) mod 4)
    = Some (mkquad (2 ^ 28) 0 1 (user_data NULL)).
Proof.
  apply (translate_round_trip (mkquad (2 ^ 28) 0 1 (user_data NULL)) 3);
    try (vm_compute; reflexivity); try (unfold int32_range; cbn; lia).
Defined.

Lemma is_valid_split (q : p4est_quadrant_t) :
  p4est_quadrant_is_valid q
  = p4est_quadrant_is_extended q && p4est_quadrant_is_inside q.
Proof.
  unfold p4est_quadrant_is_valid, p4est_quadrant_is_extended,
    p4est_quadrant_is_inside.
  destruct ((level q >=? 0) && (level q <=? P4EST_MAXLEVEL)),
           ((x q >=? 0) && (x q <? P4EST_ROOT_LEN)),
           ((y q >=? 0) && (y q <? P4EST_ROOT_LEN)),
           (Z.land (x q) (P4EST_QUADRANT_LEN (level q) - 1) =? 0),
           (Z.land (y q) (P4EST_QUADRANT_LEN (level q) - 1) =? 0); reflexivity.
Qed.

(** The mirror image [th - a] of an aligned coordinate. *)
Lemma mirror_coord (a l : Z) :
  0 <= l <= P4EST_MAXLEVEL -> a mod 2 ^ (P4EST_MAXLEVEL - l) = 0 ->
  int32_range a ->
  int32 (P4EST_LAST_OFFSET l - a) mod 2 ^ (P4EST_MAXLEVEL - l) = 0 /\
  int32 (P4EST_LAST_OFFSET l - int32 (P4EST_LAST_OFFSET l - a)) = a /\
  (0 <= a < P4EST_ROOT_LEN ->
   0 <= int32 (P4EST_LAST_OFFSET l - a) < P4EST_ROOT_LEN).
Proof.
  intros L A R. unfold P4EST_LAST_OFFSET.
  rewrite QUADRANT_LEN_pow by lia. unfold P4EST_MAXLEVEL in *.
  set (m := 29 - l) in *.
  assert (0 < 2 ^ m) as Pm by (apply Z.pow_pos_nonneg; unfold m; lia).
  pose proof (root_len_mod m ltac:(unfold m; lia)) as MR.
  split; [|split].
  - rewrite int32_mod_pow2 by (unfold m; lia).
    rewrite Zminus_mod, (Zminus_mod P4EST_ROOT_LEN), MR, A, Z.mod_same by lia.
    reflexivity.
  - rewrite int32_sub_idem.
    replace (P4EST_ROOT_LEN - 2 ^ m - (P4EST_ROOT_LEN - 2 ^ m - a)) with a by lia.
    apply int32_small. exact R.
  - intros I. change P4EST_ROOT_LEN with (2 ^ 29) in *.
    assert (2 ^ 29 = 2 ^ (29 - m) * 2 ^ m) as E
      by (rewrite <- Z.pow_add_r by (unfold m; lia); f_equal; lia).
    apply Z.mod_divide in A; [|lia]. destruct A as [k Ek].
    assert (0 < 2 ^ (29 - m)) as Pq by (apply Z.pow_pos_nonneg; unfold m; lia).
    assert (a + 2 ^ m <= 2 ^ 29).
    { rewrite E, Ek in *. remember (2 ^ m) as H. remember (2 ^ (29 - m)) as Q.
      assert (k < Q) by (apply (Z.mul_lt_mono_pos_r H); lia). nia. }
    rewrite int32_small by lia. lia.
Qed.

(** X7: [p4est_quadrant_transform] with a type [0 .. 7] maps an extended
    quadrant to an extended quadrant of its level and a valid quadrant to a
    valid one; the transform of the inverse type leads back to the
    coordinates and level of the quadrant (the two rotations by 90 degrees
    undo each other, every other transform undoes itself). *)
Theorem transform_inverse (q r r' : p4est_quadrant_t) (t : Z) :
  p4est_quadrant_is_extended q = true ->
  int32_range (x q) -> int32_range (y q) -> 0 <= t < 8 ->
  exists q',
    p4est_quadrant_transform q r t = Some q' /\
    p4est_quadrant_is_extended q' = true /\ level q' = level q /\
    (p4est_quadrant_is_valid q = true -> p4est_quadrant_is_valid q' = true) /\
    exists q'',
      p4est_quadrant_transform q' r' (inverse_transform t) = Some q'' /\
      same_xyl q'' q.
Proof.
  intros E Rx Ry Ht. destruct (extended_mod q E) as (L & Mx & My).
  destruct (mirror_coord (x q) (level q) L Mx Rx) as (X1 & X2 & X3).
  destruct (mirror_coord (y q) (level q) L My Ry) as (Y1 & Y2 & Y3).
  assert (p4est_quadrant_is_valid q = true ->
          0 <= x q < P4EST_ROOT_LEN /\ 0 <= y q < P4EST_ROOT_LEN) as V.
  { rewrite is_valid_split. intros H. apply andb_prop in H. destruct H as [_ H].
    unfold p4est_quadrant_is_inside in H.
    apply andb_prop in H. destruct H as [Hx Hy].
    apply andb_prop in Hx. apply andb_prop in Hy. lia. }
  assert (forall a b t0,
            a mod 2 ^ (P4EST_MAXLEVEL - level q) = 0 ->
            b mod 2 ^ (P4EST_MAXLEVEL - level q) = 0 ->
            p4est_quadrant_is_extended (set_xyl t0 a b (level q)) = true /\
            (0 <= a < P4EST_ROOT_LEN -> 0 <= b < P4EST_ROOT_LEN ->
             p4est_quadrant_is_valid (set_xyl t0 a b (level q)) = true)) as Mk.
  { intros a b t0 Ma Mb.
    assert (p4est_quadrant_is_extended (set_xyl t0 a b (level q)) = true) as Ex
      by (apply extended_by_mod; cbn [x y level set_xyl]; assumption).
    split; [exact Ex|]. intros Ia Ib. rewrite is_valid_split, Ex.
    unfold p4est_quadrant_is_inside, set_xyl. cbn [x y].
    destruct (Z.geb_spec a 0), (Z.ltb_spec a P4EST_ROOT_LEN),
             (Z.geb_spec b 0), (Z.ltb_spec b P4EST_ROOT_LEN); try lia;
      reflexivity. }
  assert (t = 0 \/ t = 1 \/ t = 2 \/ t = 3 \/ t = 4 \/ t = 5 \/ t = 6 \/ t = 7)
    as C by lia.
  unfold p4est_quadrant_transform.
  destruct C as [->|[->|[->|[->|[->|[->|[->| ->]]]]]]];
    cbn [Z.eqb Pos.eqb inverse_transform];
    (eexists; split; [reflexivity|]);
    (split; [apply Mk; assumption|]);
    (split; [reflexivity|]);
    (split; [intros Vq; destruct (V Vq) as [Vx Vy]; apply Mk; auto|]);
    cbn [level set_xyl x y];
    (eexists; split; [reflexivity|]);
    unfold same_xyl, set_xyl; cbn [x y level]; rewrite ?X2, ?Y2; auto.
Qed.

Lemma transform_inverse_witness :
  exists q',
    p4est_quadrant_transform (mkquad (2 ^ 28) 0 2 (user_data NULL))
                             quadrant_zero 1 = Some q' /\
    p4est_quadrant_is_extended q' = true /\ level q' = 2 /\
    (p4est_quadrant_is_valid (mkquad (2 ^ 28) 0 2 (user_data NULL)) = true ->
     p4est_quadrant_is_valid q' = true) /\
    exists q'',
      p4est_quadrant_transform q' quadrant_zero (inverse_transform 1) = Some q'' /\
      same_xyl q'' (mkquad (2 ^ 28) 0 2 (user_data NULL)).
Proof.
  apply (transform_inverse (mkquad (2 ^ 28) 0 2 (user_data NULL))
           quadrant_zero quadrant_zero 1);
    try (vm_compute; reflexivity); try (unfold int32_range; cbn; lia).
Defined.

(** The last offset of a level below the root has the bit of the level. *)
Lemma last_offset_bit (l : Z) :
  1 <= l <= P4EST_MAXLEVEL ->
  Z.testbit (P4EST_LAST_OFFSET l) (P4EST_MAXLEVEL - l) = true /\
  Z.lor (P4EST_LAST_OFFSET l) (2 ^ (P4EST_MAXLEVEL - l)) = P4EST_LAST_OFFSET l.
Proof.
  intros L. unfold P4EST_LAST_OFFSET. rewrite QUADRANT_LEN_pow by lia.
  change P4EST_ROOT_LEN with (2 ^ 29). unfold P4EST_MAXLEVEL in *.
  set (m := 29 - l).
  assert (Z.testbit (2 ^ 29 - 2 ^ m) m = true) as B.
  { apply Z.testbit_true; [unfold m; lia|].
    assert (2 ^ 29 = 2 ^ m * (2 * 2 ^ (28 - m))) as E.
    { replace (2 * 2 ^ (28 - m)) with (2 ^ (29 - m))
        by (replace (29 - m) with (1 + (28 - m)) by lia;
            rewrite Z.pow_add_r by (unfold m; lia); reflexivity).
      rewrite <- Z.pow_add_r by (unfold m; lia). f_equal. lia. }
    assert (0 < 2 ^ m) by (apply Z.pow_pos_nonneg; unfold m; lia).
    replace (2 ^ 29 - 2 ^ m) with ((2 * 2 ^ (28 - m) - 1) * 2 ^ m) by lia.
    rewrite Z.div_mul by lia.
    replace (2 * 2 ^ (28 - m) - 1) with (1 + (2 ^ (28 - m) - 1) * 2) by lia.
    rewrite Z.mod_add by lia. reflexivity. }
  split; [exact B|].
  apply Z.bits_inj'. intros k Hk. rewrite set_bit_testbit by (unfold m; lia).
  destruct (Z.eqb_spec k m) as [->|N]; [rewrite B; reflexivity|apply orb_false_r].
Qed.

Lemma corner_facts (q : p4est_quadrant_t) (z : Z) (inside : bool) :
  0 <= level q <= P4EST_MAXLEVEL -> 0 <= z < 4 ->
  exists q',
    p4est_quadrant_corner q z inside = Some q' /\ level q' = level q /\
    (if inside then p4est_quadrant_is_valid q' = true
     else p4est_quadrant_is_extended q' = true /\
          p4est_quadrant_is_inside q' = false) /\
    (inside = true -> 1 <= level q -> p4est_quadrant_child_id q' = z).
Proof.
  intros L Hz.
  assert (0 < P4EST_QUADRANT_LEN (level q) <= P4EST_ROOT_LEN) as BH.
  { rewrite QUADRANT_LEN_pow by lia. change P4EST_ROOT_LEN with (2 ^ 29).
    unfold P4EST_MAXLEVEL in *.
    split; [apply Z.pow_pos_nonneg; lia|apply Z.pow_le_mono_r; lia]. }
  pose proof (root_len_mod (P4EST_MAXLEVEL - level q)
                ltac:(unfold P4EST_MAXLEVEL in *; lia)) as MR.
  assert (P4EST_QUADRANT_LEN (level q) mod 2 ^ (P4EST_MAXLEVEL - level q) = 0)
    as MH by (rewrite QUADRANT_LEN_pow by lia; apply Z.mod_same; lia).
  assert (0 mod 2 ^ (P4EST_MAXLEVEL - level q) = 0) as M0 by apply Zmod_0_l.
  assert (P4EST_LAST_OFFSET (level q) mod 2 ^ (P4EST_MAXLEVEL - level q) = 0)
    as ML.
  { unfold P4EST_LAST_OFFSET. rewrite Zminus_mod, MR, MH. reflexivity. }
  assert (int32 (- P4EST_QUADRANT_LEN (level q))
          = - P4EST_QUADRANT_LEN (level q)) as EI.
  { apply int32_small. change P4EST_ROOT_LEN with (2 ^ 29) in BH. lia. }
  assert ((- P4EST_QUADRANT_LEN (level q)) mod 2 ^ (P4EST_MAXLEVEL - level q) = 0)
    as MN.
  { replace (- P4EST_QUADRANT_LEN (level q))
      with (0 - P4EST_QUADRANT_LEN (level q)) by lia.
    rewrite Zminus_mod, MH, M0. reflexivity. }
  assert (forall a b,
            a mod 2 ^ (P4EST_MAXLEVEL - level q) = 0 ->
            b mod 2 ^ (P4EST_MAXLEVEL - level q) = 0 ->
            p4est_quadrant_is_extended (set_xyl q a b (level q)) = true) as Ex
    by (intros a b Ma Mb; apply extended_by_mod; cbn [x y level set_xyl];
        assumption).
  assert (z = 0 \/ z = 1 \/ z = 2 \/ z = 3) as C by lia.
  unfold p4est_quadrant_corner. rewrite EI.
  destruct inside.
  - (* the corner quadrant inside the root *)
    assert (forall a b,
              (a = 0 \/ a = P4EST_LAST_OFFSET (level q)) ->
              (b = 0 \/ b = P4EST_LAST_OFFSET (level q)) ->
              p4est_quadrant_is_valid (set_xyl q a b (level q)) = true) as Va.
    { intros a b Ha Hb. rewrite is_valid_split, Ex
        by (destruct Ha as [->| ->], Hb as [->| ->]; assumption).
      unfold p4est_quadrant_is_inside, set_xyl, P4EST_LAST_OFFSET in *.
      cbn [x y].
      destruct (Z.geb_spec a 0), (Z.ltb_spec a P4EST_ROOT_LEN),
               (Z.geb_spec b 0), (Z.ltb_spec b P4EST_ROOT_LEN); try lia;
        reflexivity. }
    assert (forall a b (ba bb : bool),
              1 <= level q ->
              a = (if ba then P4EST_LAST_OFFSET (level q) else 0) ->
              b = (if bb then P4EST_LAST_OFFSET (level q) else 0) ->
              p4est_quadrant_child_id (set_xyl q a b (level q))
              = (if ba then 1 else 0) + (if bb then 2 else 0)) as Ci.
    { intros a b ba bb L1 -> ->. rewrite child_id_bits by (cbn; lia).
      unfold set_xyl. cbn [x y level].
      destruct (last_offset_bit (level q) ltac:(lia)) as [B _].
      destruct ba, bb; rewrite ?B, ?Z.testbit_0_l; reflexivity. }
    destruct C as [->|[->|[->| ->]]]; cbn [Z.eqb Pos.eqb];
      (eexists; split; [reflexivity|]); (split; [reflexivity|]);
      (split; [apply Va; auto|]); intros _ L1.
    + apply (Ci _ _ false false); auto.
    + apply (Ci _ _ true false); auto.
    + apply (Ci _ _ false true); auto.
    + apply (Ci _ _ true true); auto.
  - destruct C as [->|[->|[->| ->]]]; cbn [Z.eqb Pos.eqb];
      (eexists; split; [reflexivity|]); (split; [reflexivity|]);
      (split; [|discriminate]);
      (split; [apply Ex; assumption|]);
      unfold p4est_quadrant_is_inside, set_xyl; cbn [x y];
      match goal with
      | |- (?a >=? 0) && (?a <? ?r) && ((?b >=? 0) && (?b <? ?r)) = false =>
        destruct (Z.geb_spec a 0), (Z.ltb_spec a r),
                 (Z.geb_spec b 0), (Z.ltb_spec b r); try lia; reflexivity
      end.
Qed.

(** X8: for a level in [0 .. Lmax] and a corner [0 .. 3],
    [p4est_quadrant_corner] keeps the level and meets its own closing
    assertion: with [inside] set the quadrant is valid, else it is extended
    and outside of the root; the inner corner quadrant of a level below the
    root has the corner number as its child id. *)
Theorem corner_is_valid (q : p4est_quadrant_t) (z : Z) (inside : bool) :
  0 <= level q <= P4EST_MAXLEVEL -> 0 <= z < 4 ->
  exists q',
    p4est_quadrant_corner q z inside = Some q' /\ level q' = level q /\
    (if inside then p4est_quadrant_is_valid q' = true
     else p4est_quadrant_is_extended q' = true /\
          p4est_quadrant_is_inside q' = false) /\
    (inside = true -> 1 <= level q -> p4est_quadrant_child_id q' = z).
Proof. exact (corner_facts q z inside). Qed.

Lemma corner_is_valid_witness :
  exists q',
    p4est_quadrant_corner (mkquad 0 0 2 (user_data NULL)) 1 true = Some q' /\
    level q' = 2 /\ p4est_quadrant_is_valid q' = true /\
    (true = true -> 1 <= 2 -> p4est_quadrant_child_id q' = 1).
Proof.
  apply (corner_is_valid (mkquad 0 0 2 (user_data NULL)) 1 true);
    unfold P4EST_MAXLEVEL; cbn; lia.
Defined.

Lemma corner_level_loop_bounds (fuel : nat) (z l : Z) :
  forall quad, 0 <= l -> level quad <= P4EST_MAXLEVEL ->
  (Z.to_nat (level quad - l) <= fuel)%nat ->
  exists r, corner_level_loop fuel quad z l = Some r /\
            l <= r <= Z.max l (level quad).
Proof.
  induction fuel as [|fuel IH]; intros quad Hl Hq Hf.
  - cbn [corner_level_loop]. destruct (Z.gtb_spec (level quad) l); [lia|].
    exists l. split; [reflexivity|lia].
  - cbn [corner_level_loop]. destruct (Z.gtb_spec (level quad) l) as [G|G].
    2:{ exists l. split; [reflexivity|lia]. }
    match goal with
    | |- exists r, (if ?c then _ else _) = _ /\ _ => destruct c
    end.
    + exists (level quad). split; [reflexivity|lia].
    + cbv zeta.
      match goal with
      | |- exists r, corner_level_loop _ ?q' _ _ = _ /\ _ =>
        assert (level q' = level quad - 1) as Lq
      end.
      { cbn [level set_xyl p4est_quadrant_parent].
        apply int8_small. unfold P4EST_MAXLEVEL in *. lia. }
      match goal with
      | |- exists r, corner_level_loop _ ?q' _ _ = _ /\ _ =>
        destruct (IH q' Hl ltac:(lia) ltac:(lia)) as (r & Er & Br)
      end.
      exists r. split; [exact Er|lia].
Qed.

Lemma corner_level_at_corner (fuel : nat) (q c : p4est_quadrant_t) (z l : Z) :
  0 <= l < level q -> level q <= P4EST_MAXLEVEL -> 0 <= z < 4 ->
  p4est_quadrant_corner q z true = Some c ->
  corner_level_loop (S fuel) c z l = Some (level q).
Proof.
  intros Hl Hq Hz Hc.
  destruct (corner_facts q z true ltac:(lia) Hz) as (c' & Hc' & Lc & Vc & Cid).
  rewrite Hc in Hc'. inversion Hc'. subst c'. clear Hc'.
  specialize (Cid eq_refl ltac:(lia)).
  rewrite is_valid_split in Vc. apply andb_prop in Vc. destruct Vc as [Ec _].
  destruct (sibling_facts c quadrant_zero z Ec ltac:(lia) Hz)
    as (_ & _ & _ & Same & _).
  destruct (Same (eq_sym Cid)) as (Sx & Sy & _).
  cbn [corner_level_loop]. rewrite Sx, Sy, Lc.
  destruct (Z.gtb_spec (level q) l); [|lia].
  assert (z = 0 \/ z = 1 \/ z = 2 \/ z = 3) as C by lia.
  unfold p4est_quadrant_corner in Hc.
  destruct C as [->|[->|[->| ->]]]; cbn [Z.eqb Pos.eqb] in Hc;
    inversion Hc; subst c; clear Hc; cbn [x y level set_xyl];
    cbn [Z.eqb Pos.eqb andb orb];
    rewrite ?Z.geb_leb, ?Z.leb_refl; reflexivity.
Qed.




(* ================================================================= *)
(** ** The order of the quadrants *)

(** X10: on quadrants whose coordinates are at most one root length outside
    of the root, [p4est_quadrant_compare] is a strict total order: it is
    negative exactly when the Morton index of the deepest level is smaller,
    or equal with a smaller level; it is zero exactly for the quadrants
    that [p4est_quadrant_is_equal] identifies; swapping the arguments swaps
    the sign; and it is transitive. *)
Theorem compare_total_order (q1 q2 q3 : p4est_quadrant_t) :
  quadrant_in_band q1 = true -> quadrant_in_band q2 = true ->
  quadrant_in_band q3 = true ->
  (p4est_quadrant_compare q1 q2 < 0 <->
   p4est_quadrant_linear_id q1 P4EST_MAXLEVEL
     < p4est_quadrant_linear_id q2 P4EST_MAXLEVEL \/
   (p4est_quadrant_linear_id q1 P4EST_MAXLEVEL
      = p4est_quadrant_linear_id q2 P4EST_MAXLEVEL /\ level q1 < level q2)) /\
  (p4est_quadrant_compare q1 q2 = 0 <-> p4est_quadrant_is_equal q1 q2 = true) /\
  (p4est_quadrant_compare q2 q1 > 0 <-> p4est_quadrant_compare q1 q2 < 0) /\
  (p4est_quadrant_compare q1 q2 < 0 -> p4est_quadrant_compare q2 q3 < 0 ->
   p4est_quadrant_compare q1 q3 < 0).
Proof.
  intros B1 B2 B3. split; [|split; [|split]].
  - rewrite compare_lt_iff by assumption. unfold quadrant_lt, morton_key.
    reflexivity.
  - rewrite compare_eq_iff by assumption. rewrite is_equal_inv. reflexivity.
  - apply compare_antisym; assumption.
  - intros L12 L23. apply compare_lt_iff in L12, L23; try assumption.
    apply compare_lt_iff; try assumption.
    exact (quadrant_lt_trans q1 q2 q3 L12 L23).
Qed.

Lemma compare_total_order_witness :
  p4est_quadrant_compare (mkquad (- 2 ^ 28) 0 1 (user_data NULL))
                         (mkquad 0 0 0 (user_data NULL)) > 0 <->
  p4est_quadrant_compare (mkquad 0 0 0 (user_data NULL))
                         (mkquad (- 2 ^ 28) 0 1 (user_data NULL)) < 0.
Proof.
  exact (proj1 (proj2 (proj2
    (compare_total_order (mkquad 0 0 0 (user_data NULL))
       (mkquad (- 2 ^ 28) 0 1 (user_data NULL)) (mkquad 0 0 0 (user_data NULL))
       ltac:(vm_compute; reflexivity) ltac:(vm_compute; reflexivity)
       ltac:(vm_compute; reflexivity))))).
Defined.

Lemma is_ancestor_inv (a b : p4est_quadrant_t) :
  p4est_quadrant_is_ancestor a b = true <->
  level a < level b /\
  Z.shiftr (Z.lxor (x a) (x b)) (P4EST_MAXLEVEL - level a) = 0 /\
  Z.shiftr (Z.lxor (y a) (y b)) (P4EST_MAXLEVEL - level a) = 0.
Proof.
  unfold p4est_quadrant_is_ancestor.
  destruct (Z.geb_spec (level a) (level b)).
  - split; [discriminate|lia].
  - rewrite andb_true_iff, !Z.eqb_eq. split; [intros HH; split; [lia|exact HH]|tauto].
Qed.

Lemma shiftr_lxor_chain (a b c m n : Z) :
  0 <= n <= m ->
  Z.shiftr (Z.lxor a b) m = 0 -> Z.shiftr (Z.lxor b c) n = 0 ->
  Z.shiftr (Z.lxor a c) m = 0.
Proof.
  intros H Hab Hbc.
  assert (Z.shiftr (Z.lxor b c) m = 0) as Hbc'.
  { replace m with (n + (m - n)) by lia.
    rewrite <- Z.shiftr_shiftr by lia. rewrite Hbc. apply Z.shiftr_0_l. }
  assert (Z.lxor a c = Z.lxor (Z.lxor a b) (Z.lxor b c)) as ->.
  { rewrite Z.lxor_assoc, <- (Z.lxor_assoc b b c), Z.lxor_nilpotent, Z.lxor_0_l.
    reflexivity. }
  rewrite Z.shiftr_lxor, Hab, Hbc'. reflexivity.
Qed.

(** X11: [p4est_quadrant_is_ancestor] is a strict partial order that the
    comparison respects: it is transitive through an extended quadrant, an
    ancestor is never a descendant of its descendant, and an extended
    ancestor compares strictly below its descendant. *)
Theorem is_ancestor_order (a b c : p4est_quadrant_t) :
  p4est_quadrant_is_extended a = true ->
  p4est_quadrant_is_extended b = true ->
  quadrant_in_band a = true -> quadrant_in_band b = true ->
  p4est_quadrant_is_ancestor a b = true ->
  p4est_quadrant_is_ancestor b a = false /\
  p4est_quadrant_compare a b < 0 /\
  (p4est_quadrant_is_ancestor b c = true ->
   p4est_quadrant_is_ancestor a c = true).
Proof.
  intros Ea Eb Ba Bb An. split; [|split].
  - apply is_ancestor_inv in An. destruct An as (L & _).
    unfold p4est_quadrant_is_ancestor.
    destruct (Z.geb_spec (level b) (level a)); [reflexivity|lia].
  - apply compare_lt_iff; try assumption. apply ancestor_lt; assumption.
  - intros Bc. apply is_ancestor_inv in An, Bc. apply is_ancestor_inv.
    destruct An as (L1 & X1 & Y1). destruct Bc as (L2 & X2 & Y2).
    destruct (is_extended_inv b Eb) as (Lb & _ & _).
    split; [lia|].
    split; [apply (shiftr_lxor_chain _ (x b) _ _ (P4EST_MAXLEVEL - level b))
           |apply (shiftr_lxor_chain _ (y b) _ _ (P4EST_MAXLEVEL - level b))];
      (assumption || lia).
Qed.

Lemma is_ancestor_order_witness :
  p4est_quadrant_is_ancestor (mkquad (2 ^ 28) 0 1 (user_data NULL))
                             (mkquad 0 0 0 (user_data NULL)) = false /\
  p4est_quadrant_compare (mkquad 0 0 0 (user_data NULL))
                         (mkquad (2 ^ 28) 0 1 (user_data NULL)) < 0.
Proof.
  pose proof (is_ancestor_order (mkquad 0 0 0 (user_data NULL))
                (mkquad (2 ^ 28) 0 1 (user_data NULL))
                (mkquad (2 ^ 28) 0 1 (user_data NULL))
                ltac:(vm_compute; reflexivity) ltac:(vm_compute; reflexivity)
                ltac:(vm_compute; reflexivity) ltac:(vm_compute; reflexivity)
                ltac:(vm_compute; reflexivity)) as (H1 & H2 & _).
  split; [exact H1|exact H2].
Defined.

(* ================================================================= *)
(** ** The Morton index, the other way round *)

Lemma even_half (k : Z) : Z.even k = true -> 2 * (k / 2) = k.
Proof.
  intros E. apply Z.even_spec in E. destruct E as [h ->].
  rewrite (Z.mul_comm 2 h), Z.div_mul by lia. lia.
Qed.

Lemma odd_half (k : Z) : Z.even k = false -> 2 * (k / 2) + 1 = k.
Proof.
  intros E. rewrite <- Z.negb_odd in E. apply negb_false_iff in E.
  apply Z.odd_spec in E. destruct E as [h ->].
  replace ((2 * h + 1) / 2) with h; [reflexivity|].
  apply Z.div_unique with (r := 1); lia.
Qed.

(** X12: for a level [l] in [0 .. Lmax] and an index below
    [2 ^ (2 * (l + 3))], the bound that the function asserts,
    [p4est_quadrant_set_morton] builds an extended quadrant of level [l]
    whose index of level [l] under [p4est_quadrant_linear_id] is the index
    given. *)
Theorem linear_id_set_morton (q : p4est_quadrant_t) (l id : Z) :
  0 <= l <= P4EST_MAXLEVEL -> 0 <= id < 2 ^ (2 * (l + 3)) ->
  p4est_quadrant_linear_id (p4est_quadrant_set_morton q l id) l = id /\
  p4est_quadrant_is_extended (p4est_quadrant_set_morton q l id) = true /\
  level (p4est_quadrant_set_morton q l id) = l.
Proof.
  intros Hl Hid. unfold p4est_quadrant_set_morton.
  destruct (set_morton_loop _ 0 _ 0 0) as [a b] eqn:E.
  assert (Hbits := fun j (Hj : 0 <= j < 32) =>
     set_morton_loop_bits id (Z.to_nat (l + (32 - P4EST_MAXLEVEL))) 0 0 0 j
       ltac:(lia) ltac:(unfold P4EST_MAXLEVEL in *; lia) Hj).
  rewrite E in Hbits. cbn [fst snd] in Hbits.
  unfold P4EST_MAXLEVEL in *.
  rewrite (int8_small l) by lia.
  split; [|split; [|reflexivity]].
  - apply Z.bits_inj'. intros k Hk.
    rewrite linear_id_bits by (unfold P4EST_MAXLEVEL; lia).
    unfold set_xyl, P4EST_MAXLEVEL. cbn [x y].
    destruct (Z.ltb_spec k (2 * (l + 3))) as [Lt|Ge].
    + assert (0 <= k / 2 < l + 3).
      { split; [apply Z.div_pos; lia|apply Z.div_lt_upper_bound; lia]. }
      cbn [andb]. rewrite !int32_testbit, !Z.shiftl_spec by lia.
      replace (k / 2 + (29 - l) - (29 - l)) with (k / 2) by lia.
      destruct (Hbits (k / 2) ltac:(lia)) as [Ea Eb]. rewrite Ea, Eb.
      rewrite !Z.testbit_0_l, Z2Nat.id by lia. cbn [orb].
      destruct (Z.leb_spec 0 (k / 2)); [|lia].
      destruct (Z.ltb_spec (k / 2) (0 + (l + (32 - 29)))); [|lia].
      cbn [andb].
      destruct (Z.even k) eqn:Ev.
      * rewrite even_half by exact Ev. reflexivity.
      * rewrite odd_half by exact Ev. reflexivity.
    + cbn [andb]. symmetry. apply (testbit_above id (2 * (l + 3))); lia.
  - apply extended_by_mod; unfold set_xyl, P4EST_MAXLEVEL; cbn [x y level];
      try lia; rewrite int32_mod_pow2, Z.shiftl_mul_pow2 by lia;
      apply Z.mod_mul; apply Z.pow_nonzero; lia.
Qed.

Lemma linear_id_set_morton_witness :
  p4est_quadrant_linear_id (p4est_quadrant_set_morton quadrant_zero 2 11) 2 = 11.
Proof.
  exact (proj1 (linear_id_set_morton quadrant_zero 2 11
                  ltac:(unfold P4EST_MAXLEVEL; lia) ltac:(cbn; lia))).
Defined.

(* ================================================================= *)
(** ** The table of binary logarithms *)

(** X13: entry [i] of [sc_log2_lookup_table] is the floor of the binary
    logarithm of [i] for [0 < i < 256], and [-1] for [i = 0]. *)
Theorem log2_table_is_log2 (i : Z) :
  0 <= i < 256 ->
  nth (Z.to_nat i) sc_log2_lookup_table (-1)
  = if i =? 0 then -1 else Z.log2 i.
Proof. intros H. exact (SC_LOG2_8_spec i H). Qed.

Lemma log2_table_is_log2_witness :
  nth (Z.to_nat 200) sc_log2_lookup_table (-1) = if 200 =? 0 then -1 else Z.log2 200.
Proof. apply (log2_table_is_log2 200). lia. Defined.


(* ================================================================= *)
(** ** First and last descendants *)

Lemma bits_subset_le (a b : Z) :
  0 <= b ->
  (forall k, 0 <= k -> Z.testbit a k = true -> Z.testbit b k = true) ->
  a <= b.
Proof.
  intros Hb S.
  assert (Z.ldiff a b = 0) as D.
  { apply Z.bits_inj'. intros k Hk. rewrite Z.ldiff_spec, Z.testbit_0_l.
    destruct (Z.testbit a k) eqn:A; [|reflexivity].
    rewrite (S k Hk A). reflexivity. }
  pose proof (Z.sub_nocarry_ldiff b a D) as E.
  assert (0 <= Z.ldiff b a) by (apply Z.ldiff_nonneg; left; exact Hb). lia.
Qed.

(** The Morton index is monotone in the bits of the two coordinates. *)
Lemma key_le_by_bits (e d : p4est_quadrant_t) :
  (forall k, 0 <= k < 32 -> Z.testbit (x e) k = true -> Z.testbit (x d) k = true) ->
  (forall k, 0 <= k < 32 -> Z.testbit (y e) k = true -> Z.testbit (y d) k = true) ->
  morton_key e <= morton_key d.
Proof.
  intros Sx Sy. apply bits_subset_le; [apply morton_key_range|].
  intros k Hk. rewrite !morton_key_bits by lia.
  destruct (Z.ltb_spec k 64); [|discriminate]. cbn [andb].
  assert (0 <= k / 2 < 32).
  { split; [apply Z.div_pos; lia|apply Z.div_lt_upper_bound; lia]. }
  destruct (Z.even k); [apply Sx|apply Sy]; lia.
Qed.

(** The coordinate of a last descendant: the bits of the levels that are
    skipped are all set. *)
Lemma last_coord_bits (c mq ml k : Z) :
  0 <= ml <= mq -> Z.land c (2 ^ mq - 1) = 0 -> 0 <= k ->
  Z.testbit (c + (2 ^ mq - 2 ^ ml)) k
  = Z.testbit c k || ((ml <=? k) && (k <? mq)).
Proof.
  intros Hm A Hk.
  assert (2 ^ mq - 2 ^ ml = Z.shiftl (Z.ones (mq - ml)) ml) as Ed.
  { rewrite Z.ones_equiv, Z.shiftl_mul_pow2 by lia.
    replace (2 ^ mq) with (2 ^ (mq - ml) * 2 ^ ml)
      by (rewrite <- Z.pow_add_r by lia; f_equal; lia). lia. }
  assert (forall j, 0 <= j ->
            Z.testbit (2 ^ mq - 2 ^ ml) j = (ml <=? j) && (j <? mq)) as Bd.
  { intros j Hj. rewrite Ed. destruct (Z.leb_spec ml j).
    - rewrite Z.shiftl_spec, Z.testbit_ones_nonneg by lia. cbn [andb].
      destruct (Z.ltb_spec (j - ml) (mq - ml)), (Z.ltb_spec j mq); try lia;
        reflexivity.
    - rewrite Z.shiftl_spec_low by lia. reflexivity. }
  assert (Z.land c (2 ^ mq - 2 ^ ml) = 0) as D.
  { apply Z.bits_inj'. intros j Hj. rewrite Z.land_spec, Bd, Z.testbit_0_l by lia.
    destruct (Z.leb_spec ml j), (Z.ltb_spec j mq); cbn [andb];
      rewrite ?andb_false_r; try reflexivity.
    rewrite (aligned_low_bits c mq j) by (assumption || lia). reflexivity. }
  rewrite (Z.add_nocarry_lxor _ _ D), (Z.lxor_lor _ _ D), Z.lor_spec, Bd by lia.
  reflexivity.
Qed.

(** The bits of a coordinate of a descendant. *)
Lemma descendant_coord_bits (cq ce mq me k : Z) :
  0 <= me -> 0 <= mq -> Z.shiftr (Z.lxor cq ce) mq = 0 ->
  Z.land ce (2 ^ me - 1) = 0 -> 0 <= k ->
  Z.testbit ce k = if k <? me then false
                   else if mq <=? k then Z.testbit cq k else Z.testbit ce k.
Proof.
  intros Hme Hmq S A Hk.
  destruct (Z.ltb_spec k me).
  - apply (aligned_low_bits ce me k); (assumption || lia).
  - destruct (Z.leb_spec mq k); [|reflexivity].
    apply (f_equal (fun z => Z.testbit z (k - mq))) in S.
    rewrite Z.shiftr_spec, Z.lxor_spec, Z.testbit_0_l in S by lia.
    replace (k - mq + mq) with k in S by lia.
    apply xorb_eq in S. symmetry. exact S.
Qed.

Section Descendants.

Variables q t : p4est_quadrant_t.
Variable l : Z.

Hypothesis Eq : p4est_quadrant_is_extended q = true.
Hypothesis Bq : quadrant_in_band q = true.
Hypothesis Hl : level q <= l <= P4EST_MAXLEVEL.

Lemma last_descendent_coords :
  x (p4est_quadrant_last_descendent q t l)
  = x q + (2 ^ (P4EST_MAXLEVEL - level q) - 2 ^ (P4EST_MAXLEVEL - l)) /\
  y (p4est_quadrant_last_descendent q t l)
  = y q + (2 ^ (P4EST_MAXLEVEL - level q) - 2 ^ (P4EST_MAXLEVEL - l)) /\
  level (p4est_quadrant_last_descendent q t l) = l /\
  quadrant_in_band (p4est_quadrant_last_descendent q t l) = true.
Proof.
  destruct (is_extended_inv q Eq) as (L & Ax & Ay).
  destruct (in_band_inv q Bq) as (Cx & Cy & _ & _).
  unfold p4est_quadrant_last_descendent, set_xyl. cbn [x y level].
  rewrite !QUADRANT_LEN_pow by lia. unfold P4EST_MAXLEVEL in *.
  set (mq := 29 - level q) in *. set (ml := 29 - l) in *.
  assert (0 < 2 ^ ml <= 2 ^ mq).
  { split; [apply Z.pow_pos_nonneg; unfold ml; lia|].
    apply Z.pow_le_mono_r; unfold ml, mq; lia. }
  assert (2 ^ mq <= 2 ^ 29) by (apply Z.pow_le_mono_r; unfold mq; lia).
  unfold coord_in_band in Cx, Cy. change P4EST_ROOT_LEN with (2 ^ 29) in Cx, Cy.
  apply andb_prop in Cx, Cy.
  rewrite (int32_small (2 ^ mq - 2 ^ ml)) by lia.
  (* an aligned coordinate of the band leaves room for the side length *)
  assert (forall c, Z.land c (2 ^ mq - 1) = 0 -> c < 2 * 2 ^ 29 ->
            c + 2 ^ mq <= 2 * 2 ^ 29) as Room.
  { intros c Ac Hc. apply aligned_mod in Ac; [|unfold mq; lia].
    apply Z.mod_divide in Ac; [|lia]. destruct Ac as [k Ek].
    assert (2 * 2 ^ 29 = 2 ^ (30 - mq) * 2 ^ mq) as E2.
    { rewrite <- Z.pow_add_r by (unfold mq; lia).
      replace (30 - mq + mq) with 30 by lia. reflexivity. }
    rewrite E2, Ek in *.
    assert (0 < 2 ^ (30 - mq)) by (apply Z.pow_pos_nonneg; unfold mq; lia).
    remember (2 ^ mq) as Hq. remember (2 ^ (30 - mq)) as Q.
    assert (k < Q) by (apply (Z.mul_lt_mono_pos_r Hq); lia). nia. }
  pose proof (Room (x q) Ax ltac:(lia)). pose proof (Room (y q) Ay ltac:(lia)).
  rewrite !int32_small by lia. rewrite int8_small by lia.
  repeat split; try reflexivity.
  unfold quadrant_in_band, coord_in_band. cbn [x y].
  change P4EST_ROOT_LEN with (2 ^ 29).
  apply andb_true_iff. split; apply andb_true_iff; lia.
Qed.

Lemma first_descendent_coords :
  x (p4est_quadrant_first_descendent q t l) = x q /\
  y (p4est_quadrant_first_descendent q t l) = y q /\
  level (p4est_quadrant_first_descendent q t l) = l.
Proof.
  destruct (is_extended_inv q Eq) as (L & _ & _). unfold P4EST_MAXLEVEL in *.
  unfold p4est_quadrant_first_descendent, set_xyl. cbn [x y level].
  rewrite int8_small by lia. auto.
Qed.

End Descendants.

Lemma aligned_weaken (c m n : Z) :
  0 <= n <= m -> Z.land c (2 ^ m - 1) = 0 -> Z.land c (2 ^ n - 1) = 0.
Proof.
  intros H A. apply aligned_by_bits; [lia|]. intros k Hk.
  apply (aligned_low_bits c m k); (assumption || lia).
Qed.

Lemma in_band_xy (a b : p4est_quadrant_t) :
  x a = x b -> y a = y b -> quadrant_in_band b = true ->
  quadrant_in_band a = true.
Proof. unfold quadrant_in_band. intros -> ->. auto. Qed.

(** X14: for an extended quadrant [q] of the band and a level [l] from the
    level of [q] up to the deepest one, [p4est_quadrant_first_descendent]
    and [p4est_quadrant_last_descendent] make extended quadrants of level
    [l] that [q] equals or is an ancestor of, the first one not after the
    last one; every extended descendant [e] of [q] of a level up to [l]
    compares at or below the last descendant of [q], as does its own last
    descendant, and it compares at or above the first descendant of [q]
    unless it has the same corner. *)
Theorem descendants_bracket (q t e : p4est_quadrant_t) (l : Z) :
  p4est_quadrant_is_extended q = true -> quadrant_in_band q = true ->
  level q <= l <= P4EST_MAXLEVEL ->
  p4est_quadrant_is_extended (p4est_quadrant_first_descendent q t l) = true /\
  p4est_quadrant_is_extended (p4est_quadrant_last_descendent q t l) = true /\
  p4est_quadrant_is_equal q (p4est_quadrant_first_descendent q t l)
    || p4est_quadrant_is_ancestor q (p4est_quadrant_first_descendent q t l)
    = true /\
  p4est_quadrant_is_equal q (p4est_quadrant_last_descendent q t l)
    || p4est_quadrant_is_ancestor q (p4est_quadrant_last_descendent q t l)
    = true /\
  p4est_quadrant_compare (p4est_quadrant_first_descendent q t l)
                         (p4est_quadrant_last_descendent q t l) <= 0 /\
  (p4est_quadrant_is_extended e = true -> quadrant_in_band e = true ->
   p4est_quadrant_is_ancestor q e = true -> level e <= l ->
   p4est_quadrant_compare e (p4est_quadrant_last_descendent q t l) <= 0 /\
   p4est_quadrant_compare (p4est_quadrant_last_descendent e t l)
                          (p4est_quadrant_last_descendent q t l) <= 0 /\
   (p4est_quadrant_compare (p4est_quadrant_first_descendent q t l) e <= 0 \/
    (x e = x (p4est_quadrant_first_descendent q t l) /\
     y e = y (p4est_quadrant_first_descendent q t l)))).
Proof.
  intros Eq Bq Hl.
  destruct (is_extended_inv q Eq) as (L & Ax & Ay).
  destruct (first_descendent_coords q t l Eq Hl) as (Fx & Fy & Fl).
  destruct (last_descendent_coords q t l Eq Bq Hl) as (Lx & Ly & Ll & Bl).
  set (fd := p4est_quadrant_first_descendent q t l) in *.
  set (ld := p4est_quadrant_last_descendent q t l) in *.
  set (mq := P4EST_MAXLEVEL - level q) in *.
  set (ml := P4EST_MAXLEVEL - l) in *.
  assert (0 <= ml <= mq) as Hm by (unfold ml, mq; lia).
  assert (quadrant_in_band fd = true) as Bf by (apply (in_band_xy fd q); assumption).
  (* the bits of the last descendant *)
  assert (forall k, 0 <= k ->
            Z.testbit (x ld) k = Z.testbit (x q) k || ((ml <=? k) && (k <? mq)))
    as BLx by (intros k Hk; rewrite Lx; apply last_coord_bits; assumption).
  assert (forall k, 0 <= k ->
            Z.testbit (y ld) k = Z.testbit (y q) k || ((ml <=? k) && (k <? mq)))
    as BLy by (intros k Hk; rewrite Ly; apply last_coord_bits; assumption).
  assert (forall c k, Z.land c (2 ^ mq - 1) = 0 -> 0 <= k ->
            Z.testbit c k = true -> mq <= k) as Hi.
  { intros c k Ac Hk T. destruct (Z.lt_ge_cases k mq); [|lia].
    rewrite (aligned_low_bits c mq k) in T by (assumption || lia). discriminate. }
  assert (p4est_quadrant_is_extended fd = true) as Ef.
  { apply extended_by_mod; rewrite Fl.
    - lia.
    - rewrite Fx. apply aligned_mod; [lia|].
      apply (aligned_weaken _ mq); assumption.
    - rewrite Fy. apply aligned_mod; [lia|].
      apply (aligned_weaken _ mq); assumption. }
  assert (forall c d, Z.land c (2 ^ mq - 1) = 0 ->
            (forall k, 0 <= k ->
               Z.testbit d k = Z.testbit c k || ((ml <=? k) && (k <? mq))) ->
            d mod 2 ^ ml = 0) as AlL.
  { intros c d Ac Bd. apply aligned_mod; [lia|]. apply aligned_by_bits; [lia|].
    intros k Hk. rewrite Bd by lia.
    rewrite (aligned_low_bits c mq k) by (assumption || lia).
    destruct (Z.leb_spec ml k); [lia|reflexivity]. }
  assert (p4est_quadrant_is_extended ld = true) as El.
  { apply extended_by_mod; rewrite Ll.
    - lia.
    - apply (AlL (x q)); assumption.
    - apply (AlL (y q)); assumption. }
  assert (morton_key fd = morton_key q) as Kf
    by (apply morton_key_same_xy; assumption).
  assert (morton_key q <= morton_key ld) as Kl.
  { apply key_le_by_bits; intros k Hk T; rewrite ?BLx, ?BLy by lia;
      rewrite T; reflexivity. }
  split; [exact Ef|]. split; [exact El|].
  split.
  { apply (ancestor_or_equal_ancestor_at q fd (level q)); try assumption.
    - lia.
    - rewrite Fx. symmetry. apply clear_low_aligned; [lia|exact Ax].
    - rewrite Fy. symmetry. apply clear_low_aligned; [lia|exact Ay].
    - reflexivity. }
  assert (forall c d, Z.land c (2 ^ mq - 1) = 0 ->
            (forall k, 0 <= k ->
               Z.testbit d k = Z.testbit c k || ((ml <=? k) && (k <? mq))) ->
            c = clear_low d mq) as ClL.
  { intros c d Ac Bd. apply Z.bits_inj'. intros k Hk.
    rewrite clear_low_testbit, Bd by lia.
    destruct (Z.leb_spec mq k); cbn [andb].
    - destruct (Z.ltb_spec k mq); [lia|]. rewrite andb_false_r, orb_false_r.
      reflexivity.
    - apply (aligned_low_bits c mq k); (assumption || lia). }
  split.
  { apply (ancestor_or_equal_ancestor_at q ld (level q)); try assumption.
    - lia.
    - apply (ClL (x q)); assumption.
    - apply (ClL (y q)); assumption.
    - reflexivity. }
  split.
  { apply compare_le_iff; try assumption. unfold quadrant_le. lia. }
  intros Ee Be An Le.
  destruct (is_extended_inv e Ee) as (Lev & Aex & Aey).
  apply is_ancestor_inv in An. destruct An as (Lqe & Sx & Sy). fold mq in Sx, Sy.
  set (me := P4EST_MAXLEVEL - level e) in *.
  assert (ml <= me < mq) as Hme by (unfold ml, me, mq; lia).
  assert (forall k, 0 <= k -> Z.testbit (x e) k = true ->
            me <= k /\ (mq <= k -> Z.testbit (x q) k = true)) as BEx.
  { intros k Hk T.
    rewrite (descendant_coord_bits (x q) (x e) mq me k) in T
      by (assumption || lia).
    destruct (Z.ltb_spec k me); [discriminate|]. split; [lia|]. intros G.
    destruct (Z.leb_spec mq k); [exact T|lia]. }
  assert (forall k, 0 <= k -> Z.testbit (y e) k = true ->
            me <= k /\ (mq <= k -> Z.testbit (y q) k = true)) as BEy.
  { intros k Hk T.
    rewrite (descendant_coord_bits (y q) (y e) mq me k) in T
      by (assumption || lia).
    destruct (Z.ltb_spec k me); [discriminate|]. split; [lia|]. intros G.
    destruct (Z.leb_spec mq k); [exact T|lia]. }
  assert (forall (c : Z) k, 0 <= k -> me <= k ->
            (mq <= k -> Z.testbit c k = true) ->
            Z.testbit c k || ((ml <=? k) && (k <? mq)) = true) as In.
  { intros c k Hk G T. destruct (Z.lt_ge_cases k mq).
    - destruct (Z.leb_spec ml k), (Z.ltb_spec k mq); try lia; apply orb_true_r.
    - rewrite T by lia. reflexivity. }
  split; [|split].
  - apply compare_le_iff; try assumption.
    assert (morton_key e <= morton_key ld) as K.
    { apply key_le_by_bits; intros k Hk T; rewrite ?BLx, ?BLy by lia;
        [destruct (BEx k ltac:(lia) T)|destruct (BEy k ltac:(lia) T)];
        apply In; (assumption || lia). }
    unfold quadrant_le. lia.
  - destruct (last_descendent_coords e t l Ee Be ltac:(lia))
      as (Ex' & Ey' & El' & Bl').
    apply compare_le_iff; try assumption.
    assert (morton_key (p4est_quadrant_last_descendent e t l) <= morton_key ld)
      as K.
    { apply key_le_by_bits; intros k Hk; rewrite ?Ex', ?Ey';
        fold me; fold ml;
        rewrite last_coord_bits by (assumption || lia);
        rewrite ?BLx, ?BLy by lia; intros T;
        apply orb_prop in T; destruct T as [T|T].
      - destruct (BEx k ltac:(lia) T). apply In; (assumption || lia).
      - apply andb_prop in T. destruct T as [T1 T2].
        assert (ml <= k < mq) by lia.
        destruct (Z.leb_spec ml k), (Z.ltb_spec k mq); try lia; apply orb_true_r.
      - destruct (BEy k ltac:(lia) T). apply In; (assumption || lia).
      - apply andb_prop in T. destruct T as [T1 T2].
        assert (ml <= k < mq) by lia.
        destruct (Z.leb_spec ml k), (Z.ltb_spec k mq); try lia; apply orb_true_r. }
    unfold quadrant_le. lia.
  - assert (morton_key q <= morton_key e) as K.
    { apply key_le_by_bits; intros k Hk T.
      - pose proof (Hi (x q) k Ax ltac:(lia) T) as G.
        rewrite (descendant_coord_bits (x q) (x e) mq me k) by (assumption || lia).
        destruct (Z.ltb_spec k me); [lia|].
        destruct (Z.leb_spec mq k); [exact T|lia].
      - pose proof (Hi (y q) k Ay ltac:(lia) T) as G.
        rewrite (descendant_coord_bits (y q) (y e) mq me k) by (assumption || lia).
        destruct (Z.ltb_spec k me); [lia|].
        destruct (Z.leb_spec mq k); [exact T|lia]. }
    destruct (Z.eq_dec (morton_key q) (morton_key e)) as [Ek|Nk].
    + right. destruct (in_band_inv q Bq) as (_ & _ & Rx & Ry).
      destruct (in_band_inv e Be) as (_ & _ & Rx' & Ry').
      destruct (morton_key_inj q e Rx Ry Rx' Ry' Ek) as [E1 E2].
      rewrite Fx, Fy. auto.
    + left. apply compare_le_iff; try assumption. unfold quadrant_le. lia.
Qed.

Lemma descendants_bracket_witness :
  p4est_quadrant_compare
    (p4est_quadrant_first_descendent (mkquad (2 ^ 28) 0 1 (user_data NULL))
                                     quadrant_zero 3)
    (p4est_quadrant_last_descendent (mkquad (2 ^ 28) 0 1 (user_data NULL))
                                    quadrant_zero 3) <= 0.
Proof.
  pose proof (descendants_bracket (mkquad (2 ^ 28) 0 1 (user_data NULL))
                quadrant_zero quadrant_zero 3
                ltac:(vm_compute; reflexivity) ltac:(vm_compute; reflexivity)
                ltac:(unfold P4EST_MAXLEVEL; cbn; lia)) as (_ & _ & _ & _ & H & _).
  exact H.
Defined.


(* ================================================================= *)
(** ** Successors in the Morton order *)

Lemma linear_id_shift (q : p4est_quadrant_t) (l : Z) :
  0 <= l <= P4EST_MAXLEVEL ->
  p4est_quadrant_linear_id q l
  = Z.shiftr (morton_key q) (2 * (P4EST_MAXLEVEL - l)).
Proof.
  intros Hl. apply Z.bits_inj'. intros k Hk.
  rewrite linear_id_bits by assumption.
  unfold P4EST_MAXLEVEL in *.
  rewrite shifted_key_bits by lia.
  destruct (Z.ltb_spec k (2 * (l + 3))),
           (Z.ltb_spec (k + 2 * (29 - l)) 64); try lia; reflexivity.
Qed.

Lemma inside_key_bound (q : p4est_quadrant_t) :
  p4est_quadrant_is_inside q = true -> 0 <= morton_key q < 2 ^ 58.
Proof.
  intros H. unfold p4est_quadrant_is_inside in H. rewrite ROOT_LEN_val in H.
  rewrite !andb_true_iff, !Z.geb_le, !Z.ltb_lt in H.
  split; [apply morton_key_range|].
  apply nonneg_bits_lt; [apply morton_key_range | lia |].
  intros k Hk. rewrite morton_key_bits by lia.
  assert (29 <= k / 2) by (apply Z.div_le_lower_bound; lia).
  rewrite (testbit_above (x q) 29), (testbit_above (y q) 29) by lia.
  destruct (Z.even k); apply andb_false_r.
Qed.

Lemma pow2_diff_bits (a b k : Z) :
  0 <= a <= b -> 0 <= k ->
  Z.testbit (2 ^ b - 2 ^ a) k = (a <=? k) && (k <? b).
Proof.
  intros Hab Hk.
  replace (2 ^ b - 2 ^ a) with (Z.shiftl (Z.ones (b - a)) a).
  2:{ rewrite Z.shiftl_mul_pow2, Z.ones_equiv by lia.
      replace b with ((b - a) + a) at 2 by lia.
      rewrite Z.pow_add_r by lia. lia. }
  destruct (Z.leb_spec a k).
  - rewrite Z.shiftl_spec, Z.testbit_ones_nonneg by lia.
    destruct (Z.ltb_spec (k - a) (b - a)), (Z.ltb_spec k b); try lia; reflexivity.
  - rewrite Z.shiftl_spec_low by lia. reflexivity.
Qed.

Lemma mask_bits (c a b : Z) :
  0 <= a <= b ->
  (Z.land c (2 ^ b - 2 ^ a) = 2 ^ b - 2 ^ a <->
   forall j, a <= j < b -> Z.testbit c j = true).
Proof.
  intros Hab. split.
  - intros E j Hj. apply (f_equal (fun v => Z.testbit v j)) in E.
    rewrite Z.land_spec, pow2_diff_bits in E by lia.
    destruct (Z.leb_spec a j), (Z.ltb_spec j b); try lia.
    cbn in E. rewrite andb_true_r in E. exact E.
  - intros B. apply Z.bits_inj'. intros k Hk.
    rewrite Z.land_spec, pow2_diff_bits by lia.
    destruct (Z.leb_spec a k), (Z.ltb_spec k b); cbn;
      rewrite ?andb_false_r; try reflexivity.
    rewrite B by lia. reflexivity.
Qed.

(** The mask test of [p4est_quadrant_is_next]: the quadrant is the last
    descendant of its ancestor of level [lr]. *)
Lemma next_mask_key (q : p4est_quadrant_t) (lr : Z) :
  p4est_quadrant_is_extended q = true -> 0 <= lr < level q ->
  let mask := P4EST_QUADRANT_LEN lr - P4EST_QUADRANT_LEN (level q) in
  ((Z.land (x q) mask =? mask) && (Z.land (y q) mask =? mask) = true <->
   morton_key q mod 2 ^ (2 * (P4EST_MAXLEVEL - lr))
   = 2 ^ (2 * (P4EST_MAXLEVEL - lr)) - 2 ^ (2 * (P4EST_MAXLEVEL - level q))).
Proof.
  intros E Hl mask. subst mask.
  pose proof (key_aligned q E) as A.
  destruct (is_extended_inv q E) as [Lq _].
  rewrite !QUADRANT_LEN_pow by lia. unfold P4EST_MAXLEVEL in *.
  rewrite andb_true_iff, !Z.eqb_eq, !mask_bits by lia.
  assert (forall k, 0 <= k < 2 * (29 - level q) ->
                    Z.testbit (morton_key q) k = false) as Low.
  { intros k Hk. rewrite <- A, clear_low_testbit by lia.
    destruct (Z.leb_spec (2 * (29 - level q)) k); [lia|reflexivity]. }
  split.
  - intros [Bx By]. apply Z.bits_inj'. intros k Hk.
    rewrite Z.testbit_mod_pow2, pow2_diff_bits by lia.
    destruct (Z.ltb_spec k (2 * (29 - lr)));
      [|cbn [andb]; symmetry; apply andb_false_r].
    cbn [andb]. rewrite andb_true_r.
    destruct (Z.leb_spec (2 * (29 - level q)) k); [|apply Low; lia].
    rewrite morton_key_bits by lia.
    destruct (Z.ltb_spec k 64); [|lia]. cbn [andb].
    assert (29 - level q <= k / 2 < 29 - lr).
    { split; [apply Z.div_le_lower_bound; lia
             | apply Z.div_lt_upper_bound; lia]. }
    destruct (Z.even k); [apply Bx | apply By]; lia.
  - intros M.
    assert (forall k, 2 * (29 - level q) <= k < 2 * (29 - lr) ->
                      Z.testbit (morton_key q) k = true) as B.
    { intros k Hk. apply (f_equal (fun v => Z.testbit v k)) in M.
      rewrite Z.testbit_mod_pow2, pow2_diff_bits in M by lia.
      destruct (Z.ltb_spec k (2 * (29 - lr))),
               (Z.leb_spec (2 * (29 - level q)) k); try lia.
      exact M. }
    split; intros j Hj.
    + specialize (B (2 * j) ltac:(lia)).
      rewrite morton_key_bits in B by lia.
      rewrite Z.even_mul in B. cbn [Z.even orb] in B.
      rewrite (Z.mul_comm 2), Z.div_mul in B by lia.
      apply andb_true_iff in B. apply B.
    + specialize (B (1 + 2 * j) ltac:(lia)).
      rewrite morton_key_bits in B by lia.
      rewrite Z.even_add, Z.even_mul in B. cbn [Z.even orb Bool.eqb] in B.
      replace ((1 + 2 * j) / 2) with j in B
        by (apply Z.div_unique with (r := 1); lia).
      apply andb_true_iff in B. apply B.
Qed.

Lemma aligned_key_mod (q : p4est_quadrant_t) :
  p4est_quadrant_is_extended q = true ->
  morton_key q mod 2 ^ (2 * (P4EST_MAXLEVEL - level q)) = 0.
Proof.
  intros E. pose proof (key_aligned q E) as A.
  destruct (is_extended_inv q E) as [Lq _]. unfold P4EST_MAXLEVEL in *.
  rewrite clear_low_eq in A by lia. lia.
Qed.

Lemma is_next_facts (q r : p4est_quadrant_t) :
  p4est_quadrant_is_valid q = true -> p4est_quadrant_is_valid r = true ->
  (level q <= level r ->
   (p4est_quadrant_is_next q r = true <->
    morton_key q + 2 ^ (2 * (P4EST_MAXLEVEL - level q)) <= morton_key r
      < morton_key q + 2 * 2 ^ (2 * (P4EST_MAXLEVEL - level q)))) /\
  (level r < level q ->
   (p4est_quadrant_is_next q r = true <->
    morton_key q + 2 ^ (2 * (P4EST_MAXLEVEL - level q)) = morton_key r)).
Proof.
  intros Vq Vr. rewrite is_valid_split in Vq, Vr.
  apply andb_true_iff in Vq, Vr. destruct Vq as [Eq Iq], Vr as [Er Ir].
  destruct (is_extended_inv q Eq) as [Lq _].
  destruct (is_extended_inv r Er) as [Lr _].
  pose proof (inside_key_bound q Iq) as Bq.
  pose proof (inside_key_bound r Ir) as Br.
  pose proof (aligned_key_mod q Eq) as Aq.
  pose proof (aligned_key_mod r Er) as Ar.
  unfold P4EST_MAXLEVEL in *.
  assert (forall l, 0 <= l <= 29 ->
            uint64 (Z.shiftr (morton_key q) (2 * (29 - l)) + 1)
            = morton_key q / 2 ^ (2 * (29 - l)) + 1) as U.
  { intros l Hl. rewrite Z.shiftr_div_pow2 by lia.
    assert (0 < 2 ^ (2 * (29 - l))) by (apply Z.pow_pos_nonneg; lia).
    assert (0 <= morton_key q / 2 ^ (2 * (29 - l)) <= morton_key q).
    { split; [apply Z.div_pos; lia|].
      apply Z.div_le_upper_bound; [lia|]. nia. }
    apply uint64_small. change (2 ^ 64) with (2 ^ 58 * 64). lia. }
  split; intros Hl.
  - unfold p4est_quadrant_is_next.
    destruct (Z.gtb_spec (level q) (level r)); [lia|]. cbn [andb].
    rewrite !linear_id_shift by (unfold P4EST_MAXLEVEL; lia).
    unfold P4EST_MAXLEVEL. rewrite U by lia.
    rewrite Z.shiftr_div_pow2 by lia. rewrite Z.eqb_eq.
    set (P := 2 ^ (2 * (29 - level q))) in *.
    assert (0 < P) by (apply Z.pow_pos_nonneg; lia).
    pose proof (Z.div_mod (morton_key q) P ltac:(lia)) as Dq.
    pose proof (Z.div_mod (morton_key r) P ltac:(lia)) as Dr.
    pose proof (Z.mod_pos_bound (morton_key r) P ltac:(lia)) as Mr.
    split.
    + intros E. nia.
    + intros [Lo Hi].
      apply Z.div_unique with (r := morton_key r - morton_key q - P); nia.
  - pose proof (next_mask_key q (level r) Eq ltac:(lia)) as M.
    cbv zeta in M. unfold P4EST_MAXLEVEL in M.
    unfold p4est_quadrant_is_next.
    destruct (Z.gtb_spec (level q) (level r)); [|lia]. cbn [andb].
    rewrite !linear_id_shift by (unfold P4EST_MAXLEVEL; lia).
    unfold P4EST_MAXLEVEL. rewrite U by lia.
    rewrite Z.shiftr_div_pow2 by lia.
    set (P := 2 ^ (2 * (29 - level r))) in *.
    set (T := 2 ^ (2 * (29 - level q))) in *.
    assert (0 < T) by (apply Z.pow_pos_nonneg; lia).
    assert (T < P) by (apply Z.pow_lt_mono_r; lia).
    pose proof (Z.div_mod (morton_key q) P ltac:(lia)) as Dq.
    pose proof (Z.div_mod (morton_key r) P ltac:(lia)) as Dr.
    set (mask := P4EST_QUADRANT_LEN (level r) - P4EST_QUADRANT_LEN (level q)) in *.
    destruct ((Z.land (x q) mask =? mask) && (Z.land (y q) mask =? mask)) eqn:C.
    + apply andb_true_iff in C. destruct C as [Cx Cy]. rewrite Cx, Cy.
      cbn [negb orb]. rewrite Z.eqb_eq.
      assert (morton_key q mod P = P - T) as Mq by (apply M; reflexivity).
      split; intros E; nia.
    + assert (negb (Z.land (x q) mask =? mask)
              || negb (Z.land (y q) mask =? mask) = true) as N.
      { apply andb_false_iff in C. destruct C as [C|C]; rewrite C;
          [reflexivity | apply orb_true_r]. }
      rewrite N. split; [discriminate|].
      intros E. exfalso.
      assert (morton_key q mod P = P - T) as Mq.
      { symmetry. apply Z.mod_unique with (q := morton_key r / P - 1); nia. }
      apply M in Mq. discriminate.
Qed.

Lemma valid_in_band (q : p4est_quadrant_t) :
  p4est_quadrant_is_valid q = true -> quadrant_in_band q = true.
Proof.
  intros V. rewrite is_valid_split in V. apply andb_true_iff in V.
  apply inside_in_band, V.
Qed.

Lemma is_next_lt (q r : p4est_quadrant_t) :
  p4est_quadrant_is_valid q = true -> p4est_quadrant_is_valid r = true ->
  p4est_quadrant_is_next q r = true -> quadrant_lt q r.
Proof.
  intros Vq Vr N. destruct (is_next_facts q r Vq Vr) as [F1 F2].
  assert (0 < 2 ^ (2 * (P4EST_MAXLEVEL - level q))) as P.
  { rewrite is_valid_split in Vq. apply andb_true_iff in Vq.
    destruct (is_extended_inv q (proj1 Vq)) as [Lq _].
    apply Z.pow_pos_nonneg; lia. }
  left. destruct (Z.le_gt_cases (level q) (level r)) as [L|L].
  - apply (F1 L) in N. lia.
  - apply (F2 L) in N. lia.
Qed.

(** X15: what [p4est_quadrant_is_next] decides on valid quadrants, with
    [h = 4 ^ (Lmax - level q)] the number of deepest-level cells of [q]: when
    [r] is at least as fine as [q], the first cell of [r] lies in the box of
    the size of [q] that follows [q] in the Morton order (not necessarily at
    its start); when [r] is coarser, [r] starts exactly where [q] ends.  In
    both cases [q] compares below [r] and neither equals nor contains it. *)
Theorem is_next_successor (q r : p4est_quadrant_t) :
  p4est_quadrant_is_valid q = true -> p4est_quadrant_is_valid r = true ->
  (level q <= level r ->
   (p4est_quadrant_is_next q r = true <->
    morton_key q + 2 ^ (2 * (P4EST_MAXLEVEL - level q)) <= morton_key r
      < morton_key q + 2 * 2 ^ (2 * (P4EST_MAXLEVEL - level q)))) /\
  (level r < level q ->
   (p4est_quadrant_is_next q r = true <->
    morton_key q + 2 ^ (2 * (P4EST_MAXLEVEL - level q)) = morton_key r)) /\
  (p4est_quadrant_is_next q r = true ->
   p4est_quadrant_compare q r < 0 /\
   p4est_quadrant_is_equal q r = false /\
   p4est_quadrant_is_ancestor q r = false).
Proof.
  intros Vq Vr. destruct (is_next_facts q r Vq Vr) as [F1 F2].
  split; [exact F1|]. split; [exact F2|].
  intros N. split.
  - apply compare_lt_iff; try (apply valid_in_band; assumption).
    apply is_next_lt; assumption.
  - apply orb_false_iff. apply is_next_not_equal_or_ancestor. exact N.
Qed.

Lemma is_next_successor_witness :
  let q := mkquad 0 0 1 (user_data NULL) in
  let r := mkquad (2 ^ 28 + 2 ^ 27) 0 2 (user_data NULL) in
  p4est_quadrant_is_next q r = true /\
  p4est_quadrant_compare q r < 0.
Proof.
  intros q r.
  destruct (is_next_successor q r) as [F1 [_ F3]];
    [reflexivity | reflexivity |].
  assert (p4est_quadrant_is_next q r = true) as N.
  { apply F1; [cbn; lia | vm_compute; split; [discriminate | reflexivity]]. }
  split; [exact N | apply F3, N].
Defined.

(* ================================================================= *)
(** ** The two successor tests *)

Lemma child_id_ancestor_at (q : p4est_quadrant_t) (k : Z) :
  1 <= k <= P4EST_MAXLEVEL ->
  (p4est_quadrant_child_id (ancestor_at q k) =? 3)
  = Z.testbit (x q) (P4EST_MAXLEVEL - k) && Z.testbit (y q) (P4EST_MAXLEVEL - k).
Proof.
  intros Hk. rewrite child_id_bits by (cbn [ancestor_at set_xyl level]; lia).
  unfold ancestor_at, set_xyl. cbn [x y level]. unfold P4EST_MAXLEVEL in *.
  rewrite !clear_low_testbit by lia.
  destruct (Z.leb_spec (29 - k) (29 - k)); [|lia]. cbn [andb].
  destruct (Z.testbit (x q) (29 - k)), (Z.testbit (y q) (29 - k)); reflexivity.
Qed.

Lemma is_next_D_loop_spec (q : p4est_quadrant_t) (bl : Z) (n : nat) :
  forall k fuel, 0 <= bl -> k <= P4EST_MAXLEVEL ->
  k - bl = Z.of_nat n -> (n <= fuel)%nat ->
  ((forall j, P4EST_MAXLEVEL - k <= j < P4EST_MAXLEVEL - bl ->
              Z.testbit (x q) j = true /\ Z.testbit (y q) j = true) ->
   is_next_D_loop fuel (ancestor_at q k) bl = Some (Some (ancestor_at q bl))) /\
  (~ (forall j, P4EST_MAXLEVEL - k <= j < P4EST_MAXLEVEL - bl ->
                Z.testbit (x q) j = true /\ Z.testbit (y q) j = true) ->
   is_next_D_loop fuel (ancestor_at q k) bl = Some None).
Proof.
  induction n as [|n IH]; intros k fuel Hb Hk E F.
  - assert (k = bl) by lia. subst k.
    assert (is_next_D_loop fuel (ancestor_at q bl) bl
            = Some (Some (ancestor_at q bl))) as R.
    { destruct fuel; cbn [is_next_D_loop ancestor_at set_xyl level];
        destruct (Z.gtb_spec bl bl); try lia; reflexivity. }
    split; [intros _; exact R|].
    intros N. exfalso. apply N. intros j Hj. lia.
  - destruct fuel as [|fuel]; [lia|].
    cbn [is_next_D_loop]. cbn [ancestor_at set_xyl level].
    destruct (Z.gtb_spec k bl); [|lia].
    change (set_xyl q (clear_low (x q) (P4EST_MAXLEVEL - k))
                      (clear_low (y q) (P4EST_MAXLEVEL - k)) k)
      with (ancestor_at q k).
    rewrite child_id_ancestor_at, parent_ancestor_at by lia.
    destruct (IH (k - 1) fuel Hb ltac:(lia) ltac:(lia) ltac:(lia)) as [I1 I2].
    destruct (Z.testbit (x q) (P4EST_MAXLEVEL - k)) eqn:Bx;
      [destruct (Z.testbit (y q) (P4EST_MAXLEVEL - k)) eqn:By|]; cbn [andb negb].
    + split.
      * intros B. apply I1. intros j Hj. apply B. lia.
      * intros N. apply I2. intros B. apply N. intros j Hj.
        destruct (Z.eq_dec j (P4EST_MAXLEVEL - k)) as [->|Nj];
          [split; assumption | apply B; lia].
    + split; [|reflexivity].
      intros B. destruct (B (P4EST_MAXLEVEL - k) ltac:(lia)) as [_ B2].
      congruence.
    + split; [|reflexivity].
      intros B. destruct (B (P4EST_MAXLEVEL - k) ltac:(lia)) as [B1 _].
      congruence.
Qed.

Lemma linear_id_ancestor_at (q : p4est_quadrant_t) (l : Z) :
  0 <= l <= P4EST_MAXLEVEL ->
  p4est_quadrant_linear_id (ancestor_at q l) l = p4est_quadrant_linear_id q l.
Proof.
  intros Hl. apply Z.bits_inj'. intros k Hk.
  rewrite !linear_id_bits by assumption.
  unfold ancestor_at, set_xyl. cbn [x y]. unfold P4EST_MAXLEVEL in *.
  assert (0 <= k / 2) by (apply Z.div_pos; lia).
  rewrite !clear_low_testbit by lia.
  destruct (Z.leb_spec (29 - l) (k / 2 + (29 - l))); [|lia]. reflexivity.
Qed.

(** X16: on valid quadrants [p4est_quadrant_is_next_D], which compares the
    quadrants and then climbs from [q] through last children, finishes within
    [level q - level r] iterations and returns what [p4est_quadrant_is_next]
    returns. *)
Theorem is_next_agrees_with_D (q r : p4est_quadrant_t) (fuel : nat) :
  p4est_quadrant_is_valid q = true -> p4est_quadrant_is_valid r = true ->
  (Z.to_nat (level q - level r) <= fuel)%nat ->
  p4est_quadrant_is_next_D fuel q r = Some (p4est_quadrant_is_next q r).
Proof.
  intros Vq Vr F. unfold p4est_quadrant_is_next_D.
  destruct (Z.geb_spec (p4est_quadrant_compare q r) 0) as [G|G].
  { f_equal. destruct (p4est_quadrant_is_next q r) eqn:N; [|reflexivity].
    exfalso. apply (is_next_lt q r Vq Vr) in N.
    apply compare_lt_iff in N; try (apply valid_in_band; assumption). lia. }
  pose proof Vq as Vq'. pose proof Vr as Vr'.
  rewrite is_valid_split in Vq', Vr'. apply andb_true_iff in Vq', Vr'.
  destruct Vq' as [Eq _], Vr' as [Er _].
  destruct (is_extended_inv q Eq) as [Lq _].
  destruct (is_extended_inv r Er) as [Lr _].
  destruct (Z.le_gt_cases (level q) (level r)) as [L|L].
  - assert (is_next_D_loop fuel q (level r) = Some (Some q)) as R.
    { destruct fuel; cbn [is_next_D_loop];
        destruct (Z.gtb_spec (level q) (level r)); try lia; reflexivity. }
    rewrite R. unfold p4est_quadrant_is_next.
    destruct (Z.gtb_spec (level q) (level r)); [lia|]. reflexivity.
  - destruct (is_next_D_loop_spec q (level r) (Z.to_nat (level q - level r))
                (level q) fuel ltac:(lia) ltac:(lia) ltac:(lia) F) as [S1 S2].
    rewrite (ancestor_at_self q Eq) in S1, S2.
    unfold p4est_quadrant_is_next.
    destruct (Z.gtb_spec (level q) (level r)); [|lia]. cbn [andb].
    set (mask := P4EST_QUADRANT_LEN (level r) - P4EST_QUADRANT_LEN (level q)).
    assert (forall c, (Z.land c mask =? mask) = true <->
              forall j, P4EST_MAXLEVEL - level q <= j < P4EST_MAXLEVEL - level r ->
                        Z.testbit c j = true) as M.
    { intros c. subst mask. rewrite !QUADRANT_LEN_pow by lia.
      rewrite Z.eqb_eq. apply mask_bits. lia. }
    destruct (Z.land (x q) mask =? mask) eqn:Cx;
      [destruct (Z.land (y q) mask =? mask) eqn:Cy|]; cbn [negb orb].
    + rewrite S1.
      2:{ intros j Hj. split; [apply (proj1 (M (x q))) | apply (proj1 (M (y q)))];
            assumption. }
      cbn [ancestor_at set_xyl level].
      change (set_xyl q (clear_low (x q) (P4EST_MAXLEVEL - level r))
                        (clear_low (y q) (P4EST_MAXLEVEL - level r)) (level r))
        with (ancestor_at q (level r)).
      rewrite linear_id_ancestor_at by lia. reflexivity.
    + rewrite S2; [reflexivity|].
      intros B. assert ((Z.land (y q) mask =? mask) = true) as T.
      { apply M. intros j Hj. apply B, Hj. }
      congruence.
    + rewrite S2; [reflexivity|].
      intros B. assert ((Z.land (x q) mask =? mask) = true) as T.
      { apply M. intros j Hj. apply B, Hj. }
      congruence.
Qed.

Lemma is_next_agrees_with_D_witness :
  p4est_quadrant_is_next_D 1
    (mkquad (2 ^ 27) (2 ^ 27) 2 (user_data NULL))
    (mkquad (2 ^ 28) 0 1 (user_data NULL))
  = Some true.
Proof.
  exact (is_next_agrees_with_D
           (mkquad (2 ^ 27) (2 ^ 27) 2 (user_data NULL))
           (mkquad (2 ^ 28) 0 1 (user_data NULL)) 1%nat
           eq_refl eq_refl ltac:(cbn; lia)).
Defined.


(* ================================================================= *)
(** ** The predicates on trees *)

Lemma sorted_loop_almost (rest : list p4est_quadrant_t) :
  forall q1 fc, tree_is_sorted_loop q1 rest = true ->
  tree_is_almost_sorted_loop false q1 fc rest = true.
Proof.
  induction rest as [|q2 rest IH]; intros q1 fc S; [reflexivity|].
  cbn [tree_is_sorted_loop] in S. cbn [tree_is_almost_sorted_loop].
  destruct (p4est_quadrant_compare q1 q2 >=? 0); [discriminate|].
  cbn [andb]. rewrite IH by exact S.
  destruct (_ && _); reflexivity.
Qed.

Lemma linear_loop_almost (rest : list p4est_quadrant_t) :
  forall q1 fc c, tree_is_linear_loop q1 rest = true ->
  tree_is_almost_sorted_loop c q1 fc rest = true.
Proof.
  induction rest as [|q2 rest IH]; intros q1 fc c S; [reflexivity|].
  cbn [tree_is_linear_loop] in S. cbn [tree_is_almost_sorted_loop].
  destruct (p4est_quadrant_compare q1 q2 >=? 0); [discriminate|].
  destruct (p4est_quadrant_is_ancestor q1 q2); [discriminate|].
  rewrite andb_false_r. rewrite IH by exact S.
  destruct (_ && _); reflexivity.
Qed.

Lemma inside_face_contact (q : p4est_quadrant_t) :
  p4est_quadrant_is_inside q = true -> face_contact q = 0.
Proof.
  unfold p4est_quadrant_is_inside, face_contact. intros H.
  rewrite !andb_true_iff, !Z.geb_le, !Z.ltb_lt in H.
  destruct (Z.ltb_spec (y q) 0), (Z.geb_spec (x q) P4EST_ROOT_LEN),
           (Z.geb_spec (y q) P4EST_ROOT_LEN), (Z.ltb_spec (x q) 0);
    try lia; reflexivity.
Qed.

Lemma inside_loop_almost (rest : list p4est_quadrant_t) :
  forall q1 c, forallb p4est_quadrant_is_inside (q1 :: rest) = true ->
  tree_is_almost_sorted_loop c q1 (face_contact q1) rest
  = if c then tree_is_linear_loop q1 rest else tree_is_sorted_loop q1 rest.
Proof.
  induction rest as [|q2 rest IH]; intros q1 c I.
  - destruct c; reflexivity.
  - cbn [forallb] in I. apply andb_true_iff in I. destruct I as [I1 I2].
    cbn [tree_is_almost_sorted_loop tree_is_linear_loop tree_is_sorted_loop].
    rewrite (inside_face_contact q1 I1). cbn [Z.land Z.eqb negb andb].
    rewrite IH by exact I2.
    destruct c; cbn [andb];
      destruct (p4est_quadrant_compare q1 q2 >=? 0); try reflexivity.
Qed.

Lemma complete_loop_linear (rest : list p4est_quadrant_t) :
  forall q1, array_is_valid (q1 :: rest) = true ->
  tree_is_complete_loop q1 rest = true -> tree_is_linear_loop q1 rest = true.
Proof.
  induction rest as [|q2 rest IH]; intros q1 V C; [reflexivity|].
  unfold array_is_valid in V. cbn [forallb] in V.
  apply andb_true_iff in V. destruct V as [V1 V2].
  pose proof V2 as V2'. cbn [forallb] in V2'. apply andb_true_iff in V2'.
  destruct V2' as [V2' _].
  cbn [tree_is_complete_loop] in C. cbn [tree_is_linear_loop].
  destruct (p4est_quadrant_is_next q1 q2) eqn:N; [|discriminate].
  cbn [negb] in C.
  pose proof (is_next_lt q1 q2 V1 V2' N) as Lt.
  apply compare_lt_iff in Lt; try (apply valid_in_band; assumption).
  destruct (Z.geb_spec (p4est_quadrant_compare q1 q2) 0); [lia|].
  pose proof (is_next_not_equal_or_ancestor q1 q2 N) as NA.
  apply orb_false_iff in NA. rewrite (proj2 NA).
  apply IH; assumption.
Qed.

(** X17: how the four predicates on a tree are related.  A linear tree is
    sorted and almost sorted; a sorted tree is almost sorted without the
    linearity check; on quadrants inside the root
    [p4est_tree_is_almost_sorted] is [p4est_tree_is_linear] with the
    linearity check and [p4est_tree_is_sorted] without it; and a complete
    tree of valid quadrants is linear. *)
Theorem tree_predicates_chain (tree : p4est_tree_t) (check_linearity : bool) :
  (p4est_tree_is_linear tree = true ->
   p4est_tree_is_sorted tree = true /\
   p4est_tree_is_almost_sorted tree check_linearity = true) /\
  (p4est_tree_is_sorted tree = true ->
   p4est_tree_is_almost_sorted tree false = true) /\
  (forallb p4est_quadrant_is_inside (quadrants tree) = true ->
   p4est_tree_is_almost_sorted tree check_linearity
   = if check_linearity then p4est_tree_is_linear tree
     else p4est_tree_is_sorted tree) /\
  (array_is_valid (quadrants tree) = true ->
   p4est_tree_is_complete tree = true -> p4est_tree_is_linear tree = true).
Proof.
  unfold p4est_tree_is_linear, p4est_tree_is_sorted,
    p4est_tree_is_almost_sorted, p4est_tree_is_complete.
  destruct (quadrants tree) as [|q1 rest].
  { repeat split; try reflexivity. destruct check_linearity; reflexivity. }
  split; [|split; [|split]].
  - intros L. split; [apply linear_loop_sorted, L | apply linear_loop_almost, L].
  - apply sorted_loop_almost.
  - apply inside_loop_almost.
  - apply complete_loop_linear.
Qed.

Lemma tree_predicates_chain_witness :
  let tree :=
    mktree [mkquad 0 0 1 (user_data NULL);
            mkquad (2 ^ 28) 0 1 (user_data NULL);
            mkquad 0 (2 ^ 28) 1 (user_data NULL);
            mkquad (2 ^ 28) (2 ^ 28) 1 (user_data NULL)] [0; 4] 1 in
  p4est_tree_is_linear tree = true /\
  p4est_tree_is_sorted tree = true /\
  p4est_tree_is_almost_sorted tree true = true.
Proof.
  intros tree.
  destruct (tree_predicates_chain tree true) as [F1 [_ [_ F4]]].
  assert (p4est_tree_is_linear tree = true) as L
    by (apply F4; vm_compute; reflexivity).
  split; [exact L | apply F1, L].
Defined.

Lemma linear_loop_adjacent (rest : list p4est_quadrant_t) :
  forall q1 i, tree_is_linear_loop q1 rest = true ->
  (S i < length (q1 :: rest))%nat ->
  p4est_quadrant_is_ancestor (nth i (q1 :: rest) quadrant_zero)
                             (nth (S i) (q1 :: rest) quadrant_zero) = false.
Proof.
  induction rest as [|q2 rest IH]; intros q1 i L Hi; [cbn in Hi; lia|].
  cbn [tree_is_linear_loop] in L.
  destruct (p4est_quadrant_compare q1 q2 >=? 0); [discriminate|].
  destruct (p4est_quadrant_is_ancestor q1 q2) eqn:A; [discriminate|].
  destruct i as [|i]; [exact A|].
  change (nth (S i) (q1 :: q2 :: rest) quadrant_zero)
    with (nth i (q2 :: rest) quadrant_zero).
  change (nth (S (S i)) (q1 :: q2 :: rest) quadrant_zero)
    with (nth (S i) (q2 :: rest) quadrant_zero).
  apply IH; [exact L | cbn [length] in *; lia].
Qed.

Lemma array_is_extended_index (l : list p4est_quadrant_t) (i : Z) :
  array_is_extended l = true -> 0 <= i < elem_count l ->
  p4est_quadrant_is_extended (sc_array_index l i) = true.
Proof.
  intros E Hi. apply (proj1 (array_is_extended_forall l) E).
  unfold sc_array_index. apply nth_In. unfold elem_count in Hi. lia.
Qed.

(** X18: the test of neighbours that [p4est_tree_is_linear] makes settles all
    pairs.  In a linear tree of extended quadrants near the root, an element
    compares strictly below every later element, and no two elements are
    equal or contain one another. *)
Theorem tree_is_linear_no_overlap (tree : p4est_tree_t) (i j : Z) :
  array_in_band (quadrants tree) = true ->
  array_is_extended (quadrants tree) = true ->
  p4est_tree_is_linear tree = true ->
  0 <= i < j -> j < elem_count (quadrants tree) ->
  p4est_quadrant_compare (sc_array_index (quadrants tree) i)
                         (sc_array_index (quadrants tree) j) < 0 /\
  p4est_quadrant_is_equal (sc_array_index (quadrants tree) i)
                          (sc_array_index (quadrants tree) j) = false /\
  p4est_quadrant_is_ancestor (sc_array_index (quadrants tree) i)
                             (sc_array_index (quadrants tree) j) = false /\
  p4est_quadrant_is_ancestor (sc_array_index (quadrants tree) j)
                             (sc_array_index (quadrants tree) i) = false.
Proof.
  intros B E L Hi Hj.
  assert (p4est_tree_is_sorted tree = true) as Srt.
  { unfold p4est_tree_is_sorted, p4est_tree_is_linear in *.
    destruct (quadrants tree); [reflexivity | apply linear_loop_sorted, L]. }
  pose proof (tree_sorted_index tree B Srt) as Lt.
  set (a := sc_array_index (quadrants tree) i).
  set (b := sc_array_index (quadrants tree) j).
  set (c := sc_array_index (quadrants tree) (i + 1)).
  assert (quadrant_in_band a = true) as Ba by (apply array_in_band_index; [exact B|lia]).
  assert (quadrant_in_band b = true) as Bb by (apply array_in_band_index; [exact B|lia]).
  assert (quadrant_in_band c = true) as Bc by (apply array_in_band_index; [exact B|lia]).
  assert (p4est_quadrant_is_extended a = true) as Ea
    by (apply array_is_extended_index; [exact E|lia]).
  assert (p4est_quadrant_is_extended b = true) as Eb
    by (apply array_is_extended_index; [exact E|lia]).
  assert (p4est_quadrant_is_extended c = true) as Ec
    by (apply array_is_extended_index; [exact E|lia]).
  assert (quadrant_lt a b) as Lab by (apply Lt; lia).
  assert (quadrant_lt a c) as Lac by (apply Lt; lia).
  assert (p4est_quadrant_is_ancestor a c = false) as Aac.
  { unfold p4est_tree_is_linear in L. subst a c. unfold sc_array_index.
    unfold elem_count in Hj.
    destruct (quadrants tree) as [|q1 rest] eqn:Q; [cbn in Hj; lia|].
    replace (Z.to_nat (i + 1)) with (S (Z.to_nat i)) by lia.
    apply linear_loop_adjacent; [exact L | lia]. }
  assert (forall u v, quadrant_in_band u = true -> quadrant_in_band v = true ->
            quadrant_lt u v -> p4est_quadrant_is_equal u v = false) as Neq.
  { intros u v Bu Bv Luv. destruct (p4est_quadrant_is_equal u v) eqn:Q;
      [|reflexivity].
    exfalso. apply is_equal_inv in Q. destruct Q as (Qx & Qy & Ql).
    apply (compare_lt_iff u v Bu Bv) in Luv.
    assert (p4est_quadrant_compare u v = 0) as Z0
      by (apply (compare_eq_iff u v Bu Bv); repeat split; assumption).
    lia. }
  split; [apply compare_lt_iff; assumption|].
  split; [apply Neq; assumption|].
  split.
  - destruct (p4est_quadrant_is_ancestor a b) eqn:A; [|reflexivity].
    exfalso.
    assert (quadrant_le c b) as Lcb.
    { destruct (Z.eq_dec (i + 1) j) as [<-|Nj].
      - right. split; [reflexivity | apply Z.le_refl].
      - apply quadrant_lt_le, Lt; lia. }
    pose proof (between_ancestor_descendant a c b Ea Ec Ba Bc Bb A
                  (quadrant_lt_le _ _ Lac) Lcb) as Bt.
    rewrite (Neq a c Ba Bc Lac), Aac in Bt. discriminate.
  - destruct (p4est_quadrant_is_ancestor b a) eqn:A; [|reflexivity].
    exfalso. apply (ancestor_lt b a Eb Bb Ba) in A.
    apply (quadrant_lt_irrefl a). exact (quadrant_lt_trans a b a Lab A).
Qed.

Lemma tree_is_linear_no_overlap_witness :
  let tree :=
    mktree [mkquad 0 0 1 (user_data NULL);
            mkquad (2 ^ 28) 0 2 (user_data NULL);
            mkquad 0 (2 ^ 28) 1 (user_data NULL)] [0; 2; 1] 2 in
  p4est_quadrant_is_ancestor (sc_array_index (quadrants tree) 0)
                             (sc_array_index (quadrants tree) 2) = false.
Proof.
  intros tree.
  apply (tree_is_linear_no_overlap tree 0 2);
    [reflexivity | reflexivity | reflexivity | lia | cbn; lia].
Defined.


(* ================================================================= *)
(** ** The book-keeping of the linearization *)

Lemma per_level_matches_spec (pl : list Z) (arr : list p4est_quadrant_t) :
  per_level_matches pl arr = true <->
  forall l, 0 <= l <= P4EST_MAXLEVEL ->
            per_level_get pl l = level_count l arr.
Proof.
  unfold per_level_matches. rewrite forallb_forall.
  unfold P4EST_MAXLEVEL. split.
  - intros H l Hl. specialize (H (Z.to_nat l)).
    rewrite Z2Nat.id in H by lia. apply Z.eqb_eq, H, in_seq. lia.
  - intros H n I. apply in_seq in I. apply Z.eqb_eq, H. lia.
Qed.

Lemma level_count_cons (l : Z) (a : p4est_quadrant_t)
  (t : list p4est_quadrant_t) :
  level_count l (a :: t) = (if level a =? l then 1 else 0) + level_count l t.
Proof.
  unfold level_count. cbn [filter].
  destruct (level a =? l); cbn [length]; lia.
Qed.

Lemma level_count_nonneg (l : Z) (t : list p4est_quadrant_t) :
  0 <= level_count l t.
Proof. unfold level_count. lia. Qed.

Lemma level_count_split (l : Z) (arr : list p4est_quadrant_t) :
  level_count l arr
  = level_count l (linearized arr) + level_count l (linearize_dropped arr).
Proof.
  induction arr as [|a t IH]; [reflexivity|].
  destruct t as [|b t]; [cbn [linearized linearize_dropped]; unfold level_count at 3; cbn; lia|].
  rewrite linearized_cons2, linearize_dropped_cons2.
  rewrite (level_count_cons l a (b :: t)), IH.
  destruct (p4est_quadrant_is_equal a b || p4est_quadrant_is_ancestor a b);
    rewrite level_count_cons; lia.
Qed.

Lemma length_split (arr : list p4est_quadrant_t) :
  length arr = (length (linearized arr) + length (linearize_dropped arr))%nat.
Proof.
  induction arr as [|a t IH]; [reflexivity|].
  destruct t as [|b t]; [reflexivity|].
  rewrite linearized_cons2, linearize_dropped_cons2.
  cbn [length] in *.
  destruct (p4est_quadrant_is_equal a b || p4est_quadrant_is_ancestor a b);
    cbn [length]; lia.
Qed.

Lemma linearize_dropped_in (arr : list p4est_quadrant_t) (e : p4est_quadrant_t) :
  In e (linearize_dropped arr) -> In e arr.
Proof.
  induction arr as [|a t IH]; [intros []|].
  destruct t as [|b t]; [intros []|].
  rewrite linearize_dropped_cons2.
  destruct (p4est_quadrant_is_equal a b || p4est_quadrant_is_ancestor a b).
  - intros [<-|I]; [left; reflexivity | right; apply IH, I].
  - intros I. right. apply IH, I.
Qed.

Lemma per_level_add_get (pl : list Z) (lv d l : Z) :
  0 <= lv < Z.of_nat (length pl) -> 0 <= l ->
  per_level_get (per_level_add pl lv d) l
  = per_level_get pl l + (if l =? lv then d else 0).
Proof.
  intros Hlv Hl. unfold per_level_add.
  destruct (Z.ltb_spec lv 0); [lia|].
  unfold per_level_get at 1.
  destruct (Z.eqb_spec l lv) as [->|N].
  - rewrite list_set_nth_same by lia. reflexivity.
  - rewrite list_set_nth_other by lia. unfold per_level_get. lia.
Qed.

Lemma per_level_add_length (pl : list Z) (lv d : Z) :
  length (per_level_add pl lv d) = length pl.
Proof.
  unfold per_level_add. destruct (lv <? 0); [reflexivity|].
  apply list_set_length.
Qed.

Lemma per_level_drop_get (dropped : list p4est_quadrant_t) (l : Z) :
  forall pl,
  (forall e, In e dropped -> 0 <= level e < Z.of_nat (length pl)) -> 0 <= l ->
  per_level_get (per_level_drop pl dropped) l
  = per_level_get pl l - level_count l dropped.
Proof.
  induction dropped as [|c d IH]; intros pl R Hl.
  - unfold per_level_drop, level_count. cbn [fold_left filter length]. lia.
  - rewrite per_level_drop_cons, IH.
    + rewrite per_level_add_get by (try apply R; try left; auto).
      rewrite level_count_cons.
      destruct (Z.eqb_spec l (level c)), (Z.eqb_spec (level c) l); lia.
    + intros e I. rewrite per_level_add_length. apply R. right. exact I.
    + exact Hl.
Qed.

Lemma per_level_drop_length (dropped : list p4est_quadrant_t) :
  forall pl, length (per_level_drop pl dropped) = length pl.
Proof.
  induction dropped as [|c d IH]; intros pl; [reflexivity|].
  rewrite per_level_drop_cons, IH. apply per_level_add_length.
Qed.

Lemma filter_range_step (arr : list p4est_quadrant_t) (i n : Z) :
  0 <= n ->
  Z.of_nat (length (filter (fun q => (i <=? level q) && (level q <? i + (n + 1))) arr))
  = level_count i arr
    + Z.of_nat (length (filter (fun q => (i + 1 <=? level q)
                                         && (level q <? i + 1 + n)) arr)).
Proof.
  intros Hn. induction arr as [|a t IH]; [reflexivity|].
  rewrite level_count_cons. cbn [filter].
  destruct (Z.eqb_spec (level a) i), (Z.leb_spec i (level a)),
           (Z.ltb_spec (level a) (i + (n + 1))),
           (Z.leb_spec (i + 1) (level a)),
           (Z.ltb_spec (level a) (i + 1 + n)); try lia;
    cbn [andb length]; lia.
Qed.

Lemma level_counters_loop_sum (pl : list Z) (arr : list p4est_quadrant_t)
  (n : nat) :
  forall i maxl num,
  (forall l, i <= l < i + Z.of_nat n -> per_level_get pl l = level_count l arr) ->
  snd (level_counters_loop n i pl maxl num)
  = num + Z.of_nat (length (filter (fun q => (i <=? level q)
                                             && (level q <? i + Z.of_nat n)) arr)).
Proof.
  induction n as [|n IH]; intros i maxl num M.
  - cbn [level_counters_loop snd]. clear M.
    replace (filter _ arr) with (@nil p4est_quadrant_t); [cbn; lia|].
    symmetry. induction arr as [|a t IHt]; [reflexivity|].
    cbn [filter].
    destruct (Z.leb_spec i (level a)), (Z.ltb_spec (level a) (i + Z.of_nat 0));
      try lia; cbn [andb]; exact IHt.
  - cbn [level_counters_loop]. rewrite IH.
    + replace (Z.of_nat (S n)) with (Z.of_nat n + 1) by lia.
      rewrite filter_range_step by lia.
      rewrite M by lia. lia.
    + intros l Hl. apply M. lia.
Qed.

Lemma filter_all (arr : list p4est_quadrant_t) (f : p4est_quadrant_t -> bool) :
  (forall e, In e arr -> f e = true) -> filter f arr = arr.
Proof.
  induction arr as [|a t IH]; intros H; [reflexivity|].
  cbn [filter]. rewrite (H a (or_introl eq_refl)).
  f_equal. apply IH. intros e I. apply H. right. exact I.
Qed.

Lemma level_count_pos_in (l : Z) (arr : list p4est_quadrant_t) :
  0 < level_count l arr <-> exists e, In e arr /\ level e = l.
Proof.
  induction arr as [|a t IH].
  - unfold level_count. cbn. split; [lia | intros [e [[] _]]].
  - rewrite level_count_cons. pose proof (level_count_nonneg l t).
    destruct (Z.eqb_spec (level a) l) as [E|N].
    + split; [|lia]. intros _. exists a. split; [left; reflexivity | exact E].
    + split.
      * intros P. destruct (proj1 IH ltac:(lia)) as [e [I L]].
        exists e. split; [right; exact I | exact L].
      * intros [e [[<-|I] L]]; [contradiction|].
        assert (0 < level_count l t) by (apply IH; exists e; auto). lia.
Qed.

Lemma free_data_all_pools (dropped : list p4est_quadrant_t) :
  forall p4est,
  data_size (free_data_all p4est dropped) = data_size p4est /\
  quadrant_pool (free_data_all p4est dropped) = quadrant_pool p4est /\
  (data_size p4est <= 0 ->
   user_data_pool (free_data_all p4est dropped) = user_data_pool p4est) /\
  (user_data_pool p4est = None ->
   user_data_pool (free_data_all p4est dropped) = None) /\
  (forall pool, 0 < data_size p4est -> user_data_pool p4est = Some pool ->
   exists pool', user_data_pool (free_data_all p4est dropped) = Some pool' /\
     mempool_elem_count pool'
     = mempool_elem_count pool - Z.of_nat (length dropped)).
Proof.
  induction dropped as [|c d IH]; intros p4est.
  - cbn. repeat split; auto.
    intros pool _ E. exists pool. split; [exact E | lia].
  - rewrite free_data_all_cons.
    destruct (IH (fst (p4est_quadrant_free_data p4est c)))
      as (I1 & I2 & I3 & I4 & I5).
    unfold p4est_quadrant_free_data in *. cbn [fst] in *.
    destruct (Z.gtb_spec (data_size p4est) 0) as [G|G].
    + destruct (user_data_pool p4est) as [pool|] eqn:U.
      * cbn [data_size quadrant_pool user_data_pool] in *.
        split; [exact I1|]. split; [exact I2|].
        split; [lia|]. split; [discriminate|].
        intros pool0 _ E. injection E as <-.
        destruct (I5 _ G eq_refl) as [pool' [E1 E2]].
        exists pool'. split; [exact E1|].
        rewrite E2. cbn [sc_mempool_free mempool_elem_count length]. lia.
      * split; [exact I1|]. split; [exact I2|].
        split; [lia|]. split; [intros _; apply I4, U|].
        intros pool0 _ E. discriminate.
    + split; [exact I1|]. split; [exact I2|].
      split; [intros _; apply I3; lia|]. split; [exact I4|].
      intros pool0 P. lia.
Qed.

(** X19: the book-keeping of [p4est_linearize_subtree].  When the level
    counters of the tree hold the number of quadrants of every level, they
    still do afterwards, and their sum is the new element count, as the
    closing assertions of the function say; with two or more quadrants on
    entry the new [maxlevel] is the largest level left in the tree; the data
    size and the quadrant pool are untouched, and a user data pool in use
    loses exactly one block for every quadrant removed. *)
Theorem linearize_subtree_accounting (p4est : p4est_t) (tree : p4est_tree_t) :
  length (quadrants_per_level tree) = Z.to_nat (P4EST_MAXLEVEL + 1) ->
  array_is_extended (quadrants tree) = true ->
  per_level_matches (quadrants_per_level tree) (quadrants tree) = true ->
  let p4est' := fst (p4est_linearize_subtree p4est tree) in
  let tree' := snd (p4est_linearize_subtree p4est tree) in
  let removed := elem_count (quadrants tree) - elem_count (quadrants tree') in
  0 <= removed /\
  per_level_matches (quadrants_per_level tree') (quadrants tree') = true /\
  snd (level_counters_loop (Z.to_nat (P4EST_MAXLEVEL + 1)) 0
         (quadrants_per_level tree') 0 0)
  = elem_count (quadrants tree') /\
  (1 < elem_count (quadrants tree) ->
   (forall e, In e (quadrants tree') -> level e <= maxlevel tree') /\
   (exists e, In e (quadrants tree') /\ level e = maxlevel tree')) /\
  data_size p4est' = data_size p4est /\
  quadrant_pool p4est' = quadrant_pool p4est /\
  (forall pool, 0 < data_size p4est -> user_data_pool p4est = Some pool ->
   exists pool', user_data_pool p4est' = Some pool' /\
     mempool_elem_count pool' = mempool_elem_count pool - removed).
Proof.
  intros Len Ext M p4est' tree' removed.
  rewrite per_level_matches_spec in M. rewrite per_level_matches_spec.
  destruct (linearize_subtree_quadrants p4est tree) as (Q & PL & PP).
  fold tree' in Q, PL. fold p4est' in PP.
  pose proof (length_split (quadrants tree)) as LS.
  assert (removed = Z.of_nat (length (linearize_dropped (quadrants tree)))) as R.
  { subst removed. rewrite Q. unfold elem_count. lia. }
  assert (forall e, In e (quadrants tree) -> 0 <= level e <= P4EST_MAXLEVEL) as Lv.
  { intros e I. apply (proj1 (array_is_extended_forall _) Ext) in I.
    apply is_extended_inv in I. apply I. }
  assert (forall l, 0 <= l <= P4EST_MAXLEVEL ->
            per_level_get (quadrants_per_level tree') l
            = level_count l (quadrants tree')) as M'.
  { intros l Hl. rewrite PL, Q, per_level_drop_get.
    - rewrite (M l Hl), (level_count_split l (quadrants tree)). lia.
    - intros e I. apply linearize_dropped_in, Lv in I. rewrite Len.
      unfold P4EST_MAXLEVEL in *. lia.
    - lia. }
  split; [lia|]. split; [exact M'|]. split.
  { rewrite (level_counters_loop_sum _ (quadrants tree')).
    - rewrite filter_all; [unfold elem_count; lia|].
      intros e I. rewrite Q in I. apply linearized_in, Lv in I.
      unfold P4EST_MAXLEVEL in *.
      destruct (Z.leb_spec 0 (level e)),
               (Z.ltb_spec (level e) (0 + Z.of_nat (Z.to_nat (29 + 1))));
        try lia; reflexivity.
    - intros l Hl. apply M'. unfold P4EST_MAXLEVEL in *. lia. }
  split.
  { intros Two. pose proof (linearize_subtree_maxlevel p4est tree Two) as H.
    fold tree' in H. destruct H as [Hi Pop].
    assert (exists e0, In e0 (quadrants tree')) as [e0 I0].
    { rewrite Q. destruct (quadrants tree) as [|a t] eqn:Qa;
        [cbn in Two; lia|].
      pose proof (linearized_nonempty a t) as NE.
      destruct (linearized (a :: t)) as [|e0 r]; [contradiction|].
      exists e0. left. reflexivity. }
    assert (forall e, In e (quadrants tree') ->
              0 <= level e <= P4EST_MAXLEVEL /\
              per_level_get (quadrants_per_level tree') (level e) > 0) as Pos.
    { intros e I. assert (0 <= level e <= P4EST_MAXLEVEL) as Le
        by (rewrite Q in I; apply linearized_in, Lv in I; exact I).
      split; [exact Le|]. rewrite (M' _ Le).
      assert (0 < level_count (level e) (quadrants tree'))
        by (apply level_count_pos_in; exists e; auto). lia. }
    split.
    - intros e I. destruct (Pos e I) as [Le P]. apply Hi; assumption.
    - destruct Pop as [[_ Z0]|[Rg P]].
      + destruct (Pos e0 I0) as [Le P]. specialize (Z0 _ Le). lia.
      + rewrite (M' _ Rg) in P. apply level_count_pos_in. lia. }
  destruct (free_data_all_pools (linearize_dropped (quadrants tree)) p4est)
    as (F1 & F2 & _ & _ & F5).
  rewrite <- PP in F1, F2, F5.
  split; [exact F1|]. split; [exact F2|].
  intros pool P U. rewrite R. apply F5; assumption.
Qed.

Lemma linearize_subtree_accounting_witness :
  let p4est := mkp4est 8 (Some (mkpool 3 3)) (mkpool 3 3) in
  let tree :=
    mktree [mkquad 0 0 0 (user_data 0);
            mkquad 0 0 1 (user_data 1);
            mkquad (2 ^ 28) 0 1 (user_data 2)]
           (1 :: 2 :: repeat 0 28) 1 in
  per_level_matches
    (quadrants_per_level (snd (p4est_linearize_subtree p4est tree)))
    (quadrants (snd (p4est_linearize_subtree p4est tree))) = true.
Proof.
  intros p4est tree.
  exact (proj1 (proj2 (linearize_subtree_accounting p4est tree
                         eq_refl eq_refl eq_refl))).
Defined.


(* ================================================================= *)
(** ** What the linearization keeps *)

Lemma is_equal_refl (a : p4est_quadrant_t) : p4est_quadrant_is_equal a a = true.
Proof. unfold p4est_quadrant_is_equal. rewrite !Z.eqb_refl. reflexivity. Qed.

Lemma covers_trans (a b c : p4est_quadrant_t) :
  p4est_quadrant_is_extended b = true ->
  p4est_quadrant_is_equal a b || p4est_quadrant_is_ancestor a b = true ->
  p4est_quadrant_is_equal b c || p4est_quadrant_is_ancestor b c = true ->
  p4est_quadrant_is_equal a c || p4est_quadrant_is_ancestor a c = true.
Proof.
  intros Eb Hab Hbc. destruct (is_extended_inv b Eb) as (Lb & _ & _).
  apply orb_true_iff in Hab. apply orb_true_iff in Hbc.
  destruct Hab as [Hab|Hab].
  - apply is_equal_inv in Hab. destruct Hab as (Ex & Ey & El).
    unfold p4est_quadrant_is_equal, p4est_quadrant_is_ancestor in *.
    rewrite Ex, Ey, El. apply orb_true_iff. exact Hbc.
  - destruct Hbc as [Hbc|Hbc].
    + apply is_equal_inv in Hbc. destruct Hbc as (Ex & Ey & El).
      apply orb_true_iff. right.
      unfold p4est_quadrant_is_ancestor in *.
      rewrite <- Ex, <- Ey, <- El. exact Hab.
    + apply orb_true_iff. right.
      apply is_ancestor_inv in Hab, Hbc. apply is_ancestor_inv.
      destruct Hab as (L1 & X1 & Y1). destruct Hbc as (L2 & X2 & Y2).
      split; [lia|].
      split; [apply (shiftr_lxor_chain _ (x b) _ _ (P4EST_MAXLEVEL - level b))
             |apply (shiftr_lxor_chain _ (y b) _ _ (P4EST_MAXLEVEL - level b))];
        (assumption || lia).
Qed.

Lemma linearized_covers (l : list p4est_quadrant_t) :
  array_is_extended l = true ->
  forall e, In e l ->
  exists k, In k (linearized l) /\
    p4est_quadrant_is_equal e k || p4est_quadrant_is_ancestor e k = true.
Proof.
  induction l as [|a t IH]; intros E e I; [destruct I|].
  apply array_is_extended_cons in E. destruct E as [Ea Et].
  destruct t as [|b t].
  - destruct I as [<-|[]]. exists a. split; [left; reflexivity|].
    rewrite is_equal_refl. reflexivity.
  - specialize (IH Et). rewrite linearized_cons2.
    pose proof Et as Et'. apply array_is_extended_cons in Et'.
    destruct Et' as [Eb _].
    destruct (p4est_quadrant_is_equal a b || p4est_quadrant_is_ancestor a b)
      eqn:D.
    + destruct I as [<-|I]; [|apply IH, I].
      destruct (IH b (or_introl eq_refl)) as [k [Ik Ck]].
      exists k. split; [exact Ik|]. apply (covers_trans a b k); assumption.
    + destruct I as [<-|I].
      * exists a. split; [left; reflexivity|].
        rewrite is_equal_refl. reflexivity.
      * destruct (IH e I) as [k [Ik Ck]].
        exists k. split; [right; exact Ik | exact Ck].
Qed.

Lemma linearize_subtree_maxlevel_eq (p4est : p4est_t) (tree : p4est_tree_t) :
  1 < elem_count (quadrants tree) ->
  maxlevel (snd (p4est_linearize_subtree p4est tree))
  = int8 (fst (level_counters_loop (Z.to_nat (P4EST_MAXLEVEL + 1)) 0
                 (quadrants_per_level (snd (p4est_linearize_subtree p4est tree)))
                 0 0)).
Proof.
  intros H. unfold p4est_linearize_subtree.
  destruct (Z.leb_spec (elem_count (quadrants tree)) 1); [lia|].
  destruct (linearize_loop _ _ _ _ _ _ _) as [[[[p' arr'] pl'] cur'] rem'].
  destruct (level_counters_loop _ 0 pl' 0 0) as [maxl num] eqn:LC.
  cbn [fst snd quadrants_per_level maxlevel]. rewrite LC. reflexivity.
Qed.

(** X20: what [p4est_linearize_subtree] keeps.  Every quadrant of the output
    is a quadrant of the input, and every quadrant of an input of extended
    quadrants equals or is an ancestor of a quadrant of the output, so that
    the region covered does not shrink.  On an input of the band in
    non-decreasing order a second run changes nothing, neither the tree nor
    the pools. *)
Theorem linearize_subtree_covers (p4est : p4est_t) (tree : p4est_tree_t) :
  array_is_extended (quadrants tree) = true ->
  let p4est' := fst (p4est_linearize_subtree p4est tree) in
  let tree' := snd (p4est_linearize_subtree p4est tree) in
  (forall e, In e (quadrants tree') -> In e (quadrants tree)) /\
  (forall e, In e (quadrants tree) ->
   exists k, In k (quadrants tree') /\
     p4est_quadrant_is_equal e k || p4est_quadrant_is_ancestor e k = true) /\
  (array_in_band (quadrants tree) = true -> tree_is_ordered tree = true ->
   p4est_linearize_subtree p4est' tree' = (p4est', tree')).
Proof.
  intros E p4est' tree'.
  destruct (linearize_subtree_quadrants p4est tree) as (Q & PL & FD).
  fold tree' in Q, PL. fold p4est' in FD.
  split; [intros e I; rewrite Q in I; apply linearized_in, I|].
  split; [intros e I; rewrite Q; apply linearized_covers; assumption|].
  intros B O.
  destruct (Z.le_gt_cases (elem_count (quadrants tree')) 1) as [S1|S1].
  { unfold p4est_linearize_subtree at 1.
    destruct (Z.leb_spec (elem_count (quadrants tree')) 1); [reflexivity|lia]. }
  assert (1 < elem_count (quadrants tree)) as S0.
  { pose proof (length_split (quadrants tree)) as LS.
    rewrite Q in S1. unfold elem_count in *. lia. }
  assert (linearized (quadrants tree') = quadrants tree' /\
          linearize_dropped (quadrants tree') = []) as [L1 L2].
  { rewrite Q. destruct (quadrants tree) as [|q1 rest] eqn:Eq;
      [split; reflexivity|].
    pose proof (linearized_linear (q1 :: rest)
                  (tree_is_ordered_loop_strongly q1 rest B
                     ltac:(unfold tree_is_ordered in O; rewrite Eq in O; exact O))
                  B E) as Lin.
    destruct (linearized (q1 :: rest)) as [|e r]; [split; reflexivity|].
    apply linearized_of_linear, Lin. }
  destruct (linearize_subtree_quadrants p4est' tree') as (Q2 & PL2 & FD2).
  rewrite L1 in Q2. rewrite L2 in PL2, FD2. cbn in PL2, FD2.
  pose proof (linearize_subtree_maxlevel_eq p4est' tree' S1) as M2.
  rewrite PL2 in M2.
  pose proof (linearize_subtree_maxlevel_eq p4est tree S0) as M1.
  fold tree' in M1. rewrite <- M1 in M2.
  clearbody tree' p4est'.
  destruct (p4est_linearize_subtree p4est' tree') as [p2 t2].
  cbn [fst snd] in *. subst p2. f_equal.
  destruct t2 as [q2 pl2 m2], tree' as [q1 pl1 m1].
  cbn [quadrants quadrants_per_level maxlevel] in *.
  congruence.
Qed.

Lemma linearize_subtree_covers_witness :
  let p4est := mkp4est 8 (Some (mkpool 3 3)) (mkpool 3 3) in
  let tree :=
    mktree [mkquad 0 0 0 (user_data 0);
            mkquad 0 0 1 (user_data 1);
            mkquad (2 ^ 28) 0 1 (user_data 2)]
           (1 :: 2 :: repeat 0 28) 1 in
  p4est_linearize_subtree (fst (p4est_linearize_subtree p4est tree))
                          (snd (p4est_linearize_subtree p4est tree))
  = p4est_linearize_subtree p4est tree.
Proof.
  intros p4est tree.
  rewrite (proj2 (proj2 (linearize_subtree_covers p4est tree eq_refl))
             eq_refl eq_refl).
  reflexivity.
Defined.


(* ================================================================= *)
(** ** The order with tree numbers *)

(** X21: on quadrants near the root that carry non-negative tree numbers,
    [p4est_quadrant_compare_piggy] is the lexicographic order of the tree
    number and [p4est_quadrant_compare]: it is negative exactly when the tree
    number is smaller, or equal with a smaller quadrant; it is zero exactly
    for equal quadrants of one tree; swapping the arguments swaps the sign;
    and it is transitive. *)
Theorem compare_piggy_order (q1 q2 q3 : p4est_quadrant_t) :
  quadrant_in_band q1 = true -> quadrant_in_band q2 = true ->
  quadrant_in_band q3 = true ->
  0 <= piggy_which_tree q1 < 2 ^ 31 -> 0 <= piggy_which_tree q2 < 2 ^ 31 ->
  0 <= piggy_which_tree q3 < 2 ^ 31 ->
  (p4est_quadrant_compare_piggy q1 q2 < 0 <->
   piggy_which_tree q1 < piggy_which_tree q2 \/
   (piggy_which_tree q1 = piggy_which_tree q2 /\
    p4est_quadrant_compare q1 q2 < 0)) /\
  (p4est_quadrant_compare_piggy q1 q2 = 0 <->
   piggy_which_tree q1 = piggy_which_tree q2 /\
   p4est_quadrant_is_equal q1 q2 = true) /\
  (p4est_quadrant_compare_piggy q2 q1 > 0 <->
   p4est_quadrant_compare_piggy q1 q2 < 0) /\
  (p4est_quadrant_compare_piggy q1 q2 < 0 ->
   p4est_quadrant_compare_piggy q2 q3 < 0 ->
   p4est_quadrant_compare_piggy q1 q3 < 0).
Proof.
  intros B1 B2 B3 T1 T2 T3.
  assert (forall a b, 0 <= piggy_which_tree a < 2 ^ 31 ->
            0 <= piggy_which_tree b < 2 ^ 31 ->
            (p4est_quadrant_compare_piggy a b < 0 <->
             piggy_which_tree a < piggy_which_tree b \/
             (piggy_which_tree a = piggy_which_tree b /\
              p4est_quadrant_compare a b < 0)) /\
            (p4est_quadrant_compare_piggy a b = 0 <->
             piggy_which_tree a = piggy_which_tree b /\
             p4est_quadrant_compare a b = 0) /\
            (p4est_quadrant_compare_piggy a b > 0 <->
             piggy_which_tree a > piggy_which_tree b \/
             (piggy_which_tree a = piggy_which_tree b /\
              p4est_quadrant_compare a b > 0))) as P.
  { intros a b Ta Tb. unfold p4est_quadrant_compare_piggy.
    rewrite int32_small by lia.
    destruct (Z.eqb_spec (piggy_which_tree a - piggy_which_tree b) 0);
      [lia|].
    destruct (Z.ltb_spec (piggy_which_tree a - piggy_which_tree b) 0); lia. }
  destruct (P q1 q2 T1 T2) as (L12 & E12 & G12).
  destruct (P q2 q1 T2 T1) as (L21 & E21 & G21).
  destruct (P q2 q3 T2 T3) as (L23 & _ & _).
  destruct (P q1 q3 T1 T3) as (L13 & _ & _).
  pose proof (compare_antisym q1 q2 B1 B2) as A.
  split; [exact L12|]. split; [|split].
  - rewrite E12, (compare_eq_iff q1 q2 B1 B2), is_equal_inv. reflexivity.
  - rewrite G21, L12. lia.
  - intros H12 H23. apply L12 in H12. apply L23 in H23. apply L13.
    destruct H12 as [H12|[E H12]], H23 as [H23|[F H23]]; try lia.
    right. split; [lia|].
    apply compare_lt_iff in H12, H23; try assumption.
    apply compare_lt_iff; try assumption.
    exact (quadrant_lt_trans q1 q2 q3 H12 H23).
Qed.

Lemma compare_piggy_order_witness :
  p4est_quadrant_compare_piggy (mkquad 0 0 0 (piggy 2))
                               (mkquad (2 ^ 28) 0 1 (piggy 1)) > 0 <->
  p4est_quadrant_compare_piggy (mkquad (2 ^ 28) 0 1 (piggy 1))
                               (mkquad 0 0 0 (piggy 2)) < 0.
Proof.
  exact (proj1 (proj2 (proj2
    (compare_piggy_order (mkquad (2 ^ 28) 0 1 (piggy 1))
       (mkquad 0 0 0 (piggy 2)) (mkquad 0 0 0 (piggy 2))
       eq_refl eq_refl eq_refl
       ltac:(cbn; lia) ltac:(cbn; lia) ltac:(cbn; lia))))).
Defined.

(* ================================================================= *)
(** ** The hash of a quadrant *)

Lemma hash_value (q : p4est_quadrant_t) :
  p4est_quadrant_hash q = p4est_quadrant_linear_id q (level q) mod 2 ^ 30 /\
  0 <= p4est_quadrant_hash q < 2 ^ 30.
Proof.
  unfold p4est_quadrant_hash.
  change (uint64 (Z.shiftl 1 30)) with (2 ^ 30).
  pose proof (Z.mod_pos_bound (p4est_quadrant_linear_id q (level q)) (2 ^ 30)
                ltac:(lia)) as B.
  rewrite uint32_small by lia. split; [reflexivity | exact B].
Qed.

Lemma valid_inv (q : p4est_quadrant_t) :
  p4est_quadrant_is_valid q = true ->
  0 <= level q <= P4EST_MAXLEVEL /\
  0 <= x q < 2 ^ 29 /\ 0 <= y q < 2 ^ 29 /\
  (forall k, 0 <= k < P4EST_MAXLEVEL - level q -> Z.testbit (x q) k = false) /\
  (forall k, 0 <= k < P4EST_MAXLEVEL - level q -> Z.testbit (y q) k = false).
Proof.
  intros V. rewrite is_valid_split in V. apply andb_true_iff in V.
  destruct V as [E I]. pose proof (key_aligned q E) as _.
  destruct (is_extended_inv q E) as (L & Ax & Ay).
  unfold p4est_quadrant_is_inside in I. rewrite ROOT_LEN_val in I.
  rewrite !andb_true_iff, !Z.geb_le, !Z.ltb_lt in I.
  split; [exact L|]. split; [lia|]. split; [lia|].
  unfold P4EST_MAXLEVEL in *.
  split; intros k Hk.
  - apply (f_equal (fun v => Z.testbit v k)) in Ax.
    rewrite Z.land_spec, Z.testbit_0_l in Ax.
    change (2 ^ (29 - level q) - 1) with (Z.pred (2 ^ (29 - level q))) in Ax.
    rewrite <- Z.ones_equiv, Z.ones_spec_low, andb_true_r in Ax by lia.
    exact Ax.
  - apply (f_equal (fun v => Z.testbit v k)) in Ay.
    rewrite Z.land_spec, Z.testbit_0_l in Ay.
    change (2 ^ (29 - level q) - 1) with (Z.pred (2 ^ (29 - level q))) in Ay.
    rewrite <- Z.ones_equiv, Z.ones_spec_low, andb_true_r in Ay by lia.
    exact Ay.
Qed.

Lemma hash_bits (q : p4est_quadrant_t) (k : Z) :
  p4est_quadrant_is_valid q = true -> 0 <= k ->
  Z.testbit (p4est_quadrant_hash q) k
  = (k <? 30) &&
    (if Z.even k then Z.testbit (x q) (k / 2 + (P4EST_MAXLEVEL - level q))
     else Z.testbit (y q) (k / 2 + (P4EST_MAXLEVEL - level q))).
Proof.
  intros V Hk. destruct (valid_inv q V) as (L & Rx & Ry & _ & _).
  rewrite (proj1 (hash_value q)).
  rewrite Z.testbit_mod_pow2 by lia.
  destruct (Z.ltb_spec k 30); [|reflexivity]. cbn [andb].
  rewrite linear_id_bits by assumption.
  destruct (Z.ltb_spec k (2 * (level q + 3))); [reflexivity|].
  cbn [andb]. unfold P4EST_MAXLEVEL in *.
  assert (level q + 3 <= k / 2) by (apply Z.div_le_lower_bound; lia).
  rewrite (testbit_above (x q) 29), (testbit_above (y q) 29) by lia.
  destruct (Z.even k); reflexivity.
Qed.

Lemma mod_pow2_eq_bits (a b n : Z) :
  0 <= n ->
  (a mod 2 ^ n = b mod 2 ^ n <->
   forall i, 0 <= i < n -> Z.testbit a i = Z.testbit b i).
Proof.
  intros Hn. split.
  - intros E i Hi. apply (f_equal (fun v => Z.testbit v i)) in E.
    rewrite !Z.testbit_mod_pow2 in E by lia.
    destruct (Z.ltb_spec i n); [exact E|lia].
  - intros B. apply Z.bits_inj'. intros i Hi.
    rewrite !Z.testbit_mod_pow2 by lia.
    destruct (Z.ltb_spec i n); [apply B; lia | reflexivity].
Qed.

(** X22: [p4est_quadrant_hash] is below [2 ^ 30] and does not look at the
    payload: quadrants that [p4est_quadrant_is_equal] identifies have one
    hash.  Two valid quadrants of one level [l] have the same hash exactly
    when their coordinates agree modulo [2 ^ (Lmax + 15 - l)], that is on the
    fifteen finest levels of their position; up to level 15 the hash
    therefore separates the valid quadrants of a level. *)
Theorem quadrant_hash_facts (q r : p4est_quadrant_t) :
  0 <= p4est_quadrant_hash q < 2 ^ 30 /\
  (p4est_quadrant_is_equal q r = true ->
   p4est_quadrant_hash q = p4est_quadrant_hash r) /\
  (p4est_quadrant_is_valid q = true -> p4est_quadrant_is_valid r = true ->
   level q = level r ->
   (p4est_quadrant_hash q = p4est_quadrant_hash r <->
    x q mod 2 ^ (P4EST_MAXLEVEL + 15 - level q)
      = x r mod 2 ^ (P4EST_MAXLEVEL + 15 - level q) /\
    y q mod 2 ^ (P4EST_MAXLEVEL + 15 - level q)
      = y r mod 2 ^ (P4EST_MAXLEVEL + 15 - level q)) /\
   (level q <= 15 -> p4est_quadrant_hash q = p4est_quadrant_hash r ->
    p4est_quadrant_is_equal q r = true)).
Proof.
  split; [apply hash_value|]. split.
  { intros E. apply is_equal_inv in E. destruct E as (Ex & Ey & El).
    unfold p4est_quadrant_hash, p4est_quadrant_linear_id.
    rewrite Ex, Ey, El. reflexivity. }
  intros Vq Vr El.
  destruct (valid_inv q Vq) as (Lq & Xq & Yq & Ax & Ay).
  destruct (valid_inv r Vr) as (Lr & Xr & Yr & Bx & By).
  rewrite <- El in Bx, By. unfold P4EST_MAXLEVEL in *.
  assert (p4est_quadrant_hash q = p4est_quadrant_hash r <->
          x q mod 2 ^ (29 + 15 - level q) = x r mod 2 ^ (29 + 15 - level q) /\
          y q mod 2 ^ (29 + 15 - level q) = y r mod 2 ^ (29 + 15 - level q))
    as Iff.
  { rewrite !mod_pow2_eq_bits by lia. split.
    - intros H.
      assert (forall k, 0 <= k < 30 ->
                (if Z.even k then Z.testbit (x q) (k / 2 + (29 - level q))
                 else Z.testbit (y q) (k / 2 + (29 - level q)))
                = (if Z.even k then Z.testbit (x r) (k / 2 + (29 - level q))
                   else Z.testbit (y r) (k / 2 + (29 - level q)))) as B.
      { intros k Hk. pose proof (f_equal (fun v => Z.testbit v k) H) as Hb.
        cbv beta in Hb. rewrite !hash_bits in Hb by (assumption || lia).
        unfold P4EST_MAXLEVEL in Hb. rewrite <- El in Hb.
        destruct (Z.ltb_spec k 30); [exact Hb|lia]. }
      split; intros i Hi.
      + destruct (Z.lt_ge_cases i (29 - level q));
          [rewrite Ax, Bx by lia; reflexivity|].
        specialize (B (2 * (i - (29 - level q))) ltac:(lia)).
        rewrite Z.even_mul in B. cbn [Z.even orb] in B.
        rewrite (Z.mul_comm 2), Z.div_mul in B by lia.
        replace (i - (29 - level q) + (29 - level q)) with i in B by lia.
        exact B.
      + destruct (Z.lt_ge_cases i (29 - level q));
          [rewrite Ay, By by lia; reflexivity|].
        specialize (B (1 + 2 * (i - (29 - level q))) ltac:(lia)).
        rewrite Z.even_add, Z.even_mul in B. cbn [Z.even orb Bool.eqb] in B.
        replace ((1 + 2 * (i - (29 - level q))) / 2)
          with (i - (29 - level q)) in B
          by (apply Z.div_unique with (r := 1); lia).
        replace (i - (29 - level q) + (29 - level q)) with i in B by lia.
        exact B.
    - intros [Hx Hy]. apply Z.bits_inj'. intros k Hk.
      rewrite !hash_bits by (assumption || lia).
      unfold P4EST_MAXLEVEL. rewrite <- El.
      destruct (Z.ltb_spec k 30); [|reflexivity]. cbn [andb].
      assert (0 <= k / 2 < 15).
      { split; [apply Z.div_pos; lia | apply Z.div_lt_upper_bound; lia]. }
      destruct (Z.even k); [apply Hx | apply Hy]; lia. }
  split; [exact Iff|].
  intros L15 H. apply Iff in H. destruct H as [Hx Hy].
  assert (2 ^ 29 <= 2 ^ (29 + 15 - level q)) as P
    by (apply Z.pow_le_mono_r; lia).
  rewrite !Z.mod_small in Hx, Hy by lia.
  apply is_equal_inv. repeat split; assumption.
Qed.

Lemma quadrant_hash_facts_witness :
  p4est_quadrant_hash (mkquad (2 ^ 28) 0 16 (user_data 7))
  = p4est_quadrant_hash (mkquad 0 0 16 (user_data NULL)).
Proof.
  apply (proj1 (proj2 (proj2 (quadrant_hash_facts
           (mkquad (2 ^ 28) 0 16 (user_data 7))
           (mkquad 0 0 16 (user_data NULL)))) eq_refl eq_refl eq_refl)).
  split; reflexivity.
Defined.

(* ================================================================= *)
(** ** Corner numbers and child numbers under a transform *)

Lemma mirror_bit (a l : Z) :
  1 <= l <= P4EST_MAXLEVEL -> 0 <= a < 2 ^ 29 ->
  (forall k, 0 <= k < P4EST_MAXLEVEL - l -> Z.testbit a k = false) ->
  Z.testbit (int32 (P4EST_LAST_OFFSET l - a)) (P4EST_MAXLEVEL - l)
  = negb (Z.testbit a (P4EST_MAXLEVEL - l)).
Proof.
  intros L R A. unfold P4EST_LAST_OFFSET.
  rewrite QUADRANT_LEN_pow, ROOT_LEN_val by lia. unfold P4EST_MAXLEVEL in *.
  set (m := 29 - l) in *.
  assert (0 < 2 ^ m) as Pm by (apply Z.pow_pos_nonneg; lia).
  assert (a mod 2 ^ m = 0) as Am.
  { apply Z.bits_inj'. intros k Hk.
    rewrite Z.testbit_mod_pow2, Z.testbit_0_l by lia.
    destruct (Z.ltb_spec k m); [apply A; lia | reflexivity]. }
  pose proof (Z.div_mod a (2 ^ m) ltac:(lia)) as D.
  set (k := a / 2 ^ m) in *.
  assert (2 ^ 29 = 2 ^ m * (2 * 2 ^ (l - 1))) as P29.
  { rewrite <- Z.pow_succ_r, <- Z.pow_add_r by lia. f_equal. lia. }
  assert (0 < 2 ^ (l - 1)) as Pl by (apply Z.pow_pos_nonneg; lia).
  assert (0 <= k < 2 * 2 ^ (l - 1)) as Rk by nia.
  assert (2 ^ 29 - 2 ^ m - a = (2 * 2 ^ (l - 1) - 1 - k) * 2 ^ m) as E by nia.
  rewrite int32_small by (change (2 ^ 31) with (2 ^ 29 * 4); nia).
  rewrite E.
  assert (forall j, Z.testbit (j * 2 ^ m) m = Z.odd j) as Bm.
  { intros j. pose proof (Z.mul_pow2_bits_add j m 0 ltac:(lia)) as B.
    rewrite Z.add_0_r in B. rewrite B. apply Z.bit0_odd. }
  rewrite Bm.
  replace (Z.testbit a m) with (Z.odd k) by (rewrite <- Bm; f_equal; lia).
  replace (2 * 2 ^ (l - 1) - 1 - k) with (- Z.succ k + 2 * 2 ^ (l - 1)) by lia.
  rewrite Z.odd_add_mul_2, Z.odd_opp, Z.odd_succ, <- Z.negb_odd.
  reflexivity.
Qed.

Lemma child_id_of_bits (q : p4est_quadrant_t) (bx b_y : bool) :
  1 <= level q <= P4EST_MAXLEVEL ->
  Z.testbit (x q) (P4EST_MAXLEVEL - level q) = bx ->
  Z.testbit (y q) (P4EST_MAXLEVEL - level q) = b_y ->
  p4est_quadrant_child_id q = (if bx then 1 else 0) + (if b_y then 2 else 0).
Proof. intros L <- <-. apply child_id_bits, L. Qed.

(** X23: [p4est_node_transform] does to corner numbers what
    [p4est_quadrant_transform] does to quadrants: the child number of the
    transformed valid quadrant is the transformed child number.  For the two
    rotations this is so when the corner table reads [0, 1, 3, 2]; the other
    types do not read the table.  Under the same condition the transform of
    a corner number stays in [0 .. 3] and the inverse type restores it. *)
Theorem node_transform_child_id (tbl : list Z) (q r : p4est_quadrant_t)
  (transform_type : Z) :
  0 <= transform_type < 8 ->
  tbl = zorder_table \/ (transform_type <> 1 /\ transform_type <> 3) ->
  (p4est_quadrant_is_valid q = true -> 1 <= level q ->
   exists r', p4est_quadrant_transform q r transform_type = Some r' /\
     p4est_node_transform tbl (p4est_quadrant_child_id q) transform_type
     = Some (p4est_quadrant_child_id r')) /\
  (forall node, 0 <= node < 4 ->
   exists n', p4est_node_transform tbl node transform_type = Some n' /\
     0 <= n' < 4 /\
     p4est_node_transform tbl n' (inverse_transform transform_type)
     = Some node).
Proof.
  intros Ht Tb.
  assert (forall node, 0 <= node < 4 ->
    exists n', p4est_node_transform tbl node transform_type = Some n' /\
      0 <= n' < 4 /\
      p4est_node_transform tbl n' (inverse_transform transform_type)
      = Some node) as Round.
  { intros node Hn.
    assert (node = 0 \/ node = 1 \/ node = 2 \/ node = 3)
      as [->|[->|[->| ->]]] by lia;
    assert (transform_type = 0 \/ transform_type = 1 \/ transform_type = 2 \/
            transform_type = 3 \/ transform_type = 4 \/ transform_type = 5 \/
            transform_type = 6 \/ transform_type = 7)
      as [->|[->|[->|[->|[->|[->|[->| ->]]]]]]] by lia;
    destruct Tb as [->|[N1 N3]]; try contradiction;
    (eexists; split; [reflexivity|];
     split; [vm_compute; split; [discriminate | reflexivity] | reflexivity]). }
  split; [|exact Round].
  intros V L1. destruct (valid_inv q V) as (L & Rx & Ry & Ax & Ay).
  pose proof (mirror_bit (x q) (level q) ltac:(lia) Rx Ax) as Mx.
  pose proof (mirror_bit (y q) (level q) ltac:(lia) Ry Ay) as My.
  pose proof (child_id_bits q ltac:(lia)) as Cq.
  assert (transform_type = 0 \/ transform_type = 1 \/ transform_type = 2 \/
          transform_type = 3 \/ transform_type = 4 \/ transform_type = 5 \/
          transform_type = 6 \/ transform_type = 7)
    as [->|[->|[->|[->|[->|[->|[->| ->]]]]]]] by lia;
    (eexists; split; [reflexivity|]);
    rewrite Cq;
    match goal with
    | |- _ = Some (p4est_quadrant_child_id ?r') =>
      rewrite (child_id_bits r') by (cbn [set_xyl level]; lia)
    end;
    cbn [set_xyl x y level]; rewrite ?Mx, ?My;
    destruct Tb as [->|[N1 N3]]; try contradiction;
    destruct (Z.testbit (x q) (P4EST_MAXLEVEL - level q)),
             (Z.testbit (y q) (P4EST_MAXLEVEL - level q)); reflexivity.
Qed.

Lemma node_transform_child_id_witness :
  p4est_node_transform zorder_table
    (p4est_quadrant_child_id (mkquad (2 ^ 28) 0 1 (user_data NULL))) 1
  = Some 3.
Proof.
  destruct (node_transform_child_id zorder_table
              (mkquad (2 ^ 28) 0 1 (user_data NULL)) quadrant_zero 1
              ltac:(lia) (or_introl eq_refl)) as [F _].
  destruct (F eq_refl ltac:(cbn; lia)) as [r' [E1 E2]].
  injection E1 as <-. exact E2.
Defined.


(* ================================================================= *)
(** ** The filter of the overlap *)

Lemma sc_array_index_mid (pre : list p4est_quadrant_t) (c : p4est_quadrant_t)
  (post : list p4est_quadrant_t) (i : Z) :
  i = Z.of_nat (length pre) -> sc_array_index (pre ++ c :: post) i = c.
Proof. intros ->. apply sc_array_index_app_r. Qed.

(** The loop keeps the elements written before [j], and has the elements
    from [i] on still to read. *)
Lemma uniqify_loop_spec (not suffix : list p4est_quadrant_t) :
  forall pre junk outcount,
  outcount = Z.of_nat (length pre + length junk + length suffix) ->
  exists arr',
    uniqify_overlap_loop (length suffix) not (pre ++ junk ++ suffix) outcount
      (Z.of_nat (length pre + length junk)) (Z.of_nat (length pre))
    = (arr', Z.of_nat (length pre + length (uniqified not suffix))) /\
    firstn (length pre + length (uniqified not suffix)) arr'
    = pre ++ uniqified not suffix /\
    length arr' = length (pre ++ junk ++ suffix).
Proof.
  induction suffix as [|a t IH]; intros pre junk outcount Hc.
  - exists (pre ++ junk ++ []).
    cbn [uniqify_overlap_loop uniqified length]. rewrite Nat.add_0_r.
    split; [reflexivity|]. split; [|reflexivity].
    rewrite firstn_app, firstn_all, Nat.sub_diag. cbn [firstn].
    reflexivity.
  - cbn [length uniqify_overlap_loop].
    assert (sc_array_index (pre ++ junk ++ a :: t)
              (Z.of_nat (length pre + length junk)) = a) as Ia.
    { rewrite app_assoc. apply sc_array_index_mid. rewrite length_app. lia. }
    rewrite Ia.
    assert ((Z.of_nat (length pre + length junk) <? outcount - 1)
            && p4est_quadrant_is_equal a
                 (sc_array_index (pre ++ junk ++ a :: t)
                    (Z.of_nat (length pre + length junk) + 1))
            = match t with
              | [] => false
              | b :: _ => p4est_quadrant_is_equal a b
              end) as Cd.
    { destruct t as [|b t'].
      - destruct (Z.ltb_spec (Z.of_nat (length pre + length junk))
                             (outcount - 1)); [cbn [length] in Hc; lia|].
        reflexivity.
      - destruct (Z.ltb_spec (Z.of_nat (length pre + length junk))
                             (outcount - 1)); [|cbn [length] in Hc; lia].
        cbn [andb]. f_equal.
        replace (pre ++ junk ++ a :: b :: t')
          with ((pre ++ junk ++ [a]) ++ b :: t')
          by (rewrite <- !app_assoc; reflexivity).
        apply sc_array_index_mid. rewrite !length_app. cbn [length]. lia. }
    rewrite Cd. clear Cd.
    assert (uniqify_overlap_loop (length t) not (pre ++ junk ++ a :: t) outcount
              (Z.of_nat (length pre + length junk) + 1) (Z.of_nat (length pre))
            = uniqify_overlap_loop (length t) not (pre ++ (junk ++ [a]) ++ t)
                outcount (Z.of_nat (length pre + length (junk ++ [a])))
                (Z.of_nat (length pre))) as Sk.
    { rewrite <- !app_assoc. cbn [app]. rewrite !length_app. cbn [length].
      f_equal. lia. }
    assert (length (pre ++ (junk ++ [a]) ++ t)
            = length (pre ++ junk ++ a :: t)) as SkL.
    { rewrite <- !app_assoc. reflexivity. }
    assert (exists arr',
      uniqify_overlap_loop (length t) not (pre ++ junk ++ a :: t) outcount
        (Z.of_nat (length pre + length junk) + 1) (Z.of_nat (length pre))
      = (arr', Z.of_nat (length pre + length (uniqified not t))) /\
      firstn (length pre + length (uniqified not t)) arr'
      = pre ++ uniqified not t /\
      length arr' = length (pre ++ junk ++ a :: t)) as Dropped.
    { destruct (IH pre (junk ++ [a]) outcount) as (arr' & E & F & Ln).
      { rewrite length_app. cbn [length] in *. lia. }
      exists arr'. rewrite Sk, E. split; [reflexivity|].
      split; [exact F | rewrite Ln; exact SkL]. }
    cbn [uniqified]. fold (found_in not a).
    destruct (match t with
              | [] => false
              | b :: _ => p4est_quadrant_is_equal a b
              end); [exact Dropped|].
    destruct (found_in not a); [exact Dropped|].
    cbn [negb]. clear Dropped Sk SkL.
    destruct junk as [|j0 junk'].
    + destruct (Z.gtb_spec (Z.of_nat (length pre + length (@nil p4est_quadrant_t)))
                           (Z.of_nat (length pre))); [cbn [length] in *; lia|].
      destruct (IH (pre ++ [a]) [] outcount) as (arr' & E & F & Ln).
      { rewrite length_app. cbn [length] in *. lia. }
      exists arr'.
      replace (pre ++ [] ++ a :: t) with ((pre ++ [a]) ++ [] ++ t)
        by (rewrite <- app_assoc; reflexivity).
      replace (Z.of_nat (length pre + length (@nil p4est_quadrant_t)) + 1)
        with (Z.of_nat (length (pre ++ [a]) + length (@nil p4est_quadrant_t)))
        by (rewrite length_app; cbn [length]; lia).
      replace (Z.of_nat (length pre) + 1) with (Z.of_nat (length (pre ++ [a])))
        by (rewrite length_app; cbn [length]; lia).
      rewrite E.
      assert (length (pre ++ [a]) = length pre + 1)%nat as Lp
        by (rewrite length_app; reflexivity).
      rewrite Lp in *.
      split; [f_equal; f_equal; cbn [length]; lia|].
      split; [|exact Ln].
      replace (length pre + length (a :: uniqified not t))%nat
        with (length pre + 1 + length (uniqified not t))%nat
        by (cbn [length]; lia).
      rewrite F, <- app_assoc. reflexivity.
    + destruct (Z.gtb_spec (Z.of_nat (length pre + length (j0 :: junk')))
                           (Z.of_nat (length pre))); [|cbn [length] in *; lia].
      change (pre ++ (j0 :: junk') ++ a :: t)
        with (pre ++ j0 :: junk' ++ a :: t).
      rewrite sc_array_set_app_r.
      destruct (IH (pre ++ [a]) (junk' ++ [a]) outcount) as (arr' & E & F & Ln).
      { rewrite !length_app. cbn [length] in *. lia. }
      exists arr'.
      replace (pre ++ a :: junk' ++ a :: t)
        with ((pre ++ [a]) ++ (junk' ++ [a]) ++ t)
        by (rewrite <- !app_assoc; reflexivity).
      replace (Z.of_nat (length pre + length (j0 :: junk')) + 1)
        with (Z.of_nat (length (pre ++ [a]) + length (junk' ++ [a])))
        by (rewrite !length_app; cbn [length]; lia).
      replace (Z.of_nat (length pre) + 1) with (Z.of_nat (length (pre ++ [a])))
        by (rewrite length_app; cbn [length]; lia).
      rewrite E.
      assert (length (pre ++ [a]) = length pre + 1)%nat as Lp
        by (rewrite length_app; reflexivity).
      rewrite Lp in *.
      split; [f_equal; f_equal; cbn [length]; lia|].
      split.
      * replace (length pre + length (a :: uniqified not t))%nat
          with (length pre + 1 + length (uniqified not t))%nat
          by (cbn [length]; lia).
        rewrite F, <- app_assoc. reflexivity.
      * rewrite Ln, !length_app. cbn [length]. rewrite !length_app.
        cbn [length]. lia.
Qed.

Lemma uniqify_overlap_list (not out : list p4est_quadrant_t) :
  p4est_tree_uniqify_overlap not out
  = uniqified not (sc_array_sort out p4est_quadrant_compare).
Proof.
  unfold p4est_tree_uniqify_overlap, elem_count.
  destruct (Z.eqb_spec (Z.of_nat (length out)) 0) as [Z0|N0].
  - destruct out; [reflexivity | cbn [length] in Z0; lia].
  - pose proof (Permutation_length
                  (sc_array_sort_perm p4est_quadrant_compare out)) as PL.
    destruct (uniqify_loop_spec not (sc_array_sort out p4est_quadrant_compare)
                [] [] (Z.of_nat (length out))) as (arr' & E & F & Ln).
    { cbn [length]. lia. }
    cbn [app length Nat.add] in E, F, Ln. change (Z.of_nat 0) with 0 in E.
    rewrite E. unfold sc_array_resize. rewrite Nat2Z.id, F.
    assert (length (uniqified not (sc_array_sort out p4est_quadrant_compare))
            <= length arr')%nat as Le.
    { rewrite <- F. rewrite length_firstn. lia. }
    replace (_ - length arr')%nat with 0%nat by lia.
    cbn [repeat]. apply app_nil_r.
Qed.

Lemma uniqified_in (not l : list p4est_quadrant_t) (e : p4est_quadrant_t) :
  In e (uniqified not l) -> In e l /\ found_in not e = false.
Proof.
  induction l as [|a t IH]; [intros []|].
  cbn [uniqified].
  destruct (match t with
            | [] => false
            | b :: _ => p4est_quadrant_is_equal a b
            end).
  - intros I. destruct (IH I) as [I1 I2]. split; [right; exact I1 | exact I2].
  - destruct (found_in not a) eqn:Fa.
    + intros I. destruct (IH I) as [I1 I2]. split; [right; exact I1 | exact I2].
    + intros [<-|I]; [split; [left; reflexivity | exact Fa]|].
      destruct (IH I) as [I1 I2]. split; [right; exact I1 | exact I2].
Qed.

Lemma is_equal_trans (a b c : p4est_quadrant_t) :
  p4est_quadrant_is_equal a b = true -> p4est_quadrant_is_equal b c = true ->
  p4est_quadrant_is_equal a c = true.
Proof.
  rewrite !is_equal_inv. unfold same_xyl. intros (A1 & A2 & A3) (B1 & B2 & B3).
  repeat split; congruence.
Qed.

Lemma uniqified_covers (not l : list p4est_quadrant_t) :
  forall e, In e l ->
  exists e', In e' l /\ p4est_quadrant_is_equal e e' = true /\
    (In e' (uniqified not l) \/ found_in not e' = true).
Proof.
  induction l as [|a t IH]; [intros e []|].
  intros e I. cbn [uniqified].
  assert (In e t ->
          exists e', In e' (a :: t) /\ p4est_quadrant_is_equal e e' = true /\
            (In e' (uniqified not t) \/ found_in not e' = true)) as Tl.
  { intros It. destruct (IH e It) as (e' & I1 & I2 & I3).
    exists e'. split; [right; exact I1|]. split; [exact I2 | exact I3]. }
  destruct t as [|b t'].
  - destruct I as [<-|[]]. exists a. split; [left; reflexivity|].
    split; [apply is_equal_refl|].
    destruct (found_in not a); [right; reflexivity | left; left; reflexivity].
  - destruct (p4est_quadrant_is_equal a b) eqn:Eab.
    + destruct I as [<-|I]; [|apply Tl, I].
      destruct (IH b (or_introl eq_refl)) as (e' & I1 & I2 & I3).
      exists e'. split; [right; exact I1|].
      split; [exact (is_equal_trans _ _ _ Eab I2) | exact I3].
    + destruct I as [<-|I].
      * exists a. split; [left; reflexivity|]. split; [apply is_equal_refl|].
        destruct (found_in not a); [right; reflexivity | left; left; reflexivity].
      * destruct (Tl I) as (e' & I1 & I2 & I3).
        exists e'. split; [exact I1|]. split; [exact I2|].
        destruct I3 as [I3|I3]; [|right; exact I3].
        left. destruct (found_in not a); [exact I3 | right; exact I3].
Qed.

Lemma uniqified_sorted (not l : list p4est_quadrant_t) :
  array_in_band l = true -> StronglySorted quadrant_le l ->
  StronglySorted quadrant_lt (uniqified not l).
Proof.
  intros B S. induction S as [|a t S IH Ha]; [constructor|].
  apply array_in_band_cons in B. destruct B as [Ba Bt].
  specialize (IH Bt). cbn [uniqified].
  destruct t as [|b t'].
  - destruct (found_in not a); [constructor|].
    constructor; [constructor | constructor].
  - destruct (p4est_quadrant_is_equal a b) eqn:Eab; [exact IH|].
    destruct (found_in not a); [exact IH|].
    constructor; [exact IH|].
    rewrite Forall_forall in *. intros c Ic.
    apply uniqified_in in Ic. destruct Ic as [Ic _].
    pose proof Bt as Bt'. apply array_in_band_cons in Bt'.
    destruct Bt' as [Bb _].
    assert (quadrant_lt a b) as Lab.
    { apply quadrant_le_not_equal_lt; try assumption.
      apply Ha. left. reflexivity. }
    destruct Ic as [<-|Ic]; [exact Lab|].
    apply StronglySorted_inv in S. destruct S as [_ Hb].
    rewrite Forall_forall in Hb.
    exact (quadrant_lt_le_trans a b c Lab (Hb c Ic)).
Qed.

Lemma uniqified_length (not l : list p4est_quadrant_t) :
  (length (uniqified not l) <= length l)%nat.
Proof.
  induction l as [|a t IH]; [reflexivity|].
  cbn [uniqified].
  destruct (match t with
            | [] => false
            | b :: _ => p4est_quadrant_is_equal a b
            end); [cbn [length]; lia|].
  destruct (found_in not a); cbn [length]; lia.
Qed.

(** X24: what [p4est_tree_uniqify_overlap] leaves in [out].  Every element
    left was in [out] and is not found in [not]; every element of [out] has
    an equal element of [out] (same coordinates and level) that is either
    left or compares equal, tree number included, to an element of [not];
    for quadrants near the root the result is strictly increasing in the
    order of [p4est_quadrant_compare], so it holds no two equal quadrants;
    and the array does not grow. *)
Theorem uniqify_overlap_result (not out : list p4est_quadrant_t) :
  (forall e, In e (p4est_tree_uniqify_overlap not out) ->
   In e out /\
   sc_array_bsearch not e p4est_quadrant_compare_piggy = -1) /\
  (forall e, In e out ->
   exists e', In e' out /\ p4est_quadrant_is_equal e e' = true /\
     (In e' (p4est_tree_uniqify_overlap not out) \/
      exists n, In n not /\ p4est_quadrant_compare_piggy e' n = 0)) /\
  (array_in_band out = true ->
   forall i j, 0 <= i < j ->
   j < elem_count (p4est_tree_uniqify_overlap not out) ->
   p4est_quadrant_compare
     (sc_array_index (p4est_tree_uniqify_overlap not out) i)
     (sc_array_index (p4est_tree_uniqify_overlap not out) j) < 0) /\
  elem_count (p4est_tree_uniqify_overlap not out) <= elem_count out.
Proof.
  rewrite uniqify_overlap_list.
  pose proof (sc_array_sort_perm p4est_quadrant_compare out) as P.
  split; [|split; [|split]].
  - intros e I. apply uniqified_in in I. destruct I as [I F].
    split; [apply (Permutation_in _ P), I|].
    unfold found_in in F. apply negb_false_iff, Z.eqb_eq in F. exact F.
  - intros e I. apply (Permutation_in _ (Permutation_sym P)) in I.
    destruct (uniqified_covers not _ e I) as (e' & I1 & I2 & I3).
    exists e'. split; [apply (Permutation_in _ P), I1|].
    split; [exact I2|].
    destruct I3 as [I3|I3]; [left; exact I3|]. right.
    unfold found_in in I3. apply negb_true_iff, Z.eqb_neq in I3.
    unfold sc_array_bsearch in I3.
    destruct (bsearch_loop_sound _ not e' p4est_quadrant_compare_piggy
                0 (elem_count not) ltac:(lia) ltac:(lia) I3) as [R C].
    eexists. split; [|exact C].
    unfold sc_array_index. apply nth_In. unfold elem_count in *. lia.
  - intros B i j Hi Hj.
    pose proof (sc_array_sort_in_band out B) as Bs.
    pose proof (uniqified_sorted not _ Bs (sc_array_sort_sorted out B)) as S.
    assert (forall k, 0 <= k <
              elem_count (uniqified not (sc_array_sort out p4est_quadrant_compare)) ->
            quadrant_in_band
              (sc_array_index
                 (uniqified not (sc_array_sort out p4est_quadrant_compare)) k)
            = true) as Bk.
    { intros k Hk. apply (proj1 (array_in_band_forall _) Bs).
      apply (uniqified_in not). unfold sc_array_index. apply nth_In.
      unfold elem_count in Hk. lia. }
    apply compare_lt_iff; [apply Bk; lia | apply Bk; lia |].
    unfold sc_array_index. apply strongly_sorted_nth; [exact S|].
    unfold elem_count in Hj. lia.
  - unfold elem_count.
    pose proof (uniqified_length not (sc_array_sort out p4est_quadrant_compare)).
    rewrite (Permutation_length P) in H. lia.
Qed.

Lemma uniqify_overlap_result_witness :
  p4est_quadrant_compare
    (sc_array_index
       (p4est_tree_uniqify_overlap [mkquad 0 0 0 (piggy 0)]
          [mkquad (2 ^ 28) 0 1 (piggy 0); mkquad 0 0 0 (piggy 0);
           mkquad 0 0 2 (piggy 0); mkquad (2 ^ 28) 0 1 (piggy 0)]) 0)
    (sc_array_index
       (p4est_tree_uniqify_overlap [mkquad 0 0 0 (piggy 0)]
          [mkquad (2 ^ 28) 0 1 (piggy 0); mkquad 0 0 0 (piggy 0);
           mkquad 0 0 2 (piggy 0); mkquad (2 ^ 28) 0 1 (piggy 0)]) 1) < 0.
Proof.
  apply (proj1 (proj2 (proj2 (uniqify_overlap_result
           [mkquad 0 0 0 (piggy 0)]
           [mkquad (2 ^ 28) 0 1 (piggy 0); mkquad 0 0 0 (piggy 0);
            mkquad 0 0 2 (piggy 0); mkquad (2 ^ 28) 0 1 (piggy 0)])))
         eq_refl 0 1 ltac:(lia)).
  vm_compute. reflexivity.
Defined.


(* ================================================================= *)
(** ** Quadrants as intervals of the Morton index *)

Lemma lor_pow2_add (a n : Z) :
  0 <= n -> Z.testbit a n = false -> Z.lor a (2 ^ n) = a + 2 ^ n.
Proof.
  intros Hn B.
  assert (Z.land a (2 ^ n) = 0) as D.
  { apply Z.bits_inj'. intros k Hk.
    rewrite Z.land_spec, Z.pow2_bits_eqb, Z.testbit_0_l by lia.
    destruct (Z.eqb_spec n k) as [<-|N]; [rewrite B; reflexivity|].
    apply andb_false_r. }
  rewrite Z.add_nocarry_lxor, Z.lxor_lor by exact D. reflexivity.
Qed.

Lemma key_set_x (q c : p4est_quadrant_t) (m : Z) :
  0 <= m < 32 -> x c = Z.lor (x q) (2 ^ m) -> y c = y q ->
  morton_key c = Z.lor (morton_key q) (2 ^ (2 * m)).
Proof.
  intros Hm Ex Ey. apply Z.bits_inj'. intros k Hk.
  rewrite Z.lor_spec, !morton_key_bits, Ex, Ey, Z.pow2_bits_eqb by lia.
  destruct (Z.eqb_spec (2 * m) k) as [<-|N].
  - rewrite Z.even_mul. cbn [Z.even orb].
    rewrite (Z.mul_comm 2), Z.div_mul, set_bit_testbit, Z.eqb_refl by lia.
    destruct (Z.ltb_spec (m * 2) 64); [|lia].
    rewrite !orb_true_r. reflexivity.
  - rewrite orb_false_r.
    destruct (Z.even k) eqn:Ev; [|reflexivity].
    assert (0 <= k / 2) by (apply Z.div_pos; lia).
    rewrite set_bit_testbit by lia.
    destruct (Z.eqb_spec (k / 2) m) as [E|_]; [|rewrite orb_false_r; reflexivity].
    exfalso. apply even_half in Ev. lia.
Qed.

Lemma key_set_y (q c : p4est_quadrant_t) (m : Z) :
  0 <= m < 32 -> x c = x q -> y c = Z.lor (y q) (2 ^ m) ->
  morton_key c = Z.lor (morton_key q) (2 ^ (2 * m + 1)).
Proof.
  intros Hm Ex Ey. apply Z.bits_inj'. intros k Hk.
  rewrite Z.lor_spec, !morton_key_bits, Ex, Ey, Z.pow2_bits_eqb by lia.
  destruct (Z.eqb_spec (2 * m + 1) k) as [<-|N].
  - replace (2 * m + 1) with (1 + 2 * m) by lia.
    rewrite Z.even_add, Z.even_mul. cbn [Z.even orb Bool.eqb].
    replace ((1 + 2 * m) / 2) with m by (apply Z.div_unique with (r := 1); lia).
    rewrite set_bit_testbit, Z.eqb_refl by lia.
    destruct (Z.ltb_spec (1 + 2 * m) 64); [|lia].
    rewrite !orb_true_r. reflexivity.
  - rewrite orb_false_r.
    destruct (Z.even k) eqn:Ev; [reflexivity|].
    assert (0 <= k / 2) by (apply Z.div_pos; lia).
    rewrite set_bit_testbit by lia.
    destruct (Z.eqb_spec (k / 2) m) as [E|_]; [|rewrite orb_false_r; reflexivity].
    exfalso. apply odd_half in Ev. lia.
Qed.

Lemma valid_by_parts (q : p4est_quadrant_t) :
  0 <= level q <= P4EST_MAXLEVEL ->
  0 <= x q < 2 ^ 29 -> 0 <= y q < 2 ^ 29 ->
  Z.land (x q) (2 ^ (P4EST_MAXLEVEL - level q) - 1) = 0 ->
  Z.land (y q) (2 ^ (P4EST_MAXLEVEL - level q) - 1) = 0 ->
  p4est_quadrant_is_valid q = true.
Proof.
  intros L Rx Ry Ax Ay. unfold p4est_quadrant_is_valid.
  rewrite QUADRANT_LEN_pow, ROOT_LEN_val, Ax, Ay by lia.
  destruct (Z.geb_spec (level q) 0), (Z.leb_spec (level q) P4EST_MAXLEVEL),
           (Z.geb_spec (x q) 0), (Z.ltb_spec (x q) (2 ^ 29)),
           (Z.geb_spec (y q) 0), (Z.ltb_spec (y q) (2 ^ 29));
    try lia; reflexivity.
Qed.

Lemma valid_key_facts (q : p4est_quadrant_t) :
  p4est_quadrant_is_valid q = true ->
  0 <= level q <= P4EST_MAXLEVEL /\
  0 < 2 ^ (2 * (P4EST_MAXLEVEL - level q)) /\
  0 <= morton_key q /\
  morton_key q mod 2 ^ (2 * (P4EST_MAXLEVEL - level q)) = 0 /\
  quadrant_end q <= 2 ^ 58.
Proof.
  intros V. pose proof V as V'. rewrite is_valid_split in V'.
  apply andb_true_iff in V'. destruct V' as [E I].
  destruct (is_extended_inv q E) as (L & _ & _).
  pose proof (inside_key_bound q I) as B.
  pose proof (aligned_key_mod q E) as A.
  unfold P4EST_MAXLEVEL in *.
  assert (0 < 2 ^ (2 * (29 - level q))) as P by (apply Z.pow_pos_nonneg; lia).
  split; [exact L|]. split; [exact P|]. split; [lia|]. split; [exact A|].
  unfold quadrant_end, P4EST_MAXLEVEL.
  assert (2 ^ 58 = 2 ^ (2 * (29 - level q)) * 2 ^ (2 * level q)) as E58.
  { rewrite <- Z.pow_add_r by lia. f_equal. lia. }
  apply Z.mod_divide in A; [|lia]. destruct A as [k Ek].
  assert (0 < 2 ^ (2 * level q)) as Pq by (apply Z.pow_pos_nonneg; lia).
  rewrite E58. rewrite E58 in B. rewrite Ek in *.
  remember (2 ^ (2 * (29 - level q))) as P0.
  remember (2 ^ (2 * level q)) as Q0.
  assert (k < Q0) by nia. nia.
Qed.

Lemma key_low_bits (q : p4est_quadrant_t) (k : Z) :
  p4est_quadrant_is_valid q = true ->
  0 <= k < 2 * (P4EST_MAXLEVEL - level q) ->
  Z.testbit (morton_key q) k = false.
Proof.
  intros V Hk. destruct (valid_inv q V) as (L & _ & _ & Ax & Ay).
  rewrite morton_key_bits by lia.
  assert (0 <= k / 2 < P4EST_MAXLEVEL - level q).
  { split; [apply Z.div_pos; lia | apply Z.div_lt_upper_bound; lia]. }
  rewrite Ax, Ay by lia. destruct (Z.even k); apply andb_false_r.
Qed.

(** The four children of a valid quadrant above the deepest level are valid
    quadrants of the next level that follow one another in the Morton order
    and fill their parent. *)
Lemma children_of_facts (w : p4est_quadrant_t) :
  p4est_quadrant_is_valid w = true -> level w < P4EST_MAXLEVEL ->
  exists c0 c1 c2 c3,
    children_of w = [c0; c1; c2; c3] /\
    (forall c, In c [c0; c1; c2; c3] ->
       p4est_quadrant_is_valid c = true /\ level c = level w + 1) /\
    morton_key c0 = morton_key w /\
    morton_key c1 = quadrant_end c0 /\
    morton_key c2 = quadrant_end c1 /\
    morton_key c3 = quadrant_end c2 /\
    quadrant_end c3 = quadrant_end w.
Proof.
  intros V Lw. destruct (valid_inv w V) as (L & Rx & Ry & Ax & Ay).
  unfold P4EST_MAXLEVEL in *.
  set (m := 29 - (level w + 1)).
  assert (0 <= m < 29) as Hm by (unfold m; lia).
  assert (0 < 2 ^ m) as Pm by (apply Z.pow_pos_nonneg; lia).
  assert (2 ^ (m + 1) = 2 * 2 ^ m) as Pm1 by (rewrite Z.pow_add_r by lia; lia).
  assert (P4EST_QUADRANT_LEN (level w + 1) = 2 ^ m) as QL
    by (apply QUADRANT_LEN_pow; unfold P4EST_MAXLEVEL; lia).
  assert (forall c, 0 <= c < 2 ^ 29 ->
            (forall k, 0 <= k < 29 - level w -> Z.testbit c k = false) ->
            Z.land c (2 ^ (m + 1) - 1) = 0 /\ Z.testbit c m = false /\
            c + 2 ^ m < 2 ^ 29) as Co.
  { intros c Rc Ac.
    assert (Z.land c (2 ^ (m + 1) - 1) = 0) as A1.
    { apply aligned_by_bits; [lia|]. intros k Hk. apply Ac. unfold m in *. lia. }
    split; [exact A1|]. split; [apply Ac; unfold m; lia|].
    apply aligned_mod in A1; [|lia]. apply Z.mod_divide in A1; [|lia].
    destruct A1 as [k Ek].
    assert (2 ^ 29 = 2 ^ (m + 1) * 2 ^ (level w)) as E29.
    { rewrite <- Z.pow_add_r by lia. f_equal. unfold m. lia. }
    assert (0 < 2 ^ level w) by (apply Z.pow_pos_nonneg; lia).
    rewrite E29 in *. rewrite Ek in *. rewrite Pm1 in *.
    remember (2 ^ m) as P0. remember (2 ^ level w) as Q0.
    assert (k < Q0) by nia. nia. }
  destruct (Co (x w) Rx Ax) as (Cx1 & Cx2 & Cx3).
  destruct (Co (y w) Ry Ay) as (Cy1 & Cy2 & Cy3).
  destruct (child_coord (x w) m true ltac:(lia) Cx1) as (Xa & _ & _ & Xe).
  destruct (child_coord (y w) m true ltac:(lia) Cy1) as (Ya & _ & _ & Ye).
  destruct (child_coord (x w) m false ltac:(lia) Cx1) as (Xa0 & _ & _ & _).
  destruct (child_coord (y w) m false ltac:(lia) Cy1) as (Ya0 & _ & _ & _).
  unfold children_of, p4est_quadrant_children.
  cbn [set_xyl x y level].
  rewrite (int8_small (level w + 1)) by lia. rewrite QL.
  do 4 eexists. split; [reflexivity|].
  set (c0 := mkquad (x w) (y w) (level w + 1) (p quadrant_zero)).
  set (c1 := mkquad (Z.lor (x w) (2 ^ m)) (y w) (level w + 1) (p quadrant_zero)).
  set (c2 := mkquad (x w) (Z.lor (y w) (2 ^ m)) (level w + 1) (p quadrant_zero)).
  set (c3 := mkquad (Z.lor (x w) (2 ^ m)) (Z.lor (y w) (2 ^ m)) (level w + 1)
                    (p quadrant_zero)).
  assert (2 ^ (2 * (29 - (level w + 1))) = 2 ^ (2 * m)) as Hc by reflexivity.
  assert (0 < 2 ^ (2 * m)) as P2m by (apply Z.pow_pos_nonneg; lia).
  assert (2 ^ (2 * m + 1) = 2 * 2 ^ (2 * m)) as P2m1
    by (rewrite Z.pow_add_r by lia; lia).
  assert (2 ^ (2 * (29 - level w)) = 4 * 2 ^ (2 * m)) as Hw.
  { replace (2 * (29 - level w)) with (2 * m + 2) by (unfold m; lia).
    rewrite Z.pow_add_r by lia. lia. }
  assert (morton_key c0 = morton_key w) as K0
    by (apply morton_key_same_xy; reflexivity).
  assert (Z.testbit (morton_key w) (2 * m) = false) as B0
    by (apply key_low_bits; [exact V | unfold P4EST_MAXLEVEL, m; lia]).
  assert (Z.testbit (morton_key w) (2 * m + 1) = false) as B1
    by (apply key_low_bits; [exact V | unfold P4EST_MAXLEVEL, m; lia]).
  assert (morton_key c1 = morton_key w + 2 ^ (2 * m)) as K1.
  { rewrite (key_set_x w c1 m) by (try reflexivity; lia).
    apply lor_pow2_add; [lia | exact B0]. }
  assert (morton_key c2 = morton_key w + 2 * 2 ^ (2 * m)) as K2.
  { rewrite (key_set_y w c2 m) by (try reflexivity; lia).
    rewrite lor_pow2_add by (lia || exact B1). lia. }
  assert (Z.testbit (morton_key c1) (2 * m + 1) = false) as B3.
  { rewrite (key_set_x w c1 m) by (try reflexivity; lia).
    rewrite Z.lor_spec, B1, Z.pow2_bits_eqb by lia.
    destruct (Z.eqb_spec (2 * m) (2 * m + 1)); [lia|reflexivity]. }
  assert (morton_key c3 = morton_key w + 3 * 2 ^ (2 * m)) as K3.
  { rewrite (key_set_y c1 c3 m) by (try reflexivity; lia).
    rewrite lor_pow2_add by (lia || exact B3). rewrite K1. lia. }
  split.
  { intros c [<-|[<-|[<-|[<-|[]]]]]; (split; [|reflexivity]);
      apply valid_by_parts; unfold P4EST_MAXLEVEL, set_xyl; cbn [x y level];
      fold m; rewrite ?Xe, ?Ye; try lia;
      try exact Xa0; try exact Ya0;
      try (rewrite <- Xe; exact Xa); try (rewrite <- Ye; exact Ya). }
  unfold quadrant_end, P4EST_MAXLEVEL, set_xyl. cbn [level].
  change (set_xyl quadrant_zero (x w) (y w) (level w + 1)) with c0 in *.
  fold c0 c1 c2 c3. rewrite ?Hc, Hw. rewrite K0, K1, K2, K3. lia.
Qed.

Lemma nested_or_disjoint (u v : p4est_quadrant_t) :
  p4est_quadrant_is_valid u = true -> p4est_quadrant_is_valid v = true ->
  level u <= level v ->
  (morton_key u <= morton_key v /\ quadrant_end v <= quadrant_end u) \/
  quadrant_end v <= morton_key u \/ quadrant_end u <= morton_key v.
Proof.
  intros Vu Vv L.
  destruct (valid_key_facts u Vu) as (Lu & Pu & Nu & Au & _).
  destruct (valid_key_facts v Vv) as (Lv & Pv & Nv & Av & _).
  unfold quadrant_end, P4EST_MAXLEVEL in *.
  assert (2 ^ (2 * (29 - level u))
          = 2 ^ (2 * (29 - level v)) * 2 ^ (2 * (level v - level u))) as E.
  { rewrite <- Z.pow_add_r by lia. f_equal. lia. }
  assert (0 < 2 ^ (2 * (level v - level u))) as Pt
    by (apply Z.pow_pos_nonneg; lia).
  apply Z.mod_divide in Au; [|lia]. apply Z.mod_divide in Av; [|lia].
  destruct Au as [i Ei]. destruct Av as [j Ej].
  rewrite E in *. rewrite Ei, Ej.
  remember (2 ^ (2 * (29 - level v))) as hv.
  remember (2 ^ (2 * (level v - level u))) as t.
  destruct (Z.lt_ge_cases j (i * t)) as [C|C].
  - right. left. nia.
  - destruct (Z.lt_ge_cases j ((i + 1) * t)) as [D|D].
    + left. nia.
    + right. right. nia.
Qed.

Lemma valid_int32 (q : p4est_quadrant_t) :
  p4est_quadrant_is_valid q = true -> int32_range (x q) /\ int32_range (y q).
Proof.
  intros V. destruct (valid_inv q V) as (_ & Rx & Ry & _).
  unfold int32_range. change (2 ^ 31) with (2 ^ 29 * 4). lia.
Qed.

Lemma ancestor_interval (w q : p4est_quadrant_t) :
  p4est_quadrant_is_valid w = true -> p4est_quadrant_is_valid q = true ->
  (p4est_quadrant_is_ancestor w q = true <->
   level w < level q /\ morton_key w <= morton_key q < quadrant_end w).
Proof.
  intros Vw Vq. destruct (valid_int32 w Vw), (valid_int32 q Vq).
  pose proof Vw as E. rewrite is_valid_split in E. apply andb_true_iff in E.
  apply is_ancestor_iff_interval; tauto.
Qed.

Lemma compare_key (u v : p4est_quadrant_t) :
  p4est_quadrant_is_valid u = true -> p4est_quadrant_is_valid v = true ->
  (p4est_quadrant_compare u v < 0 <->
   morton_key u < morton_key v \/
   (morton_key u = morton_key v /\ level u < level v)).
Proof.
  intros Vu Vv. apply compare_lt_iff; apply valid_in_band; assumption.
Qed.

Lemma fills_app (l1 l2 : list p4est_quadrant_t) :
  forall lo mid hi, fills lo l1 mid -> fills mid l2 hi -> fills lo (l1 ++ l2) hi.
Proof.
  induction l1 as [|q t IH]; intros lo mid hi F1 F2.
  - cbn [fills] in F1. subst. exact F2.
  - cbn [fills app] in *. destruct F1 as (V & K & F1).
    split; [exact V|]. split; [exact K|]. exact (IH _ _ _ F1 F2).
Qed.

Lemma region_fill_eq (d : nat) (a b w : p4est_quadrant_t) :
  region_fill d a b w
  = if (p4est_quadrant_compare a w <? 0) && (p4est_quadrant_compare w b <? 0)
       && negb (p4est_quadrant_is_ancestor w b)
    then [w]
    else if p4est_quadrant_is_ancestor w a || p4est_quadrant_is_ancestor w b
    then match d with
         | O => []
         | S d' => flat_map (region_fill d' a b) (children_of w)
         end
    else [].
Proof. destruct d; reflexivity. Qed.

Lemma not_ancestor_interval (w q : p4est_quadrant_t) :
  p4est_quadrant_is_valid w = true -> p4est_quadrant_is_valid q = true ->
  p4est_quadrant_is_ancestor w q = false ->
  ~ (level w < level q /\ morton_key w <= morton_key q < quadrant_end w).
Proof.
  intros Vw Vq N X. apply (ancestor_interval w q Vw Vq) in X. congruence.
Qed.

Lemma not_compare_key (u v : p4est_quadrant_t) :
  p4est_quadrant_is_valid u = true -> p4est_quadrant_is_valid v = true ->
  0 <= p4est_quadrant_compare u v ->
  morton_key v < morton_key u \/
  (morton_key v = morton_key u /\ level v <= level u).
Proof.
  intros Vu Vv C.
  pose proof (compare_key u v Vu Vv) as K.
  destruct (Z.lt_trichotomy (morton_key u) (morton_key v)) as [T|[T|T]].
  - exfalso. assert (p4est_quadrant_compare u v < 0) by (apply K; lia). lia.
  - destruct (Z.lt_ge_cases (level u) (level v)).
    + exfalso. assert (p4est_quadrant_compare u v < 0) by (apply K; lia). lia.
    + right. lia.
  - left. lia.
Qed.

Section Region.

Variables a b : p4est_quadrant_t.
Hypothesis Va : p4est_quadrant_is_valid a = true.
Hypothesis Vb : p4est_quadrant_is_valid b = true.
Hypothesis Hab : quadrant_end a <= morton_key b.

(** A quadrant strictly between [a] and [b] that is no ancestor of [b] and
    does not lie in [a] lies between the end of [a] and the begin of [b]. *)
Lemma region_leaf_fills (w : p4est_quadrant_t) :
  p4est_quadrant_is_valid w = true ->
  p4est_quadrant_is_ancestor a w = false ->
  p4est_quadrant_compare a w < 0 -> p4est_quadrant_compare w b < 0 ->
  p4est_quadrant_is_ancestor w b = false ->
  fills (Z.min (Z.max (morton_key w) (quadrant_end a)) (morton_key b)) [w]
        (Z.min (Z.max (quadrant_end w) (quadrant_end a)) (morton_key b)).
Proof.
  intros Vw Inv C1 C2 Awb.
  destruct (valid_key_facts a Va) as (La & Pa & Na & _ & _).
  destruct (valid_key_facts b Vb) as (Lb & Pb & Nb & _ & _).
  destruct (valid_key_facts w Vw) as (Lw & Pw & Nw & _ & _).
  pose proof (not_ancestor_interval a w Va Vw Inv) as Ia.
  pose proof (not_ancestor_interval w b Vw Vb Awb) as Ib.
  apply (compare_key a w Va Vw) in C1. apply (compare_key w b Vw Vb) in C2.
  assert (quadrant_end w = morton_key w + 2 ^ (2 * (P4EST_MAXLEVEL - level w)))
    as Ew by reflexivity.
  assert (quadrant_end a = morton_key a + 2 ^ (2 * (P4EST_MAXLEVEL - level a)))
    as Ea by reflexivity.
  assert (quadrant_end b = morton_key b + 2 ^ (2 * (P4EST_MAXLEVEL - level b)))
    as Eb by reflexivity.
  assert (level a = level w ->
          2 ^ (2 * (P4EST_MAXLEVEL - level a))
          = 2 ^ (2 * (P4EST_MAXLEVEL - level w))) as Q1
    by (intros Q; rewrite Q; reflexivity).
  assert (level w = level b ->
          2 ^ (2 * (P4EST_MAXLEVEL - level w))
          = 2 ^ (2 * (P4EST_MAXLEVEL - level b))) as Q2
    by (intros Q; rewrite Q; reflexivity).
  cbn [fills]. split; [exact Vw|].
  destruct (Z.le_gt_cases (level a) (level w)) as [L1|L1];
    [pose proof (nested_or_disjoint a w Va Vw L1) as N1
    |pose proof (nested_or_disjoint w a Vw Va ltac:(lia)) as N1];
  (destruct (Z.le_gt_cases (level w) (level b)) as [L2|L2];
    [pose proof (nested_or_disjoint w b Vw Vb L2) as N2
    |pose proof (nested_or_disjoint b w Vb Vw ltac:(lia)) as N2]);
  split; lia.
Qed.

(** A quadrant that is neither added nor an ancestor of [a] or [b] has no
    part between the end of [a] and the begin of [b]. *)
Lemma region_skip_fills (w : p4est_quadrant_t) :
  p4est_quadrant_is_valid w = true ->
  (p4est_quadrant_compare a w <? 0) && (p4est_quadrant_compare w b <? 0)
    && negb (p4est_quadrant_is_ancestor w b) = false ->
  p4est_quadrant_is_ancestor w a || p4est_quadrant_is_ancestor w b = false ->
  Z.min (Z.max (morton_key w) (quadrant_end a)) (morton_key b)
  = Z.min (Z.max (quadrant_end w) (quadrant_end a)) (morton_key b).
Proof.
  intros Vw C N. apply orb_false_iff in N. destruct N as [Awa Awb].
  rewrite Awb in C. cbn [negb] in C. rewrite andb_true_r in C.
  destruct (valid_key_facts a Va) as (La & Pa & Na & _ & _).
  destruct (valid_key_facts b Vb) as (Lb & Pb & Nb & _ & _).
  destruct (valid_key_facts w Vw) as (Lw & Pw & Nw & _ & _).
  pose proof (not_ancestor_interval w a Vw Va Awa) as Iwa.
  assert (quadrant_end w = morton_key w + 2 ^ (2 * (P4EST_MAXLEVEL - level w)))
    as Ew by reflexivity.
  assert (quadrant_end a = morton_key a + 2 ^ (2 * (P4EST_MAXLEVEL - level a)))
    as Ea by reflexivity.
  assert (level a = level w ->
          2 ^ (2 * (P4EST_MAXLEVEL - level a))
          = 2 ^ (2 * (P4EST_MAXLEVEL - level w))) as Q1
    by (intros Q; rewrite Q; reflexivity).
  apply andb_false_iff in C. destruct C as [C|C]; apply Z.ltb_ge in C.
  - apply (not_compare_key a w Va Vw) in C.
    destruct (Z.le_gt_cases (level a) (level w)) as [L1|L1];
      [pose proof (nested_or_disjoint a w Va Vw L1) as N1
      |pose proof (nested_or_disjoint w a Vw Va ltac:(lia)) as N1];
    lia.
  - apply (not_compare_key w b Vw Vb) in C. lia.
Qed.

Lemma region_expand_level (w : p4est_quadrant_t) :
  p4est_quadrant_is_valid w = true ->
  p4est_quadrant_is_ancestor w a || p4est_quadrant_is_ancestor w b = true ->
  level w < P4EST_MAXLEVEL.
Proof.
  intros Vw A.
  destruct (valid_key_facts a Va) as (La & _).
  destruct (valid_key_facts b Vb) as (Lb & _).
  apply orb_true_iff in A. destruct A as [A|A];
    [apply (ancestor_interval w a Vw Va) in A
    |apply (ancestor_interval w b Vw Vb) in A]; lia.
Qed.

(** The children of an ancestor of [a] or [b] do not lie in [a], and what
    is added for them fills the part of their parent. *)
Lemma region_children_fills (f : p4est_quadrant_t -> list p4est_quadrant_t)
  (w : p4est_quadrant_t) :
  p4est_quadrant_is_valid w = true ->
  p4est_quadrant_is_ancestor w a || p4est_quadrant_is_ancestor w b = true ->
  (forall c, p4est_quadrant_is_valid c = true -> level c = level w + 1 ->
     p4est_quadrant_is_ancestor a c = false ->
     fills (Z.min (Z.max (morton_key c) (quadrant_end a)) (morton_key b)) (f c)
           (Z.min (Z.max (quadrant_end c) (quadrant_end a)) (morton_key b))) ->
  fills (Z.min (Z.max (morton_key w) (quadrant_end a)) (morton_key b))
        (flat_map f (children_of w))
        (Z.min (Z.max (quadrant_end w) (quadrant_end a)) (morton_key b)).
Proof.
  intros Vw A F.
  destruct (valid_key_facts a Va) as (La & Pa & Na & _ & _).
  destruct (valid_key_facts b Vb) as (Lb & Pb & Nb & _ & _).
  destruct (valid_key_facts w Vw) as (Lw & Pw & Nw & _ & _).
  pose proof (region_expand_level w Vw A) as Lt.
  destruct (children_of_facts w Vw Lt)
    as (c0 & c1 & c2 & c3 & E & Vc & K0 & K1 & K2 & K3 & K4).
  rewrite E. cbn [flat_map]. rewrite app_nil_r.
  assert (forall c, In c [c0; c1; c2; c3] ->
            morton_key w <= morton_key c -> quadrant_end c <= quadrant_end w ->
            fills (Z.min (Z.max (morton_key c) (quadrant_end a)) (morton_key b))
                  (f c)
                  (Z.min (Z.max (quadrant_end c) (quadrant_end a)) (morton_key b)))
    as Fc.
  { intros c Ic S1 S2. destruct (Vc c Ic) as [Vcc Lc].
    apply F; [exact Vcc | exact Lc |].
    destruct (p4est_quadrant_is_ancestor a c) eqn:Aac; [|reflexivity].
    exfalso. apply (ancestor_interval a c Va Vcc) in Aac.
    destruct (valid_key_facts c Vcc) as (_ & Pc & _ & _ & _).
    assert (quadrant_end c = morton_key c + 2 ^ (2 * (P4EST_MAXLEVEL - level c)))
      as Ec by reflexivity.
    apply orb_true_iff in A. destruct A as [A|A].
    - apply (ancestor_interval w a Vw Va) in A. lia.
    - apply (ancestor_interval w b Vw Vb) in A.
      pose proof (nested_or_disjoint a w Va Vw ltac:(lia)) as N1. lia. }
  destruct (Vc c0 ltac:(cbn; tauto)) as [V0 _].
  destruct (Vc c1 ltac:(cbn; tauto)) as [V1 _].
  destruct (Vc c2 ltac:(cbn; tauto)) as [V2 _].
  destruct (Vc c3 ltac:(cbn; tauto)) as [V3 _].
  destruct (valid_key_facts c0 V0) as (_ & P0 & _ & _ & _).
  destruct (valid_key_facts c1 V1) as (_ & P1 & _ & _ & _).
  destruct (valid_key_facts c2 V2) as (_ & P2 & _ & _ & _).
  destruct (valid_key_facts c3 V3) as (_ & P3 & _ & _ & _).
  assert (quadrant_end c0 = morton_key c0 + 2 ^ (2 * (P4EST_MAXLEVEL - level c0)))
    as E0 by reflexivity.
  assert (quadrant_end c1 = morton_key c1 + 2 ^ (2 * (P4EST_MAXLEVEL - level c1)))
    as E1 by reflexivity.
  assert (quadrant_end c2 = morton_key c2 + 2 ^ (2 * (P4EST_MAXLEVEL - level c2)))
    as E2 by reflexivity.
  assert (quadrant_end c3 = morton_key c3 + 2 ^ (2 * (P4EST_MAXLEVEL - level c3)))
    as E3 by reflexivity.
  assert ((morton_key w <= morton_key c0 /\ quadrant_end c0 <= quadrant_end w) /\
          (morton_key w <= morton_key c1 /\ quadrant_end c1 <= quadrant_end w) /\
          (morton_key w <= morton_key c2 /\ quadrant_end c2 <= quadrant_end w) /\
          (morton_key w <= morton_key c3 /\ quadrant_end c3 <= quadrant_end w))
    as (I0 & I1 & I2 & I3).
  { clear - K0 K1 K2 K3 K4 E0 E1 E2 E3 P0 P1 P2 P3. lia. }
  pose proof (Fc c0 ltac:(cbn; tauto) (proj1 I0) (proj2 I0)) as F0.
  pose proof (Fc c1 ltac:(cbn; tauto) (proj1 I1) (proj2 I1)) as F1.
  pose proof (Fc c2 ltac:(cbn; tauto) (proj1 I2) (proj2 I2)) as F2.
  pose proof (Fc c3 ltac:(cbn; tauto) (proj1 I3) (proj2 I3)) as F3.
  rewrite K0 in F0. rewrite <- K1 in F0. rewrite <- K2 in F1.
  rewrite <- K3 in F2. rewrite K4 in F3.
  exact (fills_app _ _ _ _ _ F0
           (fills_app _ _ _ _ _ F1 (fills_app _ _ _ _ _ F2 F3))).
Qed.

(** What the loop adds for [w] fills the part of [w] between the end of [a]
    and the begin of [b]. *)
Lemma region_fill_fills (d : nat) :
  forall w, p4est_quadrant_is_valid w = true ->
  P4EST_MAXLEVEL - level w <= Z.of_nat d ->
  p4est_quadrant_is_ancestor a w = false ->
  fills (Z.min (Z.max (morton_key w) (quadrant_end a)) (morton_key b))
        (region_fill d a b w)
        (Z.min (Z.max (quadrant_end w) (quadrant_end a)) (morton_key b)).
Proof.
  induction d as [|d IH]; intros w Vw Dw Inv; rewrite region_fill_eq;
    (destruct ((p4est_quadrant_compare a w <? 0)
                && (p4est_quadrant_compare w b <? 0)
                && negb (p4est_quadrant_is_ancestor w b)) eqn:C;
     [apply andb_true_iff in C; destruct C as [C C3];
      apply andb_true_iff in C; destruct C as [C1 C2];
      apply Z.ltb_lt in C1, C2; apply negb_true_iff in C3;
      apply region_leaf_fills; assumption|]);
    (destruct (p4est_quadrant_is_ancestor w a
               || p4est_quadrant_is_ancestor w b) eqn:A;
     [|cbn [fills]; apply region_skip_fills; assumption]).
  - pose proof (region_expand_level w Vw A). lia.
  - apply (region_children_fills (region_fill d a b) w Vw A).
    intros c Vc Lc Ic. apply IH; [exact Vc | lia | exact Ic].
Qed.

End Region.


(* ================================================================= *)
(** ** The loop of the completion of a region *)

Lemma level_count_app (k : Z) (l1 l2 : list p4est_quadrant_t) :
  level_count k (l1 ++ l2) = level_count k l1 + level_count k l2.
Proof. unfold level_count. rewrite filter_app, length_app. lia. Qed.

Lemma region_rel_refl (st : region_state) : region_rel 0 st st [].
Proof.
  unfold region_rel. cbn [length fold_left].
  split; [exists []; split; [symmetry; apply app_nil_r | constructor]|].
  repeat split; try lia.
  - destruct (data_in_use (rg_p4est st)); lia.
  - intros k _. unfold level_count. cbn. lia.
Qed.

Lemma region_rel_trans (n1 n2 : Z) (st st1 st2 : region_state)
  (l1 l2 : list p4est_quadrant_t) :
  region_rel n1 st st1 l1 -> region_rel n2 st1 st2 l2 ->
  region_rel (n1 + n2) st st2 (l1 ++ l2).
Proof.
  intros ((ad1 & Q1 & F1) & N1 & P1 & D1 & U1 & L1 & G1 & M1)
         ((ad2 & Q2 & F2) & N2 & P2 & D2 & U2 & L2 & G2 & M2).
  unfold region_rel. rewrite length_app, fold_left_app, Nat2Z.inj_add.
  split.
  { exists (ad1 ++ ad2). split; [rewrite Q2, Q1, app_assoc; reflexivity|].
    apply Forall2_app; assumption. }
  split; [lia|]. split; [lia|]. split; [congruence|].
  split; [rewrite U2, U1, D1; destruct (data_in_use (rg_p4est st)); lia|].
  split; [congruence|]. split.
  - intros k Hk. rewrite G2, G1, level_count_app by assumption. lia.
  - rewrite M2, M1. reflexivity.
Qed.

Lemma region_rel_inv (n : Z) (st st' : region_state)
  (l : list p4est_quadrant_t) :
  region_inv st -> region_rel n st st' l -> region_inv st'.
Proof.
  intros [I1 I2] ((ad & Q & F) & N & _ & _ & _ & L & _ & _).
  unfold region_inv, elem_count in *.
  rewrite N, Q, length_app, L, (Forall2_length F). split; lia.
Qed.

(** A change of the quadrant pool alone. *)
Lemma region_rel_qpool (st : region_state) (p4est : p4est_t) (n : Z) :
  data_size p4est = data_size (rg_p4est st) ->
  user_data_pool p4est = user_data_pool (rg_p4est st) ->
  mempool_elem_count (quadrant_pool p4est)
  = mempool_elem_count (quadrant_pool (rg_p4est st)) - n ->
  region_rel n st (region_with_p4est st p4est) [].
Proof.
  intros D U P. unfold region_rel, region_with_p4est.
  cbn [rg_p4est rg_quadrants rg_per_level rg_maxlevel rg_num_quadrants
       length fold_left].
  unfold data_in_use, user_pool_count. rewrite D, U.
  split; [exists []; split; [symmetry; apply app_nil_r | constructor]|].
  repeat split; try lia.
  - destruct (_ && _); lia.
  - intros k _. unfold level_count. cbn. lia.
Qed.

Lemma region_rel_free (st : region_state) :
  region_rel 1 st (region_with_p4est st (qpool_free (rg_p4est st))) [].
Proof. apply region_rel_qpool; cbn; reflexivity. Qed.

Lemma region_rel_alloc (st : region_state) :
  region_rel (-4) st (region_alloc st) [].
Proof. apply region_rel_qpool; cbn; try reflexivity; lia. Qed.

Lemma region_push_append (Q : list p4est_quadrant_t) (r : p4est_quadrant_t) :
  sc_array_set (sc_array_resize Q (elem_count Q + 1)) (elem_count Q) r
  = Q ++ [r].
Proof.
  unfold sc_array_resize, elem_count.
  replace (Z.to_nat (Z.of_nat (length Q) + 1)) with (length Q + 1)%nat by lia.
  rewrite firstn_all2 by lia.
  replace (length Q + 1 - length Q)%nat with 1%nat by lia.
  cbn [repeat]. apply sc_array_set_app_r.
Qed.

(** [R <- R + w] with the initialisation of the user data. *)
Lemma region_rel_push_init (st : region_state) (w : p4est_quadrant_t) :
  region_inv st -> 0 <= level w <= P4EST_MAXLEVEL ->
  region_rel 0 st (region_push_init st w) [w].
Proof.
  intros [I1 I2] Lw. unfold region_rel, region_push_init.
  pose proof (init_data_xyl (rg_p4est st) w) as X.
  assert (data_size (fst (p4est_quadrant_init_data (rg_p4est st) w))
          = data_size (rg_p4est st) /\
          quadrant_pool (fst (p4est_quadrant_init_data (rg_p4est st) w))
          = quadrant_pool (rg_p4est st) /\
          data_in_use (fst (p4est_quadrant_init_data (rg_p4est st) w))
          = data_in_use (rg_p4est st) /\
          user_pool_count (fst (p4est_quadrant_init_data (rg_p4est st) w))
          = user_pool_count (rg_p4est st)
            + (if data_in_use (rg_p4est st) then 1 else 0)) as (D & P & U & C).
  { unfold p4est_quadrant_init_data, data_in_use, user_pool_count.
    destruct (data_size (rg_p4est st) >? 0) eqn:G;
      [destruct (user_data_pool (rg_p4est st)) as [pool|] eqn:Up|];
      cbn [fst data_size quadrant_pool user_data_pool sc_mempool_alloc
           mempool_elem_count andb]; rewrite ?G, ?Up; cbn [andb];
      repeat split; try lia;
      try (destruct (user_data_pool (rg_p4est st)); lia). }
  destruct (p4est_quadrant_init_data (rg_p4est st) w) as [p4est' r].
  cbn [fst snd] in *.
  cbn [rg_p4est rg_quadrants rg_per_level rg_maxlevel rg_num_quadrants
       length fold_left].
  split.
  { exists [r]. rewrite I1, region_push_append.
    split; [reflexivity | constructor; [exact X | constructor]]. }
  split; [lia|]. split; [rewrite P; lia|]. split; [exact U|].
  split; [rewrite C; destruct (data_in_use (rg_p4est st)); lia|].
  split; [apply per_level_add_length|]. split; [|reflexivity].
  intros k Hk. rewrite per_level_add_get by lia.
  rewrite level_count_cons. unfold level_count. cbn [filter length].
  destruct (Z.eqb_spec k (level w)), (Z.eqb_spec (level w) k); lia.
Qed.

(** [R <- R + q] for one of the two ends. *)
Lemma region_push_rel (st : region_state) (q : p4est_quadrant_t) :
  region_inv st -> 0 <= level q <= P4EST_MAXLEVEL ->
  rg_quadrants (region_push st q) = rg_quadrants st ++ [q] /\
  region_inv (region_push st q) /\
  rg_p4est (region_push st q) = rg_p4est st /\
  rg_maxlevel (region_push st q) = SC_MAX (level q) (rg_maxlevel st) /\
  length (rg_per_level (region_push st q)) = length (rg_per_level st) /\
  (forall k, 0 <= k ->
     per_level_get (rg_per_level (region_push st q)) k
     = per_level_get (rg_per_level st) k + level_count k [q]).
Proof.
  intros [I1 I2] Lq. unfold region_push, region_inv.
  cbn [rg_p4est rg_quadrants rg_per_level rg_maxlevel rg_num_quadrants].
  rewrite I1, region_push_append, per_level_add_length.
  split; [reflexivity|]. split.
  { unfold elem_count. rewrite length_app. cbn [length]. split; lia. }
  split; [reflexivity|]. split; [reflexivity|]. split; [reflexivity|].
  intros k Hk. rewrite per_level_add_get by lia.
  unfold level_count. cbn [filter length].
  destruct (Z.eqb_spec k (level q)), (Z.eqb_spec (level q) k); cbn [length]; lia.
Qed.

Lemma region_cost_eq (d : nat) (a b w : p4est_quadrant_t) :
  region_cost d a b w
  = if (p4est_quadrant_compare a w <? 0) && (p4est_quadrant_compare w b <? 0)
       && negb (p4est_quadrant_is_ancestor w b)
    then 1%nat
    else if p4est_quadrant_is_ancestor w a || p4est_quadrant_is_ancestor w b
    then match d with
         | O => 1%nat
         | S d' => S (list_sum (map (region_cost d' a b) (children_of w)))
         end
    else 1%nat.
Proof. destruct d; reflexivity. Qed.

Lemma region_loop_step (fuel : nat) (a b w : p4est_quadrant_t)
  (W : list p4est_quadrant_t) (st : region_state) :
  region_loop (S fuel) a b (w :: W) st
  = if (p4est_quadrant_compare a w <? 0) && (p4est_quadrant_compare w b <? 0)
       && negb (p4est_quadrant_is_ancestor w b)
    then region_loop fuel a b W
           (region_with_p4est (region_push_init st w)
              (qpool_free (rg_p4est (region_push_init st w))))
    else if p4est_quadrant_is_ancestor w a || p4est_quadrant_is_ancestor w b
    then region_loop fuel a b (children_of w ++ W)
           (region_with_p4est (region_alloc st)
              (qpool_free (rg_p4est (region_alloc st))))
    else region_loop fuel a b W
           (region_with_p4est st (qpool_free (rg_p4est st))).
Proof. reflexivity. Qed.

Section RegionLoop.

Variables a b : p4est_quadrant_t.
Hypothesis Va : p4est_quadrant_is_valid a = true.
Hypothesis Vb : p4est_quadrant_is_valid b = true.

(** The loop treats the elements [Ws] at the head of the work list, and
    their descendants, within the number of steps counted by [region_cost],
    and adds what [region_fill] lists. *)
Lemma region_loop_list (d : nat) :
  forall Ws W st fuel,
  (forall w, In w Ws -> p4est_quadrant_is_valid w = true /\
                        P4EST_MAXLEVEL - level w <= Z.of_nat d) ->
  region_inv st ->
  (list_sum (map (region_cost d a b) Ws) <= fuel)%nat ->
  exists st',
    region_loop fuel a b (Ws ++ W) st
    = region_loop (fuel - list_sum (map (region_cost d a b) Ws)) a b W st' /\
    region_rel (Z.of_nat (length Ws)) st st'
               (flat_map (region_fill d a b) Ws).
Proof.
  induction d as [|d IHd]; induction Ws as [|w Ws IHw];
    intros W st fuel Vs Inv Fu.
  1,3: (exists st; cbn [app map list_sum flat_map length];
        rewrite Nat.sub_0_r; split; [reflexivity | apply region_rel_refl]).
  - (* depth 0 *)
    destruct (Vs w (or_introl eq_refl)) as [Vw Dw].
    destruct (valid_key_facts w Vw) as (Lw & _).
    change (list_sum (map (region_cost 0 a b) (w :: Ws)))
      with (region_cost 0 a b w + list_sum (map (region_cost 0 a b) Ws))%nat
      in *.
    set (rest := list_sum (map (region_cost 0 a b) Ws)) in *.
    cbn [flat_map length app].
    rewrite region_cost_eq in *. rewrite region_fill_eq.
    assert (p4est_quadrant_is_ancestor w a
            || p4est_quadrant_is_ancestor w b = false) as NA.
    { destruct (_ || _) eqn:A; [|reflexivity].
      pose proof (region_expand_level a b Va Vb w Vw A). lia. }
    rewrite NA in *.
    destruct fuel as [|f];
      [destruct (_ && _ && _); lia|].
    rewrite region_loop_step, NA.
    destruct ((p4est_quadrant_compare a w <? 0)
              && (p4est_quadrant_compare w b <? 0)
              && negb (p4est_quadrant_is_ancestor w b)) eqn:C.
    + pose proof (region_rel_trans _ _ _ _ _ _ _
                    (region_rel_push_init st w Inv Lw)
                    (region_rel_free (region_push_init st w))) as R1.
      destruct (IHw W _ f (fun v I => Vs v (or_intror I))
                  (region_rel_inv _ _ _ _ Inv R1) ltac:(fold rest; lia))
        as (st' & E & R2).
      exists st'. split; [rewrite E; fold rest; f_equal; lia|].
      pose proof (region_rel_trans _ _ _ _ _ _ _ R1 R2) as R.
      replace (Z.of_nat (S (length Ws))) with (0 + 1 + Z.of_nat (length Ws))
        by lia.
      exact R.
    + pose proof (region_rel_free st) as R1.
      destruct (IHw W _ f (fun v I => Vs v (or_intror I))
                  (region_rel_inv _ _ _ _ Inv R1) ltac:(fold rest; lia))
        as (st' & E & R2).
      exists st'. split; [rewrite E; fold rest; f_equal; lia|].
      pose proof (region_rel_trans _ _ _ _ _ _ _ R1 R2) as R.
      replace (Z.of_nat (S (length Ws))) with (1 + Z.of_nat (length Ws)) by lia.
      exact R.
  - (* depth d + 1 *)
    destruct (Vs w (or_introl eq_refl)) as [Vw Dw].
    destruct (valid_key_facts w Vw) as (Lw & _).
    change (list_sum (map (region_cost (S d) a b) (w :: Ws)))
      with (region_cost (S d) a b w
            + list_sum (map (region_cost (S d) a b) Ws))%nat in *.
    set (rest := list_sum (map (region_cost (S d) a b) Ws)) in *.
    cbn [flat_map length app].
    rewrite region_cost_eq in *. rewrite region_fill_eq.
    destruct fuel as [|f];
      [destruct (_ && _ && _); [lia|]; destruct (_ || _); lia|].
    rewrite region_loop_step.
    destruct ((p4est_quadrant_compare a w <? 0)
              && (p4est_quadrant_compare w b <? 0)
              && negb (p4est_quadrant_is_ancestor w b)) eqn:C.
    + pose proof (region_rel_trans _ _ _ _ _ _ _
                    (region_rel_push_init st w Inv Lw)
                    (region_rel_free (region_push_init st w))) as R1.
      destruct (IHw W _ f (fun v I => Vs v (or_intror I))
                  (region_rel_inv _ _ _ _ Inv R1) ltac:(fold rest; lia))
        as (st' & E & R2).
      exists st'. split; [rewrite E; fold rest; f_equal; lia|].
      pose proof (region_rel_trans _ _ _ _ _ _ _ R1 R2) as R.
      replace (Z.of_nat (S (length Ws))) with (0 + 1 + Z.of_nat (length Ws))
        by lia.
      exact R.
    + destruct (p4est_quadrant_is_ancestor w a
                || p4est_quadrant_is_ancestor w b) eqn:A.
      * pose proof (region_expand_level a b Va Vb w Vw A) as Lt.
        destruct (children_of_facts w Vw Lt)
          as (c0 & c1 & c2 & c3 & Ec & Vc & _).
        pose proof (region_rel_trans _ _ _ _ _ _ _
                      (region_rel_alloc st)
                      (region_rel_free (region_alloc st))) as R1.
        cbn [app] in R1.
        destruct (IHd (children_of w) (Ws ++ W)
                    (region_with_p4est (region_alloc st)
                       (qpool_free (rg_p4est (region_alloc st)))) f)
          as (st1 & E1 & R2).
        { intros c Ic. rewrite Ec in Ic. destruct (Vc c Ic) as [Vcc Lc].
          split; [exact Vcc | lia]. }
        { exact (region_rel_inv _ _ _ _ Inv R1). }
        { lia. }
        pose proof (region_rel_trans _ _ _ _ _ _ _ R1 R2) as R12.
        destruct (IHw W st1
                    (f - list_sum (map (region_cost d a b) (children_of w)))%nat
                    (fun v I => Vs v (or_intror I))
                    (region_rel_inv _ _ _ _ Inv R12) ltac:(fold rest; lia))
          as (st' & E & R3).
        exists st'. rewrite E1, E.
        split; [fold rest; f_equal; lia|].
        pose proof (region_rel_trans _ _ _ _ _ _ _ R12 R3) as R.
        cbn [app] in R. rewrite Ec in R. cbn [length] in R.
        replace (Z.of_nat (S (length Ws)))
          with (-4 + 1 + Z.of_nat 4 + Z.of_nat (length Ws)) by lia.
        rewrite Ec. exact R.
      * pose proof (region_rel_free st) as R1.
        destruct (IHw W _ f (fun v I => Vs v (or_intror I))
                    (region_rel_inv _ _ _ _ Inv R1) ltac:(fold rest; lia))
          as (st' & E & R2).
        exists st'. split; [rewrite E; fold rest; f_equal; lia|].
        pose proof (region_rel_trans _ _ _ _ _ _ _ R1 R2) as R.
        replace (Z.of_nat (S (length Ws))) with (1 + Z.of_nat (length Ws))
          by lia.
        exact R.
Qed.

End RegionLoop.


(* ================================================================= *)
(** ** The number of steps of the completion of a region *)

(** Of the four children of [w] at most one is an ancestor of [q], and only
    when [w] is one. *)
Lemma children_depth_sum (w q : p4est_quadrant_t) :
  p4est_quadrant_is_valid w = true -> p4est_quadrant_is_valid q = true ->
  level w < P4EST_MAXLEVEL ->
  list_sum (map (fun c => Z.to_nat (if p4est_quadrant_is_ancestor c q
                                    then level q - level c else 0))
                (children_of w))
  = Z.to_nat (if p4est_quadrant_is_ancestor w q
              then level q - level w - 1 else 0).
Proof.
  intros Vw Vq Lt.
  destruct (children_of_facts w Vw Lt)
    as (c0 & c1 & c2 & c3 & E & Vc & K0 & K1 & K2 & K3 & K4).
  destruct (Vc c0 ltac:(cbn; tauto)) as [V0 L0].
  destruct (Vc c1 ltac:(cbn; tauto)) as [V1 L1].
  destruct (Vc c2 ltac:(cbn; tauto)) as [V2 L2].
  destruct (Vc c3 ltac:(cbn; tauto)) as [V3 L3].
  destruct (valid_key_facts c0 V0) as (_ & P0 & _ & _ & _).
  destruct (valid_key_facts c1 V1) as (_ & P1 & _ & _ & _).
  destruct (valid_key_facts c2 V2) as (_ & P2 & _ & _ & _).
  destruct (valid_key_facts c3 V3) as (_ & P3 & _ & _ & _).
  assert (quadrant_end c0 = morton_key c0 + 2 ^ (2 * (P4EST_MAXLEVEL - level c0)))
    as E0 by reflexivity.
  assert (quadrant_end c1 = morton_key c1 + 2 ^ (2 * (P4EST_MAXLEVEL - level c1)))
    as E1 by reflexivity.
  assert (quadrant_end c2 = morton_key c2 + 2 ^ (2 * (P4EST_MAXLEVEL - level c2)))
    as E2 by reflexivity.
  assert (quadrant_end c3 = morton_key c3 + 2 ^ (2 * (P4EST_MAXLEVEL - level c3)))
    as E3 by reflexivity.
  pose proof (ancestor_interval w q Vw Vq) as Iw.
  pose proof (ancestor_interval c0 q V0 Vq) as I0.
  pose proof (ancestor_interval c1 q V1 Vq) as I1.
  pose proof (ancestor_interval c2 q V2 Vq) as I2.
  pose proof (ancestor_interval c3 q V3 Vq) as I3.
  rewrite E. cbn [map list_sum fold_right].
  destruct (p4est_quadrant_is_ancestor w q);
    destruct (p4est_quadrant_is_ancestor c0 q);
    destruct (p4est_quadrant_is_ancestor c1 q);
    destruct (p4est_quadrant_is_ancestor c2 q);
    destruct (p4est_quadrant_is_ancestor c3 q);
    repeat match goal with
           | H : true = true <-> _ |- _ => pose proof (proj1 H eq_refl); clear H
           | H : false = true <-> ?P |- _ =>
             assert (~ P) by (intros X; apply H in X; discriminate); clear H
           end;
    clear Vc E; lia.
Qed.

Section RegionCost.

Variables a b : p4est_quadrant_t.
Hypothesis Va : p4est_quadrant_is_valid a = true.
Hypothesis Vb : p4est_quadrant_is_valid b = true.

Lemma region_cost_bound (d : nat) :
  forall w, p4est_quadrant_is_valid w = true ->
  (region_cost d a b w
   <= 1 + 4 * (Z.to_nat (if p4est_quadrant_is_ancestor w a
                         then level a - level w else 0)
               + Z.to_nat (if p4est_quadrant_is_ancestor w b
                           then level b - level w else 0)))%nat.
Proof.
  induction d as [|d IH]; intros w Vw; rewrite region_cost_eq;
    (destruct (_ && _ && _); [lia|]);
    (destruct (p4est_quadrant_is_ancestor w a
               || p4est_quadrant_is_ancestor w b) eqn:A; [|lia]);
    [lia|].
  pose proof (region_expand_level a b Va Vb w Vw A) as Lt.
  pose proof (children_depth_sum w a Vw Va Lt) as Sa.
  pose proof (children_depth_sum w b Vw Vb Lt) as Sb.
  destruct (children_of_facts w Vw Lt)
    as (c0 & c1 & c2 & c3 & E & Vc & _).
  rewrite E in *. cbn [map list_sum fold_right] in *.
  pose proof (IH c0 (proj1 (Vc c0 ltac:(cbn; tauto)))) as H0.
  pose proof (IH c1 (proj1 (Vc c1 ltac:(cbn; tauto)))) as H1.
  pose proof (IH c2 (proj1 (Vc c2 ltac:(cbn; tauto)))) as H2.
  pose proof (IH c3 (proj1 (Vc c3 ltac:(cbn; tauto)))) as H3.
  pose proof (ancestor_interval w a Vw Va) as Ia.
  pose proof (ancestor_interval w b Vw Vb) as Ib.
  clear IH Vc E.
  destruct (p4est_quadrant_is_ancestor w a);
    destruct (p4est_quadrant_is_ancestor w b);
    try discriminate;
    repeat match goal with
           | H : true = true <-> _ |- _ => pose proof (proj1 H eq_refl); clear H
           | H : false = true <-> _ |- _ => clear H
           end;
    lia.
Qed.

End RegionCost.


(* ================================================================= *)
(** ** The completion of a region *)

Lemma lxor_lt_pow2 (u v m : Z) :
  0 <= u < 2 ^ m -> 0 <= v < 2 ^ m -> 0 <= m -> 0 <= Z.lxor u v < 2 ^ m.
Proof.
  intros Hu Hv Hm.
  assert (0 <= Z.lxor u v) by (apply Z.lxor_nonneg; lia).
  split; [assumption|]. apply nonneg_bits_lt; [assumption | lia |].
  intros k Hk. rewrite Z.lxor_spec.
  rewrite (testbit_above u m), (testbit_above v m) by lia. reflexivity.
Qed.

Lemma lor_lt_pow2_intro (u v m : Z) :
  0 <= u < 2 ^ m -> 0 <= v < 2 ^ m -> 0 <= m -> 0 <= Z.lor u v < 2 ^ m.
Proof.
  intros Hu Hv Hm.
  assert (0 <= Z.lor u v) by (apply Z.lor_nonneg; lia).
  split; [assumption|]. apply nonneg_bits_lt; [assumption | lia |].
  intros k Hk. rewrite Z.lor_spec.
  rewrite (testbit_above u m), (testbit_above v m) by lia. reflexivity.
Qed.

Lemma valid_same_tree (q r : p4est_quadrant_t) :
  p4est_quadrant_is_valid q = true -> p4est_quadrant_is_valid r = true ->
  same_tree q r = true.
Proof.
  intros Vq Vr.
  destruct (valid_inv q Vq) as (_ & Xq & Yq & _).
  destruct (valid_inv r Vr) as (_ & Xr & Yr & _).
  pose proof (lxor_lt_pow2 (x q) (x r) 29 Xq Xr ltac:(lia)) as Lx.
  pose proof (lxor_lt_pow2 (y q) (y r) 29 Yq Yr ltac:(lia)) as Ly.
  unfold same_tree.
  rewrite !uint32_small by (change (2 ^ 32) with (2 ^ 29 * 8); lia).
  pose proof (lor_lt_pow2_intro _ _ 29 Lx Ly ltac:(lia)) as Lo.
  assert (SC_LOG2_32 (Z.lor (Z.lxor (x q) (x r)) (Z.lxor (y q) (y r))) < 29)
    as Lg.
  { apply SC_LOG2_32_lt; [change (2 ^ 32) with (2 ^ 29 * 8); lia | lia | lia]. }
  unfold P4EST_MAXLEVEL. apply Z.leb_le. lia.
Qed.

(** The nearest common ancestor of two valid quadrants is valid and equals
    or is an ancestor of both. *)
Lemma nca_valid_facts (q1 q2 r : p4est_quadrant_t) :
  p4est_quadrant_is_valid q1 = true -> p4est_quadrant_is_valid q2 = true ->
  p4est_quadrant_is_valid (p4est_nearest_common_ancestor q1 q2 r) = true /\
  p4est_quadrant_is_equal (p4est_nearest_common_ancestor q1 q2 r) q1
    || p4est_quadrant_is_ancestor (p4est_nearest_common_ancestor q1 q2 r) q1
    = true /\
  p4est_quadrant_is_equal (p4est_nearest_common_ancestor q1 q2 r) q2
    || p4est_quadrant_is_ancestor (p4est_nearest_common_ancestor q1 q2 r) q2
    = true.
Proof.
  intros V1 V2.
  pose proof (valid_same_tree q1 q2 V1 V2) as ST.
  destruct (valid_int32 q1 V1) as [X1 Y1]. destruct (valid_int32 q2 V2) as [X2 Y2].
  pose proof V1 as E1. rewrite is_valid_split in E1. apply andb_true_iff in E1.
  destruct E1 as [E1 _].
  pose proof V2 as E2. rewrite is_valid_split in E2. apply andb_true_iff in E2.
  destruct E2 as [E2 _].
  destruct (valid_inv q1 V1) as (L1 & R1x & R1y & _).
  destruct (valid_inv q2 V2) as (L2 & _).
  set (m := SC_LOG2_32 (Z.lor (uint32 (Z.lxor (x q1) (x q2)))
                              (uint32 (Z.lxor (y q1) (y q2)))) + 1).
  set (k := Z.min (Z.min (level q1) (level q2)) (P4EST_MAXLEVEL - m)).
  pose proof (same_tree_bound q1 q2 ST) as B. cbv zeta in B.
  fold m in B. destruct B as (Hm & _ & _).
  assert (same_tree q2 q1 = true) as ST'.
  { unfold same_tree in *.
    rewrite (Z.lxor_comm (x q2)), (Z.lxor_comm (y q2)). exact ST. }
  assert (m = SC_LOG2_32 (Z.lor (uint32 (Z.lxor (x q2) (x q1)))
                                (uint32 (Z.lxor (y q2) (y q1)))) + 1) as Em'.
  { rewrite (Z.lxor_comm (x q2)), (Z.lxor_comm (y q2)). reflexivity. }
  assert (k = Z.min (Z.min (level q2) (level q1)) (P4EST_MAXLEVEL - m)) as Ek'
    by (unfold k; lia).
  pose proof (nca_closed_form q1 q2 r m k E1 E2 X1 Y1 X2 Y2 ST eq_refl eq_refl)
    as C12.
  pose proof (nca_closed_form q2 q1 r m k E2 E1 X2 Y2 X1 Y1 ST' Em' Ek') as C21.
  assert (0 <= k <= P4EST_MAXLEVEL) as Hk by (unfold k; lia).
  pose proof (ancestors_equal_iff q1 q2 m k X1 Y1 X2 Y2 ST eq_refl Hk) as Q.
  destruct (Z.leb_spec k (P4EST_MAXLEVEL - m)); [|unfold k in *; lia].
  unfold p4est_quadrant_is_equal in Q.
  apply andb_prop in Q. destruct Q as [Q Qy].
  apply andb_prop in Q. destruct Q as [_ Qx].
  apply Z.eqb_eq in Qx, Qy.
  rewrite C12. split; [|split].
  - apply valid_by_parts; unfold ancestor_at, set_xyl; cbn [x y level];
      try apply clear_low_is_aligned; unfold P4EST_MAXLEVEL in *; try lia.
    + rewrite clear_low_eq by lia.
      pose proof (Z.mod_pos_bound (x q1) (2 ^ (29 - k))
                    ltac:(apply Z.pow_pos_nonneg; lia)).
      assert (x q1 mod 2 ^ (29 - k) <= x q1) by (apply Z.mod_le; [lia|apply Z.pow_pos_nonneg; lia]).
      lia.
    + rewrite clear_low_eq by lia.
      pose proof (Z.mod_pos_bound (y q1) (2 ^ (29 - k))
                    ltac:(apply Z.pow_pos_nonneg; lia)).
      assert (y q1 mod 2 ^ (29 - k) <= y q1) by (apply Z.mod_le; [lia|apply Z.pow_pos_nonneg; lia]).
      lia.
  - apply (ancestor_or_equal_ancestor_at _ q1 k); try assumption;
      try reflexivity. unfold k; lia.
  - apply (ancestor_or_equal_ancestor_at _ q2 k); try assumption;
      try (rewrite <- ?Qx, <- ?Qy; reflexivity). unfold k; lia.
Qed.

Lemma valid_xyl (q r : p4est_quadrant_t) :
  same_xyl q r -> p4est_quadrant_is_valid q = p4est_quadrant_is_valid r.
Proof.
  intros (Ex & Ey & El). unfold p4est_quadrant_is_valid.
  rewrite Ex, Ey, El. reflexivity.
Qed.

Lemma quadrant_end_xyl (q r : p4est_quadrant_t) :
  same_xyl q r -> morton_key q = morton_key r /\ quadrant_end q = quadrant_end r.
Proof.
  intros (Ex & Ey & El). unfold quadrant_end.
  rewrite (morton_key_same_xy q r Ex Ey), El. split; reflexivity.
Qed.

Lemma fills_xyl (l' l : list p4est_quadrant_t) :
  Forall2 same_xyl l' l ->
  forall lo hi, fills lo l hi -> fills lo l' hi.
Proof.
  induction 1 as [|q' q t' t X F IH]; intros lo hi H; [exact H|].
  cbn [fills] in *. destruct H as (V & K & H).
  destruct (quadrant_end_xyl q' q X) as [Ek Ee].
  split; [rewrite (valid_xyl q' q X); exact V|].
  split; [lia|]. rewrite Ee. apply IH, H.
Qed.

Lemma level_count_xyl (k : Z) (l' l : list p4est_quadrant_t) :
  Forall2 same_xyl l' l -> level_count k l' = level_count k l.
Proof.
  induction 1 as [|q' q t' t X F IH]; [reflexivity|].
  rewrite !level_count_cons, IH. destruct X as (_ & _ & ->). reflexivity.
Qed.

Lemma quadrant_end_eq (q : p4est_quadrant_t) :
  quadrant_end q = morton_key q + 2 ^ (2 * (P4EST_MAXLEVEL - level q)).
Proof. reflexivity. Qed.

Lemma fills_next (q r : p4est_quadrant_t) :
  p4est_quadrant_is_valid q = true -> p4est_quadrant_is_valid r = true ->
  morton_key r = quadrant_end q -> p4est_quadrant_is_next q r = true.
Proof.
  intros Vq Vr K. destruct (is_next_facts q r Vq Vr) as [F1 F2].
  destruct (valid_key_facts q Vq) as (_ & P & _).
  rewrite quadrant_end_eq in K.
  destruct (Z.le_gt_cases (level q) (level r)) as [L|L].
  - apply (F1 L). lia.
  - apply (F2 L). lia.
Qed.

Lemma fills_complete (l : list p4est_quadrant_t) :
  forall q lo hi, fills lo (q :: l) hi ->
  tree_is_complete_loop q l = true /\ array_is_valid (q :: l) = true.
Proof.
  induction l as [|r t IH]; intros q lo hi F.
  - cbn [fills] in F. destruct F as (V & _ & _).
    split; [reflexivity|]. unfold array_is_valid. cbn [forallb].
    rewrite V. reflexivity.
  - cbn [fills] in F. destruct F as (Vq & Kq & Vr & Kr & F).
    destruct (IH r (quadrant_end q) hi) as [C V].
    { cbn [fills]. split; [exact Vr|]. split; [exact Kr | exact F]. }
    split.
    + cbn [tree_is_complete_loop]. rewrite (fills_next q r Vq Vr Kr).
      cbn [negb]. exact C.
    + unfold array_is_valid in *. cbn [forallb] in *. rewrite Vq. exact V.
Qed.

Lemma covers_interval (n q : p4est_quadrant_t) :
  p4est_quadrant_is_valid n = true -> p4est_quadrant_is_valid q = true ->
  p4est_quadrant_is_equal n q || p4est_quadrant_is_ancestor n q = true ->
  level n <= level q /\ morton_key n <= morton_key q /\
  quadrant_end q <= quadrant_end n.
Proof.
  intros Vn Vq C. apply orb_true_iff in C. destruct C as [C|C].
  - apply is_equal_inv in C. destruct (quadrant_end_xyl n q C) as [K E].
    destruct C as (_ & _ & L). lia.
  - apply (ancestor_interval n q Vn Vq) in C.
    destruct (valid_key_facts q Vq) as (_ & P & _).
    pose proof (nested_or_disjoint n q Vn Vq ltac:(lia)) as N.
    rewrite (quadrant_end_eq q) in *. lia.
Qed.

(** The run of the loop of [p4est_complete_region] for valid [a < b]. *)
Lemma complete_region_run (fuel : nat) (a b : p4est_quadrant_t)
  (st0 : region_state) :
  p4est_quadrant_is_valid a = true -> p4est_quadrant_is_valid b = true ->
  p4est_quadrant_compare a b < 0 -> region_inv st0 ->
  4 + 4 * (level a + level b) <= Z.of_nat fuel ->
  exists st',
    region_loop fuel a b
      (children_of (p4est_nearest_common_ancestor a b quadrant_zero))
      (region_alloc st0) = Some st' /\
    region_rel 0 st0 st'
      (region_fill 30 a b (p4est_nearest_common_ancestor a b quadrant_zero)) /\
    p4est_quadrant_is_valid
      (p4est_nearest_common_ancestor a b quadrant_zero) = true /\
    p4est_quadrant_is_ancestor a
      (p4est_nearest_common_ancestor a b quadrant_zero) = false /\
    morton_key (p4est_nearest_common_ancestor a b quadrant_zero)
      <= morton_key a /\
    quadrant_end b
      <= quadrant_end (p4est_nearest_common_ancestor a b quadrant_zero).
Proof.
  intros Va Vb C Inv Fu.
  destruct (nca_valid_facts a b quadrant_zero Va Vb) as (Vn & Ca & Cb).
  set (N := p4est_nearest_common_ancestor a b quadrant_zero) in *.
  destruct (covers_interval N a Vn Va Ca) as (La & Sa & _).
  destruct (covers_interval N b Vn Vb Cb) as (Lb & _ & Eb).
  destruct (valid_key_facts a Va) as (Lva & _).
  destruct (valid_key_facts b Vb) as (Lvb & _).
  destruct (valid_key_facts N Vn) as (Lvn & _).
  assert (p4est_quadrant_is_ancestor N a || p4est_quadrant_is_ancestor N b
          = true) as A.
  { destruct (p4est_quadrant_is_ancestor N a) eqn:Aa; [reflexivity|].
    destruct (p4est_quadrant_is_ancestor N b) eqn:Ab; [reflexivity|].
    exfalso. rewrite orb_false_r in Ca, Cb.
    apply is_equal_inv in Ca, Cb.
    assert (same_xyl a b) as X
      by (unfold same_xyl in *; repeat split; lia).
    apply (compare_eq_iff a b (valid_in_band a Va) (valid_in_band b Vb)) in X.
    lia. }
  assert (p4est_quadrant_is_ancestor a N = false) as IaN.
  { unfold p4est_quadrant_is_ancestor.
    destruct (Z.geb_spec (level a) (level N)); [reflexivity|lia]. }
  assert ((p4est_quadrant_compare a N <? 0) = false) as NC.
  { apply Z.ltb_ge.
    destruct (Z.lt_ge_cases (p4est_quadrant_compare a N) 0) as [X|X]; [|lia].
    exfalso. apply (compare_key a N Va Vn) in X.
    destruct (quadrant_end_xyl N N (conj eq_refl (conj eq_refl eq_refl))).
    lia. }
  pose proof (region_expand_level a b Va Vb N Vn A) as Lt.
  destruct (children_of_facts N Vn Lt)
    as (c0 & c1 & c2 & c3 & Ec & Vc & _).
  pose proof (children_depth_sum N a Vn Va Lt) as Da.
  pose proof (children_depth_sum N b Vn Vb Lt) as Db.
  assert (list_sum (map (region_cost 29 a b) (children_of N)) <= fuel)%nat
    as Cost.
  { rewrite Ec in *. cbn [map list_sum fold_right] in *.
    pose proof (region_cost_bound a b Va Vb 29 c0
                  (proj1 (Vc c0 ltac:(cbn; tauto)))) as H0.
    pose proof (region_cost_bound a b Va Vb 29 c1
                  (proj1 (Vc c1 ltac:(cbn; tauto)))) as H1.
    pose proof (region_cost_bound a b Va Vb 29 c2
                  (proj1 (Vc c2 ltac:(cbn; tauto)))) as H2.
    pose proof (region_cost_bound a b Va Vb 29 c3
                  (proj1 (Vc c3 ltac:(cbn; tauto)))) as H3.
    clear Vc Ec.
    destruct (p4est_quadrant_is_ancestor N a);
      destruct (p4est_quadrant_is_ancestor N b); lia. }
  destruct (region_loop_list a b Va Vb 29 (children_of N) [] (region_alloc st0)
              fuel) as (st' & E & R).
  { intros c Ic. rewrite Ec in Ic. destruct (Vc c Ic) as [Vcc Lc].
    split; [exact Vcc | unfold P4EST_MAXLEVEL in *; lia]. }
  { exact (region_rel_inv _ _ _ _ Inv (region_rel_alloc st0)). }
  { exact Cost. }
  exists st'. rewrite app_nil_r in E. rewrite E.
  split; [destruct (fuel - _)%nat; reflexivity|].
  split.
  { pose proof (region_rel_trans _ _ _ _ _ _ _ (region_rel_alloc st0) R) as R'.
    rewrite Ec in R'. cbn [length app] in R'.
    rewrite region_fill_eq, NC, A. cbn [andb]. rewrite Ec.
    replace 0 with (-4 + Z.of_nat 4) by lia. exact R'. }
  repeat split; assumption.
Qed.

Lemma fills_one (q : p4est_quadrant_t) :
  p4est_quadrant_is_valid q = true -> fills (morton_key q) [q] (quadrant_end q).
Proof. intros V. cbn [fills]. auto. Qed.

Lemma fills_tree (lo hi : Z) (tree : p4est_tree_t) :
  fills lo (quadrants tree) hi ->
  p4est_tree_is_complete tree = true /\ p4est_tree_is_linear tree = true /\
  array_is_valid (quadrants tree) = true.
Proof.
  unfold p4est_tree_is_complete, p4est_tree_is_linear.
  destruct (quadrants tree) as [|q l]; [intros _; repeat split; reflexivity|].
  intros F. destruct (fills_complete l q lo hi F) as [C V].
  split; [exact C|]. split; [|exact V]. apply complete_loop_linear; assumption.
Qed.

Lemma disjoint_after (a b : p4est_quadrant_t) :
  p4est_quadrant_is_valid a = true -> p4est_quadrant_is_valid b = true ->
  p4est_quadrant_compare a b < 0 -> p4est_quadrant_is_ancestor a b = false ->
  quadrant_end a <= morton_key b.
Proof.
  intros Va Vb C A.
  apply (compare_key a b Va Vb) in C.
  pose proof (not_ancestor_interval a b Va Vb A) as I.
  destruct (valid_key_facts a Va) as (_ & Pa & _).
  destruct (valid_key_facts b Vb) as (_ & Pb & _).
  pose proof (quadrant_end_eq a) as Ea. pose proof (quadrant_end_eq b) as Eb.
  assert (level a = level b ->
          2 ^ (2 * (P4EST_MAXLEVEL - level a))
          = 2 ^ (2 * (P4EST_MAXLEVEL - level b))) as Q
    by (intros Q; rewrite Q; reflexivity).
  destruct (Z.le_gt_cases (level a) (level b)) as [L|L];
    [pose proof (nested_or_disjoint a b Va Vb L) as N
    |pose proof (nested_or_disjoint b a Vb Va ltac:(lia)) as N];
    lia.
Qed.

Lemma covers_shift (c q : p4est_quadrant_t) :
  p4est_quadrant_is_equal c q || p4est_quadrant_is_ancestor c q = true ->
  level c <= level q /\
  Z.shiftr (Z.lxor (x c) (x q)) (P4EST_MAXLEVEL - level c) = 0 /\
  Z.shiftr (Z.lxor (y c) (y q)) (P4EST_MAXLEVEL - level c) = 0.
Proof.
  intros C. apply orb_true_iff in C. destruct C as [C|C].
  - apply is_equal_inv in C. destruct C as (-> & -> & ->).
    rewrite !Z.lxor_nilpotent, Z.shiftr_0_l. split; [lia|]. split; reflexivity.
  - apply is_ancestor_inv in C. destruct C as (L & X & Y).
    split; [lia|]. split; assumption.
Qed.

Lemma nca_level (q1 q2 r0 : p4est_quadrant_t) :
  p4est_quadrant_is_valid q1 = true -> p4est_quadrant_is_valid q2 = true ->
  forall j, 0 <= j <= P4EST_MAXLEVEL -> j <= level q1 -> j <= level q2 ->
  p4est_quadrant_is_equal (ancestor_at q1 j) (ancestor_at q2 j) = true ->
  j <= level (p4est_nearest_common_ancestor q1 q2 r0).
Proof.
  intros V1 V2 j Hj J1 J2 Q.
  pose proof (valid_same_tree q1 q2 V1 V2) as ST.
  destruct (valid_int32 q1 V1) as [X1 Y1]. destruct (valid_int32 q2 V2) as [X2 Y2].
  pose proof V1 as E1. rewrite is_valid_split in E1. apply andb_true_iff in E1.
  destruct E1 as [E1 _].
  pose proof V2 as E2. rewrite is_valid_split in E2. apply andb_true_iff in E2.
  destruct E2 as [E2 _].
  rewrite (ancestors_equal_iff q1 q2 _ j X1 Y1 X2 Y2 ST eq_refl Hj) in Q.
  apply Z.leb_le in Q.
  rewrite (nca_closed_form q1 q2 r0 _ _ E1 E2 X1 Y1 X2 Y2 ST eq_refl eq_refl).
  unfold set_xyl. cbn [level]. lia.
Qed.

(** When [a] is an ancestor of [b], every element of the work list lies
    inside [a], and the loop fills the range from the begin of [a] to the
    begin of [b]. *)
Section RegionInside.

Variables a b : p4est_quadrant_t.
Hypothesis Va : p4est_quadrant_is_valid a = true.
Hypothesis Vb : p4est_quadrant_is_valid b = true.

Lemma region_inside_children (d : nat) (w : p4est_quadrant_t) :
  (forall c, p4est_quadrant_is_valid c = true ->
     P4EST_MAXLEVEL - level c <= Z.of_nat d ->
     level a < level c -> morton_key a <= morton_key c ->
     quadrant_end c <= quadrant_end a ->
     fills (Z.min (morton_key c) (morton_key b)) (region_fill d a b c)
           (Z.min (quadrant_end c) (morton_key b))) ->
  p4est_quadrant_is_valid w = true -> level w < P4EST_MAXLEVEL ->
  P4EST_MAXLEVEL - level w <= Z.of_nat (S d) ->
  level a <= level w -> morton_key a <= morton_key w ->
  quadrant_end w <= quadrant_end a ->
  fills (Z.min (morton_key w) (morton_key b))
        (flat_map (region_fill d a b) (children_of w))
        (Z.min (quadrant_end w) (morton_key b)).
Proof.
  intros IH Vw Lt Dw Lw Kw Ew.
  destruct (children_of_facts w Vw Lt)
    as (c0 & c1 & c2 & c3 & Ec & Vc & K0 & K1 & K2 & K3 & E3).
  destruct (Vc c0 ltac:(cbn; tauto)) as [V0 L0].
  destruct (Vc c1 ltac:(cbn; tauto)) as [V1 L1].
  destruct (Vc c2 ltac:(cbn; tauto)) as [V2 L2].
  destruct (Vc c3 ltac:(cbn; tauto)) as [V3 L3].
  destruct (valid_key_facts c0 V0) as (_ & P0 & _).
  destruct (valid_key_facts c1 V1) as (_ & P1 & _).
  destruct (valid_key_facts c2 V2) as (_ & P2 & _).
  destruct (valid_key_facts c3 V3) as (_ & P3 & _).
  pose proof (quadrant_end_eq c0) as Q0. pose proof (quadrant_end_eq c1) as Q1.
  pose proof (quadrant_end_eq c2) as Q2. pose proof (quadrant_end_eq c3) as Q3.
  assert (morton_key a <= morton_key c0 /\ quadrant_end c0 <= quadrant_end a /\
          morton_key a <= morton_key c1 /\ quadrant_end c1 <= quadrant_end a /\
          morton_key a <= morton_key c2 /\ quadrant_end c2 <= quadrant_end a /\
          morton_key a <= morton_key c3 /\ quadrant_end c3 <= quadrant_end a)
    as (A0 & B0 & A1 & B1 & A2 & B2 & A3 & B3).
  { clear - K0 K1 K2 K3 E3 P0 P1 P2 P3 Q0 Q1 Q2 Q3 Kw Ew. lia. }
  assert (Z.of_nat (S d) = Z.of_nat d + 1) as Sd by lia.
  pose proof (IH c0 V0 ltac:(lia) ltac:(lia) A0 B0) as F0.
  pose proof (IH c1 V1 ltac:(lia) ltac:(lia) A1 B1) as F1.
  pose proof (IH c2 V2 ltac:(lia) ltac:(lia) A2 B2) as F2.
  pose proof (IH c3 V3 ltac:(lia) ltac:(lia) A3 B3) as F3.
  rewrite Ec. cbn [flat_map]. rewrite app_nil_r.
  rewrite <- K0, <- E3.
  rewrite K1 in F1. rewrite K2 in F2. rewrite K3 in F3.
  exact (fills_app _ _ _ _ _ F0
           (fills_app _ _ _ _ _ F1 (fills_app _ _ _ _ _ F2 F3))).
Qed.

Lemma region_inside_fills (d : nat) :
  forall w, p4est_quadrant_is_valid w = true ->
  P4EST_MAXLEVEL - level w <= Z.of_nat d ->
  level a < level w -> morton_key a <= morton_key w ->
  quadrant_end w <= quadrant_end a ->
  fills (Z.min (morton_key w) (morton_key b)) (region_fill d a b w)
        (Z.min (quadrant_end w) (morton_key b)).
Proof.
  induction d as [|d IH]; intros w Vw Dw Lw Kw Ew; rewrite region_fill_eq.
  all: destruct (valid_key_facts w Vw) as (Lvw & Pw & _).
  all: pose proof (quadrant_end_eq w) as Qw.
  all: assert ((p4est_quadrant_compare a w <? 0) = true) as Caw
    by (apply Z.ltb_lt; apply (compare_key a w Va Vw); lia).
  all: assert (p4est_quadrant_is_ancestor w a = false) as Nwa
    by (unfold p4est_quadrant_is_ancestor;
        destruct (Z.geb_spec (level w) (level a)); [reflexivity|lia]).
  all: rewrite Caw, Nwa; cbn [andb orb].
  all: destruct (p4est_quadrant_is_ancestor w b) eqn:Awb; cbn [negb];
    rewrite ?andb_false_r, ?andb_true_r.
  - pose proof (region_expand_level a b Va Vb w Vw
                  ltac:(rewrite Awb; apply orb_true_r)) as Lt.
    unfold P4EST_MAXLEVEL in *. lia.
  - destruct (Z.ltb_spec (p4est_quadrant_compare w b) 0) as [C|C].
    + pose proof (disjoint_after w b Vw Vb C Awb) as D.
      cbn [fills]. split; [exact Vw|]. split; lia.
    + pose proof (not_compare_key w b Vw Vb C) as K. cbn [fills]. lia.
  - pose proof (region_expand_level a b Va Vb w Vw
                  ltac:(rewrite Awb; apply orb_true_r)) as Lt.
    apply (region_inside_children d w IH Vw Lt Dw ltac:(lia) Kw Ew).
  - destruct (Z.ltb_spec (p4est_quadrant_compare w b) 0) as [C|C].
    + pose proof (disjoint_after w b Vw Vb C Awb) as D.
      cbn [fills]. split; [exact Vw|]. split; lia.
    + pose proof (not_compare_key w b Vw Vb C) as K. cbn [fills]. lia.
Qed.

Lemma region_top_inside :
  p4est_quadrant_is_ancestor a b = true ->
  fills (morton_key a)
        (region_fill 30 a b (p4est_nearest_common_ancestor a b quadrant_zero))
        (morton_key b).
Proof.
  intros Aab.
  destruct (nca_valid_facts a b quadrant_zero Va Vb) as (Vn & Ca & Cb).
  destruct (valid_key_facts a Va) as (La & Pa & _).
  destruct (valid_key_facts b Vb) as (Lb & Pb & _).
  pose proof (proj1 (ancestor_interval a b Va Vb) Aab) as (Lab & Kab).
  assert (level a <= level (p4est_nearest_common_ancestor a b quadrant_zero))
    as Ln.
  { apply (nca_level a b quadrant_zero Va Vb (level a) La); [lia|lia|].
    apply is_ancestor_inv in Aab. destruct Aab as (_ & Sx & Sy).
    apply clear_low_eq_iff in Sx; [|lia]. apply clear_low_eq_iff in Sy; [|lia].
    unfold p4est_quadrant_is_equal, ancestor_at, set_xyl. cbn [x y level].
    rewrite Sx, Sy, !Z.eqb_refl. reflexivity. }
  set (N := p4est_nearest_common_ancestor a b quadrant_zero) in *.
  destruct (covers_interval N a Vn Va Ca) as (Lna & Kna & Ena).
  destruct (valid_key_facts N Vn) as (Lvn & Pn & _).
  pose proof (quadrant_end_eq a) as Qa. pose proof (quadrant_end_eq N) as Qn.
  assert (level N = level a) as El by lia.
  rewrite El in Qn.
  assert (morton_key N = morton_key a) as Ek by lia.
  assert (quadrant_end N = quadrant_end a) as Ee by lia.
  assert (p4est_quadrant_is_ancestor N b = true) as Anb.
  { apply (ancestor_interval N b Vn Vb). lia. }
  assert ((p4est_quadrant_compare a N <? 0) = false) as NC.
  { apply Z.ltb_ge.
    destruct (Z.lt_ge_cases (p4est_quadrant_compare a N) 0) as [X|X]; [|lia].
    apply (compare_key a N Va Vn) in X. lia. }
  pose proof (region_expand_level a b Va Vb N Vn
                ltac:(rewrite Anb; apply orb_true_r)) as Lt.
  rewrite region_fill_eq, NC, Anb, orb_true_r. cbn [andb].
  pose proof (region_inside_children 29 N (region_inside_fills 29) Vn Lt
                ltac:(unfold P4EST_MAXLEVEL in *; lia) ltac:(lia) ltac:(lia)
                ltac:(lia)) as F.
  replace (Z.min (morton_key N) (morton_key b)) with (morton_key a) in F by lia.
  replace (Z.min (quadrant_end N) (morton_key b)) with (morton_key b) in F
    by lia.
  exact F.
Qed.

End RegionInside.

(** The quadrants that [p4est_complete_region] has built when it reaches its
    closing assertions, for valid [q1 < q2] where [q1] is not both included
    and an ancestor of [q2]. *)
Lemma complete_region_build_tiles (fuel : nat) (p4est : p4est_t)
  (q1 q2 : p4est_quadrant_t) (include_q1 include_q2 : bool)
  (tree : p4est_tree_t) :
  p4est_quadrant_is_valid q1 = true -> p4est_quadrant_is_valid q2 = true ->
  p4est_quadrant_compare q1 q2 < 0 ->
  (include_q1 = true -> p4est_quadrant_is_ancestor q1 q2 = false) ->
  quadrants tree = [] ->
  P4EST_MAXLEVEL < Z.of_nat (length (quadrants_per_level tree)) ->
  4 + 4 * (level q1 + level q2) <= Z.of_nat fuel ->
  exists p4est' tree',
    complete_region_build fuel p4est q1 include_q1 q2 include_q2 tree
    = Some (p4est', tree') /\
    fills (if include_q1 then morton_key q1
           else if p4est_quadrant_is_ancestor q1 q2 then morton_key q1
                else quadrant_end q1)
          (quadrants tree')
          (if include_q2 then quadrant_end q2 else morton_key q2) /\
    p4est_tree_is_complete tree' = true /\
    p4est_tree_is_linear tree' = true /\
    (include_q1 = true -> exists rest, quadrants tree' = q1 :: rest) /\
    (include_q2 = true -> exists front, quadrants tree' = front ++ [q2]).
Proof.
  intros V1 V2 C NA Em Len Fu.
  destruct (valid_key_facts q1 V1) as (L1 & P1 & _).
  destruct (valid_key_facts q2 V2) as (L2 & P2 & _).
  set (st0 := mkregion p4est (quadrants tree) (quadrants_per_level tree) 0 0).
  assert (region_inv st0) as I0.
  { unfold region_inv, st0. cbn [rg_num_quadrants rg_quadrants rg_per_level].
    rewrite Em. split; [reflexivity | exact Len]. }
  set (st1 := if include_q1 then region_push st0 q1 else st0).
  assert (region_inv st1 /\
          rg_quadrants st1 = if include_q1 then [q1] else []) as [I1 Q1].
  { unfold st1. destruct include_q1.
    - destruct (region_push_rel st0 q1 I0 L1) as (Q & I & _).
      split; [exact I|]. rewrite Q. unfold st0. cbn [rg_quadrants].
      rewrite Em. reflexivity.
    - split; [exact I0|]. unfold st0. cbn [rg_quadrants]. exact Em. }
  destruct (complete_region_run fuel q1 q2 st1 V1 V2 C I1 Fu)
    as (st2 & E & R & Vn & IaN & Sn & En).
  set (lo := if p4est_quadrant_is_ancestor q1 q2 then morton_key q1
             else quadrant_end q1).
  assert (fills lo
            (region_fill 30 q1 q2
               (p4est_nearest_common_ancestor q1 q2 quadrant_zero))
            (morton_key q2)) as F.
  { unfold lo. destruct (p4est_quadrant_is_ancestor q1 q2) eqn:A12.
    - apply (region_top_inside q1 q2 V1 V2 A12).
    - pose proof (disjoint_after q1 q2 V1 V2 C A12) as Hab.
      pose proof (region_fill_fills q1 q2 V1 V2 Hab 30
                    (p4est_nearest_common_ancestor q1 q2 quadrant_zero) Vn
                    ltac:(destruct (valid_key_facts _ Vn) as (Ln & _);
                          unfold P4EST_MAXLEVEL in *; lia) IaN) as F.
      pose proof (quadrant_end_eq q1) as Ea.
      pose proof (quadrant_end_eq q2) as Eb.
      replace (Z.min (Z.max (morton_key (p4est_nearest_common_ancestor q1 q2
                                           quadrant_zero)) (quadrant_end q1))
                     (morton_key q2)) with (quadrant_end q1) in F by lia.
      replace (Z.min (Z.max (quadrant_end (p4est_nearest_common_ancestor q1 q2
                                             quadrant_zero)) (quadrant_end q1))
                     (morton_key q2)) with (morton_key q2) in F by lia.
      exact F. }
  pose proof (region_rel_inv _ _ _ _ I1 R) as I2.
  destruct R as ((added & Q2 & X) & _).
  apply (fills_xyl _ _ X) in F.
  set (st3 := if include_q2 then region_push st2 q2 else st2).
  assert (rg_quadrants st3
          = (if include_q1 then [q1] else []) ++ added
            ++ (if include_q2 then [q2] else [])) as Q3.
  { unfold st3. destruct include_q2.
    - destruct (region_push_rel st2 q2 I2 L2) as (Q & _).
      rewrite Q, Q2, Q1, <- app_assoc. reflexivity.
    - rewrite Q2, Q1, app_nil_r. reflexivity. }
  unfold complete_region_build. fold st0. fold st1.
  destruct (Z.ltb_spec (p4est_quadrant_compare q1 q2) 0); [|lia].
  rewrite E. fold st3.
  do 2 eexists. split; [reflexivity|].
  cbn [quadrants]. rewrite Q3.
  assert (fills (if include_q1 then morton_key q1 else lo)
            ((if include_q1 then [q1] else []) ++ added
             ++ (if include_q2 then [q2] else []))
            (if include_q2 then quadrant_end q2 else morton_key q2)) as Fl.
  { apply (fills_app _ _ _ lo).
    - destruct include_q1; [|reflexivity].
      unfold lo. rewrite (NA eq_refl). apply fills_one, V1.
    - apply (fills_app _ _ _ (morton_key q2)); [exact F|].
      destruct include_q2; [apply fills_one, V2 | reflexivity]. }
  split; [exact Fl|].
  destruct (fills_tree _ _
              (mktree ((if include_q1 then [q1] else []) ++ added
                       ++ (if include_q2 then [q2] else []))
                      (rg_per_level st3) (int8 (rg_maxlevel st3))) Fl)
    as (Cm & Ln & _).
  unfold p4est_tree_is_complete, p4est_tree_is_linear in *.
  cbn [quadrants] in *.
  split; [exact Cm|]. split; [exact Ln|]. split.
  - intros ->. eexists. reflexivity.
  - intros ->. exists ((if include_q1 then [q1] else []) ++ added).
    rewrite <- app_assoc. reflexivity.
Qed.

(** X25: [p4est_complete_region] on two valid quadrants [q1 < q2], the first
    not an ancestor of the second, and an empty tree.  With fuel for
    [4 + 4 * (level q1 + level q2)] elements of the work list the function
    returns, and the tree holds valid quadrants that follow one another
    without a gap or an overlap in the Morton order: from [q1] itself when
    it is included, else from the end of [q1], up to and including [q2] when
    it is included, else up to the begin of [q2].  The tree passes
    [p4est_tree_is_complete], the closing assertion of the function, and
    [p4est_tree_is_linear]; its first element is [q1] and its last element
    is [q2] when they are included. *)
Theorem complete_region_complete (fuel : nat) (p4est : p4est_t)
  (q1 q2 : p4est_quadrant_t) (include_q1 include_q2 : bool)
  (tree : p4est_tree_t) :
  p4est_quadrant_is_valid q1 = true -> p4est_quadrant_is_valid q2 = true ->
  p4est_quadrant_compare q1 q2 < 0 ->
  p4est_quadrant_is_ancestor q1 q2 = false ->
  quadrants tree = [] ->
  P4EST_MAXLEVEL < Z.of_nat (length (quadrants_per_level tree)) ->
  4 + 4 * (level q1 + level q2) <= Z.of_nat fuel ->
  exists p4est' tree',
    p4est_complete_region fuel p4est q1 include_q1 q2 include_q2 tree
    = Some (p4est', tree') /\
    fills (if include_q1 then morton_key q1 else quadrant_end q1)
          (quadrants tree')
          (if include_q2 then quadrant_end q2 else morton_key q2) /\
    p4est_tree_is_complete tree' = true /\
    p4est_tree_is_linear tree' = true /\
    (include_q1 = true -> exists rest, quadrants tree' = q1 :: rest) /\
    (include_q2 = true -> exists front, quadrants tree' = front ++ [q2]).
Proof.
  intros V1 V2 C NA Em Len Fu.
  destruct (complete_region_build_tiles fuel p4est q1 q2 include_q1 include_q2
              tree V1 V2 C (fun _ => NA) Em Len Fu)
    as (p4est' & tree' & E & F & Cm & Ln & Fi & La).
  exists p4est', tree'. unfold p4est_complete_region. rewrite E, Cm.
  rewrite NA in F. split; [reflexivity|].
  split; [destruct include_q1; exact F|]. repeat split; assumption.
Qed.

Lemma complete_region_complete_witness :
  let p4est := mkp4est 0 None (mkpool 0 0) in
  let tree := mktree [] (repeat 0 30) 0 in
  let q1 := mkquad 0 0 2 (user_data NULL) in
  let q2 := mkquad (2 ^ 28) (2 ^ 28) 1 (user_data NULL) in
  exists p4est' tree',
    p4est_complete_region 16 p4est q1 true q2 true tree
    = Some (p4est', tree') /\
    p4est_tree_is_complete tree' = true.
Proof.
  intros p4est tree q1 q2.
  destruct (complete_region_complete 16 p4est q1 q2 true true tree
              eq_refl eq_refl ltac:(vm_compute; reflexivity) eq_refl eq_refl
              ltac:(unfold P4EST_MAXLEVEL; cbn; lia) ltac:(cbn; lia))
    as (p4est' & tree' & E & _ & C & _).
  exists p4est', tree'. split; assumption.
Defined.


(* ================================================================= *)
(** ** The book-keeping of the completion of a region *)

Lemma region_fill_valid (a b : p4est_quadrant_t) (d : nat) :
  p4est_quadrant_is_valid a = true -> p4est_quadrant_is_valid b = true ->
  forall w, p4est_quadrant_is_valid w = true ->
  forall e, In e (region_fill d a b w) -> p4est_quadrant_is_valid e = true.
Proof.
  intros Va Vb. induction d as [|d IH]; intros w Vw e; rewrite region_fill_eq;
    (destruct (_ && _ && _); [intros [<-|[]]; exact Vw|]);
    (destruct (p4est_quadrant_is_ancestor w a
               || p4est_quadrant_is_ancestor w b) eqn:A; [|intros []]);
    [intros []|].
  pose proof (region_expand_level a b Va Vb w Vw A) as Lt.
  destruct (children_of_facts w Vw Lt) as (c0 & c1 & c2 & c3 & E & Vc & _).
  intros I. apply in_flat_map in I. destruct I as (c & Ic & Ie).
  rewrite E in Ic. apply (IH c (proj1 (Vc c Ic)) e Ie).
Qed.

Lemma fold_max_facts (l : list p4est_quadrant_t) :
  forall m0,
  m0 <= fold_left (fun m q => SC_MAX (level q) m) l m0 /\
  (forall e, In e l ->
     level e <= fold_left (fun m q => SC_MAX (level q) m) l m0) /\
  (fold_left (fun m q => SC_MAX (level q) m) l m0 = m0 \/
   exists e, In e l /\
     level e = fold_left (fun m q => SC_MAX (level q) m) l m0).
Proof.
  induction l as [|q t IH]; intros m0; cbn [fold_left].
  - split; [lia|]. split; [intros e []|left; reflexivity].
  - destruct (IH (SC_MAX (level q) m0)) as (H1 & H2 & H3).
    assert (m0 <= SC_MAX (level q) m0 /\ level q <= SC_MAX (level q) m0 /\
            (SC_MAX (level q) m0 = m0 \/ SC_MAX (level q) m0 = level q))
      as (M1 & M2 & M3).
    { unfold SC_MAX. destruct (Z.gtb_spec (level q) m0); lia. }
    split; [lia|]. split.
    + intros e [<-|I]; [lia | apply H2, I].
    + destruct H3 as [H3|(e & I & H3)].
      * destruct M3 as [M3|M3]; [left; lia|].
        right. exists q. split; [left; reflexivity | lia].
      * right. exists e. split; [right; exact I | exact H3].
Qed.

Lemma same_xyl_preimage (l' l : list p4est_quadrant_t) :
  Forall2 same_xyl l' l ->
  forall e, In e l' -> exists f, In f l /\ same_xyl e f.
Proof.
  induction 1 as [|q' q t' t X F IH]; intros e; [intros []|].
  intros [<-|I].
  - exists q. split; [left; reflexivity | exact X].
  - destruct (IH e I) as (f & If & Xf).
    exists f. split; [right; exact If | exact Xf].
Qed.

Lemma fold_max_xyl (l' l : list p4est_quadrant_t) :
  Forall2 same_xyl l' l ->
  forall m0, fold_left (fun m q => SC_MAX (level q) m) l' m0
             = fold_left (fun m q => SC_MAX (level q) m) l m0.
Proof.
  induction 1 as [|q' q t' t X F IH]; intros m0; [reflexivity|].
  cbn [fold_left]. destruct X as (_ & _ & ->). apply IH.
Qed.

(** The book-keeping of [p4est_complete_region] up to its closing
    assertions, for valid [q1 < q2] and an empty tree. *)
Lemma complete_region_build_books (fuel : nat) (p4est : p4est_t)
  (q1 q2 : p4est_quadrant_t) (include_q1 include_q2 : bool)
  (tree : p4est_tree_t) :
  p4est_quadrant_is_valid q1 = true -> p4est_quadrant_is_valid q2 = true ->
  p4est_quadrant_compare q1 q2 < 0 ->
  quadrants tree = [] ->
  P4EST_MAXLEVEL < Z.of_nat (length (quadrants_per_level tree)) ->
  4 + 4 * (level q1 + level q2) <= Z.of_nat fuel ->
  exists p4est' tree',
    complete_region_build fuel p4est q1 include_q1 q2 include_q2 tree
    = Some (p4est', tree') /\
    mempool_elem_count (quadrant_pool p4est')
    = mempool_elem_count (quadrant_pool p4est) /\
    user_pool_count p4est'
    = user_pool_count p4est
      + (if data_in_use p4est
         then elem_count (quadrants tree')
              - (if include_q1 then 1 else 0) - (if include_q2 then 1 else 0)
         else 0) /\
    (forall k, 0 <= k ->
       per_level_get (quadrants_per_level tree') k
       = per_level_get (quadrants_per_level tree) k
         + level_count k (quadrants tree')) /\
    (forall e, In e (quadrants tree') -> level e <= maxlevel tree') /\
    (maxlevel tree' = 0 \/
     exists e, In e (quadrants tree') /\ level e = maxlevel tree').
Proof.
  intros V1 V2 C Em Len Fu.
  destruct (valid_key_facts q1 V1) as (L1 & _).
  destruct (valid_key_facts q2 V2) as (L2 & _).
  set (st0 := mkregion p4est (quadrants tree) (quadrants_per_level tree) 0 0).
  assert (region_inv st0) as I0.
  { unfold region_inv, st0. cbn [rg_num_quadrants rg_quadrants rg_per_level].
    rewrite Em. split; [reflexivity | exact Len]. }
  set (l1 := if include_q1 then [q1] else []).
  set (l3 := if include_q2 then [q2] else []).
  set (st1 := if include_q1 then region_push st0 q1 else st0).
  assert (region_inv st1 /\ rg_quadrants st1 = l1 /\
          rg_p4est st1 = p4est /\
          rg_maxlevel st1 = fold_left (fun m q => SC_MAX (level q) m) l1 0 /\
          (forall k, 0 <= k ->
             per_level_get (rg_per_level st1) k
             = per_level_get (quadrants_per_level tree) k + level_count k l1))
    as (I1 & Q1 & P1 & M1 & G1).
  { unfold st1, l1. destruct include_q1.
    - destruct (region_push_rel st0 q1 I0 L1) as (Q & I & P & M & _ & G).
      split; [exact I|]. split; [rewrite Q; unfold st0; cbn [rg_quadrants];
                                 rewrite Em; reflexivity|].
      split; [exact P|]. split; [exact M|]. exact G.
    - split; [exact I0|]. split; [exact Em|]. split; [reflexivity|].
      split; [reflexivity|]. intros k _. unfold level_count, st0.
      cbn [rg_per_level filter length Z.of_nat]. lia. }
  destruct (complete_region_run fuel q1 q2 st1 V1 V2 C I1 Fu)
    as (st2 & E & R & Vn & _).
  pose proof (region_rel_inv _ _ _ _ I1 R) as I2.
  destruct R as ((added & Q2 & X) & _ & P2 & D2 & U2 & _ & G2 & M2).
  set (fill := region_fill 30 q1 q2
                 (p4est_nearest_common_ancestor q1 q2 quadrant_zero)) in *.
  set (st3 := if include_q2 then region_push st2 q2 else st2).
  assert (rg_quadrants st3 = rg_quadrants st2 ++ l3 /\
          rg_p4est st3 = rg_p4est st2 /\
          rg_maxlevel st3
          = fold_left (fun m q => SC_MAX (level q) m) l3 (rg_maxlevel st2) /\
          (forall k, 0 <= k ->
             per_level_get (rg_per_level st3) k
             = per_level_get (rg_per_level st2) k + level_count k l3))
    as (Q3 & P3 & M3 & G3).
  { unfold st3, l3. destruct include_q2.
    - destruct (region_push_rel st2 q2 I2 L2) as (Q & _ & P & M & _ & G).
      split; [exact Q|]. split; [exact P|]. split; [exact M|]. exact G.
    - split; [symmetry; apply app_nil_r|]. split; [reflexivity|].
      split; [reflexivity|]. intros k _. unfold level_count.
      cbn [filter length Z.of_nat]. lia. }
  assert (rg_quadrants st3 = l1 ++ added ++ l3) as Q3'
    by (rewrite Q3, Q2, Q1, <- app_assoc; reflexivity).
  assert (rg_maxlevel st3
          = fold_left (fun m q => SC_MAX (level q) m) (l1 ++ added ++ l3) 0)
    as M3'.
  { rewrite !fold_left_app, M3, M2, M1, (fold_max_xyl _ _ X). reflexivity. }
  assert (forall e, In e (l1 ++ added ++ l3) ->
            0 <= level e <= P4EST_MAXLEVEL) as Lv.
  { intros e I. apply in_app_or in I. destruct I as [I|I].
    - unfold l1 in I. destruct include_q1; [|destruct I].
      destruct I as [<-|[]]. exact L1.
    - apply in_app_or in I. destruct I as [I|I].
      + destruct (same_xyl_preimage _ _ X e I) as (f & If & Xf).
        pose proof (region_fill_valid q1 q2 30 V1 V2 _ Vn f If) as Vf.
        destruct (valid_key_facts f Vf) as (Lf & _).
        destruct Xf as (_ & _ & ->). exact Lf.
      + unfold l3 in I. destruct include_q2; [|destruct I].
        destruct I as [<-|[]]. exact L2. }
  destruct (fold_max_facts (l1 ++ added ++ l3) 0) as (F1 & F2 & F3).
  rewrite <- M3' in F1, F2, F3.
  assert (0 <= rg_maxlevel st3 <= P4EST_MAXLEVEL) as Rm.
  { destruct F3 as [F3|(e & Ie & F3)]; [unfold P4EST_MAXLEVEL; lia|].
    rewrite <- F3. apply Lv, Ie. }
  unfold complete_region_build. fold st0. fold st1.
  destruct (Z.ltb_spec (p4est_quadrant_compare q1 q2) 0); [|lia].
  rewrite E. fold st3.
  do 2 eexists. split; [reflexivity|].
  cbn [quadrants quadrants_per_level maxlevel].
  rewrite (int8_small (rg_maxlevel st3)) by (unfold P4EST_MAXLEVEL in Rm; lia).
  rewrite Q3', P3.
  split; [rewrite P2, P1; cbn; lia|].
  split.
  { rewrite U2, P1. unfold elem_count. rewrite !length_app.
    rewrite (Forall2_length X).
    unfold l1, l3. destruct (data_in_use p4est), include_q1, include_q2;
      cbn [length]; lia. }
  split.
  { intros k Hk. rewrite G3, G2, G1 by assumption.
    rewrite !level_count_app, (level_count_xyl k _ _ X). lia. }
  split; [exact F2|]. exact F3.
Qed.


(** X26: the book-keeping of [p4est_complete_region] on valid quadrants
    [q1 < q2], the first not an ancestor of the second, and an empty tree,
    for a forest that has a user data pool exactly when its [data_size] is
    positive.  With fuel for [4 + 4 * (level q1 + level q2)] elements of the
    work list the function returns (the tree passes the closing assertion
    [p4est_tree_is_complete]); the quadrant pool has as many blocks as
    before; the user data pool, when there is one, has one more block for
    every quadrant of the tree other than [q1] and [q2] (the closing
    assertions on the two pools); every level counter has grown by the
    number of quadrants of its level; and [maxlevel] bounds the levels in
    the tree and is attained (or is 0). *)
Theorem complete_region_accounting (fuel : nat) (p4est : p4est_t)
  (q1 q2 : p4est_quadrant_t) (include_q1 include_q2 : bool)
  (tree : p4est_tree_t) :
  p4est_quadrant_is_valid q1 = true -> p4est_quadrant_is_valid q2 = true ->
  p4est_quadrant_compare q1 q2 < 0 ->
  p4est_quadrant_is_ancestor q1 q2 = false ->
  (data_size p4est >? 0)
  = match user_data_pool p4est with Some _ => true | None => false end ->
  quadrants tree = [] ->
  P4EST_MAXLEVEL < Z.of_nat (length (quadrants_per_level tree)) ->
  4 + 4 * (level q1 + level q2) <= Z.of_nat fuel ->
  exists p4est' tree',
    p4est_complete_region fuel p4est q1 include_q1 q2 include_q2 tree
    = Some (p4est', tree') /\
    mempool_elem_count (quadrant_pool p4est')
    = mempool_elem_count (quadrant_pool p4est) /\
    user_pool_count p4est'
    = user_pool_count p4est
      + (if data_in_use p4est
         then elem_count (quadrants tree')
              - (if include_q1 then 1 else 0) - (if include_q2 then 1 else 0)
         else 0) /\
    (forall k, 0 <= k ->
       per_level_get (quadrants_per_level tree') k
       = per_level_get (quadrants_per_level tree) k
         + level_count k (quadrants tree')) /\
    (forall e, In e (quadrants tree') -> level e <= maxlevel tree') /\
    (maxlevel tree' = 0 \/
     exists e, In e (quadrants tree') /\ level e = maxlevel tree').
Proof.
  intros V1 V2 C NA _ Em Len Fu.
  destruct (complete_region_build_books fuel p4est q1 q2 include_q1 include_q2
              tree V1 V2 C Em Len Fu) as (p4est' & tree' & E & B).
  destruct (complete_region_build_tiles fuel p4est q1 q2 include_q1 include_q2
              tree V1 V2 C (fun _ => NA) Em Len Fu)
    as (p4est2 & tree2 & E2 & _ & Cm & _).
  rewrite E in E2. injection E2 as <- <-.
  exists p4est', tree'. unfold p4est_complete_region. rewrite E, Cm.
  split; [reflexivity | exact B].
Qed.

Lemma complete_region_accounting_witness :
  let p4est := mkp4est 8 (Some (mkpool 0 0)) (mkpool 0 0) in
  let tree := mktree [] (repeat 0 30) 0 in
  let q1 := mkquad 0 0 2 (user_data NULL) in
  let q2 := mkquad (2 ^ 28) (2 ^ 28) 1 (user_data NULL) in
  exists p4est' tree',
    p4est_complete_region 16 p4est q1 true q2 true tree
    = Some (p4est', tree') /\
    mempool_elem_count (quadrant_pool p4est') = 0.
Proof.
  intros p4est tree q1 q2.
  destruct (complete_region_accounting 16 p4est q1 q2 true true tree
              eq_refl eq_refl ltac:(vm_compute; reflexivity) eq_refl eq_refl
              eq_refl ltac:(unfold P4EST_MAXLEVEL; cbn; lia) ltac:(cbn; lia))
    as (p4est' & tree' & E & P & _).
  exists p4est', tree'. split; assumption.
Defined.


(* ================================================================= *)
(** ** The nearest common ancestor is the nearest one *)

(** X27: [p4est_nearest_common_ancestor] returns the nearest common
    ancestor.  For valid quadrants [q1] and [q2] the result is valid and
    equals or is an ancestor of both; every valid quadrant [c] that equals or
    is an ancestor of both equals or is an ancestor of the result, so no
    common ancestor is finer; the payload of the output quadrant is left as
    it was. *)
Theorem nearest_common_ancestor_nearest (q1 q2 r0 c : p4est_quadrant_t) :
  p4est_quadrant_is_valid q1 = true -> p4est_quadrant_is_valid q2 = true ->
  p4est_quadrant_is_valid c = true ->
  p4est_quadrant_is_equal c q1 || p4est_quadrant_is_ancestor c q1 = true ->
  p4est_quadrant_is_equal c q2 || p4est_quadrant_is_ancestor c q2 = true ->
  p4est_quadrant_is_valid (p4est_nearest_common_ancestor q1 q2 r0) = true /\
  p4est_quadrant_is_equal (p4est_nearest_common_ancestor q1 q2 r0) q1
    || p4est_quadrant_is_ancestor (p4est_nearest_common_ancestor q1 q2 r0) q1
    = true /\
  p4est_quadrant_is_equal (p4est_nearest_common_ancestor q1 q2 r0) q2
    || p4est_quadrant_is_ancestor (p4est_nearest_common_ancestor q1 q2 r0) q2
    = true /\
  p4est_quadrant_is_equal c (p4est_nearest_common_ancestor q1 q2 r0)
    || p4est_quadrant_is_ancestor c (p4est_nearest_common_ancestor q1 q2 r0)
    = true /\
  level c <= level (p4est_nearest_common_ancestor q1 q2 r0) /\
  p (p4est_nearest_common_ancestor q1 q2 r0) = p r0.
Proof.
  intros V1 V2 Vc C1 C2.
  destruct (nca_valid_facts q1 q2 r0 V1 V2) as (Vr & R1 & R2).
  split; [exact Vr|]. split; [exact R1|]. split; [exact R2|].
  destruct (valid_key_facts c Vc) as (Lc & Pc & _).
  destruct (covers_shift c q1 C1) as (L1 & S1x & S1y).
  destruct (covers_shift c q2 C2) as (L2 & S2x & S2y).
  assert (level c <= level (p4est_nearest_common_ancestor q1 q2 r0)) as Lr.
  { apply (nca_level q1 q2 r0 V1 V2 (level c) Lc L1 L2).
    rewrite (Z.lxor_comm (x c)) in S1x. rewrite (Z.lxor_comm (y c)) in S1y.
    assert (0 <= P4EST_MAXLEVEL - level c <= P4EST_MAXLEVEL - level c) as Hn
      by lia.
    pose proof (shiftr_lxor_chain _ _ _ _ _ Hn S1x S2x) as Sx.
    pose proof (shiftr_lxor_chain _ _ _ _ _ Hn S1y S2y) as Sy.
    apply clear_low_eq_iff in Sx; [|lia]. apply clear_low_eq_iff in Sy; [|lia].
    unfold p4est_quadrant_is_equal, ancestor_at, set_xyl. cbn [x y level].
    rewrite Sx, Sy, !Z.eqb_refl. reflexivity. }
  split; [|split; [exact Lr|]].
  2:{ unfold p4est_nearest_common_ancestor, set_xyl. reflexivity. }
  set (r := p4est_nearest_common_ancestor q1 q2 r0) in *.
  destruct (covers_interval c q1 Vc V1 C1) as (_ & Kc & Ec).
  destruct (covers_interval r q1 Vr V1 R1) as (_ & Kr & Er).
  destruct (valid_key_facts q1 V1) as (_ & P1 & _).
  destruct (valid_key_facts r Vr) as (_ & Pr & _).
  pose proof (quadrant_end_eq q1) as Q1. pose proof (quadrant_end_eq r) as Qr.
  pose proof (quadrant_end_eq c) as Qc.
  assert (morton_key c <= morton_key r /\ quadrant_end r <= quadrant_end c)
    as [N1 N2].
  { destruct (nested_or_disjoint c r Vc Vr Lr) as [N|[N|N]]; [exact N|lia|lia]. }
  destruct (Z.eq_dec (level c) (level r)) as [El|Nl].
  - assert (morton_key c = morton_key r) as Ek.
    { rewrite Qc, Qr, El in N2. lia. }
    destruct (valid_int32 c Vc) as [Xc Yc]. destruct (valid_int32 r Vr) as [Xr Yr].
    destruct (morton_key_inj c r Xc Yc Xr Yr Ek) as [Ex Ey].
    unfold p4est_quadrant_is_equal. rewrite Ex, Ey, El, !Z.eqb_refl.
    reflexivity.
  - apply orb_true_iff. right. apply (ancestor_interval c r Vc Vr).
    split; [lia|]. lia.
Qed.

Lemma nearest_common_ancestor_nearest_witness :
  let q1 := mkquad 0 0 2 (user_data NULL) in
  let q2 := mkquad (2 ^ 27) (2 ^ 27) 2 (user_data NULL) in
  let c := mkquad 0 0 0 (user_data NULL) in
  p4est_quadrant_is_equal c (p4est_nearest_common_ancestor q1 q2 q1)
    || p4est_quadrant_is_ancestor c (p4est_nearest_common_ancestor q1 q2 q1)
  = true.
Proof.
  intros q1 q2 c.
  exact (proj1 (proj2 (proj2 (proj2
    (nearest_common_ancestor_nearest q1 q2 q1 c eq_refl eq_refl eq_refl
       eq_refl eq_refl))))).
Defined.


(* ================================================================= *)
(** ** What the validity check of a forest establishes *)

Lemma is_valid_level_loop_S (n : nat) (i : Z) (pl : list Z) (maxl num : Z) :
  is_valid_level_loop (S n) i pl maxl num
  = is_valid_level_loop n (i + 1) pl
      (if per_level_get pl i >? 0 then i else maxl)
      (int32 (num + per_level_get pl i)).
Proof. reflexivity. Qed.

Lemma is_valid_tree_loop_cons (p4est : p4est_forest_t) (tree : p4est_tree_t)
  (rest : list p4est_tree_t) (js lquadrants : Z) :
  is_valid_tree_loop p4est (tree :: rest) js lquadrants
  = if negb (p4est_tree_is_complete tree) then None
    else if ((js <? uint64 (first_local_tree p4est))
             || (js >? uint64 (last_local_tree p4est)))
            && (elem_count (quadrants tree) >? 0) then None
    else if negb (fst (is_valid_level_loop (Z.to_nat (P4EST_MAXLEVEL + 1)) 0
                         (quadrants_per_level tree) 0 0) =? maxlevel tree)
    then None
    else if negb (uint64 (snd (is_valid_level_loop
                                 (Z.to_nat (P4EST_MAXLEVEL + 1)) 0
                                 (quadrants_per_level tree) 0 0))
                  =? elem_count (quadrants tree)) then None
    else is_valid_tree_loop p4est rest (js + 1)
           (int32 (lquadrants
                   + snd (is_valid_level_loop (Z.to_nat (P4EST_MAXLEVEL + 1)) 0
                            (quadrants_per_level tree) 0 0))).
Proof. reflexivity. Qed.

Lemma trees_counted_cons (t : p4est_tree_t) (ts : list p4est_tree_t) :
  trees_counted (t :: ts)
  = per_level_sum (quadrants_per_level t) + trees_counted ts.
Proof. reflexivity. Qed.

Lemma trees_num_quadrants_cons (t : p4est_tree_t) (ts : list p4est_tree_t) :
  trees_num_quadrants (t :: ts)
  = elem_count (quadrants t) + trees_num_quadrants ts.
Proof. reflexivity. Qed.

Lemma counters_sum_nonneg (pl : list Z) (n : nat) :
  forall a,
  (forall l, (a <= l < a + n)%nat -> 0 <= per_level_get pl (Z.of_nat l)) ->
  0 <= fold_right Z.add 0
         (map (fun l => per_level_get pl (Z.of_nat l)) (seq a n)).
Proof.
  induction n as [|n IH]; intros a H; cbn [seq map fold_right]; [lia|].
  pose proof (H a ltac:(lia)).
  pose proof (IH (S a) ltac:(intros l Hl; apply H; lia)). lia.
Qed.

Lemma is_valid_level_loop_spec (pl : list Z) (n : nat) :
  forall (a : nat) (maxl num : Z),
  (forall l, (a <= l < a + n)%nat -> 0 <= per_level_get pl (Z.of_nat l)) ->
  0 <= num ->
  num + fold_right Z.add 0
          (map (fun l => per_level_get pl (Z.of_nat l)) (seq a n)) < 2 ^ 31 ->
  snd (is_valid_level_loop n (Z.of_nat a) pl maxl num)
  = num + fold_right Z.add 0
            (map (fun l => per_level_get pl (Z.of_nat l)) (seq a n)) /\
  (forall l, (a <= l < a + n)%nat -> per_level_get pl (Z.of_nat l) > 0 ->
     Z.of_nat l <= fst (is_valid_level_loop n (Z.of_nat a) pl maxl num)) /\
  ((fst (is_valid_level_loop n (Z.of_nat a) pl maxl num) = maxl /\
    forall l, (a <= l < a + n)%nat -> per_level_get pl (Z.of_nat l) <= 0) \/
   (Z.of_nat a <= fst (is_valid_level_loop n (Z.of_nat a) pl maxl num)
      < Z.of_nat a + Z.of_nat n /\
    per_level_get pl (fst (is_valid_level_loop n (Z.of_nat a) pl maxl num))
    > 0)).
Proof.
  induction n as [|n IH]; intros a maxl num Nn Hn Hs.
  - cbn [is_valid_level_loop seq map fold_right fst snd].
    split; [lia|]. split; [intros l Hl; lia|]. left.
    split; [reflexivity | intros l Hl; lia].
  - rewrite !is_valid_level_loop_S. cbn [seq map fold_right] in Hs |- *.
    pose proof (Nn a ltac:(lia)) as Na.
    pose proof (counters_sum_nonneg pl n (S a)
                  ltac:(intros l Hl; apply Nn; lia)) as Nr.
    rewrite int32_small by lia.
    replace (Z.of_nat a + 1) with (Z.of_nat (S a)) by lia.
    set (g := per_level_get pl (Z.of_nat a)) in *.
    destruct (IH (S a) (if g >? 0 then Z.of_nat a else maxl) (num + g)
                ltac:(intros l Hl; apply Nn; lia) ltac:(lia) ltac:(lia))
      as (I1 & I2 & I3).
    set (r := is_valid_level_loop n (Z.of_nat (S a)) pl
                (if g >? 0 then Z.of_nat a else maxl) (num + g)) in *.
    split; [lia|]. split.
    + intros l Hl Gl. destruct (Nat.eq_dec l a) as [->|Ne].
      * fold g in Gl. destruct (Z.gtb_spec g 0); [|lia].
        destruct I3 as [[I3 _]|[I3 _]]; lia.
      * apply I2; [lia | exact Gl].
    + destruct I3 as [[I3 I4]|[I3 I4]].
      * destruct (Z.gtb_spec g 0).
        -- right. rewrite I3. fold g. split; lia.
        -- left. split; [exact I3|].
           intros l Hl. destruct (Nat.eq_dec l a) as [->|Ne]; [fold g; lia|].
           apply I4. lia.
      * right. split; [lia | exact I4].
Qed.

Lemma per_level_nonneg_spec (pl : list Z) :
  per_level_nonneg pl = true ->
  forall l, (0 <= l < 0 + Z.to_nat (P4EST_MAXLEVEL + 1))%nat ->
  0 <= per_level_get pl (Z.of_nat l).
Proof.
  unfold per_level_nonneg. rewrite forallb_forall. intros H l Hl.
  apply Z.leb_le. apply H. apply in_seq. exact Hl.
Qed.

Lemma per_level_sum_nonneg (pl : list Z) :
  per_level_nonneg pl = true -> 0 <= per_level_sum pl.
Proof.
  intros H. apply counters_sum_nonneg. apply per_level_nonneg_spec, H.
Qed.

Lemma is_valid_level_loop_tree (pl : list Z) :
  per_level_nonneg pl = true -> per_level_sum pl < 2 ^ 31 ->
  snd (is_valid_level_loop (Z.to_nat (P4EST_MAXLEVEL + 1)) 0 pl 0 0)
  = per_level_sum pl /\
  highest_populated pl
    (fst (is_valid_level_loop (Z.to_nat (P4EST_MAXLEVEL + 1)) 0 pl 0 0)).
Proof.
  intros N S.
  destruct (is_valid_level_loop_spec pl (Z.to_nat (P4EST_MAXLEVEL + 1)) 0 0 0
              (per_level_nonneg_spec pl N) ltac:(lia) S) as (I1 & I2 & I3).
  change (Z.of_nat 0) with 0 in *.
  set (r := is_valid_level_loop (Z.to_nat (P4EST_MAXLEVEL + 1)) 0 pl 0 0) in *.
  split; [exact I1|]. unfold highest_populated.
  assert (Z.of_nat (Z.to_nat (P4EST_MAXLEVEL + 1)) = P4EST_MAXLEVEL + 1) as E
    by reflexivity.
  split.
  - intros i Hi G. specialize (I2 (Z.to_nat i)).
    rewrite Z2Nat.id in I2 by lia. apply I2; [|exact G].
    unfold P4EST_MAXLEVEL in *. lia.
  - destruct I3 as [[I3 I4]|[I3 I4]].
    + left. split; [exact I3|]. intros i Hi. specialize (I4 (Z.to_nat i)).
      rewrite Z2Nat.id in I4 by lia. apply I4.
      unfold P4EST_MAXLEVEL in *. lia.
    + right. split; [|exact I4]. unfold P4EST_MAXLEVEL in *. lia.
Qed.

Lemma trees_counted_nonneg (ts : list p4est_tree_t) :
  forallb (fun t => per_level_nonneg (quadrants_per_level t)) ts = true ->
  0 <= trees_counted ts.
Proof.
  induction ts as [|u ts IH]; intros N; [unfold trees_counted; cbn; lia|].
  rewrite trees_counted_cons. cbn [forallb] in N.
  apply andb_true_iff in N. destruct N as [Nu N].
  pose proof (per_level_sum_nonneg _ Nu). specialize (IH N). lia.
Qed.

Lemma is_valid_tree_loop_spec (p4est : p4est_forest_t)
  (ts : list p4est_tree_t) :
  forall js lq lq',
  is_valid_tree_loop p4est ts js lq = Some lq' ->
  forallb (fun t => per_level_nonneg (quadrants_per_level t)) ts = true ->
  0 <= lq -> lq + trees_counted ts < 2 ^ 31 ->
  lq' = lq + trees_num_quadrants ts /\
  Forall (fun t => p4est_tree_is_complete t = true /\
                   elem_count (quadrants t)
                   = per_level_sum (quadrants_per_level t) /\
                   highest_populated (quadrants_per_level t) (maxlevel t)) ts /\
  (forall k t, nth_error ts k = Some t ->
     js + Z.of_nat k < uint64 (first_local_tree p4est) \/
     uint64 (last_local_tree p4est) < js + Z.of_nat k ->
     quadrants t = []).
Proof.
  induction ts as [|t ts IH]; intros js lq lq' E N Hq Hs.
  - cbn [is_valid_tree_loop] in E. injection E as <-.
    split; [unfold trees_num_quadrants; cbn; lia|]. split; [constructor|].
    intros [|k] u Hu; discriminate.
  - rewrite is_valid_tree_loop_cons in E.
    rewrite trees_counted_cons in Hs. rewrite trees_num_quadrants_cons.
    cbn [forallb] in N. apply andb_true_iff in N. destruct N as [Nt N].
    pose proof (trees_counted_nonneg ts N) as Nr.
    pose proof (per_level_sum_nonneg _ Nt) as Np.
    destruct (is_valid_level_loop_tree (quadrants_per_level t) Nt ltac:(lia))
      as (S1 & S2).
    rewrite S1 in E.
    destruct (p4est_tree_is_complete t) eqn:C; cbn [negb] in E;
      [|discriminate].
    destruct (((js <? uint64 (first_local_tree p4est))
               || (js >? uint64 (last_local_tree p4est)))
              && (elem_count (quadrants t) >? 0)) eqn:O; [discriminate|].
    destruct (Z.eqb_spec
                (fst (is_valid_level_loop (Z.to_nat (P4EST_MAXLEVEL + 1)) 0
                        (quadrants_per_level t) 0 0)) (maxlevel t))
      as [M|M]; cbn [negb] in E; [|discriminate].
    rewrite M in S2.
    assert (uint64 (per_level_sum (quadrants_per_level t))
            = per_level_sum (quadrants_per_level t)) as U.
    { apply uint64_small. assert (2 ^ 31 < 2 ^ 64) by reflexivity. lia. }
    rewrite U in E.
    destruct (Z.eqb_spec (per_level_sum (quadrants_per_level t))
                         (elem_count (quadrants t)))
      as [Q|Q]; cbn [negb] in E; [|discriminate].
    assert (int32 (lq + per_level_sum (quadrants_per_level t))
            = lq + per_level_sum (quadrants_per_level t)) as I.
    { apply int32_small. lia. }
    rewrite I in E.
    destruct (IH _ _ _ E N ltac:(lia) ltac:(lia)) as (I1 & I2 & I3).
    split; [lia|]. split.
    + constructor; [|exact I2].
      split; [exact C|]. split; [symmetry; exact Q | exact S2].
    + intros [|k] u Hu Hk.
      * cbn [nth_error] in Hu. injection Hu as <-.
        apply andb_false_iff in O. destruct O as [O|O].
        -- apply orb_false_iff in O. destruct O as [O1 O2].
           apply Z.ltb_ge in O1.
           destruct (Z.gtb_spec js (uint64 (last_local_tree p4est)));
             [discriminate|]. lia.
        -- destruct (Z.gtb_spec (elem_count (quadrants t)) 0); [discriminate|].
           unfold elem_count in *. destruct (quadrants t); [reflexivity|].
           cbn [length] in *. lia.
      * cbn [nth_error] in Hu. apply (I3 k u Hu). lia.
Qed.

Lemma is_valid_asserts_nonneg (p4est : p4est_forest_t) :
  is_valid_asserts p4est = true ->
  forallb (fun t => per_level_nonneg (quadrants_per_level t)) (trees p4est)
  = true.
Proof.
  unfold is_valid_asserts. intros H.
  apply andb_true_iff in H. destruct H as [_ H]. exact H.
Qed.

(** The checks of [p4est_is_valid] before the loop over the trees. *)
Lemma is_valid_split_checks (p4est : p4est_forest_t) :
  p4est_is_valid p4est = true ->
  (if first_local_tree p4est <? 0
   then (first_local_tree p4est =? -1) && (last_local_tree p4est =? -2)
   else
     (pos_which_tree
        (position_index (global_first_position p4est) (mpirank p4est))
      =? first_local_tree p4est) &&
     (if elem_count (quadrants (tree_index (trees p4est)
                                           (first_local_tree p4est))) >? 0
      then
        (x (sc_array_index
              (quadrants (tree_index (trees p4est) (first_local_tree p4est)))
              0)
         =? pos_x (position_index (global_first_position p4est)
                                  (mpirank p4est))) &&
        (y (sc_array_index
              (quadrants (tree_index (trees p4est) (first_local_tree p4est)))
              0)
         =? pos_y (position_index (global_first_position p4est)
                                  (mpirank p4est)))
      else true)) = true /\
  (if last_local_tree p4est <? 0
   then (first_local_tree p4est =? -1) && (last_local_tree p4est =? -2)
   else
     (pos_which_tree
        (position_index (global_first_position p4est) (mpirank p4est + 1))
      =? last_local_tree p4est) ||
     (pos_which_tree
        (position_index (global_first_position p4est) (mpirank p4est + 1))
      =? last_local_tree p4est + 1)) = true /\
  exists lq, is_valid_tree_loop p4est (trees p4est) 0 0 = Some lq /\
             lq = local_num_quadrants p4est.
Proof.
  unfold p4est_is_valid. cbv zeta.
  destruct (first_local_tree p4est <? 0).
  - destruct ((first_local_tree p4est =? -1) && (last_local_tree p4est =? -2));
      cbn [negb]; [|discriminate].
    destruct (last_local_tree p4est <? 0); cbn [negb].
    + destruct (is_valid_tree_loop p4est (trees p4est) 0 0) as [lq|];
        [|discriminate].
      intros H. apply Z.eqb_eq in H. repeat split. exists lq. auto.
    + destruct (pos_which_tree _ =? last_local_tree p4est);
        destruct (pos_which_tree _ =? last_local_tree p4est + 1);
        cbn [negb andb orb]; try discriminate;
        match goal with
        | |- (if negb ?c then false else _) = true -> _ =>
          destruct c; cbn [negb]; [|discriminate]
        end;
        (destruct (is_valid_tree_loop p4est (trees p4est) 0 0) as [lq|];
         [|discriminate]);
        intros H; apply Z.eqb_eq in H; repeat split; exists lq; auto.
  - destruct (pos_which_tree _ =? first_local_tree p4est); cbn [negb andb];
      [|discriminate].
    unfold set_xyl. cbn [x y].
    destruct (elem_count _ >? 0).
    + destruct (x _ =? pos_x _); destruct (y _ =? pos_y _);
        cbn [negb andb orb]; try discriminate.
      destruct (last_local_tree p4est <? 0).
      * destruct ((first_local_tree p4est =? -1)
                  && (last_local_tree p4est =? -2));
          cbn [negb]; [|discriminate].
        destruct (is_valid_tree_loop p4est (trees p4est) 0 0) as [lq|];
          [|discriminate].
        intros H. apply Z.eqb_eq in H. repeat split. exists lq. auto.
      * destruct (pos_which_tree _ =? last_local_tree p4est);
          destruct (pos_which_tree _ =? last_local_tree p4est + 1);
          cbn [negb andb orb]; try discriminate;
          match goal with
          | |- (if negb ?c then false else _) = true -> _ =>
            destruct c; cbn [negb]; [|discriminate]
          end;
          (destruct (is_valid_tree_loop p4est (trees p4est) 0 0) as [lq|];
           [|discriminate]);
          intros H; apply Z.eqb_eq in H; repeat split; exists lq; auto.
    + cbn [negb].
      destruct (last_local_tree p4est <? 0).
      * destruct ((first_local_tree p4est =? -1)
                  && (last_local_tree p4est =? -2));
          cbn [negb]; [|discriminate].
        destruct (is_valid_tree_loop p4est (trees p4est) 0 0) as [lq|];
          [|discriminate].
        intros H. apply Z.eqb_eq in H. repeat split. exists lq. auto.
      * destruct (pos_which_tree _ =? last_local_tree p4est);
          destruct (pos_which_tree _ =? last_local_tree p4est + 1);
          cbn [negb andb orb]; try discriminate;
          match goal with
          | |- (if negb ?c then false else _) = true -> _ =>
            destruct c; cbn [negb]; [|discriminate]
          end;
          (destruct (is_valid_tree_loop p4est (trees p4est) 0 0) as [lq|];
           [|discriminate]);
          intros H; apply Z.eqb_eq in H; repeat split; exists lq; auto.
Qed.

(** X28: what a forest has when [p4est_is_valid] accepts it, the assertions
    of the function taken to hold and the total of the level counters below
    [2^31], so that the 32-bit sums do not wrap.  Every tree passes
    [p4est_tree_is_complete], has as many quadrants as its counters add up
    to, and [maxlevel] is its highest populated level;
    [local_num_quadrants] is the total number of quadrants; the trees
    outside of the local range are empty; an empty local range is marked by
    the tree numbers -1 and -2; otherwise the partition markers name the
    first local tree and the coordinates of its first quadrant, and the
    last local tree or its successor. *)
Theorem is_valid_sound (p4est : p4est_forest_t) :
  is_valid_asserts p4est = true ->
  trees_counted (trees p4est) < 2 ^ 31 ->
  p4est_is_valid p4est = true ->
  Forall (fun t => p4est_tree_is_complete t = true /\
                   elem_count (quadrants t)
                   = per_level_sum (quadrants_per_level t) /\
                   highest_populated (quadrants_per_level t) (maxlevel t))
         (trees p4est) /\
  local_num_quadrants p4est = trees_num_quadrants (trees p4est) /\
  (forall k t, nth_error (trees p4est) k = Some t ->
     Z.of_nat k < uint64 (first_local_tree p4est) \/
     uint64 (last_local_tree p4est) < Z.of_nat k ->
     quadrants t = []) /\
  (first_local_tree p4est < 0 \/ last_local_tree p4est < 0 ->
   first_local_tree p4est = -1 /\ last_local_tree p4est = -2) /\
  (0 <= first_local_tree p4est ->
   pos_which_tree
     (position_index (global_first_position p4est) (mpirank p4est))
   = first_local_tree p4est /\
   forall q rest,
     quadrants (tree_index (trees p4est) (first_local_tree p4est))
     = q :: rest ->
     x q = pos_x (position_index (global_first_position p4est)
                                 (mpirank p4est)) /\
     y q = pos_y (position_index (global_first_position p4est)
                                 (mpirank p4est))) /\
  (0 <= last_local_tree p4est ->
   pos_which_tree
     (position_index (global_first_position p4est) (mpirank p4est + 1))
   = last_local_tree p4est \/
   pos_which_tree
     (position_index (global_first_position p4est) (mpirank p4est + 1))
   = last_local_tree p4est + 1).
Proof.
  intros A Sm V.
  pose proof (is_valid_asserts_nonneg p4est A) as N.
  destruct (is_valid_split_checks p4est V) as (F & L & lq & T & Eq).
  destruct (is_valid_tree_loop_spec p4est (trees p4est) 0 0 lq T N
              ltac:(lia) ltac:(lia)) as (I1 & I2 & I3).
  split; [exact I2|]. split; [lia|]. split; [exact I3|]. split; [|split].
  - intros [H|H].
    + destruct (Z.ltb_spec (first_local_tree p4est) 0); [|lia].
      apply andb_true_iff in F. destruct F as [F1 F2].
      apply Z.eqb_eq in F1, F2. split; assumption.
    + destruct (Z.ltb_spec (last_local_tree p4est) 0); [|lia].
      apply andb_true_iff in L. destruct L as [L1 L2].
      apply Z.eqb_eq in L1, L2. split; assumption.
  - intros H. destruct (Z.ltb_spec (first_local_tree p4est) 0); [lia|].
    apply andb_true_iff in F. destruct F as [W F]. apply Z.eqb_eq in W.
    split; [exact W|]. intros q rest Q. rewrite Q in F.
    unfold elem_count, sc_array_index in F.
    cbn [length nth Z.to_nat] in F.
    destruct (Z.gtb_spec (Z.of_nat (S (length rest))) 0); [|lia].
    apply andb_true_iff in F. destruct F as [Fx Fy].
    apply Z.eqb_eq in Fx, Fy. split; assumption.
  - intros H. destruct (Z.ltb_spec (last_local_tree p4est) 0); [lia|].
    apply orb_true_iff in L. destruct L as [L|L]; apply Z.eqb_eq in L;
      [left|right]; exact L.
Qed.

Lemma is_valid_sound_witness :
  let tree := mktree [mkquad 0 0 0 (user_data NULL)] (1 :: repeat 0 29) 0 in
  let p4est := mkforest 1 0 0 0 1 [mkposition 0 0 0; mkposition 1 0 0] 1
                        [tree] in
  local_num_quadrants p4est = trees_num_quadrants (trees p4est).
Proof.
  intros tree p4est.
  exact (proj1 (proj2 (is_valid_sound p4est eq_refl eq_refl eq_refl))).
Defined.


(* ================================================================= *)
(** ** C3: completion of a region *)

(** More fuel does not change the result of a loop that has finished. *)
Lemma region_loop_mono (fuel : nat) (a b : p4est_quadrant_t) :
  forall W st st', region_loop fuel a b W st = Some st' ->
  forall k, region_loop (fuel + k) a b W st = Some st'.
Proof.
  induction fuel as [|fuel IH]; intros W st st' E k.
  - destruct W as [|w W]; [|discriminate].
    cbn [region_loop] in E. destruct (0 + k)%nat; exact E.
  - destruct W as [|w W]; [exact E|].
    cbn [region_loop Nat.add] in E |- *.
    destruct ((p4est_quadrant_compare a w <? 0)
              && (p4est_quadrant_compare w b <? 0)
              && negb (p4est_quadrant_is_ancestor w b)).
    + apply IH, E.
    + destruct (p4est_quadrant_is_ancestor w a
                || p4est_quadrant_is_ancestor w b); apply IH, E.
Qed.

Lemma complete_region_build_mono (fuel k : nat) (p4est : p4est_t)
  (q1 q2 : p4est_quadrant_t) (include_q1 include_q2 : bool)
  (tree : p4est_tree_t) (r : p4est_t * p4est_tree_t) :
  complete_region_build fuel p4est q1 include_q1 q2 include_q2 tree = Some r ->
  complete_region_build (fuel + k) p4est q1 include_q1 q2 include_q2 tree
  = Some r.
Proof.
  unfold complete_region_build.
  destruct (p4est_quadrant_compare q1 q2 <? 0); [|intros E; exact E].
  destruct (region_loop fuel q1 q2 _ _) as [st|] eqn:L; [|discriminate].
  intros E. rewrite (region_loop_mono _ _ _ _ _ _ L k). exact E.
Qed.

(** C3, as stated, fails when [a] is an ancestor of [b] and is included.
    For the root and the second quadrant of level 2, the tree built is the
    root, its first child and [b]; the second element lies inside the first,
    the tree is neither complete nor linear, and whatever the fuel the
    function does not pass its closing assertion. *)
Lemma complete_region_counterexample :
  let p4est := mkp4est 0 None (mkpool 0 0) in
  let tree := mktree [] (repeat 0 30) 0 in
  let a := mkquad 0 0 0 (user_data NULL) in
  let b := mkquad (2 ^ 28) 0 2 (user_data NULL) in
  p4est_quadrant_is_valid a = true /\ p4est_quadrant_is_valid b = true /\
  p4est_quadrant_compare a b < 0 /\
  (exists p4est' tree',
     complete_region_build 12 p4est a true b true tree
     = Some (p4est', tree') /\
     quadrants tree' = [a; mkquad 0 0 1 (user_data NULL); b] /\
     p4est_tree_is_complete tree' = false /\
     p4est_tree_is_linear tree' = false) /\
  (forall fuel, p4est_complete_region fuel p4est a true b true tree = None).
Proof.
  intros p4est tree a b.
  assert (complete_region_build 12 p4est a true b true tree
          = Some (mkp4est 0 None (mkpool 0 8),
                  mktree [a; mkquad 0 0 1 (user_data NULL); b]
                         ([1; 1; 1] ++ repeat 0 27) 2)) as E
    by (vm_compute; reflexivity).
  split; [reflexivity|]. split; [reflexivity|].
  split; [vm_compute; reflexivity|]. split.
  - do 2 eexists. split; [exact E|].
    split; [reflexivity|]. split; vm_compute; reflexivity.
  - intros fuel. unfold p4est_complete_region.
    destruct (complete_region_build fuel p4est a true b true tree)
      as [[p4est' tree']|] eqn:F; [|reflexivity].
    apply (complete_region_build_mono fuel 12) in F.
    apply (complete_region_build_mono 12 fuel) in E.
    rewrite Nat.add_comm, F in E. injection E as -> ->.
    vm_compute. reflexivity.
Qed.

Lemma fills_le (l : list p4est_quadrant_t) :
  forall lo hi, fills lo l hi -> lo <= hi.
Proof.
  induction l as [|q t IH]; intros lo hi F; cbn [fills] in F; [lia|].
  destruct F as (V & K & F). specialize (IH _ _ F).
  destruct (valid_key_facts q V) as (_ & P & _).
  rewrite quadrant_end_eq in IH. lia.
Qed.

Lemma fills_same (l : list p4est_quadrant_t) (lo : Z) :
  fills lo l lo -> l = [].
Proof.
  destruct l as [|q t]; [reflexivity|]. cbn [fills].
  intros (V & K & F). apply fills_le in F.
  destruct (valid_key_facts q V) as (_ & P & _).
  rewrite quadrant_end_eq in F. lia.
Qed.

(** The array that [p4est_complete_region] has built when it reaches its
    closing assertions: [q1] if included, the quadrants added by the loop,
    [q2] if included. *)
Lemma complete_region_build_list (fuel : nat) (p4est : p4est_t)
  (q1 q2 : p4est_quadrant_t) (include_q1 include_q2 : bool)
  (tree : p4est_tree_t) :
  p4est_quadrant_is_valid q1 = true -> p4est_quadrant_is_valid q2 = true ->
  p4est_quadrant_compare q1 q2 < 0 ->
  quadrants tree = [] ->
  P4EST_MAXLEVEL < Z.of_nat (length (quadrants_per_level tree)) ->
  4 + 4 * (level q1 + level q2) <= Z.of_nat fuel ->
  exists p4est' tree' added,
    complete_region_build fuel p4est q1 include_q1 q2 include_q2 tree
    = Some (p4est', tree') /\
    quadrants tree'
    = (if include_q1 then [q1] else []) ++ added
      ++ (if include_q2 then [q2] else []) /\
    Forall2 same_xyl added
      (region_fill 30 q1 q2
         (p4est_nearest_common_ancestor q1 q2 quadrant_zero)).
Proof.
  intros V1 V2 C Em Len Fu.
  destruct (valid_key_facts q1 V1) as (L1 & _).
  destruct (valid_key_facts q2 V2) as (L2 & _).
  set (st0 := mkregion p4est (quadrants tree) (quadrants_per_level tree) 0 0).
  assert (region_inv st0) as I0.
  { unfold region_inv, st0. cbn [rg_num_quadrants rg_quadrants rg_per_level].
    rewrite Em. split; [reflexivity | exact Len]. }
  set (st1 := if include_q1 then region_push st0 q1 else st0).
  assert (region_inv st1 /\
          rg_quadrants st1 = if include_q1 then [q1] else []) as [I1 Q1].
  { unfold st1. destruct include_q1.
    - destruct (region_push_rel st0 q1 I0 L1) as (Q & I & _).
      split; [exact I|]. rewrite Q. unfold st0. cbn [rg_quadrants].
      rewrite Em. reflexivity.
    - split; [exact I0|]. unfold st0. cbn [rg_quadrants]. exact Em. }
  destruct (complete_region_run fuel q1 q2 st1 V1 V2 C I1 Fu)
    as (st2 & E & R & _).
  pose proof (region_rel_inv _ _ _ _ I1 R) as I2.
  destruct R as ((added & Q2 & X) & _).
  set (st3 := if include_q2 then region_push st2 q2 else st2).
  assert (rg_quadrants st3
          = (if include_q1 then [q1] else []) ++ added
            ++ (if include_q2 then [q2] else [])) as Q3.
  { unfold st3. destruct include_q2.
    - destruct (region_push_rel st2 q2 I2 L2) as (Q & _).
      rewrite Q, Q2, Q1, <- app_assoc. reflexivity.
    - rewrite Q2, Q1, app_nil_r. reflexivity. }
  unfold complete_region_build. fold st0. fold st1.
  destruct (Z.ltb_spec (p4est_quadrant_compare q1 q2) 0); [|lia].
  rewrite E. fold st3.
  do 2 eexists. exists added. split; [reflexivity|].
  cbn [quadrants]. split; [exact Q3 | exact X].
Qed.

(** C3, amended: for two valid quadrants [a < b] and an empty target tree,
    where [a] is not both included and an ancestor of [b] (unless [b] sits
    in the first corner of [a] and is not included, when the tree is [a]
    alone), [p4est_complete_region] returns (with fuel for
    [4 + 4 * (level a + level b)] elements of the work list) a tree that
    passes [p4est_tree_is_complete] and [p4est_tree_is_linear]; its first
    element is [a] when [include_q1] is set and its last element is [b]
    when [include_q2] is set. *)
Theorem complete_region_correct (fuel : nat) (p4est : p4est_t)
  (q1 q2 : p4est_quadrant_t) (include_q1 include_q2 : bool)
  (tree : p4est_tree_t) :
  p4est_quadrant_is_valid q1 = true -> p4est_quadrant_is_valid q2 = true ->
  p4est_quadrant_compare q1 q2 < 0 ->
  (include_q1 = true -> p4est_quadrant_is_ancestor q1 q2 = true ->
   include_q2 = false /\ x q1 = x q2 /\ y q1 = y q2) ->
  quadrants tree = [] ->
  P4EST_MAXLEVEL < Z.of_nat (length (quadrants_per_level tree)) ->
  4 + 4 * (level q1 + level q2) <= Z.of_nat fuel ->
  exists p4est' tree',
    p4est_complete_region fuel p4est q1 include_q1 q2 include_q2 tree
    = Some (p4est', tree') /\
    p4est_tree_is_complete tree' = true /\
    p4est_tree_is_linear tree' = true /\
    (include_q1 = true -> exists rest, quadrants tree' = q1 :: rest) /\
    (include_q2 = true -> exists front, quadrants tree' = front ++ [q2]).
Proof.
  intros V1 V2 C NA Em Len Fu.
  destruct (include_q1 && p4est_quadrant_is_ancestor q1 q2) eqn:Case.
  - apply andb_true_iff in Case. destruct Case as [I1 A].
    destruct (NA I1 A) as (I2 & Ex & Ey).
    destruct (complete_region_build_list fuel p4est q1 q2 include_q1
                include_q2 tree V1 V2 C Em Len Fu)
      as (p4est' & tree' & added & E & Q & X).
    pose proof (region_top_inside q1 q2 V1 V2 A) as F.
    rewrite (morton_key_same_xy q1 q2 Ex Ey) in F. apply fills_same in F.
    rewrite F in X. inversion X as [Ea|]. subst added.
    rewrite I1, I2 in Q. cbn [app] in Q.
    assert (p4est_tree_is_complete tree' = true) as Cm
      by (unfold p4est_tree_is_complete; rewrite Q; reflexivity).
    exists p4est', tree'. unfold p4est_complete_region. rewrite E, Cm.
    split; [reflexivity|]. split; [reflexivity|].
    split; [unfold p4est_tree_is_linear; rewrite Q; reflexivity|].
    split; [intros _; exists []; exact Q|].
    intros H. rewrite I2 in H. discriminate.
  - assert (include_q1 = true -> p4est_quadrant_is_ancestor q1 q2 = false)
      as NA'.
    { intros I1. rewrite I1 in Case. exact Case. }
    destruct (complete_region_build_tiles fuel p4est q1 q2 include_q1
                include_q2 tree V1 V2 C NA' Em Len Fu)
      as (p4est' & tree' & E & _ & Cm & Ln & Fi & La).
    exists p4est', tree'. unfold p4est_complete_region. rewrite E, Cm.
    repeat split; assumption.
Qed.

Lemma complete_region_correct_witness :
  let p4est := mkp4est 0 None (mkpool 0 0) in
  let tree := mktree [] (repeat 0 30) 0 in
  let q1 := mkquad 0 0 0 (user_data NULL) in
  let q2 := mkquad (2 ^ 28) 0 2 (user_data NULL) in
  exists p4est' tree',
    p4est_complete_region 12 p4est q1 false q2 true tree
    = Some (p4est', tree') /\
    p4est_tree_is_linear tree' = true.
Proof.
  intros p4est tree q1 q2.
  destruct (complete_region_correct 12 p4est q1 q2 false true tree
              eq_refl eq_refl ltac:(vm_compute; reflexivity)
              ltac:(discriminate) eq_refl
              ltac:(unfold P4EST_MAXLEVEL; cbn; lia) ltac:(cbn; lia))
    as (p4est' & tree' & E & _ & L & _).
  exists p4est', tree'. split; assumption.
Defined.


(* ================================================================= *)
(** ** A completed region as a forest of one tree *)

Lemma flat_map_length_le {A B : Type} (f : A -> list B) (g : A -> nat)
  (l : list A) :
  (forall c, In c l -> (length (f c) <= g c)%nat) ->
  (length (flat_map f l) <= list_sum (map g l))%nat.
Proof.
  induction l as [|c l IH]; intros H; [cbn; lia|].
  cbn [flat_map map list_sum fold_right]. rewrite length_app.
  pose proof (H c (or_introl eq_refl)).
  pose proof (IH (fun d I => H d (or_intror I))).
  change (fold_right Nat.add 0%nat (map g l)) with (list_sum (map g l)). lia.
Qed.

Lemma region_fill_length (a b : p4est_quadrant_t) (d : nat) :
  forall w, (length (region_fill d a b w) <= region_cost d a b w)%nat.
Proof.
  induction d as [|d IH]; intros w; rewrite region_fill_eq, region_cost_eq;
    destruct (_ && _ && _); cbn [length]; try lia;
    destruct (_ || _); cbn [length]; try lia.
  pose proof (flat_map_length_le (region_fill d a b) (region_cost d a b)
                (children_of w) (fun c _ => IH c)). lia.
Qed.

Lemma per_level_get_repeat (n : nat) (k : Z) :
  per_level_get (repeat 0 n) k = 0.
Proof.
  unfold per_level_get. revert n.
  induction (Z.to_nat k) as [|j IH]; intros [|n]; cbn; auto.
Qed.

(** The counters of the levels [a .. a + n - 1] add up to the number of
    quadrants of these levels. *)
Lemma level_counts_sum (l : list p4est_quadrant_t) (pl : list Z) (n : nat) :
  forall a,
  (forall i, (a <= i < a + n)%nat ->
     per_level_get pl (Z.of_nat i) = level_count (Z.of_nat i) l) ->
  fold_right Z.add 0 (map (fun i => per_level_get pl (Z.of_nat i)) (seq a n))
  = Z.of_nat (length (filter (fun q => (Z.of_nat a <=? level q)
                                       && (level q <? Z.of_nat a + Z.of_nat n))
                             l)).
Proof.
  induction n as [|n IH]; intros a H.
  - cbn [seq map fold_right]. clear H.
    replace (filter _ l) with (@nil p4est_quadrant_t); [reflexivity|].
    symmetry. induction l as [|q t IHt]; [reflexivity|]. cbn [filter].
    destruct (Z.leb_spec (Z.of_nat a) (level q)),
             (Z.ltb_spec (level q) (Z.of_nat a + Z.of_nat 0));
      try lia; cbn [andb]; exact IHt.
  - cbn [seq map fold_right]. rewrite (IH (S a)) by (intros i Hi; apply H; lia).
    rewrite (H a) by lia.
    replace (Z.of_nat a + Z.of_nat (S n)) with (Z.of_nat a + (Z.of_nat n + 1))
      by lia.
    rewrite filter_range_step by lia.
    replace (Z.of_nat (S a)) with (Z.of_nat a + 1) by lia. reflexivity.
Qed.

Lemma per_level_sum_count (l : list p4est_quadrant_t) (pl : list Z) :
  (forall k, 0 <= k -> per_level_get pl k = level_count k l) ->
  array_is_valid l = true ->
  per_level_sum pl = elem_count l.
Proof.
  intros H V. unfold per_level_sum.
  rewrite (level_counts_sum l pl _ 0%nat) by (intros i _; apply H; lia).
  rewrite filter_all; [reflexivity|].
  intros e I. unfold array_is_valid in V. rewrite forallb_forall in V.
  destruct (valid_key_facts e (V e I)) as (L & _).
  unfold P4EST_MAXLEVEL in *.
  destruct (Z.leb_spec (Z.of_nat 0) (level e)),
           (Z.ltb_spec (level e) (Z.of_nat 0 + Z.of_nat (Z.to_nat (29 + 1))));
    try reflexivity; lia.
Qed.

Lemma highest_populated_count (l : list p4est_quadrant_t) (pl : list Z)
  (m : Z) :
  (forall k, 0 <= k -> per_level_get pl k = level_count k l) ->
  array_is_valid l = true ->
  (forall e, In e l -> level e <= m) ->
  (m = 0 \/ exists e, In e l /\ level e = m) ->
  highest_populated pl m.
Proof.
  intros H V B A. unfold highest_populated.
  assert (forall i, 0 <= i -> per_level_get pl i > 0 ->
            exists e, In e l /\ level e = i) as P.
  { intros i Hi G. rewrite (H i Hi) in G. apply level_count_pos_in. lia. }
  split.
  - intros i Hi G. destruct (P i ltac:(lia) G) as (e & I & <-). apply B, I.
  - destruct A as [->|(e & I & <-)].
    + destruct (Z_gt_le_dec (per_level_get pl 0) 0) as [G|G].
      * right. split; [unfold P4EST_MAXLEVEL; lia | exact G].
      * left. split; [reflexivity|]. intros i Hi.
        destruct (Z_gt_le_dec (per_level_get pl i) 0) as [Gi|Gi]; [|exact Gi].
        destruct (P i ltac:(lia) Gi) as (e & I & <-).
        specialize (B e I). replace (level e) with 0 by lia. exact G.
    + unfold array_is_valid in V. rewrite forallb_forall in V.
      destruct (valid_key_facts e (V e I)) as (L & _).
      right. split; [exact L|]. rewrite (H (level e)) by lia.
      assert (0 < level_count (level e) l)
        by (apply level_count_pos_in; exists e; auto).
      lia.
Qed.

Lemma counters_nonneg_count (l : list p4est_quadrant_t) (pl : list Z) :
  (forall k, 0 <= k -> per_level_get pl k = level_count k l) ->
  per_level_nonneg pl = true.
Proof.
  intros H. unfold per_level_nonneg. apply forallb_forall. intros i _.
  apply Z.leb_le. rewrite H by lia. apply level_count_nonneg.
Qed.

(** A tree that spans the root is accepted as the only tree of the forest
    of one process. *)
Lemma is_valid_single (tree : p4est_tree_t) (q1 q2 : p4est_quadrant_t)
  (mid : list p4est_quadrant_t) :
  quadrants tree = q1 :: mid ++ [q2] ->
  x q1 = 0 -> y q1 = 0 ->
  p4est_quadrant_is_valid q2 = true ->
  x q2 + P4EST_QUADRANT_LEN (level q2) = P4EST_ROOT_LEN ->
  y q2 + P4EST_QUADRANT_LEN (level q2) = P4EST_ROOT_LEN ->
  p4est_tree_is_complete tree = true ->
  per_level_nonneg (quadrants_per_level tree) = true ->
  per_level_sum (quadrants_per_level tree) = elem_count (quadrants tree) ->
  elem_count (quadrants tree) < 2 ^ 31 ->
  highest_populated (quadrants_per_level tree) (maxlevel tree) ->
  p4est_is_valid
    (mkforest 1 0 0 0 (elem_count (quadrants tree))
              [mkposition 0 0 0; mkposition 1 0 0] 1 [tree]) = true.
Proof.
  intros Q X1 Y1 V2 X2 Y2 C N Sm B H.
  destruct (valid_inv q2 V2) as (L2 & Rx & Ry & _).
  assert (0 < elem_count (quadrants tree)) as Pos
    by (rewrite Q; unfold elem_count; cbn [length]; lia).
  destruct (is_valid_level_loop_tree (quadrants_per_level tree) N
              ltac:(lia)) as (S1 & S2).
  pose proof (highest_populated_unique _ _ _ S2 H) as M.
  unfold p4est_is_valid.
  cbn [mpirank first_local_tree last_local_tree global_first_position trees
       local_num_quadrants].
  unfold position_index, tree_index.
  cbn [Z.to_nat Z.add Pos.to_nat Pos.iter_op Nat.add nth pos_which_tree pos_x
       pos_y Z.ltb Z.compare Z.eqb Pos.eqb negb andb orb].
  destruct (Z.gtb_spec (elem_count (quadrants tree)) 0); [|lia].
  unfold set_xyl. cbn [x y].
  assert (sc_array_index (quadrants tree) 0 = q1) as F0
    by (rewrite Q; reflexivity).
  rewrite F0, X1, Y1. cbn [Z.eqb negb orb].
  assert (sc_array_index (quadrants tree) (elem_count (quadrants tree) - 1)
          = q2) as FL.
  { rewrite Q. unfold sc_array_index, elem_count. cbn [length].
    rewrite length_app. cbn [length].
    replace (Z.to_nat (Z.of_nat (S (length mid + 1)) - 1))
      with (S (length mid)) by lia.
    cbn [nth]. rewrite app_nth2 by lia.
    replace (length mid - length mid)%nat with 0%nat by lia. reflexivity. }
  rewrite FL.
  assert (x (p4est_quadrant_last_descendent q2 quadrant_zero P4EST_MAXLEVEL) + 1
          = P4EST_ROOT_LEN /\
          y (p4est_quadrant_last_descendent q2 quadrant_zero P4EST_MAXLEVEL) + 1
          = P4EST_ROOT_LEN) as [LX LY].
  { unfold p4est_quadrant_last_descendent, set_xyl. cbn [x y].
    rewrite ROOT_LEN_val in *.
    rewrite QUADRANT_LEN_pow in * by lia.
    rewrite (QUADRANT_LEN_pow P4EST_MAXLEVEL) by lia.
    replace (P4EST_MAXLEVEL - P4EST_MAXLEVEL) with 0 by lia.
    change (2 ^ 0) with 1.
    assert (0 < 2 ^ (P4EST_MAXLEVEL - level q2))
      by (apply Z.pow_pos_nonneg; lia).
    rewrite (int32_small (2 ^ (P4EST_MAXLEVEL - level q2) - 1)) by lia.
    rewrite !int32_small by lia. lia. }
  rewrite LX, LY, !Z.eqb_refl. cbn [negb orb].
  rewrite is_valid_tree_loop_cons. rewrite C. cbn [negb].
  cbn [first_local_tree last_local_tree].
  change (uint64 0) with 0. cbn [Z.ltb Z.gtb Z.compare orb andb].
  rewrite M, Z.eqb_refl. cbn [negb]. rewrite S1, Sm.
  rewrite uint64_small
    by (assert (2 ^ 31 < 2 ^ 64) by reflexivity; lia).
  rewrite Z.eqb_refl. cbn [negb is_valid_tree_loop].
  rewrite int32_small by lia. apply Z.eqb_eq. lia.
Qed.

Lemma array_valid_extended (l : list p4est_quadrant_t) :
  array_is_valid l = true -> array_is_extended l = true.
Proof.
  unfold array_is_valid, array_is_extended. rewrite !forallb_forall.
  intros H e I. specialize (H e I). rewrite is_valid_split in H.
  apply andb_true_iff in H. tauto.
Qed.

(** X29: [p4est_complete_region] builds what [p4est_is_valid] asks for.
    Let [q1] be a valid quadrant at the origin of the root and [q2] a later
    valid quadrant that ends in the last corner of the root, [q1] not an
    ancestor of [q2].  Completing the region between them, both included,
    in an empty tree whose level counters are zero gives a tree that, as
    the only tree of the forest of one process with [local_num_quadrants]
    its number of quadrants, satisfies the assertions of [p4est_is_valid]
    and is accepted by it. *)
Theorem complete_region_is_valid (fuel : nat) (p4est : p4est_t)
  (q1 q2 : p4est_quadrant_t) (tree : p4est_tree_t) :
  p4est_quadrant_is_valid q1 = true -> p4est_quadrant_is_valid q2 = true ->
  p4est_quadrant_compare q1 q2 < 0 ->
  p4est_quadrant_is_ancestor q1 q2 = false ->
  x q1 = 0 -> y q1 = 0 ->
  x q2 + P4EST_QUADRANT_LEN (level q2) = P4EST_ROOT_LEN ->
  y q2 + P4EST_QUADRANT_LEN (level q2) = P4EST_ROOT_LEN ->
  quadrants tree = [] ->
  quadrants_per_level tree = repeat 0 (Z.to_nat (P4EST_MAXLEVEL + 1)) ->
  4 + 4 * (level q1 + level q2) <= Z.of_nat fuel ->
  exists p4est' tree',
    p4est_complete_region fuel p4est q1 true q2 true tree
    = Some (p4est', tree') /\
    is_valid_asserts
      (mkforest 1 0 0 0 (elem_count (quadrants tree'))
                [mkposition 0 0 0; mkposition 1 0 0] 1 [tree']) = true /\
    p4est_is_valid
      (mkforest 1 0 0 0 (elem_count (quadrants tree'))
                [mkposition 0 0 0; mkposition 1 0 0] 1 [tree']) = true.
Proof.
  intros V1 V2 C NA X1 Y1 X2 Y2 Em Pl Fu.
  assert (P4EST_MAXLEVEL < Z.of_nat (length (quadrants_per_level tree)))
    as Len by (rewrite Pl, repeat_length; unfold P4EST_MAXLEVEL; lia).
  destruct (complete_region_build_tiles fuel p4est q1 q2 true true tree
              V1 V2 C (fun _ => NA) Em Len Fu)
    as (p4est' & tree' & E & F & Cm & _).
  destruct (complete_region_build_books fuel p4est q1 q2 true true tree
              V1 V2 C Em Len Fu)
    as (p4est2 & tree2 & E2 & _ & _ & G & M1 & M2).
  rewrite E in E2. injection E2 as <- <-.
  destruct (complete_region_build_list fuel p4est q1 q2 true true tree
              V1 V2 C Em Len Fu)
    as (p4est3 & tree3 & added & E3 & Q & X).
  rewrite E in E3. injection E3 as <- <-.
  cbn [app] in Q.
  destruct (fills_tree _ _ tree' F) as (_ & _ & Va).
  assert (forall k, 0 <= k ->
            per_level_get (quadrants_per_level tree') k
            = level_count k (quadrants tree')) as G'.
  { intros k Hk. rewrite (G k Hk), Pl, per_level_get_repeat. lia. }
  pose proof (counters_nonneg_count _ _ G') as Nn.
  pose proof (per_level_sum_count _ _ G' Va) as Sm.
  pose proof (highest_populated_count _ _ _ G' Va M1 M2) as Hp.
  assert (elem_count (quadrants tree') < 2 ^ 31) as Bd.
  { destruct (nca_valid_facts q1 q2 quadrant_zero V1 V2) as (Vn & _).
    destruct (valid_key_facts q1 V1) as (L1 & _).
    destruct (valid_key_facts q2 V2) as (L2 & _).
    destruct (valid_key_facts _ Vn) as (Ln & _).
    pose proof (region_cost_bound q1 q2 V1 V2 30 _ Vn) as Cb.
    pose proof (region_fill_length q1 q2 30
                  (p4est_nearest_common_ancestor q1 q2 quadrant_zero)) as Fl.
    pose proof (Forall2_length X) as Fa.
    rewrite Q. unfold elem_count. cbn [length]. rewrite length_app.
    cbn [length]. unfold P4EST_MAXLEVEL in *.
    set (N := p4est_nearest_common_ancestor q1 q2 quadrant_zero) in *.
    assert (Z.to_nat (if p4est_quadrant_is_ancestor N q1
                      then level q1 - level N else 0) <= 29)%nat as B1
      by (destruct (p4est_quadrant_is_ancestor N q1); lia).
    assert (Z.to_nat (if p4est_quadrant_is_ancestor N q2
                      then level q2 - level N else 0) <= 29)%nat as B2
      by (destruct (p4est_quadrant_is_ancestor N q2); lia).
    assert (2 ^ 31 = 2147483648) as P31 by reflexivity.
    lia. }
  exists p4est', tree'. unfold p4est_complete_region. rewrite E, Cm.
  split; [reflexivity|]. split.
  - unfold is_valid_asserts.
    cbn [global_first_position mpisize num_trees trees forallb length].
    unfold position_index.
    cbn [Z.to_nat Pos.to_nat Pos.iter_op Nat.add nth pos_which_tree pos_x
         pos_y Z.eqb Pos.eqb andb].
    rewrite (array_valid_extended _ Va).
    change (forallb _ (seq 0 (Z.to_nat (P4EST_MAXLEVEL + 1))))
      with (per_level_nonneg (quadrants_per_level tree')).
    rewrite Nn. reflexivity.
  - apply (is_valid_single tree' q1 q2 added Q X1 Y1 V2 X2 Y2 Cm Nn Sm Bd Hp).
Qed.

Lemma complete_region_is_valid_witness :
  let p4est := mkp4est 0 None (mkpool 0 0) in
  let tree := mktree [] (repeat 0 30) 0 in
  let q1 := mkquad 0 0 2 (user_data NULL) in
  let q2 := mkquad (2 ^ 28) (2 ^ 28) 1 (user_data NULL) in
  exists p4est' tree',
    p4est_complete_region 16 p4est q1 true q2 true tree
    = Some (p4est', tree') /\
    p4est_is_valid
      (mkforest 1 0 0 0 (elem_count (quadrants tree'))
                [mkposition 0 0 0; mkposition 1 0 0] 1 [tree']) = true.
Proof.
  intros p4est tree q1 q2.
  destruct (complete_region_is_valid 16 p4est q1 q2 tree
              eq_refl eq_refl ltac:(vm_compute; reflexivity) eq_refl
              eq_refl eq_refl eq_refl eq_refl eq_refl eq_refl
              ltac:(cbn; lia))
    as (p4est' & tree' & E & _ & V).
  exists p4est', tree'. split; assumption.
Defined.

